(** * The embedded Lisp runtime of blind-jump: value pool, collector,
      evaluator and bytecode calls

    A shallow embedding of [source/script/lisp.cpp] and of the call
    instructions of [source/script/vm.cpp].  The process-wide state of the
    interpreter (the static value pool, the free-list head, the list of
    protected roots and the bound [Context]) is one record that every
    operation takes and returns.  A [Value*] is the index of a cell of
    [value_pool_data], an array that the model keeps as a finite map from
    the indices below [VALUE_POOL_SIZE] to cells; pointer compression
    ([compr]/[dcompr]) is the identity on indices. *)

From stdpp Require Import base list strings nmap.
From Stdlib Require Import Ascii ZArith Lia.

Local Open Scope Z_scope.
Local Open Scope nat_scope.
Local Open Scope list_scope.

(** ** Build constants *)

Definition VALUE_POOL_SIZE : nat := Z.to_nat 9000.
Definition string_intern_table_size : nat := Z.to_nat 1999.

(** Modelled from the spec: [SCRATCH_BUFFER_SIZE] is defined by the host
    headers, which are not part of the sources at hand; the spec gives the
    reference value 2048. *)
Definition SCRATCH_BUFFER_SIZE : nat := Z.to_nat 2048.

(** Capacity of [Context::OperandStack = Buffer<Value*, 497>]. *)
Definition OPERAND_STACK_CAPACITY : nat := Z.to_nat 497.

(** The constants stay folded in proofs; evaluation unfolds them. *)
#[global] Opaque VALUE_POOL_SIZE string_intern_table_size
  SCRATCH_BUFFER_SIZE OPERAND_STACK_CAPACITY.

(** ** Cells *)

(** [Value::Type], in the order of the finalizer table of
    [invoke_finalizer]. *)
Module VType.
Inductive t :=
| heap_node | nil | integer | cons | function | error | symbol
| user_data | data_buffer | string | character | __reserved.

#[global] Instance eq_dec : EqDecision t.
Proof. solve_decision. Defined.
End VType.

(** [Error::Code] (the enumeration of section 6.3 of the specification). *)
Module ErrorCode.
Inductive t :=
| out_of_memory | mismatched_parentheses | undefined_variable_access
| invalid_argc | invalid_argument_type | value_not_callable
| invalid_syntax.

#[global] Instance eq_dec : EqDecision t.
Proof. solve_decision. Defined.
End ErrorCode.

(** [Function::ModeBits] and [Symbol::ModeBits]. *)
Module ModeBits.
Inductive t :=
| none | cpp_function | lisp_function | lisp_bytecode_function.

#[global] Instance eq_dec : EqDecision t.
Proof. solve_decision. Defined.
End ModeBits.

Inductive SymbolMode := requires_intern | stable_pointer.

(** A [Value*]: the index of a cell of the pool, in binary. *)
Abbreviation ptr := N (only parsing).

(** The C string type: the bytes before the terminating NUL. *)
Definition cstring := list ascii.

Definition NUL : ascii := Ascii.zero.

(** The payload of a cell, one constructor per member of [union ValueMemory].
    A native function is named by an index into a table of host callables;
    the interpreted and the bytecode variant both keep two compressed
    references.  A symbol keeps the address of its name, counted from the
    start of the intern arena.  A data buffer keeps the bytes of the scratch
    buffer it owns. *)
Inductive Payload :=
| P_heap_node (next_ : option ptr)
| P_nil
| P_integer (value_ : Z)
| P_cons (car_ cdr_ : ptr)
| P_cpp_impl (cpp_impl_ : nat)
| P_lisp_impl (code_ lexical_bindings_ : ptr)
| P_bytecode_impl (bytecode_ lexical_bindings_ : ptr)
| P_error (code_ : ErrorCode.t) (context_ : ptr)
| P_symbol (name_ : nat)
| P_user_data (obj_ : nat)
| P_data_buffer (data_ : list ascii)
| P_string (data_buffer_ : ptr) (offset_ : nat).

Record ValueHeader := mkHeader {
  type_ : VType.t;
  alive_ : bool;
  mark_bit_ : bool;
  mode_bits_ : ModeBits.t;
}.

Record Value := mkValue {
  hdr_ : ValueHeader;
  payload : Payload;
}.

#[global] Instance Payload_eq_dec : EqDecision Payload.
Proof. solve_decision. Defined.

#[global] Instance ValueHeader_eq_dec : EqDecision ValueHeader.
Proof. solve_decision. Defined.

#[global] Instance Value_eq_dec : EqDecision Value.
Proof. solve_decision. Defined.

(** ** Protected roots *)

(** A [ProtectedBase] object with the reference a [Protected] adds to it.
    The objects live in automatic storage; the model keeps them in a table
    and names them by their index in it. *)
Record ProtectedBase := mkProtected {
  prev_ : option nat;
  next_p : option nat;
  val_ : ptr;
}.

#[global] Instance ProtectedBase_eq_dec : EqDecision ProtectedBase.
Proof. solve_decision. Defined.

(** ** The state of the runtime *)

(** The static variables of lisp.cpp ([value_pool_data], [value_pool],
    [__protected_values]) followed by the members of [struct Context].
    [scratch_buffers_remaining] is the host's count of free scratch buffers,
    [host_scratch_data] the contents of a block the host hands out.
    [gc_passes] is a ghost counter of the calls of [run_gc]. *)
Record Context := mkContext {
  value_pool_data : Nmap Value;
  value_pool : option ptr;
  __protected_values : option nat;
  protected_objects : list ProtectedBase;
  operand_stack_ : list ptr;
  interns_ : list ascii;
  arguments_break_loc_ : Z;
  current_fn_argc_ : Z;
  this_ : ptr;
  nil_ : ptr;
  oom_ : ptr;
  string_buffer_ : ptr;
  globals_tree_ : ptr;
  lexical_bindings_ : ptr;
  macros_ : ptr;
  constants_ : list (cstring * Z);
  string_intern_pos_ : nat;
  interp_entry_count_ : Z;
  scratch_buffers_remaining : nat;
  host_scratch_data : list ascii;
  gc_passes : nat;
}.

#[global] Instance Context_eq_dec : EqDecision Context.
Proof. solve_decision. Defined.

Definition with_value_pool_data (x : Nmap Value) (c : Context)
  : Context :=
  mkContext x (value_pool c) (__protected_values c) (protected_objects c)
    (operand_stack_ c) (interns_ c) (arguments_break_loc_ c)
    (current_fn_argc_ c) (this_ c) (nil_ c) (oom_ c) (string_buffer_ c)
    (globals_tree_ c) (lexical_bindings_ c) (macros_ c) (constants_ c)
    (string_intern_pos_ c) (interp_entry_count_ c)
    (scratch_buffers_remaining c) (host_scratch_data c) (gc_passes c).

Definition with_value_pool (x : option ptr) (c : Context) : Context :=
  mkContext (value_pool_data c) x (__protected_values c) (protected_objects c)
    (operand_stack_ c) (interns_ c) (arguments_break_loc_ c)
    (current_fn_argc_ c) (this_ c) (nil_ c) (oom_ c) (string_buffer_ c)
    (globals_tree_ c) (lexical_bindings_ c) (macros_ c) (constants_ c)
    (string_intern_pos_ c) (interp_entry_count_ c)
    (scratch_buffers_remaining c) (host_scratch_data c) (gc_passes c).

Definition with_protected_objects (x : list ProtectedBase) (c : Context)
  : Context :=
  mkContext (value_pool_data c) (value_pool c) (__protected_values c) x
    (operand_stack_ c) (interns_ c) (arguments_break_loc_ c)
    (current_fn_argc_ c) (this_ c) (nil_ c) (oom_ c) (string_buffer_ c)
    (globals_tree_ c) (lexical_bindings_ c) (macros_ c) (constants_ c)
    (string_intern_pos_ c) (interp_entry_count_ c)
    (scratch_buffers_remaining c) (host_scratch_data c) (gc_passes c).

Definition with_operand_stack_ (x : list ptr) (c : Context) : Context :=
  mkContext (value_pool_data c) (value_pool c) (__protected_values c)
    (protected_objects c) x (interns_ c) (arguments_break_loc_ c)
    (current_fn_argc_ c) (this_ c) (nil_ c) (oom_ c) (string_buffer_ c)
    (globals_tree_ c) (lexical_bindings_ c) (macros_ c) (constants_ c)
    (string_intern_pos_ c) (interp_entry_count_ c)
    (scratch_buffers_remaining c) (host_scratch_data c) (gc_passes c).

Definition with_interns (x : list ascii) (pos : nat) (c : Context)
  : Context :=
  mkContext (value_pool_data c) (value_pool c) (__protected_values c)
    (protected_objects c) (operand_stack_ c) x (arguments_break_loc_ c)
    (current_fn_argc_ c) (this_ c) (nil_ c) (oom_ c) (string_buffer_ c)
    (globals_tree_ c) (lexical_bindings_ c) (macros_ c) (constants_ c)
    pos (interp_entry_count_ c)
    (scratch_buffers_remaining c) (host_scratch_data c) (gc_passes c).

Definition with_arguments_break_loc_ (x : Z) (c : Context) : Context :=
  mkContext (value_pool_data c) (value_pool c) (__protected_values c)
    (protected_objects c) (operand_stack_ c) (interns_ c) x
    (current_fn_argc_ c) (this_ c) (nil_ c) (oom_ c) (string_buffer_ c)
    (globals_tree_ c) (lexical_bindings_ c) (macros_ c) (constants_ c)
    (string_intern_pos_ c) (interp_entry_count_ c)
    (scratch_buffers_remaining c) (host_scratch_data c) (gc_passes c).

Definition with_current_fn_argc_ (x : Z) (c : Context) : Context :=
  mkContext (value_pool_data c) (value_pool c) (__protected_values c)
    (protected_objects c) (operand_stack_ c) (interns_ c)
    (arguments_break_loc_ c) x (this_ c) (nil_ c) (oom_ c) (string_buffer_ c)
    (globals_tree_ c) (lexical_bindings_ c) (macros_ c) (constants_ c)
    (string_intern_pos_ c) (interp_entry_count_ c)
    (scratch_buffers_remaining c) (host_scratch_data c) (gc_passes c).

Definition with_this_ (x : ptr) (c : Context) : Context :=
  mkContext (value_pool_data c) (value_pool c) (__protected_values c)
    (protected_objects c) (operand_stack_ c) (interns_ c)
    (arguments_break_loc_ c) (current_fn_argc_ c) x (nil_ c) (oom_ c)
    (string_buffer_ c) (globals_tree_ c) (lexical_bindings_ c) (macros_ c)
    (constants_ c) (string_intern_pos_ c) (interp_entry_count_ c)
    (scratch_buffers_remaining c) (host_scratch_data c) (gc_passes c).

Definition with_string_buffer_ (x : ptr) (c : Context) : Context :=
  mkContext (value_pool_data c) (value_pool c) (__protected_values c)
    (protected_objects c) (operand_stack_ c) (interns_ c)
    (arguments_break_loc_ c) (current_fn_argc_ c) (this_ c) (nil_ c) (oom_ c)
    x (globals_tree_ c) (lexical_bindings_ c) (macros_ c)
    (constants_ c) (string_intern_pos_ c) (interp_entry_count_ c)
    (scratch_buffers_remaining c) (host_scratch_data c) (gc_passes c).

Definition with_globals_tree_ (x : ptr) (c : Context) : Context :=
  mkContext (value_pool_data c) (value_pool c) (__protected_values c)
    (protected_objects c) (operand_stack_ c) (interns_ c)
    (arguments_break_loc_ c) (current_fn_argc_ c) (this_ c) (nil_ c) (oom_ c)
    (string_buffer_ c) x (lexical_bindings_ c) (macros_ c)
    (constants_ c) (string_intern_pos_ c) (interp_entry_count_ c)
    (scratch_buffers_remaining c) (host_scratch_data c) (gc_passes c).

Definition with_lexical_bindings_ (x : ptr) (c : Context) : Context :=
  mkContext (value_pool_data c) (value_pool c) (__protected_values c)
    (protected_objects c) (operand_stack_ c) (interns_ c)
    (arguments_break_loc_ c) (current_fn_argc_ c) (this_ c) (nil_ c) (oom_ c)
    (string_buffer_ c) (globals_tree_ c) x (macros_ c)
    (constants_ c) (string_intern_pos_ c) (interp_entry_count_ c)
    (scratch_buffers_remaining c) (host_scratch_data c) (gc_passes c).

Definition with_macros_ (x : ptr) (c : Context) : Context :=
  mkContext (value_pool_data c) (value_pool c) (__protected_values c)
    (protected_objects c) (operand_stack_ c) (interns_ c)
    (arguments_break_loc_ c) (current_fn_argc_ c) (this_ c) (nil_ c) (oom_ c)
    (string_buffer_ c) (globals_tree_ c) (lexical_bindings_ c) x
    (constants_ c) (string_intern_pos_ c) (interp_entry_count_ c)
    (scratch_buffers_remaining c) (host_scratch_data c) (gc_passes c).

Definition with_interp_entry_count_ (x : Z) (c : Context) : Context :=
  mkContext (value_pool_data c) (value_pool c) (__protected_values c)
    (protected_objects c) (operand_stack_ c) (interns_ c)
    (arguments_break_loc_ c) (current_fn_argc_ c) (this_ c) (nil_ c) (oom_ c)
    (string_buffer_ c) (globals_tree_ c) (lexical_bindings_ c) (macros_ c)
    (constants_ c) (string_intern_pos_ c) x
    (scratch_buffers_remaining c) (host_scratch_data c) (gc_passes c).

Definition with_scratch_buffers_remaining (x : nat) (c : Context)
  : Context :=
  mkContext (value_pool_data c) (value_pool c) (__protected_values c)
    (protected_objects c) (operand_stack_ c) (interns_ c)
    (arguments_break_loc_ c) (current_fn_argc_ c) (this_ c) (nil_ c) (oom_ c)
    (string_buffer_ c) (globals_tree_ c) (lexical_bindings_ c) (macros_ c)
    (constants_ c) (string_intern_pos_ c) (interp_entry_count_ c)
    x (host_scratch_data c) (gc_passes c).

Definition with_gc_passes (x : nat) (c : Context) : Context :=
  mkContext (value_pool_data c) (value_pool c) (__protected_values c)
    (protected_objects c) (operand_stack_ c) (interns_ c)
    (arguments_break_loc_ c) (current_fn_argc_ c) (this_ c) (nil_ c) (oom_ c)
    (string_buffer_ c) (globals_tree_ c) (lexical_bindings_ c) (macros_ c)
    (constants_ c) (string_intern_pos_ c) (interp_entry_count_ c)
    (scratch_buffers_remaining c) (host_scratch_data c) x.

(** ** Outcomes and the state monad *)

(** How a call can fail to return: the host's [fatal] handler was invoked, a
    cell was read through the accessor of another variant or a reference
    left the pool, the source spins in [while (true)] or recurses without
    end, or the model ran out of the fuel it was given. *)
Inductive Failure := fatal | undefined_behaviour | hang | out_of_fuel.

Inductive Result (A : Type) :=
| Ok (a : A) (c : Context)
| Err (e : Failure).
Arguments Ok {A} a c.
Arguments Err {A} e.

#[global] Instance Failure_eq_dec : EqDecision Failure.
Proof. solve_decision. Defined.

#[global] Instance Result_eq_dec {A} `{EqDecision A} : EqDecision (Result A).
Proof. solve_decision. Defined.

Definition M (A : Type) : Type := Context -> Result A.

Definition ret {A} (a : A) : M A := fun c => Ok a c.

Definition bind {A B} (m : M A) (k : A -> M B) : M B :=
  fun c => match m c with
           | Ok a c' => k a c'
           | Err e => Err e
           end.

Definition fail {A} (e : Failure) : M A := fun _ => Err e.

Definition get_ctx : M Context := fun c => Ok c c.

Definition modify (f : Context -> Context) : M unit := fun c => Ok tt (f c).

Notation "'do' x <- m ;; k" := (bind m (fun x => k))
  (at level 10, x name, m at level 99, k at level 200).
Notation "'do' ' pat <- m ;; k" :=
  (bind m (fun x => match x with pat => k end))
  (at level 10, pat pattern, m at level 99, k at level 200).
Notation "'run' m ;; k" := (bind m (fun _ => k))
  (at level 10, m at level 99, k at level 200).

(** Lifts a partial read: [None] is an access the source does not guard. *)
Definition expect {A} (o : option A) : M A :=
  match o with
  | Some a => ret a
  | None => fail undefined_behaviour
  end.


(** [for (x : l) body(x)], left to right. *)
Fixpoint for_each {A} (l : list A) (body : A -> M unit) : M unit :=
  match l with
  | [] => ret tt
  | x :: l' => run body x ;; for_each l' body
  end.

(** ** Reading and writing cells *)

Definition get_nil : M ptr := fun c => Ok (nil_ c) c.

(** [L_NIL] is the macro for [lisp::get_nil()]. *)
Definition L_NIL : M ptr := get_nil.

Definition deref (p : ptr) : M Value :=
  fun c => match value_pool_data c !! p with
           | Some v => Ok v c
           | None => Err undefined_behaviour
           end.

Definition store (p : ptr) (v : Value) : M unit :=
  modify (fun c => with_value_pool_data (<[p := v]> (value_pool_data c)) c).

Definition type (p : ptr) : M VType.t :=
  do v <- deref p ;; ret (type_ (hdr_ v)).

Definition set_type_ (t : VType.t) (h : ValueHeader) : ValueHeader :=
  mkHeader t (alive_ h) (mark_bit_ h) (mode_bits_ h).

Definition set_mark_bit_ (b : bool) (h : ValueHeader) : ValueHeader :=
  mkHeader (type_ h) (alive_ h) b (mode_bits_ h).

Definition set_mode_bits_ (m : ModeBits.t) (h : ValueHeader) : ValueHeader :=
  mkHeader (type_ h) (alive_ h) (mark_bit_ h) m.

Definition write_mark_bit (p : ptr) (b : bool) : M unit :=
  do v <- deref p ;; store p (mkValue (set_mark_bit_ b (hdr_ v)) (payload v)).

(** [val->hdr_.type_ = t] followed by the writes of the payload members. *)
Definition write_cell (p : ptr) (t : VType.t) (pl : Payload) : M unit :=
  do v <- deref p ;; store p (mkValue (set_type_ t (hdr_ v)) pl).

Definition write_mode_bits (p : ptr) (m : ModeBits.t) : M unit :=
  do v <- deref p ;; store p (mkValue (set_mode_bits_ m (hdr_ v)) (payload v)).

Definition cons_car (p : ptr) : M ptr :=
  do v <- deref p ;;
  match payload v with
  | P_cons a _ => ret a
  | _ => fail undefined_behaviour
  end.

Definition cons_cdr (p : ptr) : M ptr :=
  do v <- deref p ;;
  match payload v with
  | P_cons _ d => ret d
  | _ => fail undefined_behaviour
  end.

Definition set_car (p x : ptr) : M unit :=
  do v <- deref p ;;
  match payload v with
  | P_cons _ d => store p (mkValue (hdr_ v) (P_cons x d))
  | _ => fail undefined_behaviour
  end.

Definition set_cdr (p x : ptr) : M unit :=
  do v <- deref p ;;
  match payload v with
  | P_cons a _ => store p (mkValue (hdr_ v) (P_cons a x))
  | _ => fail undefined_behaviour
  end.

Definition integer_value (p : ptr) : M Z :=
  do v <- deref p ;;
  match payload v with
  | P_integer n => ret n
  | _ => fail undefined_behaviour
  end.

Definition symbol_name (p : ptr) : M nat :=
  do v <- deref p ;;
  match payload v with
  | P_symbol n => ret n
  | _ => fail undefined_behaviour
  end.

(** The name pointer of the symbol cell [p] of the state [c], if [p] is
    one. *)
Definition symbol_name_at (c : Context) (p : ptr) : option nat :=
  match value_pool_data c !! p with
  | Some (mkValue _ (P_symbol n)) => Some n
  | _ => None
  end.

Definition error_context (p : ptr) : M ptr :=
  do v <- deref p ;;
  match payload v with
  | P_error _ x => ret x
  | _ => fail undefined_behaviour
  end.

Definition set_error_context (p x : ptr) : M unit :=
  do v <- deref p ;;
  match payload v with
  | P_error e _ => store p (mkValue (hdr_ v) (P_error e x))
  | _ => fail undefined_behaviour
  end.

(** The two compressed references of [lisp_impl_] or [bytecode_impl_]; the
    source reads [lisp_impl_.lexical_bindings_] of bytecode functions too, so
    the two structs are taken to have one layout. *)
Definition function_refs (p : ptr) : M (ptr * ptr) :=
  do v <- deref p ;;
  match payload v with
  | P_lisp_impl a b | P_bytecode_impl a b => ret (a, b)
  | _ => fail undefined_behaviour
  end.

(** ** The value pool *)

(** The indices [start], [start + 1], ... of [len] cells of the pool. *)
Fixpoint pool_indices (start : N) (len : nat) : list N :=
  match len with
  | 0 => []
  | S len' => start :: pool_indices (N.succ start) len'
  end.

Definition value_pool_init_cell (i : N) : M unit :=
  do v <- deref i ;;
  do c <- get_ctx ;;
  run store i (mkValue
                 (mkHeader VType.heap_node false false (mode_bits_ (hdr_ v)))
                 (P_heap_node (value_pool c))) ;;
  modify (with_value_pool (Some i)).

Definition value_pool_init : M unit :=
  for_each (pool_indices 0 VALUE_POOL_SIZE) value_pool_init_cell.

Definition value_pool_alloc : M (option ptr) :=
  fun c =>
    match value_pool c with
    | Some r =>
        match value_pool_data c !! r with
        | Some (mkValue _ (P_heap_node next)) =>
            Ok (Some r) (with_value_pool next c)
        | _ => Err undefined_behaviour
        end
    | None => Ok None c
    end.

Definition value_pool_free (value : ptr) : M unit :=
  do v <- deref value ;;
  do c <- get_ctx ;;
  run store value (mkValue
                     (mkHeader VType.heap_node false false
                        (mode_bits_ (hdr_ v)))
                     (P_heap_node (value_pool c))) ;;
  modify (with_value_pool (Some value)).

(** ** The operand stack *)

(** Modelled from the spec: [Buffer<T, N>] (memory/buffer.hpp) is not among
    the sources.  The operand stack is a bounded sequence with [push], [pop]
    and indexing; the head of the list is the top of the stack.  A push onto
    a full buffer and a pop from an empty one leave it as it is. *)
Definition push_op (operand : ptr) : M unit :=
  modify (fun c =>
            if decide (length (operand_stack_ c) < OPERAND_STACK_CAPACITY)
            then with_operand_stack_ (operand :: operand_stack_ c) c
            else c).

Definition pop_op : M unit :=
  modify (fun c => with_operand_stack_ (tail (operand_stack_ c)) c).

Definition get_op0 : M ptr :=
  fun c => match operand_stack_ c with
           | x :: _ => Ok x c
           | [] => Err undefined_behaviour
           end.

Definition get_op1 : M ptr :=
  fun c => match operand_stack_ c with
           | _ :: x :: _ => Ok x c
           | _ => Err undefined_behaviour
           end.

Definition get_op (offset : nat) : M ptr :=
  fun c => match operand_stack_ c !! offset with
           | Some x => Ok x c
           | None => Ok (nil_ c) c
           end.

Definition stack_size : M nat := fun c => Ok (length (operand_stack_ c)) c.

(** Indexing of the operand stack, counted from its bottom. *)
Definition stack_at (i : Z) : M ptr :=
  fun c => if decide (0 <= i < Z.of_nat (length (operand_stack_ c)))%Z
           then match reverse (operand_stack_ c) !! Z.to_nat i with
                | Some x => Ok x c
                | None => Err undefined_behaviour
                end
           else Err undefined_behaviour.

(** ** Protected roots *)

(** [ProtectedBase::ProtectedBase()]: [plist] is a copy of
    [__protected_values], and the constructor assigns the copy. *)
Definition ProtectedBase_ctor (val : ptr) : M nat :=
  fun c =>
    let this := length (protected_objects c) in
    let plist := __protected_values c in
    match plist with
    | Some pl =>
        match protected_objects c !! pl with
        | Some o =>
            let objs :=
              <[pl := mkProtected (prev_ o) (Some this) (val_ o)]>
                (protected_objects c) in
            Ok this (with_protected_objects
                       (objs ++ [mkProtected (Some pl) None val]) c)
        | None => Err undefined_behaviour
        end
    | None =>
        Ok this (with_protected_objects
                   (protected_objects c ++ [mkProtected None None val]) c)
    end.

(** [Protected::set] and the conversion to [Value*]. *)
Definition Protected_set (this : nat) (val : ptr) : M unit :=
  fun c => match protected_objects c !! this with
           | Some o =>
               Ok tt (with_protected_objects
                        (<[this := mkProtected (prev_ o) (next_p o) val]>
                           (protected_objects c)) c)
           | None => Err undefined_behaviour
           end.

Definition Protected_get (this : nat) : M ptr :=
  fun c => match protected_objects c !! this with
           | Some o => Ok (val_ o) c
           | None => Err undefined_behaviour
           end.

(** [ProtectedBase::~ProtectedBase()]. *)
Definition ProtectedBase_dtor (this : nat) : M unit :=
  fun c =>
    match protected_objects c !! this with
    | None => Err undefined_behaviour
    | Some o =>
        let objs1 :=
          match next_p o with
          | Some n =>
              match protected_objects c !! n with
              | Some on =>
                  <[n := mkProtected (prev_ o) (next_p on) (val_ on)]>
                    (protected_objects c)
              | None => protected_objects c
              end
          | None => protected_objects c
          end in
        let objs2 :=
          match prev_ o with
          | Some p =>
              match objs1 !! p with
              | Some op =>
                  <[p := mkProtected (prev_ op) (next_p o) (val_ op)]> objs1
              | None => objs1
              end
          | None => objs1
          end in
        Ok tt (with_protected_objects objs2 c)
    end.

(** [Protected p(val); body(p)] with the destructor at the end of the
    scope. *)
Definition with_Protected {A} (val : ptr) (body : nat -> M A) : M A :=
  do p <- ProtectedBase_ctor val ;;
  do r <- body p ;;
  run ProtectedBase_dtor p ;;
  ret r.

Definition gets {A} (f : Context -> A) : M A := fun c => Ok (f c) c.

(** ** Traversal of the globals tree *)

(** A node of the tree is [((key . value) . (left-child . right-child))]. *)
Definition left_subtree (tree : ptr) : M ptr :=
  do d <- cons_cdr tree ;; cons_car d.

Definition right_subtree (tree : ptr) : M ptr :=
  do d <- cons_cdr tree ;; cons_cdr d.

Definition set_right_subtree (tree value : ptr) : M unit :=
  do d <- cons_cdr tree ;; set_cdr d value.

(** The inner loop of the Morris traversal: follow right links from [prev]
    until the link is nil or leads back to [current]. *)
Fixpoint globals_tree_traverse_rightmost (fuel : nat) (current prev : ptr)
  : M ptr :=
  match fuel with
  | 0 => fail out_of_fuel
  | S fuel' =>
      do r <- right_subtree prev ;;
      do nil <- get_nil ;;
      if decide (r <> nil /\ r <> current)
      then globals_tree_traverse_rightmost fuel' current r
      else ret prev
  end.

Fixpoint globals_tree_traverse_loop (fuel : nat)
    (callback : ptr -> ptr -> M unit) (current : ptr) : M unit :=
  match fuel with
  | 0 => fail out_of_fuel
  | S fuel' =>
      do nil <- get_nil ;;
      if decide (current = nil) then ret tt else
      do l <- left_subtree current ;;
      if decide (l = nil) then
        do kvp <- cons_car current ;;
        run callback kvp current ;;
        do r <- right_subtree current ;;
        globals_tree_traverse_loop fuel' callback r
      else
        do prev <- globals_tree_traverse_rightmost fuel' current l ;;
        do r <- right_subtree prev ;;
        if decide (r = nil) then
          run set_right_subtree prev current ;;
          do l' <- left_subtree current ;;
          globals_tree_traverse_loop fuel' callback l'
        else
          run set_right_subtree prev nil ;;
          do kvp <- cons_car current ;;
          run callback kvp current ;;
          do r' <- right_subtree current ;;
          globals_tree_traverse_loop fuel' callback r'
  end.

(** [globals_tree_traverse(root, callback)]: the callback receives the
    [(key . value)] pair of a node and the node. *)
Definition globals_tree_traverse (fuel : nat) (root : ptr)
    (callback : ptr -> ptr -> M unit) : M unit :=
  do nil <- get_nil ;;
  if decide (root = nil) then ret tt
  else globals_tree_traverse_loop fuel callback root.

(** ** Garbage collection *)

(** The cdr-chain loop of the cons case of [gc_mark_value], followed by the
    two calls after it.  A chain longer than the pool closes a cycle, on
    which the source loops without end. *)
Fixpoint gc_mark_cons_chain (gc_mark_value : ptr -> M unit) (n : nat)
    (current : ptr) : M unit :=
  match n with
  | 0 => fail hang
  | S n' =>
      do d <- cons_cdr current ;;
      do t <- type d ;;
      if decide (t = VType.cons) then
        do a <- cons_car current ;;
        run gc_mark_value a ;;
        do d' <- cons_cdr current ;;
        run write_mark_bit d' true ;;
        gc_mark_cons_chain gc_mark_value n' d'
      else
        do a <- cons_car current ;;
        run gc_mark_value a ;;
        do d' <- cons_cdr current ;;
        gc_mark_value d'
  end.

(** [gc_mark_value].  The mark bit of [value] is written after the recursive
    calls; [depth] bounds the nesting of calls, and a nesting deeper than the
    pool revisits an unmarked cell, on which the source recurses without
    end. *)
Fixpoint gc_mark_value (depth : nat) (value : ptr) : M unit :=
  match depth with
  | 0 => fail hang
  | S depth' =>
      do v <- deref value ;;
      if mark_bit_ (hdr_ v) then ret tt else
      run match type_ (hdr_ v) with
          | VType.function =>
              if decide (mode_bits_ (hdr_ v) = ModeBits.lisp_function)
              then
                do '(code, bindings) <- function_refs value ;;
                run gc_mark_value depth' code ;;
                gc_mark_value depth' bindings
              else if decide (mode_bits_ (hdr_ v)
                              = ModeBits.lisp_bytecode_function)
              then
                do '(bytecode, bindings) <- function_refs value ;;
                run gc_mark_value depth' bytecode ;;
                gc_mark_value depth' bindings
              else ret tt
          | VType.string =>
              match payload v with
              | P_string data_buffer _ => gc_mark_value depth' data_buffer
              | _ => fail undefined_behaviour
              end
          | VType.error =>
              do context <- error_context value ;;
              gc_mark_value depth' context
          | VType.cons =>
              do d <- cons_cdr value ;;
              do t <- type d ;;
              if decide (t = VType.cons) then
                gc_mark_cons_chain (gc_mark_value depth')
                  (S VALUE_POOL_SIZE) value
              else
                do a <- cons_car value ;;
                run gc_mark_value depth' a ;;
                do d' <- cons_cdr value ;;
                gc_mark_value depth' d'
          | _ => ret tt
          end ;;
      write_mark_bit value true
  end.

Definition gc_mark_depth : nat := S VALUE_POOL_SIZE.
#[global] Opaque gc_mark_depth.

(** Modelled from the spec: [ProtectedBase::next()] is declared in
    lisp.hpp, which is not among the sources; the protected roots form a
    doubly-linked list, and [next()] follows its [next_] link. *)
Definition ProtectedBase_next (o : ProtectedBase) : option nat := next_p o.

(** The walk over the protected roots at the end of [gc_mark]. *)
Fixpoint gc_mark_protected (fuel : nat) (p_list : option nat) : M unit :=
  match p_list with
  | None => ret tt
  | Some p =>
      match fuel with
      | 0 => fail hang
      | S fuel' =>
          do val <- Protected_get p ;;
          run gc_mark_value gc_mark_depth val ;;
          do objs <- gets protected_objects ;;
          do o <- expect (objs !! p) ;;
          gc_mark_protected fuel' (ProtectedBase_next o)
      end
  end.

(** Iterations granted to the traversal of the globals tree inside the
    collector: a tree of [n] nodes takes fewer than [3 * n] of them, and a
    node takes three cells. *)
Definition gc_traverse_fuel : nat := S (3 * VALUE_POOL_SIZE).
#[global] Opaque gc_traverse_fuel.

Definition gc_mark : M unit :=
  do nil <- gets nil_ ;;
  run gc_mark_value gc_mark_depth nil ;;
  do oom <- gets oom_ ;;
  run gc_mark_value gc_mark_depth oom ;;
  do bindings <- gets lexical_bindings_ ;;
  run gc_mark_value gc_mark_depth bindings ;;
  do macros <- gets macros_ ;;
  run gc_mark_value gc_mark_depth macros ;;
  do stack <- gets operand_stack_ ;;
  run for_each (reverse stack) (gc_mark_value gc_mark_depth) ;;
  do tree <- gets globals_tree_ ;;
  run globals_tree_traverse gc_traverse_fuel tree
        (fun car node =>
           run write_mark_bit node true ;;
           do d <- cons_cdr node ;;
           run write_mark_bit d true ;;
           gc_mark_value gc_mark_depth car) ;;
  do this <- gets this_ ;;
  run gc_mark_value gc_mark_depth this ;;
  do p_list <- gets __protected_values ;;
  do objs <- gets protected_objects ;;
  gc_mark_protected (S (length objs)) p_list.

(** [DataBuffer::finalizer] destroys the owned [ScratchBufferPtr], which
    hands the block back to the host; the other finalizers do nothing. *)
Definition invoke_finalizer (value : ptr) : M unit :=
  do v <- deref value ;;
  match type_ (hdr_ v) with
  | VType.data_buffer =>
      match payload v with
      | P_data_buffer _ =>
          modify (fun c => with_scratch_buffers_remaining
                             (S (scratch_buffers_remaining c)) c)
      | _ => fail undefined_behaviour
      end
  | _ => ret tt
  end.

(** The body of the loop of [gc_sweep] for the cell of index [i]; returns
    the increment of [collect_count]. *)
Definition gc_sweep_cell (val : N) : M nat :=
  do v <- deref val ;;
  if alive_ (hdr_ v) then
    if mark_bit_ (hdr_ v) then
      run write_mark_bit val false ;; ret 0
    else
      run invoke_finalizer val ;;
      run value_pool_free val ;;
      ret 1
  else ret 0.

Fixpoint gc_sweep_loop (indices : list N) (collect_count : nat) : M nat :=
  match indices with
  | [] => ret collect_count
  | i :: rest =>
      do n <- gc_sweep_cell i ;;
      gc_sweep_loop rest (collect_count + n)
  end.

Definition gc_sweep : M nat :=
  do sb <- gets string_buffer_ ;;
  do v <- deref sb ;;
  run (if mark_bit_ (hdr_ v) then ret tt
       else do nil <- L_NIL ;; modify (with_string_buffer_ nil)) ;;
  gc_sweep_loop (pool_indices 0 VALUE_POOL_SIZE) 0.

Definition run_gc : M nat :=
  run modify (fun c => with_gc_passes (S (gc_passes c)) c) ;;
  run gc_mark ;;
  gc_sweep.

(** ** Allocation and constructors *)

Definition init_val (val : ptr) : M ptr :=
  do v <- deref val ;;
  run store val (mkValue
                   (mkHeader (type_ (hdr_ v)) true false (mode_bits_ (hdr_ v)))
                   (payload v)) ;;
  ret val.

(** [alloc_value]: [None] is the null pointer. *)
Definition alloc_value : M (option ptr) :=
  do val <- value_pool_alloc ;;
  match val with
  | Some val => do r <- init_val val ;; ret (Some r)
  | None =>
      run run_gc ;;
      do val <- value_pool_alloc ;;
      match val with
      | Some val => do r <- init_val val ;; ret (Some r)
      | None => ret None
      end
  end.

(** ** The intern table *)

(** Modelled from the spec: [str_len] and [str_cmp] (string.hpp) are not
    among the sources; identifiers and strings are byte sequences with a
    NUL terminator, so the length is the number of bytes before the NUL and
    two strings compare equal when these bytes agree. *)
Definition str_len (s : cstring) : nat := length s.

Definition str_cmp (a b : cstring) : Z :=
  if decide (a = b) then 0%Z else 1%Z.

(** The C string that starts at the head of [mem]; [None] when the memory
    ends before a NUL is found. *)
Fixpoint c_str (mem : list ascii) : option cstring :=
  match mem with
  | [] => None
  | ch :: rest =>
      if decide (ch = NUL) then Some []
      else match c_str rest with
           | Some s => Some (ch :: s)
           | None => None
           end
  end.

Definition c_str_at (mem : list ascii) (i : nat) : option cstring :=
  c_str (drop i mem).

(** The search loop of [intern]: [i] runs over the starts of the strings
    stored in the arena. *)
Fixpoint intern_search (fuel : nat) (string : cstring) (i : nat)
  : M (option nat) :=
  match fuel with
  | 0 => fail out_of_fuel
  | S fuel' =>
      do pos <- gets string_intern_pos_ ;;
      if decide (i < pos) then
        do search <- gets interns_ ;;
        do s <- expect (c_str_at search i) ;;
        if decide (str_cmp s string = 0%Z) then ret (Some i)
        else intern_search fuel' string (i + length s + 1)
      else ret None
  end.

(** Writes [bytes] into the arena from [string_intern_pos_] on and advances
    the position. *)
Definition interns_append (bytes : list ascii) : M unit :=
  fun c =>
    let pos := string_intern_pos_ c in
    if decide (pos + length bytes <= length (interns_ c)) then
      Ok tt (with_interns
               (take pos (interns_ c) ++ bytes
                  ++ drop (pos + length bytes) (interns_ c))
               (pos + length bytes) c)
    else Err undefined_behaviour.

(** [intern(string)]; the result is the offset of the interned bytes in the
    arena. *)
Definition intern (string : cstring) : M nat :=
  let len := str_len string in
  do pos <- gets string_intern_pos_ ;;
  run (if decide (string_intern_table_size - pos < len + 1)
       then fail fatal else ret tt) ;;
  do found <- intern_search (S string_intern_table_size) string 0 ;;
  match found with
  | Some i => ret i
  | None =>
      do result <- gets string_intern_pos_ ;;
      run interns_append (string ++ [NUL]) ;;
      ret result
  end.

Definition symbol_from_offset (offset : nat) : nat := offset.

(** ** Constructors *)

Definition make_function (impl : nat) : M ptr :=
  do val <- alloc_value ;;
  match val with
  | Some val =>
      run write_cell val VType.function (P_cpp_impl impl) ;;
      run write_mode_bits val ModeBits.cpp_function ;;
      ret val
  | None => gets oom_
  end.

Definition make_lisp_function (impl : ptr) : M ptr :=
  do val <- alloc_value ;;
  match val with
  | Some val =>
      do bindings <- gets lexical_bindings_ ;;
      run write_cell val VType.function (P_lisp_impl impl bindings) ;;
      run write_mode_bits val ModeBits.lisp_function ;;
      ret val
  | None => gets oom_
  end.

Definition make_bytecode_function (bytecode : ptr) : M ptr :=
  do val <- alloc_value ;;
  match val with
  | Some val =>
      do bindings <- gets lexical_bindings_ ;;
      run write_cell val VType.function (P_bytecode_impl bytecode bindings) ;;
      run write_mode_bits val ModeBits.lisp_bytecode_function ;;
      ret val
  | None => gets oom_
  end.

Definition make_cons (car cdr : ptr) : M ptr :=
  do val <- alloc_value ;;
  match val with
  | Some val =>
      run write_cell val VType.cons (P_cons car cdr) ;;
      ret val
  | None => gets oom_
  end.

Definition make_integer (value : Z) : M ptr :=
  do val <- alloc_value ;;
  match val with
  | Some val =>
      run write_cell val VType.integer (P_integer value) ;;
      ret val
  | None => gets oom_
  end.

Definition make_error (error_code : ErrorCode.t) (context : ptr) : M ptr :=
  do val <- alloc_value ;;
  match val with
  | Some val =>
      run write_cell val VType.error (P_error error_code context) ;;
      ret val
  | None => gets oom_
  end.

(** A [const char*] handed to [make_symbol]: the address of a name inside
    the intern arena, or a NUL-terminated string that lives elsewhere. *)
Inductive CharPtr :=
| interned (offset : nat)
| chars (s : cstring).

(** [make_symbol(name, mode)].  With [stable_pointer] the cell keeps the
    pointer it is given; a stable pointer that does not point into the
    intern arena has no address in this model. *)
Definition make_symbol (name : CharPtr) (mode : SymbolMode) : M ptr :=
  do val <- alloc_value ;;
  match val with
  | Some val =>
      do name_ <-
        match mode, name with
        | stable_pointer, interned offset => ret offset
        | stable_pointer, chars _ => fail undefined_behaviour
        | requires_intern, chars s => intern s
        | requires_intern, interned offset =>
            do search <- gets interns_ ;;
            do s <- expect (c_str_at search offset) ;;
            intern s
        end ;;
      run write_cell val VType.symbol (P_symbol name_) ;;
      ret val
  | None => gets oom_
  end.

Definition intern_to_symbol (already_interned_str : nat) : M ptr :=
  do val <- alloc_value ;;
  match val with
  | Some val =>
      run write_cell val VType.symbol (P_symbol already_interned_str) ;;
      ret val
  | None => gets oom_
  end.

Definition make_userdata (obj : nat) : M ptr :=
  do val <- alloc_value ;;
  match val with
  | Some val =>
      run write_cell val VType.user_data (P_user_data obj) ;;
      ret val
  | None => gets oom_
  end.

(** Modelled from the spec: the host's [make_scratch_buffer()] returns a
    handle to a block of [SCRATCH_BUFFER_SIZE] bytes and
    [scratch_buffers_remaining()] the number of blocks left (section 6.1);
    the host code is not among the sources.  Taking a block when none is
    left ends in the host's fatal handler. *)
Definition make_scratch_buffer : M (list ascii) :=
  fun c =>
    match scratch_buffers_remaining c with
    | 0 => Err fatal
    | S n => Ok (host_scratch_data c) (with_scratch_buffers_remaining n c)
    end.

Definition make_databuffer : M ptr :=
  do remaining <- gets scratch_buffers_remaining ;;
  run (if decide (remaining = 0) then run run_gc ;; ret tt else ret tt) ;;
  do val <- alloc_value ;;
  match val with
  | Some val =>
      do sbr <- make_scratch_buffer ;;
      run write_cell val VType.data_buffer (P_data_buffer sbr) ;;
      ret val
  | None => gets oom_
  end.

(** The bytes of the scratch buffer owned by the data-buffer cell [p]. *)
Definition data_buffer_data (p : ptr) : M (list ascii) :=
  do v <- deref p ;;
  match payload v with
  | P_data_buffer d => ret d
  | _ => fail undefined_behaviour
  end.

Definition set_data_buffer_data (p : ptr) (d : list ascii) : M unit :=
  do v <- deref p ;;
  match payload v with
  | P_data_buffer _ => store p (mkValue (hdr_ v) (P_data_buffer d))
  | _ => fail undefined_behaviour
  end.

(** The number of NUL bytes at the end of the buffer, not counting the byte
    of index 0: the loop [for (i = SCRATCH_BUFFER_SIZE - 1; i > 0; --i)]. *)
Fixpoint trailing_free (i : nat) (data : list ascii) : nat :=
  match i with
  | 0 => 0
  | S i' =>
      match data !! i with
      | Some ch => if decide (ch = NUL) then S (trailing_free i' data) else 0
      | None => 0
      end
  end.

(** [while ( *string ) *write_ptr++ = *string++] at [offset] of the block. *)
Definition write_bytes (offset : nat) (string : cstring) (data : list ascii)
  : option (list ascii) :=
  if decide (offset + length string <= length data)
  then Some (take offset data ++ string
               ++ drop (offset + length string) data)
  else None.

(** The allocation of the string cell, with which both branches of
    [make_string] end:
    [if (auto val = alloc_value()) { ...; return val; }
     else { return bound_context->oom_; }]. *)
Definition make_string_cell (buffer : ptr) (offset : nat) : M ptr :=
  do val <- alloc_value ;;
  match val with
  | Some val =>
      run write_cell val VType.string (P_string buffer offset) ;;
      ret val
  | None => gets oom_
  end.

Definition make_string (string : cstring) : M ptr :=
  let len := str_len string in
  do sb <- gets string_buffer_ ;;
  do nil <- L_NIL ;;
  do '(existing_buffer, free) <-
    (if decide (sb <> nil) then
       let buffer := sb in
       do data <- data_buffer_data buffer ;;
       let free := trailing_free (SCRATCH_BUFFER_SIZE - 1) data in
       if decide (len + 1 < free) then ret (Some buffer, free)
       else
         do nil <- L_NIL ;;
         run modify (with_string_buffer_ nil) ;;
         ret (None, free)
     else ret (None, 0)) ;;
  match existing_buffer with
  | Some existing_buffer =>
      let offset := (SCRATCH_BUFFER_SIZE - free) + 1 in
      do data <- data_buffer_data existing_buffer ;;
      do data' <- expect (write_bytes offset string data) ;;
      run set_data_buffer_data existing_buffer data' ;;
      make_string_cell existing_buffer offset
  | None =>
      do buffer <- make_databuffer ;;
      do oom <- gets oom_ ;;
      if decide (buffer = oom) then gets oom_ else
      with_Protected buffer (fun p =>
        run modify (with_string_buffer_ buffer) ;;
        run set_data_buffer_data buffer (replicate SCRATCH_BUFFER_SIZE NUL) ;;
        do data <- data_buffer_data buffer ;;
        do data' <- expect (write_bytes 0 string data) ;;
        run set_data_buffer_data buffer data' ;;
        make_string_cell buffer 0)
  end.

(** [String::value()]: the C string at [offset_] of the data buffer. *)
Definition String_value (p : ptr) : M cstring :=
  do v <- deref p ;;
  match payload v with
  | P_string data_buffer offset =>
      do data <- data_buffer_data data_buffer ;;
      expect (c_str_at data offset)
  | _ => fail undefined_behaviour
  end.

(** ** The list builder *)

(** Modelled from the spec: [ListBuilder] (listBuilder.hpp) is not among the
    sources.  It is a builder that keeps the head of the list under
    construction in a [Protected] while further cells are allocated:
    [push_front] conses onto the head, [push_back] links a new last cell,
    [result] is the head.  The builder is the pair of its head and of its
    last cell. *)
Record ListBuilder := mkListBuilder {
  head_ : ptr;
  tail_ : option ptr;
}.

Definition ListBuilder_new : M ListBuilder :=
  do nil <- get_nil ;; ret (mkListBuilder nil None).

Definition ListBuilder_push_front (b : ListBuilder) (val : ptr)
  : M ListBuilder :=
  do next <- make_cons val (head_ b) ;;
  ret (mkListBuilder next
         (match tail_ b with Some t => Some t | None => Some next end)).

Definition ListBuilder_push_back (b : ListBuilder) (val : ptr)
  : M ListBuilder :=
  match tail_ b with
  | None => ListBuilder_push_front b val
  | Some t =>
      do nil <- L_NIL ;;
      do new_tail <- make_cons val nil ;;
      do ty <- type new_tail ;;
      if decide (ty = VType.cons) then
        run set_cdr t new_tail ;;
        ret (mkListBuilder (head_ b) (Some new_tail))
      else ret b
  end.

Definition ListBuilder_result (b : ListBuilder) : ptr := head_ b.

(** ** The globals tree *)

(** The name a symbol cell points to, read from the intern arena. *)
Definition symbol_chars (p : ptr) : M cstring :=
  do name <- symbol_name p ;;
  do search <- gets interns_ ;;
  expect (c_str_at search name).

(** The loop of [globals_tree_insert].  [None]: the key was found and its
    value overwritten (the early return); otherwise the last node visited
    and the side on which to attach the new node. *)
Fixpoint globals_tree_insert_loop (fuel : nat) (key value : ptr)
    (current prev : ptr) (insert_left : bool) : M (option (ptr * bool)) :=
  match fuel with
  | 0 => fail out_of_fuel
  | S fuel' =>
      do nil <- get_nil ;;
      if decide (current = nil) then ret (Some (prev, insert_left)) else
      do kvp <- cons_car current ;;
      do current_key <- cons_car kvp ;;
      do current_name <- symbol_name current_key ;;
      do key_name <- symbol_name key ;;
      if decide (current_name = key_name) then
        run set_cdr kvp value ;;
        ret None
      else
        do children <- cons_cdr current ;;
        if decide (current_name < key_name) then
          do next <- cons_car children ;;
          globals_tree_insert_loop fuel' key value next current true
        else
          do next <- cons_cdr children ;;
          globals_tree_insert_loop fuel' key value next current false
  end.

(** [push_op(make_cons(nil, nil)); new_tree = make_cons(new_kvp, get_op0());
    pop_op()]. *)
Definition globals_tree_new_node (new_kvp : ptr) : M ptr :=
  do nil <- get_nil ;;
  do children <- make_cons nil nil ;;
  run push_op children ;;
  do top <- get_op0 ;;
  do new_tree <- make_cons new_kvp top ;;
  run pop_op ;;
  ret new_tree.

Definition globals_tree_insert (fuel : nat) (key value : ptr) : M unit :=
  do kvp <- make_cons key value ;;
  with_Protected kvp (fun new_kvp =>
    do tree <- gets globals_tree_ ;;
    do nil <- get_nil ;;
    if decide (tree = nil) then
      do kv <- Protected_get new_kvp ;;
      do new_tree <- globals_tree_new_node kv ;;
      modify (with_globals_tree_ new_tree)
    else
      with_Protected tree (fun current =>
      with_Protected tree (fun prev =>
        do r <- globals_tree_insert_loop fuel key value tree tree true ;;
        match r with
        | None => ret tt
        | Some (last, insert_left) =>
            run Protected_set current nil ;;
            run Protected_set prev last ;;
            do kv <- Protected_get new_kvp ;;
            do new_tree <- globals_tree_new_node kv ;;
            do p <- Protected_get prev ;;
            do children <- cons_cdr p ;;
            if insert_left then set_car children new_tree
            else set_cdr children new_tree
        end)))
    .

(** Modelled from the spec: [StringBuffer<N>] (string.hpp) is not among the
    sources; it is a byte string of bounded capacity, and appending keeps
    the bytes that fit. *)
Definition StringBuffer_append (capacity : nat) (buffer more : cstring)
  : cstring :=
  take capacity (buffer ++ more).

Definition ascii_of_string (s : string) : cstring :=
  String.list_ascii_of_string s.

Fixpoint globals_tree_find_loop (fuel : nat) (key current : ptr)
  : M (option ptr) :=
  match fuel with
  | 0 => fail out_of_fuel
  | S fuel' =>
      do nil <- get_nil ;;
      if decide (current = nil) then ret None else
      do kvp <- cons_car current ;;
      do current_key <- cons_car kvp ;;
      do current_name <- symbol_name current_key ;;
      do key_name <- symbol_name key ;;
      if decide (current_name = key_name) then
        do v <- cons_cdr kvp ;; ret (Some v)
      else
        do children <- cons_cdr current ;;
        if decide (current_name < key_name) then
          do next <- cons_car children ;;
          globals_tree_find_loop fuel' key next
        else
          do next <- cons_cdr children ;;
          globals_tree_find_loop fuel' key next
  end.

Definition globals_tree_find (fuel : nat) (key : ptr) : M ptr :=
  do tree <- gets globals_tree_ ;;
  do nil <- get_nil ;;
  if decide (tree = nil) then get_nil else
  do found <- globals_tree_find_loop fuel key tree ;;
  match found with
  | Some v => ret v
  | None =>
      do name <- symbol_chars key ;;
      let hint :=
        StringBuffer_append 31
          (StringBuffer_append 31 (ascii_of_string "[var: ") name)
          (ascii_of_string "]") in
      do context <- make_string hint ;;
      make_error ErrorCode.undefined_variable_access context
  end.

(** The search loop of [globals_tree_erase]; returns the node that holds the
    key, the node visited before it and the side it hangs on. *)
Fixpoint globals_tree_erase_loop (fuel : nat) (key : ptr)
    (current prev : ptr) (erase_left : bool)
  : M (option (ptr * ptr * bool)) :=
  match fuel with
  | 0 => fail out_of_fuel
  | S fuel' =>
      do nil <- get_nil ;;
      if decide (current = nil) then ret None else
      do kvp <- cons_car current ;;
      do current_key <- cons_car kvp ;;
      do current_name <- symbol_name current_key ;;
      do key_name <- symbol_name key ;;
      if decide (current_name = key_name) then
        ret (Some (current, prev, erase_left))
      else
        do children <- cons_cdr current ;;
        if decide (current_name < key_name) then
          do next <- cons_car children ;;
          globals_tree_erase_loop fuel' key next current true
        else
          do next <- cons_cdr children ;;
          globals_tree_erase_loop fuel' key next current false
  end.

(** The callback [reattach_child] of [globals_tree_erase]. *)
Definition reattach_child (fuel : nat) (kvp _node : ptr) : M unit :=
  do k <- cons_car kvp ;;
  do v <- cons_cdr kvp ;;
  globals_tree_insert fuel k v.

Definition globals_tree_erase (fuel : nat) (key : ptr) : M unit :=
  do tree <- gets globals_tree_ ;;
  do nil <- get_nil ;;
  if decide (tree = nil) then ret tt else
  do r <- globals_tree_erase_loop fuel key tree tree true ;;
  match r with
  | None => ret tt
  | Some (current, prev, erase_left) =>
      with_Protected current (fun erased =>
        do nil <- get_nil ;;
        run (if decide (current = prev) then modify (with_globals_tree_ nil)
             else
               do children <- cons_cdr prev ;;
               if erase_left then set_car children nil
               else set_cdr children nil) ;;
        do e <- Protected_get erased ;;
        do children <- cons_cdr e ;;
        do left_child <- cons_car children ;;
        run (if decide (left_child <> nil)
             then globals_tree_traverse fuel left_child (reattach_child fuel)
             else ret tt) ;;
        do e <- Protected_get erased ;;
        do children <- cons_cdr e ;;
        do right_child <- cons_cdr children ;;
        if decide (right_child <> nil)
        then globals_tree_traverse fuel right_child (reattach_child fuel)
        else ret tt)
  end.

(** ** Variables *)

Definition get_arg (n : Z) : M ptr :=
  do br <- gets arguments_break_loc_ ;;
  do argc <- gets current_fn_argc_ ;;
  if decide ((argc - 1) - n <= br)%Z
  then stack_at (br - ((argc - 1) - n))%Z
  else get_nil.

Definition get_argc : M Z := gets current_fn_argc_.

Definition get_this : M ptr := gets this_.

(** Wrap-around of the C++ integer types. *)
Definition wrap_s32 (z : Z) : Z :=
  ((z + 2147483648) mod 4294967296 - 2147483648)%Z.

Definition wrap_u16 (z : Z) : Z := (z mod 65536)%Z.

Definition wrap_u8 (z : Z) : Z := (z mod 256)%Z.

Definition ascii_code (ch : ascii) : Z := Z.of_nat (nat_of_ascii ch).

(** [argn = argn * 10 + (name_[i] - '0')] over the bytes after the first. *)
Definition parse_argn (digits : cstring) : Z :=
  foldl (fun argn ch => wrap_s32 (argn * 10 + (ascii_code ch - 48))%Z)
    0%Z digits.

(** The search of the lexical binding chain shared by [get_var] and
    [set_var]: the [(symbol . value)] pair that binds [name]. *)
Fixpoint lexical_frame_lookup (fuel : nat) (name : nat) (bindings : ptr)
  : M (option ptr) :=
  match fuel with
  | 0 => fail out_of_fuel
  | S fuel' =>
      do nil <- get_nil ;;
      if decide (bindings = nil) then ret None else
      do kvp <- cons_car bindings ;;
      do sym <- cons_car kvp ;;
      do n <- symbol_name sym ;;
      if decide (n = name) then ret (Some kvp)
      else
        do rest <- cons_cdr bindings ;;
        lexical_frame_lookup fuel' name rest
  end.

Fixpoint lexical_lookup (fuel : nat) (name : nat) (stack : ptr)
  : M (option ptr) :=
  match fuel with
  | 0 => fail out_of_fuel
  | S fuel' =>
      do nil <- get_nil ;;
      if decide (stack = nil) then ret None else
      do bindings <- cons_car stack ;;
      do r <- lexical_frame_lookup fuel' name bindings ;;
      match r with
      | Some kvp => ret (Some kvp)
      | None =>
          do rest <- cons_cdr stack ;;
          lexical_lookup fuel' name rest
      end
  end.

(** The scan of the host's table of integral constants in [get_var]. *)
Fixpoint constants_lookup (constants : list (cstring * Z)) (name : cstring)
  : option Z :=
  match constants with
  | [] => None
  | (k_name, k_value) :: rest =>
      if decide (str_cmp k_name name = 0%Z) then Some k_value
      else constants_lookup rest name
  end.

Definition DOLLAR : ascii := ascii_of_nat 36.
Definition LETTER_V : ascii := ascii_of_nat 86.

(** The loop [for (int i = argc - 1; i > -1; --i) lat.push_front(get_arg(i))]
    of the [$V] case of [get_var]; [n] is [i + 1]. *)
Fixpoint get_var_arguments (n : nat) (lat : ListBuilder) : M ListBuilder :=
  match n with
  | 0 => ret lat
  | S i =>
      do a <- get_arg (Z.of_nat i) ;;
      do lat' <- ListBuilder_push_front lat a ;;
      get_var_arguments i lat'
  end.

(** The first branch of [get_var]: a name that starts with [$] reads the
    arguments of the current call.  [None]: the name does not start
    with [$]. *)
Definition get_var_dollar (symbol : ptr) : M (option ptr) :=
  do name <- symbol_chars symbol ;;
  match name with
  | ch :: rest =>
      if decide (ch = DOLLAR) then
        match rest with
        | ch1 :: _ =>
            if decide (ch1 = LETTER_V) then
              do argc <- gets current_fn_argc_ ;;
              do lat <- ListBuilder_new ;;
              do lat <- get_var_arguments (Z.to_nat argc) lat ;;
              ret (Some (ListBuilder_result lat))
            else
              do a <- get_arg (wrap_u16 (parse_argn rest)) ;; ret (Some a)
        | [] =>
            do a <- get_arg (wrap_u16 (parse_argn rest)) ;; ret (Some a)
        end
      else ret None
  | [] => ret None
  end.

Definition get_var (fuel : nat) (symbol : ptr) : M ptr :=
  do special <- get_var_dollar symbol ;;
  match special with
  | Some r => ret r
  | None =>
      do name_ <- symbol_name symbol ;;
      do bindings <- gets lexical_bindings_ ;;
      do nil <- get_nil ;;
      do bound <- (if decide (bindings <> nil)
                   then lexical_lookup fuel name_ bindings
                   else ret None) ;;
      match bound with
      | Some kvp => cons_cdr kvp
      | None =>
          do found <- globals_tree_find fuel symbol ;;
          do ty <- type found ;;
          if decide (ty <> VType.error) then ret found
          else
            do name <- symbol_chars symbol ;;
            do constants <- gets constants_ ;;
            match constants_lookup constants name with
            | Some value => make_integer value
            | None => ret found
            end
      end
  end.

Definition get_var_stable (fuel : nat) (intern_str : nat) : M ptr :=
  do sym <- make_symbol (interned intern_str) stable_pointer ;;
  get_var fuel sym.

Definition set_var (fuel : nat) (symbol val : ptr) : M ptr :=
  do name_ <- symbol_name symbol ;;
  do bindings <- gets lexical_bindings_ ;;
  do nil <- get_nil ;;
  do bound <- (if decide (bindings <> nil)
               then lexical_lookup fuel name_ bindings
               else ret None) ;;
  match bound with
  | Some kvp => run set_cdr kvp val ;; get_nil
  | None => run globals_tree_insert fuel symbol val ;; get_nil
  end.

(** Modelled from the spec: the overload of [set_var] that takes the name
    as a C string is declared in lisp.hpp, which is not among the sources;
    [set_var(name, value)] binds the global of that name, so it makes the
    symbol and calls the overload above. *)
Definition set_var_named (fuel : nat) (name : cstring) (value : ptr)
  : M ptr :=
  do var_sym <- make_symbol (chars name) requires_intern ;;
  do ty <- type var_sym ;;
  if decide (ty = VType.symbol) then set_var fuel var_sym value
  else ret var_sym.

(** ** Initialisation *)

(** The names [init] binds to native functions, in the order of the source;
    the native function of a name is referred to by its index in this
    list. *)
Definition builtin_names : list string :=
  ["set"; "cons"; "car"; "cdr"; "list"; "arg"; "progn"; "any-true";
   "all-true"; "not"; "equal"; "apply"; "fill"; "gen"; "length"; "<"; ">";
   "+"; "-"; "*"; "/"; "interp-stat"; "range"; "unbind"; "symbol"; "type";
   "string"; "bound"; "filter"; "map"; "reverse"; "select"; "gc"; "get";
   "read"; "eval"; "globals"; "this"; "argc"; "env"; "compile";
   "disassemble"]%string.

Fixpoint install_builtins (fuel : nat) (names : list string) (index : nat)
  : M unit :=
  match names with
  | [] => ret tt
  | name :: rest =>
      do fn <- make_function index ;;
      run set_var_named fuel (ascii_of_string name) fn ;;
      install_builtins fuel rest (S index)
  end.

(** The memory before [init]: the zero-initialised static pool, a null
    free-list head and no protected roots; the fields of the context that
    [init] sets before their first use start as 0. *)
Definition zero_cell : Value :=
  mkValue (mkHeader VType.heap_node false false ModeBits.none)
    (P_heap_node None).

Definition zero_pool : Nmap Value :=
  list_to_map ((fun i => (i, zero_cell)) <$> pool_indices 0 VALUE_POOL_SIZE).

Definition unbound_context (buffers : nat) (scratch : list ascii)
  : Context :=
  mkContext zero_pool None None [] []
    (replicate string_intern_table_size NUL) 0 0 0%N 0%N 0%N 0%N 0%N 0%N
    0%N [] 0 0 buffers scratch 0.

Definition with_nil_ (x : ptr) (c : Context) : Context :=
  mkContext (value_pool_data c) (value_pool c) (__protected_values c)
    (protected_objects c) (operand_stack_ c) (interns_ c)
    (arguments_break_loc_ c) (current_fn_argc_ c) (this_ c) x (oom_ c)
    (string_buffer_ c) (globals_tree_ c) (lexical_bindings_ c) (macros_ c)
    (constants_ c) (string_intern_pos_ c) (interp_entry_count_ c)
    (scratch_buffers_remaining c) (host_scratch_data c) (gc_passes c).

Definition with_oom_ (x : ptr) (c : Context) : Context :=
  mkContext (value_pool_data c) (value_pool c) (__protected_values c)
    (protected_objects c) (operand_stack_ c) (interns_ c)
    (arguments_break_loc_ c) (current_fn_argc_ c) (this_ c) (nil_ c) x
    (string_buffer_ c) (globals_tree_ c) (lexical_bindings_ c) (macros_ c)
    (constants_ c) (string_intern_pos_ c) (interp_entry_count_ c)
    (scratch_buffers_remaining c) (host_scratch_data c) (gc_passes c).

Definition with_constants_ (x : list (cstring * Z)) (c : Context)
  : Context :=
  mkContext (value_pool_data c) (value_pool c) (__protected_values c)
    (protected_objects c) (operand_stack_ c) (interns_ c)
    (arguments_break_loc_ c) (current_fn_argc_ c) (this_ c) (nil_ c) (oom_ c)
    (string_buffer_ c) (globals_tree_ c) (lexical_bindings_ c) (macros_ c)
    x (string_intern_pos_ c) (interp_entry_count_ c)
    (scratch_buffers_remaining c) (host_scratch_data c) (gc_passes c).

Definition set_constants (constants : list (cstring * Z)) : M unit :=
  modify (with_constants_ constants).

(** [init], up to the installation of the native functions.  [pfrm] stands
    for the address of the platform object kept in [*pfrm*]. *)
Definition init (fuel : nat) (pfrm : nat) : M unit :=
  run value_pool_init ;;
  do nil <- alloc_value ;;
  do nil <- expect nil ;;
  run modify (with_nil_ nil) ;;
  run write_cell nil VType.nil P_nil ;;
  run modify (with_globals_tree_ nil) ;;
  run modify (with_this_ nil) ;;
  run modify (with_lexical_bindings_ nil) ;;
  do oom <- alloc_value ;;
  do oom <- expect oom ;;
  run modify (with_oom_ oom) ;;
  run write_cell oom VType.error (P_error ErrorCode.out_of_memory nil) ;;
  run modify (with_string_buffer_ nil) ;;
  run modify (with_macros_ nil) ;;
  do n <- get_nil ;; run push_op n ;;
  do n <- get_nil ;; run push_op n ;;
  do ud <- make_userdata pfrm ;;
  run set_var_named fuel (ascii_of_string "*pfrm*") ud ;;
  run intern (ascii_of_string "'") ;;
  install_builtins fuel builtin_names 0.

(** The state that [init] leaves, for a host with [buffers] scratch buffers
    whose blocks hold [scratch]. *)
Definition initial_context (buffers : nat) (scratch : list ascii)
  : Result unit :=
  init 100 0 (unbound_context buffers scratch).

(** ** Counting cells *)

(** The loop of [interp-stat] that walks the free list and counts its
    cells; a walk longer than the pool runs in a cycle, where the source
    does not return. *)
Fixpoint values_remaining_loop (fuel : nat) (pool : Nmap Value)
    (current : option ptr) (values_remaining : nat) : option nat :=
  match current with
  | None => Some values_remaining
  | Some p =>
      match fuel with
      | 0 => None
      | S fuel' =>
          match pool !! p with
          | Some (mkValue _ (P_heap_node next)) =>
              values_remaining_loop fuel' pool next (S values_remaining)
          | _ => None
          end
      end
  end.

Definition values_remaining (c : Context) : option nat :=
  values_remaining_loop (S VALUE_POOL_SIZE) (value_pool_data c)
    (value_pool c) 0.

(** The cells [live_values] calls back for. *)
Definition live_cell (pool : Nmap Value) (i : N) : option Value :=
  match pool !! i with
  | Some v => if alive_ (hdr_ v) then Some v else None
  | None => None
  end.

Definition live_cells (pool : Nmap Value) (indices : list N) : list Value :=
  omap (live_cell pool) indices.

Definition live_values (c : Context) : list Value :=
  live_cells (value_pool_data c) (pool_indices 0 VALUE_POOL_SIZE).

(** ** A concrete state *)

Definition result_context {A} (r : Result A) : Context :=
  match r with
  | Ok _ c => c
  | Err _ => unbound_context 0 []
  end.

Definition result_value {A} (r : Result A) (default : A) : A :=
  match r with
  | Ok a _ => a
  | Err _ => default
  end.

(** The state after [init] on a host with ten zero-filled scratch buffers,
    on which the theorems are run. *)
Definition booted : Context :=
  Eval vm_compute in
    result_context (initial_context 10 (replicate SCRATCH_BUFFER_SIZE NUL)).

(** * The evaluator, the reader and the virtual machine *)

(** [eval], [funcall], [vm_execute], [read], [macroexpand] and
    [macroexpand_macro] call one another; each is written against the
    record of all six, and the knot is tied by [interp] below. *)
Record Interp := mkInterp {
  eval_ : ptr -> M unit;
  funcall_ : ptr -> Z -> M unit;
  vm_execute_ : ptr -> Z -> M unit;
  read_ : cstring -> M nat;
  macroexpand_ : M unit;
  macroexpand_macro_ : M unit;
}.

(** ** Helpers *)

Definition function_cpp_impl (p : ptr) : M nat :=
  do v <- deref p ;;
  match payload v with
  | P_cpp_impl impl => ret impl
  | _ => fail undefined_behaviour
  end.

Definition error_code (p : ptr) : M ErrorCode.t :=
  do v <- deref p ;;
  match payload v with
  | P_error code _ => ret code
  | _ => fail undefined_behaviour
  end.

Definition mode_bits (p : ptr) : M ModeBits.t :=
  do v <- deref p ;; ret (mode_bits_ (hdr_ v)).

Definition is_boolean_true (val : ptr) : M bool :=
  do t <- type val ;;
  if decide (t = VType.integer) then
    do value <- integer_value val ;;
    ret (bool_decide (value <> 0%Z))
  else
    do nil <- get_nil ;;
    ret (bool_decide (val <> nil)).

(** The loops over a list in the heap are given [fuel] iterations. *)
Fixpoint is_list (fuel : nat) (val : ptr) : M bool :=
  match fuel with
  | 0 => fail out_of_fuel
  | S fuel' =>
      do nil <- get_nil ;;
      if decide (val = nil) then ret true else
      do t <- type val ;;
      if decide (t <> VType.cons) then ret false else
      do d <- cons_cdr val ;;
      is_list fuel' d
  end.

(** [length(lat)]; [len] counts the cells seen so far. *)
Fixpoint length_loop (fuel : nat) (lat : ptr) (len : Z) : M Z :=
  match fuel with
  | 0 => fail out_of_fuel
  | S fuel' =>
      let len := (len + 1)%Z in
      do lat <- cons_cdr lat ;;
      do t <- type lat ;;
      if decide (t <> VType.cons) then
        do nil <- get_nil ;;
        if decide (lat <> nil) then ret 0%Z else ret len
      else length_loop fuel' lat len
  end.

Definition length_ (fuel : nat) (lat : ptr) : M Z := length_loop fuel lat 0.

(** The loop [while (--length)] of [make_list]; [n] iterations are left. *)
Fixpoint make_list_loop (n : nat) (head : ptr) : M ptr :=
  match n with
  | 0 => ret head
  | S n' =>
      run push_op head ;;
      do nil <- get_nil ;;
      do cell <- make_cons nil head ;;
      run pop_op ;;
      make_list_loop n' cell
  end.

Definition make_list (length : nat) : M ptr :=
  if decide (length = 0) then get_nil else
  do nil <- get_nil ;;
  do head <- make_cons nil nil ;;
  make_list_loop (length - 1) head.

(** The walk [while (position--)] shared by [set_list] and [get_list]:
    [None] when it meets a cell that is not a pair. *)
Fixpoint list_walk (position : nat) (list : ptr) : M (option ptr) :=
  match position with
  | 0 => ret (Some list)
  | S position' =>
      do t <- type list ;;
      if decide (t <> VType.cons) then ret None else
      do d <- cons_cdr list ;;
      list_walk position' d
  end.

Definition set_list (list : ptr) (position : nat) (value : ptr) : M unit :=
  do r <- list_walk position list ;;
  match r with
  | None => ret tt
  | Some list =>
      do t <- type list ;;
      if decide (t <> VType.cons) then ret tt else set_car list value
  end.

Definition get_list (list : ptr) (position : nat) : M ptr :=
  do r <- list_walk position list ;;
  match r with
  | None => get_nil
  | Some list =>
      do t <- type list ;;
      if decide (t <> VType.cons) then get_nil else cons_car list
  end.

Definition lexical_frame_push : M unit :=
  do nil <- get_nil ;;
  do bindings <- gets lexical_bindings_ ;;
  do frame <- make_cons nil bindings ;;
  modify (with_lexical_bindings_ frame).

Definition lexical_frame_pop : M unit :=
  do bindings <- gets lexical_bindings_ ;;
  do rest <- cons_cdr bindings ;;
  modify (with_lexical_bindings_ rest).

Definition lexical_frame_store (kvp : ptr) : M unit :=
  do bindings <- gets lexical_bindings_ ;;
  do frame <- cons_car bindings ;;
  do frame' <- make_cons kvp frame ;;
  do bindings <- gets lexical_bindings_ ;;
  set_car bindings frame'.

(** [for (int i = 0; i < argc; ++i) pop_back()]. *)
Fixpoint pop_n (n : nat) : M unit :=
  match n with
  | 0 => ret tt
  | S n' => run pop_op ;; pop_n n'
  end.

Definition pop_args (argc : Z) : M unit := pop_n (Z.to_nat argc).

(** Modelled from the spec: [foreach] is declared in lisp.hpp, which is
    not among the sources; it calls the callback on the elements of a list
    in order ("for each (sym expr) pair", "evaluate body forms in order"),
    that is, on the car of every pair of the chain. *)
Fixpoint foreach (fuel : nat) (list : ptr) (callback : ptr -> M unit)
  : M unit :=
  match fuel with
  | 0 => fail out_of_fuel
  | S fuel' =>
      do t <- type list ;;
      if decide (t <> VType.cons) then ret tt else
      do a <- cons_car list ;;
      run callback a ;;
      do d <- cons_cdr list ;;
      foreach fuel' d callback
  end.

(** ** Native functions *)

(** Modelled from the spec: the macros [L_EXPECT_ARGC] and [L_EXPECT_OP]
    are defined in lisp.hpp, which is not among the sources.  They make the
    native function return an error of the kind [invalid_argc] when the
    argument count is not the expected one, and of the kind
    [invalid_argument_type] when the operand at the given offset has not the
    expected type (section 6.3, error kinds).  [None]: the check passes. *)
Definition L_EXPECT_ARGC (argc expected : Z) : M (option ptr) :=
  if decide (argc <> expected) then
    do nil <- L_NIL ;;
    do e <- make_error ErrorCode.invalid_argc nil ;; ret (Some e)
  else ret None.

Definition L_EXPECT_OP (offset : nat) (t : VType.t) : M (option ptr) :=
  do op <- get_op offset ;;
  do ty <- type op ;;
  if decide (t <> ty) then
    do nil <- L_NIL ;;
    do e <- make_error ErrorCode.invalid_argument_type nil ;; ret (Some e)
  else ret None.

(** [check ;; rest]: the early return of the two macros. *)
Definition expecting (check : M (option ptr)) (rest : M ptr) : M ptr :=
  do r <- check ;;
  match r with
  | Some e => ret e
  | None => rest
  end.

Notation "'expect!' check ;; rest" := (expecting check rest)
  (at level 10, check at level 99, rest at level 200).

Section natives.
Variable fuel : nat.

Definition native_set (argc : Z) : M ptr :=
  expect! L_EXPECT_ARGC argc 2 ;;
  expect! L_EXPECT_OP 1 VType.symbol ;;
  do op1 <- get_op1 ;;
  do op0 <- get_op0 ;;
  run set_var fuel op1 op0 ;;
  L_NIL.

Definition native_cons (argc : Z) : M ptr :=
  expect! L_EXPECT_ARGC argc 2 ;;
  do car <- get_op1 ;;
  do cdr <- get_op0 ;;
  do tcar <- type car ;;
  if decide (tcar = VType.error) then ret car else
  do tcdr <- type cdr ;;
  if decide (tcdr = VType.error) then ret cdr else
  do op1 <- get_op1 ;;
  do op0 <- get_op0 ;;
  make_cons op1 op0.

Definition native_car (argc : Z) : M ptr :=
  expect! L_EXPECT_ARGC argc 1 ;;
  expect! L_EXPECT_OP 0 VType.cons ;;
  do op0 <- get_op0 ;;
  cons_car op0.

Definition native_cdr (argc : Z) : M ptr :=
  expect! L_EXPECT_ARGC argc 1 ;;
  expect! L_EXPECT_OP 0 VType.cons ;;
  do op0 <- get_op0 ;;
  cons_cdr op0.

(** The loop of the native [list]; [i] counts up to [argc]. *)
Fixpoint native_list_loop (n : nat) (argc i : nat) (lat : ptr) : M ptr :=
  match n with
  | 0 => ret lat
  | S n' =>
      do val <- get_op ((argc - 1) - i) ;;
      do t <- type val ;;
      if decide (t = VType.error) then ret val else
      run set_list lat i val ;;
      native_list_loop n' argc (S i) lat
  end.

Definition native_list (argc : Z) : M ptr :=
  do lat <- make_list (Z.to_nat argc) ;;
  native_list_loop (Z.to_nat argc) (Z.to_nat argc) 0 lat.

Definition native_arg (argc : Z) : M ptr :=
  expect! L_EXPECT_ARGC argc 1 ;;
  expect! L_EXPECT_OP 0 VType.integer ;;
  do op0 <- get_op0 ;;
  do n <- integer_value op0 ;;
  get_arg (wrap_u16 n).

Definition native_progn (argc : Z) : M ptr := get_op0.

Fixpoint native_any_true_loop (n : nat) (i : nat) : M ptr :=
  match n with
  | 0 => L_NIL
  | S n' =>
      do op <- get_op i ;;
      do b <- is_boolean_true op ;;
      if b then get_op i else native_any_true_loop n' (S i)
  end.

Definition native_any_true (argc : Z) : M ptr :=
  native_any_true_loop (Z.to_nat argc) 0.

Fixpoint native_all_true_loop (n : nat) (i : nat) : M ptr :=
  match n with
  | 0 => make_integer 1
  | S n' =>
      do op <- get_op i ;;
      do b <- is_boolean_true op ;;
      if negb b then L_NIL else native_all_true_loop n' (S i)
  end.

Definition native_all_true (argc : Z) : M ptr :=
  native_all_true_loop (Z.to_nat argc) 0.

Definition Z_of_bool (b : bool) : Z := if b then 1%Z else 0%Z.

Definition native_not (argc : Z) : M ptr :=
  expect! L_EXPECT_ARGC argc 1 ;;
  do op0 <- get_op0 ;;
  do b <- is_boolean_true op0 ;;
  make_integer (Z_of_bool (negb b)).

Definition user_data_obj (p : ptr) : M nat :=
  do v <- deref p ;;
  match payload v with
  | P_user_data obj => ret obj
  | _ => fail undefined_behaviour
  end.

(** The lambda inside the native [equal]: the comparison by type. *)
Definition native_equal_compare : M bool :=
  do op0 <- get_op0 ;;
  do op1 <- get_op1 ;;
  do t <- type op0 ;;
  match t with
  | VType.integer =>
      do a <- integer_value op0 ;;
      do b <- integer_value op1 ;;
      ret (bool_decide (a = b))
  | VType.cons => ret false
  | VType.__reserved | VType.character | VType.nil | VType.heap_node
  | VType.data_buffer | VType.function =>
      ret (bool_decide (op0 = op1))
  | VType.error => ret false
  | VType.symbol =>
      do a <- symbol_name op0 ;;
      do b <- symbol_name op1 ;;
      ret (bool_decide (a = b))
  | VType.user_data =>
      do a <- user_data_obj op0 ;;
      do b <- user_data_obj op1 ;;
      ret (bool_decide (a = b))
  | VType.string =>
      do a <- String_value op0 ;;
      do b <- String_value op1 ;;
      ret (bool_decide (str_cmp a b = 0%Z))
  end.

Definition native_equal (argc : Z) : M ptr :=
  expect! L_EXPECT_ARGC argc 2 ;;
  do op0 <- get_op0 ;;
  do op1 <- get_op1 ;;
  do t0 <- type op0 ;;
  do t1 <- type op1 ;;
  if decide (t0 <> t1) then make_integer 0 else
  do b <- native_equal_compare ;;
  make_integer (Z_of_bool b).

(** The loop [for (int i = start; i < end; i += incr)] of the native
    [range], with [n] iterations granted. *)
Fixpoint native_range_loop (n : nat) (i end_ incr : Z) (lat : ListBuilder)
  : M ListBuilder :=
  match n with
  | 0 => fail out_of_fuel
  | S n' =>
      if decide (i < end_)%Z then
        do v <- make_integer i ;;
        do lat <- ListBuilder_push_back lat v ;;
        native_range_loop n' (wrap_s32 (i + incr)) end_ incr lat
      else ret lat
  end.

(** The arguments of the native [range]: [(start, end, incr)], or the
    value that the native function returns early. *)
Definition native_range_args (argc : Z) : M (ptr + Z * Z * Z) :=
  if decide (argc = 1)%Z then
    do r <- L_EXPECT_OP 0 VType.integer ;;
    match r with Some e => ret (inl e) | None =>
    do op0 <- get_op0 ;;
    do end_ <- integer_value op0 ;;
    ret (inr (0, end_, 1)%Z)
    end
  else if decide (argc = 2)%Z then
    do r <- L_EXPECT_OP 1 VType.integer ;;
    match r with Some e => ret (inl e) | None =>
    do r <- L_EXPECT_OP 0 VType.integer ;;
    match r with Some e => ret (inl e) | None =>
    do op1 <- get_op1 ;;
    do start <- integer_value op1 ;;
    do op0 <- get_op0 ;;
    do end_ <- integer_value op0 ;;
    ret (inr (start, end_, 1)%Z)
    end end
  else if decide (argc = 3)%Z then
    do r <- L_EXPECT_OP 2 VType.integer ;;
    match r with Some e => ret (inl e) | None =>
    do r <- L_EXPECT_OP 1 VType.integer ;;
    match r with Some e => ret (inl e) | None =>
    do r <- L_EXPECT_OP 0 VType.integer ;;
    match r with Some e => ret (inl e) | None =>
    do op2 <- get_op 2 ;;
    do start <- integer_value op2 ;;
    do op1 <- get_op1 ;;
    do end_ <- integer_value op1 ;;
    do op0 <- get_op0 ;;
    do incr <- integer_value op0 ;;
    ret (inr (start, end_, incr))
    end end end
  else
    do nil <- L_NIL ;;
    do e <- make_error ErrorCode.invalid_argc nil ;;
    ret (inl e).

Definition native_range (argc : Z) : M ptr :=
  do args <- native_range_args argc ;;
  match args with
  | inl early => ret early
  | inr (start, end_, incr) =>
      if decide (incr = 0)%Z then get_nil else
      do lat <- ListBuilder_new ;;
      do lat <- native_range_loop fuel start end_ incr lat ;;
      ret (ListBuilder_result lat)
  end.

Definition native_unbind (argc : Z) : M ptr :=
  expect! L_EXPECT_ARGC argc 1 ;;
  expect! L_EXPECT_OP 0 VType.symbol ;;
  do op0 <- get_op0 ;;
  run globals_tree_erase fuel op0 ;;
  get_nil.

(** The native functions by their index in [builtin_names]; those that the
    development does not look into are taken from [host_native]. *)
Variable host_native : nat -> Z -> M ptr.

Definition cpp_impl (impl : nat) (argc : Z) : M ptr :=
  match impl with
  | 0 => native_set argc
  | 1 => native_cons argc
  | 2 => native_car argc
  | 3 => native_cdr argc
  | 4 => native_list argc
  | 5 => native_arg argc
  | 6 => native_progn argc
  | 7 => native_any_true argc
  | 8 => native_all_true argc
  | 9 => native_not argc
  | 10 => native_equal argc
  | 22 => native_range argc
  | 23 => native_unbind argc
  | _ => host_native impl argc
  end.
End natives.

(** ** [funcall] *)

Section evaluator.
Variable fuel : nat.
Variable host_native : nat -> Z -> M ptr.
Variable rec : Interp.

(** The loop over the body of an interpreted function. *)
Fixpoint funcall_body_loop (n : nat) (obj : ptr) (argc break_loc : Z)
    (expression_list : ptr) : M unit :=
  match n with
  | 0 => fail out_of_fuel
  | S n' =>
      do nil <- get_nil ;;
      if decide (expression_list = nil) then ret tt else
      do t <- type expression_list ;;
      if decide (t <> VType.cons) then ret tt else
      run pop_op ;;
      run modify (with_arguments_break_loc_ break_loc) ;;
      run modify (with_current_fn_argc_ argc) ;;
      run modify (with_this_ obj) ;;
      do expression <- cons_car expression_list ;;
      run eval_ rec expression ;;
      do rest <- cons_cdr expression_list ;;
      funcall_body_loop n' obj argc break_loc rest
  end.

(** The case [Value::Type::function] of the switch of [funcall]. *)
Definition funcall_function (obj : ptr) (argc : Z) : M unit :=
  do size <- stack_size ;;
  if decide (Z.of_nat size < argc)%Z then
    run pop_args argc ;;
    do e <- make_error ErrorCode.invalid_argc obj ;;
    push_op e
  else
    do mode <- mode_bits obj ;;
    match mode with
    | ModeBits.cpp_function =>
        do impl <- function_cpp_impl obj ;;
        do result <- cpp_impl fuel host_native impl argc ;;
        run pop_args argc ;;
        push_op result
    | ModeBits.lisp_function =>
        do '(code, bindings) <- function_refs obj ;;
        run modify (with_lexical_bindings_ bindings) ;;
        do size <- stack_size ;;
        let break_loc := wrap_u16 (Z.of_nat size - 1) in
        let expression_list := code in
        do result <- get_nil ;;
        run push_op result ;;
        run funcall_body_loop fuel obj argc break_loc expression_list ;;
        do result <- get_op0 ;;
        run pop_op ;;
        run pop_args argc ;;
        push_op result
    | ModeBits.lisp_bytecode_function =>
        do size <- stack_size ;;
        let break_loc := wrap_u16 (Z.of_nat size - 1) in
        run modify (with_arguments_break_loc_ break_loc) ;;
        run modify (with_current_fn_argc_ argc) ;;
        run modify (with_this_ obj) ;;
        do '(bytecode, bindings) <- function_refs obj ;;
        run modify (with_lexical_bindings_ bindings) ;;
        do databuffer <- cons_cdr bytecode ;;
        do bytecode_offset <- cons_car bytecode ;;
        do start_offset <- integer_value bytecode_offset ;;
        run vm_execute_ rec databuffer start_offset ;;
        do result <- get_op0 ;;
        run pop_op ;;
        run pop_args argc ;;
        push_op result
    | ModeBits.none => ret tt
    end.

Definition funcall (obj : ptr) (argc : Z) : M unit :=
  do prev_this <- get_this ;;
  do prev_bindings <- gets lexical_bindings_ ;;
  do prev_arguments_break_loc <- gets arguments_break_loc_ ;;
  do prev_argc <- gets current_fn_argc_ ;;
  do t <- type obj ;;
  run (if decide (t = VType.function) then funcall_function obj argc
       else
         do nil <- L_NIL ;;
         do e <- make_error ErrorCode.value_not_callable nil ;;
         push_op e) ;;
  run modify (with_this_ prev_this) ;;
  run modify (with_lexical_bindings_ prev_bindings) ;;
  run modify (with_arguments_break_loc_ prev_arguments_break_loc) ;;
  modify (with_current_fn_argc_ prev_argc).

(** ** Special forms *)

(** Modelled from the spec: a [foreach] whose callback updates variables
    that it captures by reference is the same walk, with the captured
    variables passed along. *)
Fixpoint foreach_with {S} (fuel : nat) (list : ptr)
    (callback : S -> ptr -> M S) (s : S) : M S :=
  match fuel with
  | 0 => fail out_of_fuel
  | S fuel' =>
      do t <- type list ;;
      if decide (t <> VType.cons) then ret s else
      do a <- cons_car list ;;
      do s' <- callback s a ;;
      do d <- cons_cdr list ;;
      foreach_with fuel' d callback s'
  end.

Definition mismatched_parentheses_error : M ptr :=
  do nil <- L_NIL ;;
  make_error ErrorCode.mismatched_parentheses nil.

(** The first callback of [eval_let]: one binding. *)
Definition eval_let_binding (result : nat) (binding_list_builder : ListBuilder)
    (val : ptr) : M ListBuilder :=
  do r <- Protected_get result ;;
  do nil <- get_nil ;;
  if decide (r <> nil) then ret binding_list_builder else
  do t <- type val ;;
  if decide (t = VType.cons) then
    do sym <- cons_car val ;;
    do bind <- cons_cdr val ;;
    do tsym <- type sym ;;
    do well_formed <- (if decide (tsym = VType.symbol) then
                         do tbind <- type bind ;;
                         ret (bool_decide (tbind = VType.cons))
                       else ret false) ;;
    if well_formed then
      do expression <- cons_car bind ;;
      run eval_ rec expression ;;
      do top <- get_op0 ;;
      do kvp <- make_cons sym top ;;
      do builder <- ListBuilder_push_back binding_list_builder kvp ;;
      run pop_op ;;
      ret builder
    else
      do e <- mismatched_parentheses_error ;;
      run Protected_set result e ;;
      ret binding_list_builder
  else
    do e <- mismatched_parentheses_error ;;
    run Protected_set result e ;;
    ret binding_list_builder.

Definition eval_let (code : ptr) : M unit :=
  do t <- type code ;;
  if decide (t <> VType.cons) then
    do e <- mismatched_parentheses_error ;; push_op e
  else
  do bindings <- cons_car code ;;
  do nil <- get_nil ;;
  with_Protected nil (fun result =>
    do builder <- ListBuilder_new ;;
    do builder <- foreach_with fuel bindings (eval_let_binding result)
                    builder ;;
    do r <- Protected_get result ;;
    do nil <- get_nil ;;
    if decide (r <> nil) then push_op r else
    do outer <- gets lexical_bindings_ ;;
    do new_binding_list <- make_cons (ListBuilder_result builder) outer ;;
    do tn <- type new_binding_list ;;
    if decide (tn = VType.error) then push_op new_binding_list else
    run modify (with_lexical_bindings_ new_binding_list) ;;
    do body <- cons_cdr code ;;
    run foreach fuel body (fun val =>
          run eval_ rec val ;;
          do top <- get_op0 ;;
          run Protected_set result top ;;
          pop_op) ;;
    do inner <- gets lexical_bindings_ ;;
    do rest <- cons_cdr inner ;;
    run modify (with_lexical_bindings_ rest) ;;
    do r <- Protected_get result ;;
    push_op r).

Definition eval_macro (code : ptr) : M unit :=
  do name <- cons_car code ;;
  do t <- type name ;;
  if decide (t = VType.symbol) then
    do macros <- gets macros_ ;;
    do macros' <- make_cons code macros ;;
    run modify (with_macros_ macros') ;;
    do nil <- get_nil ;;
    push_op nil
  else fail fatal.

Definition eval_if (code : ptr) : M unit :=
  do t <- type code ;;
  if decide (t <> VType.cons) then
    do e <- mismatched_parentheses_error ;; push_op e
  else
  do cond <- cons_car code ;;
  do nil <- get_nil ;;
  do rest <- cons_cdr code ;;
  do trest <- type rest ;;
  do '(true_branch, false_branch) <-
    (if decide (trest = VType.cons) then
       do true_branch <- cons_car rest ;;
       do rest2 <- cons_cdr rest ;;
       do trest2 <- type rest2 ;;
       if decide (trest2 = VType.cons) then
         do false_branch <- cons_car rest2 ;;
         ret (true_branch, false_branch)
       else ret (true_branch, nil)
     else ret (nil, nil)) ;;
  run eval_ rec cond ;;
  do c <- get_op0 ;;
  do b <- is_boolean_true c ;;
  run (if b then eval_ rec true_branch else eval_ rec false_branch) ;;
  do result <- get_op0 ;;
  run pop_op ;;
  run pop_op ;;
  push_op result.

Definition eval_lambda (code : ptr) : M unit :=
  do f <- make_lisp_function code ;;
  push_op f.

(** [v->type() == symbol and str_cmp(v->symbol().name_, name) == 0]. *)
Definition is_symbol_named (v : ptr) (name : string) : M bool :=
  do t <- type v ;;
  if decide (t = VType.symbol) then
    do s <- symbol_chars v ;;
    ret (bool_decide (str_cmp s (ascii_of_string name) = 0%Z))
  else ret false.

(** The inner loop of the splice case of [eval_quasiquote]. *)
Fixpoint quasiquote_splice (n : nat) (result : ptr) (builder : ListBuilder)
  : M ListBuilder :=
  match n with
  | 0 => fail out_of_fuel
  | S n' =>
      do nil <- get_nil ;;
      if decide (result = nil) then ret builder else
      do a <- cons_car result ;;
      do builder <- ListBuilder_push_back builder a ;;
      do d <- cons_cdr result ;;
      quasiquote_splice n' d builder
  end.

(** The loop of [eval_quasiquote]; [self] is the function itself, for the
    nested lists.  [None]: the function has returned from inside the
    loop. *)
Fixpoint eval_quasiquote_loop (n : nat) (self : ptr -> M unit) (code : ptr)
    (builder : ListBuilder) : M (option ListBuilder) :=
  match n with
  | 0 => fail out_of_fuel
  | S n' =>
      do nil <- get_nil ;;
      if decide (code = nil) then ret (Some builder) else
      do a <- cons_car code ;;
      do unquote <- is_symbol_named a "," ;;
      if unquote then
        do code <- cons_cdr code ;;
        do nil <- get_nil ;;
        if decide (code = nil) then
          do s <- make_string (ascii_of_string "extraneous unquote") ;;
          do e <- make_error ErrorCode.invalid_syntax s ;;
          run push_op e ;;
          ret None
        else
        do a <- cons_car code ;;
        do splice <- is_symbol_named a "@" ;;
        if splice then
          do code <- cons_cdr code ;;
          do a <- cons_car code ;;
          run eval_ rec a ;;
          do result <- get_op0 ;;
          do l <- is_list fuel result ;;
          do builder <- (if l then quasiquote_splice fuel result builder
                         else ListBuilder_push_back builder result) ;;
          run pop_op ;;
          do code <- cons_cdr code ;;
          eval_quasiquote_loop n' self code builder
        else
          do a <- cons_car code ;;
          run eval_ rec a ;;
          do result <- get_op0 ;;
          run pop_op ;;
          do builder <- ListBuilder_push_back builder result ;;
          do code <- cons_cdr code ;;
          eval_quasiquote_loop n' self code builder
      else
        do a <- cons_car code ;;
        do l <- is_list fuel a ;;
        do builder <-
          (if l then
             do a <- cons_car code ;;
             run self a ;;
             do top <- get_op0 ;;
             do builder <- ListBuilder_push_back builder top ;;
             run pop_op ;;
             ret builder
           else
             do a <- cons_car code ;;
             ListBuilder_push_back builder a) ;;
        do code <- cons_cdr code ;;
        eval_quasiquote_loop n' self code builder
  end.

Fixpoint eval_quasiquote (n : nat) (code : ptr) : M unit :=
  match n with
  | 0 => fail out_of_fuel
  | S n' =>
      do builder <- ListBuilder_new ;;
      do r <- eval_quasiquote_loop fuel (eval_quasiquote n') code builder ;;
      match r with
      | None => ret tt
      | Some builder => push_op (ListBuilder_result builder)
      end
  end.

(** ** [eval] *)

Definition enter_interp : M unit :=
  modify (fun c => with_interp_entry_count_ (interp_entry_count_ c + 1)%Z c).

Definition leave_interp : M unit :=
  modify (fun c => with_interp_entry_count_ (interp_entry_count_ c - 1)%Z c).

(** [result = get_op0(); pop_op(); pop_op(); push_op(result)]: the result
    takes the place of the form that [eval] keeps on the stack. *)
Definition result_over_code : M unit :=
  do result <- get_op0 ;;
  run pop_op ;;
  run pop_op ;;
  push_op result.

(** The special forms of [eval].  [false]: the name is none of them. *)
Definition eval_special_form (name : cstring) (code : ptr) : M bool :=
  let named s := bool_decide (str_cmp name (ascii_of_string s) = 0%Z) in
  if named "if" then
    do rest <- cons_cdr code ;;
    run eval_if rest ;;
    run result_over_code ;;
    run leave_interp ;;
    ret true
  else if named "lambda" then
    do rest <- cons_cdr code ;;
    run eval_lambda rest ;;
    run result_over_code ;;
    run leave_interp ;;
    ret true
  else if named "'" then
    run pop_op ;;
    do rest <- cons_cdr code ;;
    run push_op rest ;;
    run leave_interp ;;
    ret true
  else if named "`" then
    do rest <- cons_cdr code ;;
    run eval_quasiquote fuel rest ;;
    run result_over_code ;;
    run leave_interp ;;
    ret true
  else if named "let" then
    do rest <- cons_cdr code ;;
    run eval_let rest ;;
    run result_over_code ;;
    run leave_interp ;;
    ret true
  else if named "macro" then
    do rest <- cons_cdr code ;;
    run eval_macro rest ;;
    run pop_op ;;
    run leave_interp ;;
    ret true
  else ret false.

(** The loop over the arguments of a call: [argc] counts the arguments
    evaluated so far.  The second component is the tail of the argument
    list at which the loop gave up, if it is not a list. *)
Fixpoint eval_arguments (n : nat) (arg_list : ptr) (argc : nat)
  : M (nat * option ptr) :=
  match n with
  | 0 => fail out_of_fuel
  | S n' =>
      do nil <- get_nil ;;
      if decide (arg_list = nil) then ret (argc, None) else
      do t <- type arg_list ;;
      if decide (t <> VType.cons) then ret (argc, Some arg_list) else
      do a <- cons_car arg_list ;;
      run eval_ rec a ;;
      do rest <- cons_cdr arg_list ;;
      eval_arguments n' rest (S argc)
  end.

(** What [eval] does with the result of the call: an error without a
    context gets the form as its context. *)
Definition attach_context (result code : ptr) : M unit :=
  do t <- type result ;;
  if decide (t = VType.error) then
    do context <- error_context result ;;
    do nil <- L_NIL ;;
    if decide (context = nil) then set_error_context result code
    else ret tt
  else ret tt.

(** The end of [eval], for a form that is a call: first the function and
    the arguments are evaluated, which leaves the arguments on the operand
    stack.  The result is the function, the number of arguments, and the
    tail at which the argument list turned out not to be a list. *)
Definition eval_operands (code : ptr) : M (ptr * nat * option ptr) :=
  do head <- cons_car code ;;
  run eval_ rec head ;;
  do function <- get_op0 ;;
  run pop_op ;;
  do arg_list <- cons_cdr code ;;
  do '(argc, malformed) <- eval_arguments fuel arg_list 0 ;;
  ret (function, argc, malformed).

Definition eval_call (code : ptr) : M unit :=
  do '(function, argc, malformed) <- eval_operands code ;;
  match malformed with
  | Some arg_list =>
      run pop_n argc ;;
      run pop_op ;;
      do e <- make_error ErrorCode.value_not_callable arg_list ;;
      run push_op e ;;
      leave_interp
  | None =>
      run funcall_ rec function (wrap_u8 (Z.of_nat argc)) ;;
      do result <- get_op0 ;;
      run attach_context result code ;;
      run pop_op ;;
      run pop_op ;;
      run push_op result ;;
      leave_interp
  end.

Definition eval (code : ptr) : M unit :=
  run enter_interp ;;
  run push_op code ;;
  do t <- type code ;;
  if decide (t = VType.symbol) then
    run pop_op ;;
    do v <- get_var fuel code ;;
    push_op v
  else if decide (t = VType.cons) then
    do form <- cons_car code ;;
    do tf <- type form ;;
    do special <- (if decide (tf = VType.symbol) then
                     do name <- symbol_chars form ;;
                     eval_special_form name code
                   else ret false) ;;
    if special then ret tt else eval_call code
  else ret tt.

(** ** The virtual machine *)

(** The instructions, with their inline operands.  The encoding of the
    instructions is in bytecode.hpp, which is not among the sources:
    [fetch data pc] is the instruction at [pc] and its size in bytes, and
    [None] stands for a byte that is the opcode of none of them. *)
Inductive Instruction :=
| JumpIfFalse (offset_ : Z)
| Jump (offset_ : Z)
| SmallJumpIfFalse (offset_ : Z)
| SmallJump (offset_ : Z)
| LoadVar (name_offset_ : Z)
| Dup
| Not
| PushNil
| PushInteger (value_ : Z)
| Push0
| Push1
| Push2
| PushSmallInteger (value_ : Z)
| PushSymbol (name_offset_ : Z)
| PushString (length_ : Z)
| TailCall (argc_ : Z)
| TailCall1
| TailCall2
| TailCall3
| Funcall (argc_ : Z)
| Funcall1
| Funcall2
| Funcall3
| Arg
| Arg0
| Arg1
| Arg2
| MakePair
| First
| Rest
| Pop
| EarlyRet
| Ret
| PushLambda (lambda_end_ : Z)
| PushList (element_count_ : Z)
| PushThis
| LexicalDef (name_offset_ : Z)
| LexicalFramePush
| LexicalFramePop
| Fatal.

Variable fetch : list ascii -> Z -> option (Instruction * Z).

(** [unwind_lexical_scope]: a count below zero never reaches zero, and
    the pops run off the end of the chain of frames. *)
Fixpoint lexical_frame_pop_n (n : nat) : M unit :=
  match n with
  | 0 => ret tt
  | S n' => run lexical_frame_pop ;; lexical_frame_pop_n n'
  end.

Definition unwind_lexical_scope (nested_scope : Z) : M unit :=
  if decide (nested_scope < 0)%Z then fail undefined_behaviour
  else lexical_frame_pop_n (Z.to_nat nested_scope).

(** The state of the loop of [vm_execute] after an instruction: the
    program counter and the count of open lexical frames, or [None] after
    [Ret]. *)
Definition VmNext : Type := option (Z * Z).

(** [Protected fn(get_op(0)); pop_op(); funcall(fn, argc)]. *)
Definition vm_funcall (argc : Z) : M unit :=
  do top <- get_op 0 ;;
  with_Protected top (fun fn =>
    run pop_op ;;
    do f <- Protected_get fn ;;
    funcall_ rec f argc).

(** The case [TailCall]. *)
Definition vm_tail_call (start_offset pc nested_scope argc : Z) : M VmNext :=
  do top <- get_op 0 ;;
  with_Protected top (fun fn =>
    do f <- Protected_get fn ;;
    do this <- get_this ;;
    if decide (f = this) then
      run pop_op ;;
      do current_argc <- get_argc ;;
      if decide (current_argc <> argc) then fail hang else
      if decide (argc = 0)%Z then
        run unwind_lexical_scope nested_scope ;;
        ret (Some (start_offset, 0%Z))
      else
        do f <- Protected_get fn ;;
        run funcall_ rec f argc ;;
        ret (Some (pc, nested_scope))
    else
      run pop_op ;;
      do f <- Protected_get fn ;;
      run funcall_ rec f argc ;;
      ret (Some (pc, nested_scope))).

(** The cases [TailCall1], [TailCall2] and [TailCall3], for [n] = 1, 2
    and 3: the arguments are read at the offsets 1 to [n], the function,
    the arguments and the previous arguments are popped, and the arguments
    are pushed back, the deepest first. *)
Fixpoint get_ops (n : nat) (offset : nat) : M (list ptr) :=
  match n with
  | 0 => ret []
  | S n' =>
      do a <- get_op offset ;;
      do rest <- get_ops n' (S offset) ;;
      ret (a :: rest)
  end.

Definition vm_tail_call_n (start_offset pc nested_scope : Z) (n : nat)
  : M VmNext :=
  do top <- get_op 0 ;;
  with_Protected top (fun fn =>
    do f <- Protected_get fn ;;
    do this <- get_this ;;
    if decide (f = this) then
      do args <- get_ops n 1 ;;
      do current_argc <- get_argc ;;
      if decide (current_argc <> Z.of_nat n) then fail hang else
      run pop_op ;;
      run pop_n n ;;
      run pop_n n ;;
      run for_each (reverse args) push_op ;;
      run unwind_lexical_scope nested_scope ;;
      ret (Some (start_offset, 0%Z))
    else
      run pop_op ;;
      do f <- Protected_get fn ;;
      run funcall_ rec f (Z.of_nat n) ;;
      ret (Some (pc, nested_scope))).

(** The loops of the case [PushList]. *)
Fixpoint push_list_fill (n : nat) (list_size i : nat) (lat : nat) : M unit :=
  match n with
  | 0 => ret tt
  | S n' =>
      do l <- Protected_get lat ;;
      do v <- get_op ((list_size - 1) - i) ;;
      run set_list l i v ;;
      push_list_fill n' list_size (S i) lat
  end.

(** One instruction of [vm_execute]; [pc] is the program counter after
    the instruction has been read. *)
Definition vm_step (code_buffer : ptr) (start_offset pc nested_scope : Z)
    (inst : Instruction) : M VmNext :=
  let continue := ret (Some (pc, nested_scope)) in
  let jump offset := ret (Some ((start_offset + offset)%Z, nested_scope)) in
  match inst with
  | JumpIfFalse offset | SmallJumpIfFalse offset =>
      do top <- get_op 0 ;;
      do b <- is_boolean_true top ;;
      run pop_op ;;
      if negb b then jump offset else continue
  | Jump offset | SmallJump offset => jump offset
  | LoadVar name_offset =>
      do v <- get_var_stable fuel (symbol_from_offset (Z.to_nat name_offset)) ;;
      run push_op v ;;
      continue
  | Dup =>
      do top <- get_op 0 ;;
      run push_op top ;;
      continue
  | Not =>
      do input <- get_op 0 ;;
      run pop_op ;;
      do b <- is_boolean_true input ;;
      do v <- make_integer (Z_of_bool (negb b)) ;;
      run push_op v ;;
      continue
  | PushNil =>
      do nil <- get_nil ;;
      run push_op nil ;;
      continue
  | PushInteger value | PushSmallInteger value =>
      do v <- make_integer value ;;
      run push_op v ;;
      continue
  | Push0 => do v <- make_integer 0 ;; run push_op v ;; continue
  | Push1 => do v <- make_integer 1 ;; run push_op v ;; continue
  | Push2 => do v <- make_integer 2 ;; run push_op v ;; continue
  | PushSymbol name_offset =>
      do v <- make_symbol
                (interned (symbol_from_offset (Z.to_nat name_offset)))
                stable_pointer ;;
      run push_op v ;;
      continue
  | PushString length =>
      do data <- data_buffer_data code_buffer ;;
      do s <- expect (c_str_at data (Z.to_nat pc)) ;;
      do v <- make_string s ;;
      run push_op v ;;
      ret (Some ((pc + length)%Z, nested_scope))
  | TailCall argc => vm_tail_call start_offset pc nested_scope argc
  | TailCall1 => vm_tail_call_n start_offset pc nested_scope 1
  | TailCall2 => vm_tail_call_n start_offset pc nested_scope 2
  | TailCall3 => vm_tail_call_n start_offset pc nested_scope 3
  | Funcall argc => run vm_funcall argc ;; continue
  | Funcall1 => run vm_funcall 1 ;; continue
  | Funcall2 => run vm_funcall 2 ;; continue
  | Funcall3 => run vm_funcall 3 ;; continue
  | Arg =>
      do arg_num <- get_op 0 ;;
      do n <- integer_value arg_num ;;
      do arg <- get_arg (wrap_u16 n) ;;
      run pop_op ;;
      run push_op arg ;;
      continue
  | Arg0 => do a <- get_arg 0 ;; run push_op a ;; continue
  | Arg1 => do a <- get_arg 1 ;; run push_op a ;; continue
  | Arg2 => do a <- get_arg 2 ;; run push_op a ;; continue
  | MakePair =>
      do car <- get_op 1 ;;
      do cdr <- get_op 0 ;;
      do cons <- make_cons car cdr ;;
      run pop_op ;;
      run pop_op ;;
      run push_op cons ;;
      continue
  | First =>
      do arg <- get_op 0 ;;
      run pop_op ;;
      do t <- type arg ;;
      do v <- (if decide (t = VType.cons) then cons_car arg
               else
                 do nil <- L_NIL ;;
                 make_error ErrorCode.invalid_argument_type nil) ;;
      run push_op v ;;
      continue
  | Rest =>
      do arg <- get_op 0 ;;
      run pop_op ;;
      do t <- type arg ;;
      do v <- (if decide (t = VType.cons) then cons_cdr arg
               else
                 do nil <- L_NIL ;;
                 make_error ErrorCode.invalid_argument_type nil) ;;
      run push_op v ;;
      continue
  | Pop => run pop_op ;; continue
  | EarlyRet | Ret => ret None
  | PushLambda lambda_end =>
      do offset <- make_integer pc ;;
      do t <- type offset ;;
      run (if decide (t = VType.integer) then
             do bytecode <- make_cons offset code_buffer ;;
             do tb <- type bytecode ;;
             if decide (tb = VType.cons) then
               do fn <- make_bytecode_function bytecode ;;
               push_op fn
             else push_op bytecode
           else push_op offset) ;;
      jump lambda_end
  | PushList element_count =>
      let list_size := Z.to_nat element_count in
      do l <- make_list list_size ;;
      with_Protected l (fun lat =>
        run push_list_fill list_size list_size 0 lat ;;
        run pop_n list_size ;;
        do l <- Protected_get lat ;;
        run push_op l ;;
        continue)
  | PushThis =>
      do this <- get_this ;;
      run push_op this ;;
      continue
  | LexicalDef name_offset =>
      do s <- make_symbol
                (interned (symbol_from_offset (Z.to_nat name_offset)))
                stable_pointer ;;
      with_Protected s (fun sym =>
        do s <- Protected_get sym ;;
        do top <- get_op 0 ;;
        do pair <- make_cons s top ;;
        run pop_op ;;
        run push_op pair ;;
        run lexical_frame_store pair ;;
        run pop_op ;;
        continue)
  | LexicalFramePush =>
      run lexical_frame_push ;;
      ret (Some (pc, (nested_scope + 1)%Z))
  | LexicalFramePop =>
      run lexical_frame_pop ;;
      ret (Some (pc, (nested_scope - 1)%Z))
  | Fatal => fail hang
  end.

(** The loop of [vm_execute], with [n] instructions granted. *)
Fixpoint vm_loop (n : nat) (code_buffer : ptr) (start_offset pc : Z)
    (nested_scope : Z) : M unit :=
  match n with
  | 0 => fail out_of_fuel
  | S n' =>
      do data <- data_buffer_data code_buffer ;;
      match fetch data pc with
      | None => fail hang
      | Some (inst, size) =>
          do next <- vm_step code_buffer start_offset (pc + size)%Z
                       nested_scope inst ;;
          match next with
          | None => ret tt
          | Some (pc', nested_scope') =>
              vm_loop n' code_buffer start_offset pc' nested_scope'
          end
      end
  end.

Definition vm_execute (code_buffer : ptr) (start_offset : Z) : M unit :=
  vm_loop fuel code_buffer start_offset start_offset 0.

(** ** The reader *)

(** [code[i]]: the byte at [i] of a NUL-terminated string. *)
Definition char_at (code : cstring) (i : nat) : ascii := nth i code NUL.

Definition is_char (ch : ascii) (s : string) : bool :=
  bool_decide (ch ∈ ascii_of_string s).

Definition CR : ascii := ascii_of_nat 13.
Definition LF : ascii := ascii_of_nat 10.
Definition TAB : ascii := ascii_of_nat 9.
Definition SPACE : ascii := ascii_of_nat 32.
Definition DQUOTE : ascii := ascii_of_nat 34.

Definition is_space (ch : ascii) : bool :=
  bool_decide (ch ∈ [CR; LF; TAB; SPACE]).

(** The loop that skips a comment: up to the end of the line. *)
Fixpoint skip_comment (n : nat) (code : cstring) (i : nat) : nat :=
  match n with
  | 0 => i
  | S n' =>
      let ch := char_at code i in
      if bool_decide (ch = NUL \/ ch = CR \/ ch = LF) then i
      else skip_comment n' code (S i)
  end.

(** [hextable] and [hexdec]. *)
Definition hextable (ch : ascii) : Z :=
  let n := ascii_code ch in
  if decide (48 <= n <= 57)%Z then (n - 48)%Z
  else if decide (65 <= n <= 70)%Z then (n - 55)%Z
  else if decide (97 <= n <= 102)%Z then (n - 87)%Z
  else (-1)%Z.

Fixpoint hexdec (hex : cstring) (ret_ : Z) : Z :=
  match hex with
  | [] => ret_
  | ch :: rest =>
      if decide (0 <= ret_)%Z
      then hexdec rest (wrap_s32 (Z.lor (Z.shiftl ret_ 4) (hextable ch)))
      else ret_
  end.

(** The bytes that [read_number] takes. *)
Definition is_number_char (ch : ascii) : bool :=
  is_char ch "xabcdef0123456789".

Fixpoint read_number_scan (code : cstring) : cstring :=
  match code with
  | ch :: rest =>
      if is_number_char ch then ch :: read_number_scan rest else []
  | [] => []
  end.

(** [result = result * 10 + (num_str[i] - '0')] over the digits. *)
Definition parse_decimal (num_str : cstring) : Z :=
  foldl (fun result ch => wrap_s32 (result * 10 + (ascii_code ch - 48))%Z)
    0%Z num_str.

Definition read_number (code : cstring) : M nat :=
  let scanned := read_number_scan code in
  let i := length scanned in
  let num_str := StringBuffer_append 64 [] scanned in
  do v <- (if bool_decide (1 < length num_str /\
                           num_str !! 1 = Some (ascii_of_nat 120))
           then make_integer (hexdec (drop 2 num_str) 0)
           else make_integer (parse_decimal num_str)) ;;
  run push_op v ;;
  ret i.

(** The bytes at which [read_symbol] stops. *)
Definition is_delimiter (ch : ascii) : bool :=
  is_char ch "[]() ;" || bool_decide (ch ∈ [CR; LF; TAB; NUL]).

Fixpoint read_symbol_scan (code : cstring) : cstring :=
  match code with
  | ch :: rest =>
      if is_delimiter ch then [] else ch :: read_symbol_scan rest
  | [] => []
  end.

Definition read_symbol (code : cstring) : M nat :=
  let c0 := char_at code 0 in
  if is_char c0 "'`,@" then
    do v <- make_symbol (chars [c0]) requires_intern ;;
    run push_op v ;;
    ret 1
  else
    let scanned := read_symbol_scan code in
    let i := length scanned in
    let symbol := StringBuffer_append 64 [] scanned in
    run (if decide (symbol = ascii_of_string "nil") then
           do nil <- get_nil ;; push_op nil
         else
           do v <- make_symbol (chars symbol) requires_intern ;;
           push_op v) ;;
    ret i.

(** The loop of [read_string]: [i] bytes have been copied to [written].
    At the end of the input, and when the buffer is full, the source
    pushes an error and goes on copying, past the end of the input or of
    the buffer. *)
Fixpoint read_string_loop (n : nat) (code : cstring) (i : nat)
    (written : cstring) : M (nat * cstring) :=
  match n with
  | 0 => fail out_of_fuel
  | S n' =>
      let ch := char_at code i in
      if decide (ch = DQUOTE) then ret (i, written) else
      run (if bool_decide (ch = NUL \/ i = SCRATCH_BUFFER_SIZE - 1) then
             do e <- mismatched_parentheses_error ;; push_op e
           else ret tt) ;;
      if bool_decide (ch = NUL \/ SCRATCH_BUFFER_SIZE <= i)
      then fail undefined_behaviour
      else read_string_loop n' code (S i) (written ++ [ch])
  end.

Definition release_scratch_buffer : M unit :=
  modify (fun c => with_scratch_buffers_remaining
                     (S (scratch_buffers_remaining c)) c).

Definition read_string (code : cstring) : M nat :=
  do temp <- make_scratch_buffer ;;
  do '(i, written) <- read_string_loop (S SCRATCH_BUFFER_SIZE) code 0 [] ;;
  let i := S i in
  let data := written ++ drop (length written) temp in
  do s <- expect (c_str_at data 0) ;;
  do v <- make_string s ;;
  run push_op v ;;
  run release_scratch_buffer ;;
  ret i.

(** The loop of [read_list]: [result] is the last pair of the list under
    construction, whose first pair is on the operand stack. *)
Fixpoint read_list_loop (n : nat) (code : cstring) (i : nat) (result : ptr)
    (dotted_pair : bool) : M nat :=
  match n with
  | 0 => fail out_of_fuel
  | S n' =>
      let ch := char_at code i in
      do nil <- get_nil ;;
      if is_space ch then read_list_loop n' code (S i) result dotted_pair
      else if is_char ch "." then
        let i := i + 1 in
        if dotted_pair || bool_decide (result = nil) then
          do e <- mismatched_parentheses_error ;;
          run push_op e ;;
          ret i
        else
          do k <- read_ rec (drop i code) ;;
          let i := i + k in
          do top <- get_op0 ;;
          run set_cdr result top ;;
          run pop_op ;;
          read_list_loop n' code i result true
      else if is_char ch ";" then
        read_list_loop n' code (skip_comment (length code) code i) result
          dotted_pair
      else if is_char ch "])" then ret (S i)
      else if decide (ch = NUL) then
        run pop_op ;;
        do e <- mismatched_parentheses_error ;;
        run push_op e ;;
        ret i
      else
        if dotted_pair then
          do e <- mismatched_parentheses_error ;;
          run push_op e ;;
          ret i
        else
          do k <- read_ rec (drop i code) ;;
          let i := i + k in
          if decide (result = nil) then
            do top <- get_op0 ;;
            do nil <- get_nil ;;
            do result <- make_cons top nil ;;
            run pop_op ;;
            run pop_op ;;
            run push_op result ;;
            read_list_loop n' code i result dotted_pair
          else
            do top <- get_op0 ;;
            do nil <- get_nil ;;
            do next <- make_cons top nil ;;
            run pop_op ;;
            run set_cdr result next ;;
            read_list_loop n' code i next dotted_pair
  end.

Definition read_list (code : cstring) : M nat :=
  do result <- get_nil ;;
  do nil <- get_nil ;;
  run push_op nil ;;
  read_list_loop fuel code 0 result false.

(** The end of [read], from the label [READ_SYMBOL]. *)
Definition read_symbol_or_quote (code : cstring) (i : nat) : M nat :=
  run pop_op ;;
  do k <- read_symbol (drop i code) ;;
  let i := i + k in
  do top <- get_op0 ;;
  do quote <- is_symbol_named top "'" ;;
  do quasiquote <- (if quote then ret true else is_symbol_named top "`") ;;
  if quasiquote then
    do top <- get_op0 ;;
    do nil <- get_nil ;;
    do pair <- make_cons top nil ;;
    run push_op pair ;;
    do k <- read_ rec (drop i code) ;;
    let i := i + k in
    do top <- get_op0 ;;
    run set_cdr pair top ;;
    run pop_op ;;
    run pop_op ;;
    run pop_op ;;
    run push_op pair ;;
    ret i
  else ret i.

Definition is_digit (ch : ascii) : bool :=
  bool_decide (48 <= ascii_code ch <= 57)%Z.

Definition negate_top : M unit :=
  do top <- get_op0 ;;
  do v <- deref top ;;
  match payload v with
  | P_integer n => store top (mkValue (hdr_ v) (P_integer (wrap_s32 (n * -1))))
  | _ => fail undefined_behaviour
  end.

(** The loop of [read]. *)
Fixpoint read_loop (n : nat) (code : cstring) (i : nat) : M nat :=
  match n with
  | 0 => fail out_of_fuel
  | S n' =>
      let ch := char_at code i in
      if decide (ch = NUL) then ret i
      else if is_char ch "[(" then
        let i := S i in
        run pop_op ;;
        do k <- read_list (drop i code) ;;
        let i := i + k in
        run macroexpand_ rec ;;
        ret i
      else if is_char ch ";" then
        read_loop n' code (skip_comment (length code) code i)
      else if is_char ch "-" then
        if is_digit (char_at code (i + 1)) then
          let i := S i in
          run pop_op ;;
          do k <- read_number (drop i code) ;;
          let i := i + k in
          run negate_top ;;
          ret i
        else read_symbol_or_quote code i
      else if is_digit ch then
        run pop_op ;;
        do k <- read_number (drop i code) ;;
        ret (i + k)
      else if is_space ch then read_loop n' code (S i)
      else if decide (ch = DQUOTE) then
        run pop_op ;;
        do k <- read_string (drop (i + 1) code) ;;
        ret (i + k + 1)
      else read_symbol_or_quote code i
  end.

Definition read (code : cstring) : M nat :=
  do nil <- get_nil ;;
  run push_op nil ;;
  read_loop (S (length code)) code 0.

(** ** Macro expansion *)

Fixpoint macroexpand_macro_loop (n : nat) (lat : ptr) (result : ListBuilder)
  : M ListBuilder :=
  match n with
  | 0 => fail out_of_fuel
  | S n' =>
      do nil <- get_nil ;;
      if decide (lat = nil) then ret result else
      do a <- cons_car lat ;;
      do l <- is_list fuel a ;;
      do result <-
        (if l then
           do a <- cons_car lat ;;
           run push_op a ;;
           run macroexpand_macro_ rec ;;
           run macroexpand_ rec ;;
           do top <- get_op0 ;;
           do result <- ListBuilder_push_back result top ;;
           run pop_op ;;
           ret result
         else
           do a <- cons_car lat ;;
           ListBuilder_push_back result a) ;;
      do d <- cons_cdr lat ;;
      macroexpand_macro_loop n' d result
  end.

Definition macroexpand_macro : M unit :=
  do result <- ListBuilder_new ;;
  do lat <- get_op0 ;;
  do result <- macroexpand_macro_loop fuel lat result ;;
  run pop_op ;;
  push_op (ListBuilder_result result).

(** The loop that pairs the parameters of a macro with the quoted
    arguments. *)
Fixpoint macro_bindings (n : nat) (quote : nat)
    (macro_args supplied_macro_args : ptr) (builder : ListBuilder)
  : M ListBuilder :=
  match n with
  | 0 => fail out_of_fuel
  | S n' =>
      do nil <- get_nil ;;
      if decide (macro_args = nil) then ret builder else
      do assoc <- ListBuilder_new ;;
      do rest <- cons_cdr macro_args ;;
      do q <- Protected_get quote ;;
      do quoted <- (if decide (rest = nil)
                    then make_cons q supplied_macro_args
                    else
                      do a <- cons_car supplied_macro_args ;;
                      make_cons q a) ;;
      do assoc <- ListBuilder_push_front assoc quoted ;;
      do param <- cons_car macro_args ;;
      do assoc <- ListBuilder_push_front assoc param ;;
      do builder <- ListBuilder_push_back builder (ListBuilder_result assoc) ;;
      do macro_args <- cons_cdr macro_args ;;
      do supplied_macro_args <- cons_cdr supplied_macro_args ;;
      macro_bindings n' quote macro_args supplied_macro_args builder
  end.

(** The body of the loop of [macroexpand] for a macro whose name
    matches. *)
Definition macroexpand_match (lat macros : ptr) : M unit :=
  do supplied_macro_args <- cons_cdr lat ;;
  do entry <- cons_car macros ;;
  do macro <- cons_cdr entry ;;
  do macro_args <- cons_car macro ;;
  do expected <- length_ fuel macro_args ;;
  do supplied <- length_ fuel supplied_macro_args ;;
  if decide (supplied < expected)%Z then
    run pop_op ;;
    do s <- make_string
              (ascii_of_string "invalid arguments passed to marcro") ;;
    do e <- make_error ErrorCode.invalid_syntax s ;;
    push_op e
  else
    do q <- make_symbol (chars (ascii_of_string "'")) requires_intern ;;
    with_Protected q (fun quote =>
      do builder <- ListBuilder_new ;;
      do builder <- macro_bindings fuel quote macro_args supplied_macro_args
                      builder ;;
      do synthetic_let <- ListBuilder_new ;;
      do body <- cons_cdr macro ;;
      do form <- cons_car body ;;
      do synthetic_let <- ListBuilder_push_front synthetic_let form ;;
      do synthetic_let <- ListBuilder_push_front synthetic_let
                            (ListBuilder_result builder) ;;
      run eval_let (ListBuilder_result synthetic_let) ;;
      do result <- get_op0 ;;
      run pop_op ;;
      run pop_op ;;
      run push_op result ;;
      macroexpand_macro_ rec).

Fixpoint macroexpand_loop (n : nat) (lat macros : ptr) : M unit :=
  match n with
  | 0 => fail out_of_fuel
  | S n' =>
      do nil <- get_nil ;;
      if decide (macros = nil) then ret tt else
      do entry <- cons_car macros ;;
      do macro_symbol <- cons_car entry ;;
      do macro_name <- symbol_name macro_symbol ;;
      do head <- cons_car lat ;;
      do name <- symbol_name head ;;
      if decide (macro_name = name) then macroexpand_match lat macros
      else
        do rest <- cons_cdr macros ;;
        macroexpand_loop n' lat rest
  end.

(** [macroexpand].  Modelled from the spec: on a value that is not a pair
    (the nil that [read_list] leaves for [()], or the error that it leaves
    for a list that is not closed) [lat->cons().car()] reads the cell
    through the member [cons_] of [union ValueMemory], and the members of
    the union are declared in lisp.hpp, which is not among the sources.  The
    spec has the expander check the head symbol of the list that was read:
    a value that is not a pair has no head, nothing is expanded, and the
    value stays on the operand stack. *)
Definition macroexpand : M unit :=
  do lat <- get_op0 ;;
  do tl <- type lat ;;
  if decide (tl <> VType.cons) then ret tt else
  do head <- cons_car lat ;;
  do t <- type head ;;
  if decide (t = VType.symbol) then
    do macros <- gets macros_ ;;
    macroexpand_loop fuel lat macros
  else ret tt.

(** ** The printer *)

(** Modelled from the spec: [to_string<32>] (string.hpp) is not among the
    sources; it gives the decimal digits of an integer, after a minus sign
    when the integer is negative.  [digits_of n z acc] puts the digits of
    [z >= 0] in front of [acc]; [n] bounds their number. *)
Definition digit_char (d : Z) : ascii := ascii_of_nat (Z.to_nat (48 + d)).

Fixpoint digits_of (n : nat) (z : Z) (acc : cstring) : cstring :=
  match n with
  | 0 => acc
  | S n' =>
      if decide (z < 10)%Z then digit_char z :: acc
      else digits_of n' (z / 10)%Z (digit_char (z mod 10) :: acc)
  end.

Definition to_string (z : Z) : cstring :=
  if decide (z < 0)%Z then ascii_of_string "-" ++ digits_of 32 (- z) []
  else digits_of 32 z [].

(** The names of the error codes are in lisp.hpp, which is not among the
    sources. *)
Variable Error_get_string : ErrorCode.t -> cstring.

(** The loop of the case [cons] of [format_impl] over the rest of a list;
    [format_impl] is the function itself at the next depth. *)
Fixpoint format_list_tail (n : nat) (format_impl : ptr -> M cstring)
    (current : ptr) : M cstring :=
  match n with
  | 0 => fail out_of_fuel
  | S n' =>
      do d <- cons_cdr current ;;
      do td <- type d ;;
      if decide (td = VType.cons) then
        do a <- cons_car d ;;
        do sa <- format_impl a ;;
        do rest <- format_list_tail n' format_impl d ;;
        ret (ascii_of_string " " ++ sa ++ rest)
      else
        do nil <- get_nil ;;
        if decide (d <> nil) then
          do sd <- format_impl d ;;
          ret (ascii_of_string " " ++ sd)
        else ret []
  end.

(** [format_impl]: the text that the source hands to the printer. *)
Fixpoint format_impl (n : nat) (value : ptr) (depth : nat) : M cstring :=
  match n with
  | 0 => fail out_of_fuel
  | S n' =>
      do t <- type value ;;
      match t with
      | VType.heap_node => fail fatal
      | VType.nil =>
          ret (ascii_of_string (if decide (depth = 0) then "'()" else "()"))
      | VType.__reserved => ret []
      | VType.character => ret []
      | VType.string =>
          do s <- String_value value ;;
          ret ([DQUOTE] ++ s ++ [DQUOTE])
      | VType.symbol => symbol_chars value
      | VType.integer =>
          do z <- integer_value value ;;
          ret (to_string z)
      | VType.cons =>
          let prefix := if decide (depth = 0) then ascii_of_string "'"
                        else [] in
          do a <- cons_car value ;;
          do sa <- format_impl n' a (depth + 1) ;;
          do d <- cons_cdr value ;;
          do td <- type d ;;
          do rest <-
            (if decide (td = VType.nil) then ret []
             else if decide (td <> VType.cons) then
               do sd <- format_impl n' d (depth + 1) ;;
               ret (ascii_of_string " . " ++ sd)
             else
               format_list_tail fuel
                 (fun v => format_impl n' v (depth + 1)) value) ;;
          ret (prefix ++ ascii_of_string "(" ++ sa ++ rest
                 ++ ascii_of_string ")")
      | VType.function => ret (ascii_of_string "<lambda>")
      | VType.user_data => ret (ascii_of_string "<ud>")
      | VType.error =>
          do code <- error_code value ;;
          do context <- error_context value ;;
          do sc <- format_impl n' context 0 ;;
          ret (ascii_of_string "[ERR: " ++ Error_get_string code
                 ++ ascii_of_string " : " ++ sc ++ ascii_of_string "]")
      | VType.data_buffer => ret (ascii_of_string "<sbr>")
      end
  end.

Definition format (value : ptr) : M cstring := format_impl fuel value 0.

(** The six functions at this depth of calls. *)
Definition interp_step : Interp :=
  mkInterp eval funcall vm_execute read macroexpand macroexpand_macro.
End evaluator.

(** No call fits in a depth of zero. *)
Definition interp_none : Interp :=
  mkInterp (fun _ => fail out_of_fuel) (fun _ _ => fail out_of_fuel)
    (fun _ _ => fail out_of_fuel) (fun _ => fail out_of_fuel)
    (fail out_of_fuel) (fail out_of_fuel).

(** The interpreter: [fuel] bounds the loops, [depth] the nesting of
    calls among the six functions. *)
Fixpoint interp (fuel : nat) (host_native : nat -> Z -> M ptr)
    (fetch : list ascii -> Z -> option (Instruction * Z)) (depth : nat)
  : Interp :=
  match depth with
  | 0 => interp_none
  | S depth' =>
      interp_step fuel host_native (interp fuel host_native fetch depth')
        fetch
  end.

(** * Predicates of the specification *)

(** ** The pool and its free list *)

(** [free_chain pool head l]: following [next_] from [head] visits the cells
    [l], in this order, and ends at the null pointer. *)
Inductive free_chain (pool : Nmap Value) : option ptr -> list ptr -> Prop :=
| free_chain_nil : free_chain pool None []
| free_chain_cons p h next l :
    pool !! p = Some (mkValue h (P_heap_node next)) ->
    free_chain pool next l ->
    free_chain pool (Some p) (p :: l).

(** The pool has a cell at exactly the indices below its size. *)
Definition pool_sized (pool : Nmap Value) : Prop :=
  forall p : ptr, is_Some (pool !! p) <-> N.to_nat p < VALUE_POOL_SIZE.

(** The state of the pool is sound, with free list [l]: the pool has its
    size, the free list is a chain without repetition of cells that are not
    alive, and the cells of the free list and the alive cells add up to the
    size of the pool. *)
Definition pool_ok_with (c : Context) (l : list ptr) : Prop :=
  pool_sized (value_pool_data c) /\
  free_chain (value_pool_data c) (value_pool c) l /\
  NoDup l /\
  (forall p v, p ∈ l -> value_pool_data c !! p = Some v ->
               alive_ (hdr_ v) = false) /\
  length l + length (live_values c) = VALUE_POOL_SIZE.

Definition pool_ok (c : Context) : Prop := exists l, pool_ok_with c l.

(** Relations between the state before and after an operation. *)
Definition pool_keeps (c c' : Context) : Prop :=
  forall l, pool_ok_with c l -> pool_ok_with c' l.

Definition pool_grows (c c' : Context) : Prop :=
  forall l, pool_ok_with c l -> exists l', pool_ok_with c' l' /\ l `suffix_of` l'.

Definition pool_step (c c' : Context) : Prop := pool_ok c -> pool_ok c'.

(** The operations out of which the runtime is built, as far as the pool is
    concerned: operations that touch neither the pool nor the head of the
    free list (reads, the operand stack, the fields of the context, the
    intern table, the protected roots), the writes to the fields of a cell,
    the constructors, the collector, and their sequencing. *)
Inductive runtime_op : forall {A}, M A -> Prop :=
| rop_bind {A B} (m : M A) (k : A -> M B) :
    runtime_op m -> (forall a, runtime_op (k a)) -> runtime_op (bind m k)
| rop_off_pool {A} (m : M A) :
    (forall c a c', m c = Ok a c' ->
                    value_pool_data c' = value_pool_data c /\
                    value_pool c' = value_pool c) ->
    runtime_op m
| rop_write_mark_bit p b : runtime_op (write_mark_bit p b)
| rop_write_mode_bits p m : runtime_op (write_mode_bits p m)
| rop_set_car p x : runtime_op (set_car p x)
| rop_set_cdr p x : runtime_op (set_cdr p x)
| rop_set_error_context p x : runtime_op (set_error_context p x)
| rop_set_data_buffer_data p d : runtime_op (set_data_buffer_data p d)
| rop_make_function impl : runtime_op (make_function impl)
| rop_make_lisp_function impl : runtime_op (make_lisp_function impl)
| rop_make_bytecode_function bytecode :
    runtime_op (make_bytecode_function bytecode)
| rop_make_cons car cdr : runtime_op (make_cons car cdr)
| rop_make_integer value : runtime_op (make_integer value)
| rop_make_error code context : runtime_op (make_error code context)
| rop_make_symbol name mode : runtime_op (make_symbol name mode)
| rop_intern_to_symbol s : runtime_op (intern_to_symbol s)
| rop_make_userdata obj : runtime_op (make_userdata obj)
| rop_make_databuffer : runtime_op make_databuffer
| rop_make_string s : runtime_op (make_string s)
| rop_run_gc : runtime_op run_gc.

(** The states that the model follows a program through: the state that
    [init] leaves, and the states that the operations of the runtime lead
    to from there, as long as each of them returns.  The model stops at
    [fatal], and at an operation that reads or writes a cell through a
    member of [union ValueMemory] other than the one that the type of the
    cell names (the members are declared in lisp.hpp, which is not among
    the sources): the states of a program after such an access are not
    among these. *)
Inductive reachable : Context -> Prop :=
| reach_init fuel pfrm buffers scratch c :
    init fuel pfrm (unbound_context buffers scratch) = Ok tt c ->
    reachable c
| reach_step {A} (m : M A) c a c' :
    reachable c -> runtime_op m -> m c = Ok a c' -> reachable c'.

(** The cell [p] is alive. *)
Definition alive_at (c : Context) (p : ptr) : Prop :=
  exists v, value_pool_data c !! p = Some v /\ alive_ (hdr_ v) = true.
(** * Concrete states *)

(** The cell that [oom_] points to is the out-of-memory sentinel: an alive
    error cell with the code [out_of_memory]. *)
Definition sentinel_at (q : ptr) (c : Context) : Prop :=
  exists h context,
    value_pool_data c !! q
    = Some (mkValue h (P_error ErrorCode.out_of_memory context)) /\
    type_ h = VType.error /\ alive_ h = true.

Definition sentinel_ok (c : Context) : Prop := sentinel_at (oom_ c) c.

(** A program that conses [n] cells, one after the other, onto the list
    held by the top of the operand stack. *)
Fixpoint push_list (n : nat) : M unit :=
  match n with
  | 0 => ret tt
  | S n' =>
      do top <- get_op0 ;;
      do nil <- get_nil ;;
      do l <- make_cons nil top ;;
      run pop_op ;;
      run push_op l ;;
      push_list n'
  end.

(** The state of a host that has handed out all its scratch buffers, after
    a program has filled the pool with one long list that the operand stack
    holds. *)
Definition exhausted : Context :=
  Eval vm_compute in
    result_context
      (push_list (Z.to_nat 8783) (with_scratch_buffers_remaining 0 booted)).

(** The cell [v] has the type tag [t]. *)
Definition typed_cell (t : VType.t) (v : ptr) (c : Context) : Prop :=
  exists w, value_pool_data c !! v = Some w /\ type_ (hdr_ w) = t.

(** The cell [v] is a string cell that refers to the bytes at [offset] of
    the data buffer [buffer]. *)
Definition string_cell_at (v buffer : ptr) (offset : nat) (c : Context)
  : Prop :=
  exists h, value_pool_data c !! v = Some (mkValue h (P_string buffer offset))
            /\ type_ h = VType.string.

(** [make_string] has no buffer to put the string [s] in, in the state
    [c], and asks [make_databuffer] for one, in the state [c0]: there is no
    current string buffer, or the current one has not the room and is given
    up. *)
Definition asks_new_buffer (s : cstring) (c c0 : Context) : Prop :=
  (string_buffer_ c = nil_ c /\ c0 = c) \/
  (string_buffer_ c <> nil_ c /\
   exists data,
     data_buffer_data (string_buffer_ c) c = Ok data c /\
     ~ str_len s + 1 < trailing_free (SCRATCH_BUFFER_SIZE - 1) data /\
     c0 = with_string_buffer_ (nil_ c) c).

(** A program that holds a fresh integer in a [Protected] across a pass of
    the collector, and then looks at the cell that the [Protected] refers
    to. *)
Definition protected_then_gc (z : Z) : M Value :=
  do v <- make_integer z ;;
  with_Protected v (fun p =>
    run run_gc ;;
    do val <- Protected_get p ;;
    deref val).

(** A host that offers no native function beyond those of [cpp_impl], and
    a buffer that holds no bytecode. *)
Definition no_native : nat -> Z -> M ptr := fun _ _ => fail fatal.

Definition no_fetch : list ascii -> Z -> option (Instruction * Z) :=
  fun _ _ => None.

(** The interpreter of the examples. *)
Definition example_interp (depth : nat) : Interp :=
  interp 1000 no_native no_fetch depth.

(** Reads the one form of [source] and evaluates it; the result is the
    value on top of the operand stack. *)
Definition read_eval (source : string) : M ptr :=
  run read_ (example_interp 50) (ascii_of_string source) ;;
  do code <- get_op0 ;;
  run eval_ (example_interp 50) code ;;
  get_op0.

(** The state in which an interpreted function and its argument [7] are on
    the operand stack, and the function. *)
Definition lambda_on_stack : M ptr :=
  do f <- read_eval "(lambda $0)" ;;
  do seven <- make_integer 7 ;;
  run push_op seven ;;
  ret f.

Definition lambda_state : Context := result_context (lambda_on_stack booted).
Definition lambda_fn : ptr := result_value (lambda_on_stack booted) 0%N.

(** The state of [eval] of the form [(car 5)] at the point where it turns
    to the call: the form has been read, counted and pushed. *)
Definition call_form : M ptr :=
  run read_ (example_interp 50) (ascii_of_string "(car 5)") ;;
  do code <- get_op0 ;;
  run enter_interp ;;
  run push_op code ;;
  ret code.

Definition call_state : Context := result_context (call_form booted).
Definition call_code : ptr := result_value (call_form booted) 0%N.

(** * Shapes of cells *)

(** The cell [p] is an integer cell that holds [n]. *)
Definition integer_at (c : Context) (p : ptr) (n : Z) : Prop :=
  exists h, value_pool_data c !! p = Some (mkValue h (P_integer n)) /\
            type_ h = VType.integer.

(** The cell [p] is a pair of [a] and [d]. *)
Definition cons_at (c : Context) (p a d : ptr) : Prop :=
  exists h, value_pool_data c !! p = Some (mkValue h (P_cons a d)) /\
            type_ h = VType.cons.

(** Three integers on the operand stack of the state after [init], the
    last of them on top. *)
Definition push_integers (x y z : Z) : M unit :=
  do a <- make_integer x ;;
  run push_op a ;;
  do b <- make_integer y ;;
  run push_op b ;;
  do d <- make_integer z ;;
  push_op d.

Definition three_integers (x y z : Z) : Context :=
  result_context (push_integers x y z booted).

(** The cell [p] is a symbol whose name is the string [name] of the intern
    table. *)
Definition symbol_at (c : Context) (p : ptr) (name : cstring) : Prop :=
  exists h n, value_pool_data c !! p = Some (mkValue h (P_symbol n)) /\
              type_ h = VType.symbol /\
              c_str_at (interns_ c) n = Some name.

(** The state after the reader has read the quoted integer ['5], and the
    form that it has left on the operand stack. *)
Definition quoted_form : M ptr :=
  run read_ (example_interp 50) (ascii_of_string "'5") ;;
  get_op0.

Definition quoted_state : Context := result_context (quoted_form booted).
Definition quoted_code : ptr := result_value (quoted_form booted) 0%N.

(** [chain_at c p l last]: from [p], following the cdr fields, there are
    the pairs whose car fields are [l], and then the cell [last], which is
    not a pair.  A list is a chain whose last cell is nil. *)
Inductive chain_at (c : Context) : ptr -> list ptr -> ptr -> Prop :=
| chain_at_end p v :
    value_pool_data c !! p = Some v -> type_ (hdr_ v) <> VType.cons ->
    chain_at c p [] p
| chain_at_cons p a d l last :
    cons_at c p a d -> chain_at c d l last -> chain_at c p (a :: l) last.

(** The state after the reader has read the list [(10 20 30)] and the
    dotted list [(1 2 . 3)], and the two values. *)
Definition two_lists : M (ptr * ptr) :=
  run read_ (example_interp 50) (ascii_of_string "(10 20 30)") ;;
  do l <- get_op0 ;;
  run read_ (example_interp 50) (ascii_of_string "(1 2 . 3)") ;;
  do d <- get_op0 ;;
  ret (l, d).

Definition lists_state : Context := result_context (two_lists booted).

(** A check of [chain_at] that can be run. *)
Fixpoint chain_check (c : Context) (p : ptr) (l : list ptr) (last : ptr)
  : bool :=
  match l with
  | [] =>
      match value_pool_data c !! p with
      | Some v => bool_decide (p = last /\ type_ (hdr_ v) <> VType.cons)
      | None => false
      end
  | a :: l' =>
      match value_pool_data c !! p with
      | Some (mkValue h (P_cons a' d)) =>
          bool_decide (a' = a /\ type_ h = VType.cons)
          && chain_check c d l' last
      | _ => false
      end
  end.

(** ** States of the tail-call instructions *)

(** The top of the operand stack as [get_op(0)] reads it. *)
Definition stack_top (c : Context) : ptr :=
  default (nil_ c) (operand_stack_ c !! 0).

(** An interpreted function on top of its argument [7], outside of any
    function. *)
Definition tail_call_state : Context :=
  result_context (push_op lambda_fn lambda_state).

(** The function that is running, of one argument, calls itself: on the
    stack are the function, the argument [8] of the call and the argument
    [7] of the frame. *)
Definition self_call : M unit :=
  do f <- read_eval "(lambda $0)" ;;
  do seven <- make_integer 7 ;;
  run push_op seven ;;
  do eight <- make_integer 8 ;;
  run push_op eight ;;
  run push_op f ;;
  modify (fun c => with_this_ f (with_current_fn_argc_ 1 c)).

Definition self_call_state : Context := result_context (self_call booted).

(** ** What the collector holds on to *)

(** The cells that [gc_mark_value] goes to from a cell, by its type. *)
Definition refs (v : Value) : list ptr :=
  match type_ (hdr_ v) with
  | VType.cons =>
      match payload v with P_cons a d => [a; d] | _ => [] end
  | VType.function =>
      if decide (mode_bits_ (hdr_ v) = ModeBits.lisp_function
                 \/ mode_bits_ (hdr_ v) = ModeBits.lisp_bytecode_function)
      then match payload v with
           | P_lisp_impl a b | P_bytecode_impl a b => [a; b]
           | _ => []
           end
      else []
  | VType.string =>
      match payload v with P_string data_buffer _ => [data_buffer] | _ => [] end
  | VType.error =>
      match payload v with P_error _ context => [context] | _ => [] end
  | _ => []
  end.

(** [reaches c p q]: a path of references leads from the cell [p] to the
    cell [q] in the pool of [c]. *)
Inductive reaches (c : Context) : ptr -> ptr -> Prop :=
| reaches_here p : reaches c p p
| reaches_ref p v q r :
    value_pool_data c !! p = Some v -> q ∈ refs v -> reaches c q r ->
    reaches c p r.

(** The roots that [gc_mark] marks before it walks the globals tree. *)
Definition gc_root (c : Context) (p : ptr) : Prop :=
  p = nil_ c \/ p = oom_ c \/ p = lexical_bindings_ c \/ p = macros_ c
  \/ p ∈ operand_stack_ c.

(** No cell of the pool has its mark bit set: the state between two
    passes of the collector. *)
Definition unmarked (c : Context) : Prop :=
  map_Forall (fun _ v => mark_bit_ (hdr_ v) = false) (value_pool_data c).

(** What a pass of the collector keeps of a cell that it does not free:
    the header, and the payload, but for the cdr of a pair, which the walk
    over the globals tree writes to. *)
Definition kept (v v' : Value) : Prop :=
  type_ (hdr_ v') = type_ (hdr_ v) /\
  alive_ (hdr_ v') = alive_ (hdr_ v) /\
  mode_bits_ (hdr_ v') = mode_bits_ (hdr_ v) /\
  match payload v with
  | P_cons a _ => exists d, payload v' = P_cons a d
  | pl => payload v' = pl
  end.

(** ** Variables *)

(** The cell of [nil_] is a nil cell. *)
Definition nil_ok (c : Context) : Prop :=
  exists h, value_pool_data c !! nil_ c = Some (mkValue h P_nil).

(** The cell [p] is a symbol whose name is at the offset [n] of the intern
    arena, where the bytes [name] are stored. *)
Definition symbol_named (c : Context) (p : ptr) (n : nat) (name : cstring)
  : Prop :=
  symbol_name_at c p = Some n /\ c_str_at (interns_ c) n = Some name.

(** The head of the free list is the free cell [p]. *)
Definition free_head (c : Context) (p : ptr) : Prop :=
  value_pool c = Some p /\
  exists h next, value_pool_data c !! p = Some (mkValue h (P_heap_node next)).

(** The state in which a lexical frame is open and the pair of the symbol
    [x] and the integer 5 has been made, with a second symbol [x]; the
    result is the pair and the two symbols. *)
Definition binding_setup : M (ptr * ptr * ptr) :=
  run lexical_frame_push ;;
  do sym <- make_symbol (chars (ascii_of_string "x")) requires_intern ;;
  do v <- make_integer 5 ;;
  do kvp <- make_cons sym v ;;
  do sym' <- make_symbol (chars (ascii_of_string "x")) requires_intern ;;
  ret (kvp, sym, sym').

Definition binding_state : Context := result_context (binding_setup booted).

(** ** The search of the globals tree *)

(** Where the search for a name ends: at the binding of the name, or at a
    missing child, on the left or on the right of the last node. *)
Inductive SearchEnd :=
| Found (kvp : ptr)
| Missing (last : ptr) (insert_left : bool).

#[global] Instance SearchEnd_eq_dec : EqDecision SearchEnd.
Proof. solve_decision. Defined.

(** The pairs that the search for the name [k] reads from the node
    [current] on: of every node on the way the node, its binding and its
    pair of children; of the node that binds [k] the node and the
    binding. *)
Fixpoint search_walk (fuel : nat) (c : Context) (k : nat)
    (current prev : ptr) (insert_left : bool)
  : option (list ptr * SearchEnd) :=
  match fuel with
  | 0 => None
  | S fuel' =>
      if decide (current = nil_ c) then Some ([], Missing prev insert_left)
      else
        match value_pool_data c !! current with
        | Some (mkValue _ (P_cons kvp children)) =>
            match value_pool_data c !! kvp with
            | Some (mkValue _ (P_cons key _)) =>
                match symbol_name_at c key with
                | Some name =>
                    if decide (name = k) then Some ([current; kvp], Found kvp)
                    else
                      match value_pool_data c !! children with
                      | Some (mkValue _ (P_cons l r)) =>
                          match search_walk fuel' c k
                                  (if decide (name < k) then l else r)
                                  current (bool_decide (name < k)) with
                          | Some (cells, e) =>
                              Some (current :: kvp :: children :: cells, e)
                          | None => None
                          end
                      | _ => None
                      end
                | None => None
                end
            | _ => None
            end
        | _ => None
        end
  end.

(** The free list starts with the three distinct cells [p0], [p1] and
    [p2]. *)
Definition free_three (c : Context) (p0 p1 p2 : ptr) : Prop :=
  value_pool c = Some p0 /\ NoDup [p0; p1; p2] /\
  exists h0 h1 h2 next,
    value_pool_data c !! p0 = Some (mkValue h0 (P_heap_node (Some p1))) /\
    value_pool_data c !! p1 = Some (mkValue h1 (P_heap_node (Some p2))) /\
    value_pool_data c !! p2 = Some (mkValue h2 (P_heap_node next)).

(** The state at top level in which two symbols [x] and the integer 5
    have been made; the result is the two symbols and the integer. *)
Definition global_setup : M (ptr * ptr * ptr) :=
  do sym <- make_symbol (chars (ascii_of_string "x")) requires_intern ;;
  do sym' <- make_symbol (chars (ascii_of_string "x")) requires_intern ;;
  do v <- make_integer 5 ;;
  ret (sym, sym', v).

Definition global_state : Context := result_context (global_setup booted).

(** The walk of the globals tree of this state for the name [x], which
    the tree does not bind. *)
Definition global_walk : option (list ptr * SearchEnd) :=
  Eval vm_compute in
    search_walk 100 global_state 238
      (globals_tree_ global_state) (globals_tree_ global_state) true.

Definition global_cells : list ptr :=
  match global_walk with Some (cells, _) => cells | None => [] end.

(** ** Decimal numerals *)

(** The byte of the decimal digit [d], and the number that a sequence of
    digits writes. *)
Definition decimal_char (d : nat) : ascii := ascii_of_nat (48 + d).

Definition decimal_value (ds : list nat) : Z :=
  foldl (fun r d => (r * 10 + Z.of_nat d)%Z) 0%Z ds.

Definition decimal (ds : list nat) : cstring := decimal_char <$> ds.

(** ** What the collector frees *)

(** The protected roots that the collector comes to: the objects on the
    list that starts at [p_list]. *)
Inductive protected_link (c : Context) : option nat -> ProtectedBase -> Prop :=
| link_here i o :
    protected_objects c !! i = Some o -> protected_link c (Some i) o
| link_next i o o' :
    protected_objects c !! i = Some o ->
    protected_link c (ProtectedBase_next o) o' ->
    protected_link c (Some i) o'.

(** All the roots of [gc_mark]: the ones before the globals tree, the
    tree, the running function and the protected roots. *)
Definition gc_mark_root (c : Context) (p : ptr) : Prop :=
  gc_root c p \/ p = globals_tree_ c \/ p = this_ c \/
  exists o, protected_link c (__protected_values c) o /\ p = val_ o.

(** A cell that holds a pair has the type of a pair. *)
Definition pair_typed (v : Value) : Prop :=
  match payload v with
  | P_cons _ _ => type_ (hdr_ v) = VType.cons
  | _ => True
  end.

#[global] Instance pair_typed_dec v : Decision (pair_typed v).
Proof. unfold pair_typed. destruct (payload v); apply _. Defined.

Definition pairs_typed (c : Context) : Prop :=
  map_Forall (fun _ => pair_typed) (value_pool_data c).

(** A check that can be run of a set of cells that holds what its cells
    refer to. *)
Definition refs_closed (c : Context) (cells : list ptr) : bool :=
  forallb (fun p => match value_pool_data c !! p with
                    | Some v => forallb (fun q => bool_decide (q ∈ cells))
                                  (refs v)
                    | None => true
                    end) cells.

(** The state in which an integer has been made and not stored anywhere. *)
Definition garbage_state : Context := result_context (make_integer 7 booted).

(** ** Hexadecimal numerals *)

(** The byte of the hexadecimal digit [d], in lower case, and the number
    that a sequence of digits writes. *)
Definition hex_char (d : nat) : ascii :=
  if decide (d < 10) then ascii_of_nat (48 + d) else ascii_of_nat (87 + d).

Definition hex_value (ds : list nat) : Z :=
  foldl (fun r d => (r * 16 + Z.of_nat d)%Z) 0%Z ds.

Definition hex (ds : list nat) : cstring := hex_char <$> ds.

Definition LETTER_x : ascii := ascii_of_nat 120.

(** ** The head of the free list *)

(** [free_prefix pool head cells]: the free list that starts at [head]
    begins with the cells [cells], in this order. *)
Inductive free_prefix (pool : Nmap Value) : option ptr -> list ptr -> Prop :=
| free_prefix_nil head : free_prefix pool head []
| free_prefix_cons p h next l :
    pool !! p = Some (mkValue h (P_heap_node next)) ->
    free_prefix pool next l ->
    free_prefix pool (Some p) (p :: l).

(** * Reasoning about the state monad *)

Lemma bind_Ok {A B} (m : M A) (k : A -> M B) c b c' :
  bind m k c = Ok b c' <-> exists a c1, m c = Ok a c1 /\ k a c1 = Ok b c'.
Proof.
  unfold bind. split.
  - destruct (m c) as [a c1|e]; [eauto | discriminate].
  - intros (a & c1 & -> & ?). done.
Qed.

Lemma bind_eq {A B} (m : M A) (k : A -> M B) c a c1 :
  m c = Ok a c1 -> bind m k c = k a c1.
Proof. unfold bind. by intros ->. Qed.

Lemma ret_Ok {A} (a b : A) c c' : ret a c = Ok b c' <-> a = b /\ c = c'.
Proof. unfold ret. split; [by inversion 1 | by intros [-> ->]]. Qed.

Lemma gets_Ok {A} (f : Context -> A) b c c' :
  gets f c = Ok b c' <-> f c = b /\ c = c'.
Proof. unfold gets. split; [by inversion 1 | by intros [-> ->]]. Qed.

Lemma expect_Ok {A} (o : option A) b c c' :
  expect o c = Ok b c' <-> o = Some b /\ c = c'.
Proof.
  destruct o; simpl; unfold ret, fail; split; intros H.
  - by inversion H.
  - by destruct H as [[= ->] ->].
  - discriminate.
  - by destruct H.
Qed.

(** Splits a hypothesis [m c = Ok a c'] along the binds of [m]. *)
Ltac inv_bind H :=
  repeat match type of H with
    | bind _ _ _ = Ok _ _ =>
        let a := fresh "a" in
        let c := fresh "c" in
        let H1 := fresh H in
        apply bind_Ok in H; destruct H as (a & c & H1 & H)
    end.

Ltac inv_ret H :=
  first [ apply ret_Ok in H; destruct H as [? ?]
        | apply gets_Ok in H; destruct H as [? ?]
        | apply expect_Ok in H; destruct H as [? ?] ]; subst.

(** An operation respects a relation on states when every run that returns
    relates the state before to the state after. *)
Definition respects {A} (R : relation Context) (m : M A) : Prop :=
  forall c a c', m c = Ok a c' -> R c c'.

Section respects.
Context (R : relation Context) `{!PreOrder R}.

Lemma respects_ret {A} (a : A) : respects R (ret a).
Proof. intros c b c' [_ <-]%ret_Ok. reflexivity. Qed.

Lemma respects_fail {A} e : respects R (@fail A e).
Proof. intros c b c'. discriminate. Qed.

Lemma respects_gets {A} (f : Context -> A) : respects R (gets f).
Proof. intros c b c' [_ <-]%gets_Ok. reflexivity. Qed.

Lemma respects_get_ctx : respects R get_ctx.
Proof. intros c b c' [= _ <-]. reflexivity. Qed.

Lemma respects_get_nil : respects R get_nil.
Proof. intros c b c' [= _ <-]. reflexivity. Qed.

Lemma respects_expect {A} (o : option A) : respects R (expect o).
Proof. intros c b c' [_ <-]%expect_Ok. reflexivity. Qed.

Lemma respects_bind {A B} (m : M A) (k : A -> M B) :
  respects R m -> (forall a, respects R (k a)) -> respects R (bind m k).
Proof.
  intros Hm Hk c b c' (a & c1 & H1 & H2)%bind_Ok.
  etransitivity; [by eapply Hm | by eapply Hk].
Qed.

Lemma respects_modify f : (forall c, R c (f c)) -> respects R (modify f).
Proof. intros Hf c b c' [= <-]. subst. apply Hf. Qed.

Lemma respects_for_each {A} (l : list A) body :
  (forall x, respects R (body x)) -> respects R (for_each l body).
Proof.
  intros Hb. induction l as [|x l IH]; simpl.
  - apply respects_ret.
  - apply respects_bind; [apply Hb | intros _; apply IH].
Qed.

Lemma respects_deref p : respects R (deref p).
Proof.
  intros c b c'. unfold deref. destruct (_ !! _); [|done].
  intros [= _ <-]. reflexivity.
Qed.

Lemma respects_get_op0 : respects R get_op0.
Proof.
  intros c b c'. unfold get_op0. destruct (operand_stack_ c); [done|].
  intros [= _ <-]. reflexivity.
Qed.

Lemma respects_get_op1 : respects R get_op1.
Proof.
  intros c b c'. unfold get_op1.
  destruct (operand_stack_ c) as [|? [|? ?]]; try done.
  intros [= _ <-]. reflexivity.
Qed.

Lemma respects_get_op n : respects R (get_op n).
Proof.
  intros c b c'. unfold get_op.
  destruct (_ !! _); intros [= _ <-]; reflexivity.
Qed.

Lemma respects_stack_size : respects R stack_size.
Proof. intros c b c' [= _ <-]. reflexivity. Qed.

Lemma respects_stack_at i : respects R (stack_at i).
Proof.
  intros c b c'. unfold stack_at. repeat case_match; try done.
  intros [= _ <-]. reflexivity.
Qed.

Lemma respects_Protected_get p : respects R (Protected_get p).
Proof.
  intros c b c'. unfold Protected_get. case_match; [|done].
  intros [= _ <-]. reflexivity.
Qed.
End respects.

(** Takes apart a goal [respects R m] along the structure of [m]; what is
    left are the primitives that write to the state. *)
Ltac respects_step :=
  lazymatch goal with
  | |- respects _ (bind _ _) =>
      apply respects_bind; [typeclasses eauto | | intros]
  | |- respects _ (ret _) => apply respects_ret; try (typeclasses eauto)
  | |- respects _ (fail _) => apply respects_fail
  | |- respects _ (gets _) => apply respects_gets; try (typeclasses eauto)
  | |- respects _ get_ctx => apply respects_get_ctx; try (typeclasses eauto)
  | |- respects _ get_nil => apply respects_get_nil; try (typeclasses eauto)
  | |- respects _ L_NIL => apply respects_get_nil; try (typeclasses eauto)
  | |- respects _ (expect _) =>
      apply respects_expect; try (typeclasses eauto)
  | |- respects _ (deref _) => apply respects_deref; try (typeclasses eauto)
  | |- respects _ get_op0 => apply respects_get_op0; try (typeclasses eauto)
  | |- respects _ get_op1 => apply respects_get_op1; try (typeclasses eauto)
  | |- respects _ (get_op _) => apply respects_get_op; try (typeclasses eauto)
  | |- respects _ stack_size =>
      apply respects_stack_size; try (typeclasses eauto)
  | |- respects _ (stack_at _) =>
      apply respects_stack_at; try (typeclasses eauto)
  | |- respects _ (Protected_get _) =>
      apply respects_Protected_get; try (typeclasses eauto)
  | |- respects _ (for_each _ _) =>
      apply respects_for_each; [typeclasses eauto | intros]
  | |- respects _ (match ?x with _ => _ end) => destruct x
  | |- respects _ (let _ := _ in _) => cbv zeta
  end.

Ltac respects_tac := repeat respects_step; try (typeclasses eauto).

(** An operation that only reads: a run that returns leaves the state as it
    was. *)
Definition reads {A} (m : M A) : Prop :=
  forall c a c', m c = Ok a c' -> c' = c.

Lemma reads_respects {A} R `{!PreOrder R} (m : M A) : reads m -> respects R m.
Proof. intros H c a c' ->%H. reflexivity. Qed.

Lemma respects_reads {A} (m : M A) : respects (fun c c' => c' = c) m -> reads m.
Proof. done. Qed.

#[global] Instance unchanged_preorder : PreOrder (fun c c' : Context => c' = c).
Proof. split; [done|]. intros x y z. congruence. Qed.

Ltac reads_tac := apply respects_reads; respects_tac.

Lemma reads_type p : reads (type p).
Proof. unfold type. reads_tac. Qed.

Lemma reads_cons_car p : reads (cons_car p).
Proof. unfold cons_car. reads_tac. Qed.

Lemma reads_cons_cdr p : reads (cons_cdr p).
Proof. unfold cons_cdr. reads_tac. Qed.

Lemma reads_integer_value p : reads (integer_value p).
Proof. unfold integer_value. reads_tac. Qed.

Lemma reads_symbol_name p : reads (symbol_name p).
Proof. unfold symbol_name. reads_tac. Qed.

Lemma reads_error_context p : reads (error_context p).
Proof. unfold error_context. reads_tac. Qed.

Lemma reads_function_refs p : reads (function_refs p).
Proof. unfold function_refs. reads_tac. Qed.

Lemma reads_data_buffer_data p : reads (data_buffer_data p).
Proof. unfold data_buffer_data. reads_tac. Qed.

Lemma reads_left_subtree p : reads (left_subtree p).
Proof.
  unfold left_subtree. reads_tac;
    apply reads_respects; auto using reads_cons_car, reads_cons_cdr with typeclass_instances.
Qed.

Lemma reads_right_subtree p : reads (right_subtree p).
Proof.
  unfold right_subtree. reads_tac;
    apply reads_respects; auto using reads_cons_cdr with typeclass_instances.
Qed.

Lemma reads_symbol_chars p : reads (symbol_chars p).
Proof.
  unfold symbol_chars. reads_tac.
  apply reads_respects; auto using reads_symbol_name with typeclass_instances.
Qed.

Lemma reads_String_value p : reads (String_value p).
Proof.
  unfold String_value. reads_tac.
  apply reads_respects; auto using reads_data_buffer_data with typeclass_instances.
Qed.

Lemma reads_get_arg n : reads (get_arg n).
Proof. unfold get_arg. reads_tac. Qed.

(** Readers respect every preorder. *)
Ltac respects_reader :=
  apply reads_respects;
  [ typeclasses eauto
  | first [ apply reads_type | apply reads_cons_car | apply reads_cons_cdr
          | apply reads_integer_value | apply reads_symbol_name
          | apply reads_error_context | apply reads_function_refs
          | apply reads_data_buffer_data | apply reads_left_subtree
          | apply reads_right_subtree | apply reads_symbol_chars
          | apply reads_String_value | apply reads_get_arg ] ].

(** Decides a closed proposition by evaluation. *)
Ltac by_compute := apply (bool_decide_unpack _); vm_cast_no_check I.

Definition is_Ok {A} (r : Result A) : bool :=
  match r with Ok _ _ => true | Err _ => false end.

Lemma result_eta {A} (r : Result A) (d : A) :
  is_Ok r = true -> r = Ok (result_value r d) (result_context r).
Proof. by destruct r. Qed.

Lemma result_eta_value {A} (r : Result A) (a : A) :
  is_Ok r = true -> result_value r a = a -> r = Ok a (result_context r).
Proof. destruct r; [|done]. simpl. by intros _ ->. Qed.

(** Proves [m c = Ok (result_value (m c) d) (result_context (m c))] for a
    closed run by evaluating it once. *)
Ltac by_run := apply result_eta; vm_cast_no_check (eq_refl true).

(** Proves [m c = Ok a (result_context (m c))] for a closed run. *)
Ltac by_run_to m a :=
  refine (result_eta_value m a _ _);
  [vm_cast_no_check (eq_refl true) | by_compute].

(** * The intern table *)



(** The offset of the first name equal to [s], the names starting at
    [base]. *)
Fixpoint find_name (s : cstring) (names : list cstring) (base : nat)
  : option nat :=
  match names with
  | [] => None
  | n :: rest =>
      if decide (n = s) then Some base
      else find_name s rest (base + length n + 1)
  end.





Lemma find_name_not_in s names base :
  s ∉ names -> find_name s names base = None.
Proof.
  revert base. induction names as [|n names IH]; intros base Hs; [done|].
  simpl. rewrite decide_False by (intros ->; apply Hs; left).
  apply IH. intros ?; apply Hs. by right.
Qed.








(** * What the collector leaves alone *)

(** The fields other than the pool, the free-list head, the string packing
    buffer and the host's count of scratch buffers. *)
Definition roots_of (c : Context) :=
  (__protected_values c, protected_objects c, operand_stack_ c, interns_ c,
   arguments_break_loc_ c, current_fn_argc_ c, this_ c, nil_ c, oom_ c,
   globals_tree_ c, lexical_bindings_ c, macros_ c, constants_ c,
   string_intern_pos_ c, interp_entry_count_ c, host_scratch_data c,
   gc_passes c).

Definition gc_frame (c c' : Context) : Prop := roots_of c' = roots_of c.

#[global] Instance gc_frame_preorder : PreOrder gc_frame.
Proof.
  split; [done|]. intros x y z. unfold gc_frame. congruence.
Qed.

Lemma respects_store R `{!PreOrder R} p v :
  (forall c, R c (with_value_pool_data
                    (<[p := v]> (value_pool_data c)) c)) ->
  respects R (store p v).
Proof. intros H. apply respects_modify. apply H. Qed.

(** A relation that holds across every write to the pool, the free-list
    head, the string packing buffer and the scratch count. *)
Class PoolInsensitive (R : relation Context) := {
  pool_insensitive_preorder :: PreOrder R;
  pool_insensitive_data c x : R c (with_value_pool_data x c);
  pool_insensitive_head c x : R c (with_value_pool x c);
  pool_insensitive_sb c x : R c (with_string_buffer_ x c);
  pool_insensitive_scratch c x : R c (with_scratch_buffers_remaining x c);
}.

#[global] Instance gc_frame_insensitive : PoolInsensitive gc_frame.
Proof. split; try done. apply _. Qed.

(** The mark phase writes mark bits and, while it walks the globals tree,
    cdr fields; a preorder that holds across these two writes holds across
    the phase. *)
Section gc_mark_respects.
Context (R : relation Context) `{!PreOrder R}.
Hypothesis Hmark : forall p, respects R (write_mark_bit p true).
Hypothesis Hset_cdr : forall p x, respects R (set_cdr p x).

Lemma respects_set_right_subtree p x : respects R (set_right_subtree p x).
Proof. unfold set_right_subtree. respects_tac; [respects_reader | apply Hset_cdr]. Qed.

Lemma respects_traverse_rightmost fuel current prev :
  respects R (globals_tree_traverse_rightmost fuel current prev).
Proof.
  revert prev. induction fuel as [|fuel IH]; intros prev; simpl.
  - apply respects_fail.
  - respects_tac; [respects_reader | apply IH].
Qed.

Lemma respects_traverse_loop fuel callback current :
  (forall a b, respects R (callback a b)) ->
  respects R (globals_tree_traverse_loop fuel callback current).
Proof.
  intros Hcb. revert current. induction fuel as [|fuel IH]; intros current; simpl.
  - apply respects_fail.
  - respects_tac;
      auto using respects_set_right_subtree, respects_traverse_rightmost;
      respects_reader.
Qed.

Lemma respects_globals_tree_traverse fuel root callback :
  (forall a b, respects R (callback a b)) ->
  respects R (globals_tree_traverse fuel root callback).
Proof.
  intros Hcb. unfold globals_tree_traverse. respects_tac.
  by apply respects_traverse_loop.
Qed.

Lemma respects_gc_mark_cons_chain rec n current :
  (forall p, respects R (rec p)) ->
  respects R (gc_mark_cons_chain rec n current).
Proof.
  intros Hrec. revert current. induction n as [|n IH]; intros current; simpl.
  - apply respects_fail.
  - respects_tac; auto; respects_reader.
Qed.

Lemma respects_gc_mark_value depth value :
  respects R (gc_mark_value depth value).
Proof.
  revert value. induction depth as [|depth IH]; intros value;
    cbn [gc_mark_value].
  - apply respects_fail.
  - respects_tac; auto using respects_gc_mark_cons_chain; respects_reader.
Qed.

Lemma respects_gc_mark_protected fuel p_list :
  respects R (gc_mark_protected fuel p_list).
Proof.
  revert p_list. induction fuel as [|fuel IH]; intros [p|]; simpl;
    respects_tac; auto using respects_gc_mark_value.
Qed.

Lemma respects_gc_mark : respects R gc_mark.
Proof.
  unfold gc_mark. respects_tac;
    auto using respects_gc_mark_value, respects_gc_mark_protected.
  apply respects_globals_tree_traverse. intros. respects_tac;
    auto using respects_gc_mark_value; respects_reader.
Qed.
End gc_mark_respects.

(** The sweep phase acts cell by cell, after it has looked at the string
    packing buffer. *)
Section gc_sweep_respects.
Context (R : relation Context) `{!PreOrder R}.
Hypothesis Hcell : forall i, respects R (gc_sweep_cell i).
Hypothesis Hsb : forall c x, R c (with_string_buffer_ x c).

Lemma respects_gc_sweep_loop l n : respects R (gc_sweep_loop l n).
Proof.
  revert n. induction l as [|i l IH]; intros n; simpl; respects_tac; auto.
Qed.

Lemma respects_gc_sweep : respects R gc_sweep.
Proof.
  unfold gc_sweep. respects_tac; auto using respects_gc_sweep_loop.
  apply respects_modify; try apply _. intros. apply Hsb.
Qed.
End gc_sweep_respects.

Section pool_insensitive.
Context (R : relation Context) `{!PoolInsensitive R}.

Lemma respects_store' p v : respects R (store p v).
Proof. apply respects_store; [apply _|]. intros. apply pool_insensitive_data. Qed.

Ltac prim := respects_tac; try apply respects_store'.

Lemma respects_write_mark_bit p b : respects R (write_mark_bit p b).
Proof. unfold write_mark_bit. prim. Qed.

Lemma respects_write_cell p t pl : respects R (write_cell p t pl).
Proof. unfold write_cell. prim. Qed.

Lemma respects_write_mode_bits p m : respects R (write_mode_bits p m).
Proof. unfold write_mode_bits. prim. Qed.

Lemma respects_set_car p x : respects R (set_car p x).
Proof. unfold set_car. prim. Qed.

Lemma respects_set_cdr p x : respects R (set_cdr p x).
Proof. unfold set_cdr. prim. Qed.

Lemma respects_set_error_context p x : respects R (set_error_context p x).
Proof. unfold set_error_context. prim. Qed.

Lemma respects_set_data_buffer_data p d :
  respects R (set_data_buffer_data p d).
Proof. unfold set_data_buffer_data. prim. Qed.

Lemma respects_value_pool_alloc : respects R value_pool_alloc.
Proof.
  intros c a c'. unfold value_pool_alloc. repeat case_match; try done.
  - intros [= _ <-]. apply pool_insensitive_head.
  - intros [= _ <-]. reflexivity.
Qed.

Lemma respects_value_pool_free p : respects R (value_pool_free p).
Proof.
  unfold value_pool_free. prim.
  apply respects_modify; try apply _. intros. apply pool_insensitive_head.
Qed.

Lemma respects_init_val p : respects R (init_val p).
Proof. unfold init_val. prim. Qed.

Lemma respects_invoke_finalizer p : respects R (invoke_finalizer p).
Proof.
  unfold invoke_finalizer. prim.
  apply respects_modify; try apply _. intros. apply pool_insensitive_scratch.
Qed.

Lemma respects_gc_sweep_cell i : respects R (gc_sweep_cell i).
Proof.
  unfold gc_sweep_cell. respects_tac;
    auto using respects_write_mark_bit, respects_invoke_finalizer,
      respects_value_pool_free.
Qed.

Lemma respects_gc_mark' : respects R gc_mark.
Proof.
  apply respects_gc_mark;
    auto using respects_write_mark_bit, respects_set_cdr
      with typeclass_instances.
Qed.

Lemma respects_gc_sweep' : respects R gc_sweep.
Proof.
  apply respects_gc_sweep; [apply _ | apply respects_gc_sweep_cell |].
  intros. apply pool_insensitive_sb.
Qed.
End pool_insensitive.

(** A relation that, in addition, holds across the counting of collector
    passes holds across allocation and across the constructors that only
    allocate. *)
Class AllocInsensitive (R : relation Context) := {
  alloc_insensitive_pool :: PoolInsensitive R;
  alloc_insensitive_passes c x : R c (with_gc_passes x c);
}.

Section alloc_insensitive.
Context (R : relation Context) `{!AllocInsensitive R}.

Lemma respects_run_gc : respects R run_gc.
Proof.
  unfold run_gc. respects_tac.
  - apply respects_modify. intros. apply alloc_insensitive_passes.
  - apply respects_gc_mark'; apply _.
  - apply respects_gc_sweep'; apply _.
Qed.

Lemma respects_alloc_value : respects R alloc_value.
Proof.
  unfold alloc_value. respects_tac;
    auto using respects_value_pool_alloc, respects_init_val,
      respects_run_gc with typeclass_instances.
Qed.

Lemma respects_make_cons a d : respects R (make_cons a d).
Proof.
  unfold make_cons. respects_tac;
    auto using respects_alloc_value, respects_write_cell
      with typeclass_instances.
Qed.

Lemma respects_make_integer z : respects R (make_integer z).
Proof.
  unfold make_integer. respects_tac;
    auto using respects_alloc_value, respects_write_cell
      with typeclass_instances.
Qed.

Lemma respects_make_error e x : respects R (make_error e x).
Proof.
  unfold make_error. respects_tac;
    auto using respects_alloc_value, respects_write_cell
      with typeclass_instances.
Qed.

Lemma respects_make_function i : respects R (make_function i).
Proof.
  unfold make_function. respects_tac;
    auto using respects_alloc_value, respects_write_cell,
      respects_write_mode_bits with typeclass_instances.
Qed.

Lemma respects_make_lisp_function i : respects R (make_lisp_function i).
Proof.
  unfold make_lisp_function. respects_tac;
    auto using respects_alloc_value, respects_write_cell,
      respects_write_mode_bits with typeclass_instances.
Qed.

Lemma respects_make_bytecode_function i :
  respects R (make_bytecode_function i).
Proof.
  unfold make_bytecode_function. respects_tac;
    auto using respects_alloc_value, respects_write_cell,
      respects_write_mode_bits with typeclass_instances.
Qed.

Lemma respects_make_userdata i : respects R (make_userdata i).
Proof.
  unfold make_userdata. respects_tac;
    auto using respects_alloc_value, respects_write_cell
      with typeclass_instances.
Qed.

Lemma respects_intern_to_symbol i : respects R (intern_to_symbol i).
Proof.
  unfold intern_to_symbol. respects_tac;
    auto using respects_alloc_value, respects_write_cell
      with typeclass_instances.
Qed.
End alloc_insensitive.

(** The intern arena is out of the collector's reach. *)
Definition same_interns (c c' : Context) : Prop :=
  interns_ c' = interns_ c /\ string_intern_pos_ c' = string_intern_pos_ c.

#[global] Instance same_interns_alloc : AllocInsensitive same_interns.
Proof.
  split; [split|]; try done. split; [done|].
  intros x y z [? ?] [? ?]. split; congruence.
Qed.

(** * Symbol identity (claim C7) *)











(** * Pool conservation *)

Lemma elem_of_pool_indices p start len :
  p ∈ pool_indices start len
  <-> N.to_nat start <= N.to_nat p < N.to_nat start + len.
Proof.
  revert start. induction len as [|len IH]; intros start; simpl.
  - rewrite elem_of_nil. lia.
  - rewrite elem_of_cons, IH. split.
    + intros [->|H]; lia.
    + intros H. destruct (decide (p = start)) as [|Hne]; [by left|].
      right. lia.
Qed.

Lemma NoDup_pool_indices start len : NoDup (pool_indices start len).
Proof.
  revert start. induction len as [|len IH]; intros start; simpl.
  - constructor.
  - constructor; [|apply IH]. rewrite elem_of_pool_indices. lia.
Qed.

Lemma length_pool_indices start len : length (pool_indices start len) = len.
Proof.
  revert start. induction len as [|len IH]; intros start; simpl; [done|].
  by rewrite IH.
Qed.

Lemma pool_sized_indices pool p v :
  pool_sized pool -> pool !! p = Some v ->
  p ∈ pool_indices 0 VALUE_POOL_SIZE.
Proof.
  intros Hs Hp. apply elem_of_pool_indices.
  assert (is_Some (pool !! p)) as H%Hs by eauto. lia.
Qed.

Lemma pool_sized_insert pool p v v' :
  pool_sized pool -> pool !! p = Some v -> pool_sized (<[p := v']> pool).
Proof.
  intros Hs Hp q. rewrite <- (Hs q), lookup_insert_is_Some.
  destruct (decide (p = q)) as [<-|Hne].
  - split; [eauto | by left].
  - split; [by intros [?|[_ ?]] | by right].
Qed.

Lemma live_cells_cons pool j indices :
  live_cells pool (j :: indices)
  = match live_cell pool j with
    | Some v => v :: live_cells pool indices
    | None => live_cells pool indices
    end.
Proof. done. Qed.

Lemma live_cell_insert_ne pool i j v' :
  i <> j -> live_cell (<[i := v']> pool) j = live_cell pool j.
Proof. intros H. unfold live_cell. by rewrite lookup_insert_ne. Qed.

Lemma live_cells_insert_other pool indices i v' :
  i ∉ indices -> live_cells (<[i := v']> pool) indices = live_cells pool indices.
Proof.
  induction indices as [|j indices IH]; intros Hi; [done|].
  apply not_elem_of_cons in Hi as [Hne Hi].
  rewrite !live_cells_cons, live_cell_insert_ne, IH; done.
Qed.

(** Rewriting one cell moves the count of alive cells by the change of its
    [alive_] bit. *)
Lemma live_cells_insert pool indices i v v' :
  NoDup indices -> i ∈ indices -> pool !! i = Some v ->
  length (live_cells (<[i := v']> pool) indices)
  + (if alive_ (hdr_ v) then 1 else 0)
  = length (live_cells pool indices) + (if alive_ (hdr_ v') then 1 else 0).
Proof.
  intros Hnd Hi Hv. induction Hnd as [|j indices Hj Hnd IH].
  - by apply elem_of_nil in Hi.
  - rewrite !live_cells_cons. destruct (decide (i = j)) as [->|Hne].
    + rewrite live_cells_insert_other by done.
      unfold live_cell. rewrite lookup_insert_eq, Hv.
      destruct (alive_ (hdr_ v)), (alive_ (hdr_ v')); simpl; lia.
    + apply elem_of_cons in Hi as [|Hi]; [done|]. specialize (IH Hi).
      rewrite live_cell_insert_ne by done.
      destruct (live_cell pool j); simpl; lia.
Qed.

Lemma live_values_insert c p v v' :
  pool_sized (value_pool_data c) ->
  value_pool_data c !! p = Some v ->
  length (live_values (with_value_pool_data (<[p := v']> (value_pool_data c)) c))
  + (if alive_ (hdr_ v) then 1 else 0)
  = length (live_values c) + (if alive_ (hdr_ v') then 1 else 0).
Proof.
  intros Hs Hv. unfold live_values. simpl.
  apply live_cells_insert; [apply NoDup_pool_indices| |done].
  by eapply pool_sized_indices.
Qed.

Lemma free_chain_in_range pool head l p :
  pool_sized pool -> free_chain pool head l -> p ∈ l ->
  N.to_nat p < VALUE_POOL_SIZE.
Proof.
  intros Hs. induction 1 as [|q h next l Hq Hc IH]; intros Hp.
  - by apply elem_of_nil in Hp.
  - apply elem_of_cons in Hp as [->|Hp]; [|by apply IH].
    apply Hs. eauto.
Qed.

Lemma free_chain_payload pool head l p :
  free_chain pool head l -> p ∈ l ->
  exists h next, pool !! p = Some (mkValue h (P_heap_node next)).
Proof.
  induction 1 as [|q h next l Hq Hc IH]; intros Hp.
  - by apply elem_of_nil in Hp.
  - apply elem_of_cons in Hp as [->|Hp]; [eauto | by apply IH].
Qed.

(** A write to a cell outside the chain leaves the chain as it is. *)
Lemma free_chain_insert_other pool head l i v :
  free_chain pool head l ->
  i ∉ l ->
  free_chain (<[i := v]> pool) head l.
Proof.
  induction 1 as [|q h next l Hq Hc IH]; intros Hne; [constructor|].
  apply not_elem_of_cons in Hne as [Hne Hni].
  econstructor; [|by apply IH].
  by rewrite lookup_insert_ne.
Qed.

(** A write that keeps the payload leaves the chain as it is. *)
Lemma free_chain_insert_payload pool head l i v v' :
  free_chain pool head l ->
  pool !! i = Some v ->
  payload v' = payload v ->
  free_chain (<[i := v']> pool) head l.
Proof.
  intros Hc Hi Hp. induction Hc as [|q h next l Hq Hc IH]; [constructor|].
  destruct (decide (q = i)) as [<-|Hne].
  - rewrite Hq in Hi. injection Hi as <-. destruct v' as [h' pl']. simpl in Hp.
    subst pl'. econstructor; [|done]. by rewrite lookup_insert_eq.
  - econstructor; [|done]. by rewrite lookup_insert_ne.
Qed.

Lemma free_chain_functional pool head l l' :
  free_chain pool head l -> free_chain pool head l' -> l = l'.
Proof.
  intros H. revert l'. induction H as [|q h next l Hq Hc IH]; intros l' H'.
  - by inversion H'.
  - inversion H' as [|q' h' next' l0 Hq' Hc']; subst.
    rewrite Hq in Hq'. injection Hq' as <- <-. f_equal. by apply IH.
Qed.

Lemma NoDup_bounded_length (l : list N) n :
  NoDup l -> (forall p, p ∈ l -> N.to_nat p < n) -> length l <= n.
Proof.
  intros Hnd Hb.
  assert (N.to_nat <$> l ⊆+ seq 0 n) as Hsub.
  { apply NoDup_submseteq.
    - apply NoDup_fmap_2; [|done]. intros x y. apply N2Nat.inj.
    - intros i (p & -> & Hp)%list_elem_of_fmap.
      apply elem_of_seq. specialize (Hb p Hp). lia. }
  apply submseteq_length in Hsub.
  by rewrite length_fmap, length_seq in Hsub.
Qed.

(** The count of [interp-stat] is the length of the chain. *)
Lemma values_remaining_loop_spec fuel pool head l k :
  free_chain pool head l ->
  length l <= fuel ->
  values_remaining_loop fuel pool head k = Some (k + length l).
Proof.
  intros H. revert fuel k. induction H as [|q h next l Hq Hc IH]; intros fuel k Hf.
  - destruct fuel; simpl; f_equal; lia.
  - destruct fuel as [|fuel]; [simpl in Hf; lia|]. simpl. rewrite Hq.
    rewrite IH by (simpl in Hf; lia). f_equal. simpl. lia.
Qed.

Lemma pool_ok_values_remaining c l :
  pool_ok_with c l -> values_remaining c = Some (length l).
Proof.
  intros (Hlen & Hc & Hnd & Hdead & Hcount). unfold values_remaining.
  rewrite (values_remaining_loop_spec _ _ _ l 0 Hc); [done|].
  apply Nat.le_le_succ_r, NoDup_bounded_length; [done|].
  intros p Hp. by eapply free_chain_in_range.
Qed.

#[global] Instance pool_keeps_preorder : PreOrder pool_keeps.
Proof.
  split; [intros c l H; exact H|]. intros x y z H1 H2 l Hl. apply H2, H1, Hl.
Qed.

#[global] Instance pool_grows_preorder : PreOrder pool_grows.
Proof.
  split.
  - intros c l Hl. by exists l.
  - intros x y z H1 H2 l Hl.
    destruct (H1 l Hl) as (l1 & Hl1 & Hs1).
    destruct (H2 l1 Hl1) as (l2 & Hl2 & Hs2).
    exists l2. split; [done|]. by etransitivity.
Qed.

#[global] Instance pool_step_preorder : PreOrder pool_step.
Proof.
  split; [intros c H; exact H|]. intros x y z H1 H2 H. apply H2, H1, H.
Qed.

Lemma pool_keeps_grows c c' : pool_keeps c c' -> pool_grows c c'.
Proof. intros H l Hl. exists l. split; [by apply H | done]. Qed.

Lemma pool_grows_step c c' : pool_grows c c' -> pool_step c c'.
Proof. intros H [l Hl]. destruct (H l Hl) as (l' & Hl' & _). by exists l'. Qed.

Lemma respects_weaken {A} (R R' : relation Context) (m : M A) :
  (forall c c', R c c' -> R' c c') -> respects R m -> respects R' m.
Proof. intros HR Hm c a c' H. eapply HR, Hm, H. Qed.

(** Operations off the pool keep it. *)
Lemma pool_keeps_off_pool c c' :
  value_pool_data c' = value_pool_data c ->
  value_pool c' = value_pool c ->
  pool_keeps c c'.
Proof.
  intros Hd Hh l. unfold pool_ok_with, live_values. by rewrite Hd, Hh.
Qed.

(** A write to the cell [p] that keeps its [alive_] bit, and either keeps
    its payload or finds a payload that is not a free-list link, keeps the
    pool. *)
Lemma pool_keeps_insert c p v v' :
  value_pool_data c !! p = Some v ->
  alive_ (hdr_ v') = alive_ (hdr_ v) ->
  (payload v' = payload v \/ forall next, payload v <> P_heap_node next) ->
  pool_keeps c
    (with_value_pool_data (<[p := v']> (value_pool_data c)) c).
Proof.
  intros Hv Ha Hp l (Hlen & Hc & Hnd & Hdead & Hcount).
  split; [by eapply pool_sized_insert|]. split; [|split; [done|split]].
  - simpl. destruct Hp as [Hp|Hp]; [by eapply free_chain_insert_payload|].
    apply free_chain_insert_other; [done|]. intros Hq.
    destruct (free_chain_payload _ _ _ _ Hc Hq) as (h & next & Hq').
    rewrite Hv in Hq'. injection Hq' as ->. by eapply Hp.
  - simpl. intros q w Hq. destruct (decide (q = p)) as [->|Hne].
    + rewrite lookup_insert_eq. intros [= <-]. rewrite Ha. by eapply Hdead.
    + rewrite lookup_insert_ne by done. by apply Hdead.
  - pose proof (live_values_insert c p v v' Hlen Hv) as Hl.
    rewrite Ha in Hl. lia.
Qed.

Lemma respects_keeps_write_mark_bit p b :
  respects pool_keeps (write_mark_bit p b).
Proof.
  intros c a c' H. unfold write_mark_bit in H.
  apply bind_Ok in H as (v & c0 & Hd & H). unfold deref in Hd.
  destruct (value_pool_data c !! p) eqn:Hv; [|done].
  injection Hd as <- <-. unfold store, modify in H. simplify_eq.
  eapply pool_keeps_insert; eauto.
Qed.

Lemma respects_keeps_write_mode_bits p m :
  respects pool_keeps (write_mode_bits p m).
Proof.
  intros c a c' H. unfold write_mode_bits in H.
  apply bind_Ok in H as (v & c0 & Hd & H). unfold deref in Hd.
  destruct (value_pool_data c !! p) eqn:Hv; [|done].
  injection Hd as <- <-. unfold store, modify in H. simplify_eq.
  eapply pool_keeps_insert; eauto.
Qed.

(** The writes through the accessor of a variant. *)
Ltac keeps_mutator f :=
  let H := fresh "H" in
  let Hd := fresh "Hd" in
  let Hpl := fresh "Hpl" in
  let c := fresh "c" in
  let w := fresh "w" in
  let c0 := fresh "c0" in
  intros c ? ? H; unfold f in H;
  apply bind_Ok in H as (w & c0 & Hd & H); unfold deref in Hd;
  destruct (value_pool_data c !! _) eqn:?; [|done];
  injection Hd as -> ->;
  destruct (payload w) eqn:Hpl; try done;
  unfold store, modify in H; simplify_eq;
  eapply pool_keeps_insert; eauto; right; intros next; by rewrite Hpl.

Lemma respects_keeps_set_car p x : respects pool_keeps (set_car p x).
Proof. keeps_mutator set_car. Qed.

Lemma respects_keeps_set_cdr p x : respects pool_keeps (set_cdr p x).
Proof. keeps_mutator set_cdr. Qed.

Lemma respects_keeps_set_error_context p x :
  respects pool_keeps (set_error_context p x).
Proof. keeps_mutator set_error_context. Qed.

Lemma respects_keeps_set_data_buffer_data p d :
  respects pool_keeps (set_data_buffer_data p d).
Proof. keeps_mutator set_data_buffer_data. Qed.

Lemma respects_keeps_gc_mark : respects pool_keeps gc_mark.
Proof.
  apply respects_gc_mark;
    auto using respects_keeps_write_mark_bit, respects_keeps_set_cdr
      with typeclass_instances.
Qed.

(** ** Operations off the pool *)

Definition same_pool (c c' : Context) : Prop :=
  value_pool_data c' = value_pool_data c /\ value_pool c' = value_pool c.

#[global] Instance same_pool_preorder : PreOrder same_pool.
Proof.
  split; [done|]. intros x y z [? ?] [? ?]. split; congruence.
Qed.

Lemma same_pool_keeps c c' : same_pool c c' -> pool_keeps c c'.
Proof. intros [? ?]. by apply pool_keeps_off_pool. Qed.

Lemma respects_same_pool_modify f :
  (forall c, value_pool_data (f c) = value_pool_data c) ->
  (forall c, value_pool (f c) = value_pool c) ->
  respects same_pool (modify f).
Proof.
  intros H1 H2. apply respects_modify; try apply _. intros c. by split.
Qed.

Lemma same_pool_push_op p : respects same_pool (push_op p).
Proof.
  apply respects_same_pool_modify; intros c; by destruct (decide _).
Qed.

Lemma same_pool_pop_op : respects same_pool pop_op.
Proof. by apply respects_same_pool_modify. Qed.

Lemma same_pool_intern_search fuel s i :
  respects same_pool (intern_search fuel s i).
Proof.
  revert i. induction fuel as [|fuel IH]; intros i; simpl; respects_tac; auto.
Qed.

Lemma same_pool_interns_append b : respects same_pool (interns_append b).
Proof.
  intros c a c'. unfold interns_append. destruct (decide _); [|done].
  intros ?; simplify_eq. by split.
Qed.

Lemma same_pool_intern s : respects same_pool (intern s).
Proof.
  unfold intern. respects_tac;
    auto using same_pool_intern_search, same_pool_interns_append.
Qed.

Lemma same_pool_make_scratch_buffer : respects same_pool make_scratch_buffer.
Proof.
  intros c a c'. unfold make_scratch_buffer.
  destruct (scratch_buffers_remaining c); [done|]. intros ?; simplify_eq. by split.
Qed.

Lemma same_pool_ProtectedBase_ctor v : respects same_pool (ProtectedBase_ctor v).
Proof.
  intros c a c'. unfold ProtectedBase_ctor.
  repeat case_match; try done; intros ?; simplify_eq; by split.
Qed.

Lemma same_pool_ProtectedBase_dtor p : respects same_pool (ProtectedBase_dtor p).
Proof.
  intros c a c'. unfold ProtectedBase_dtor.
  destruct (_ !! _); [|done]. intros ?; simplify_eq. by split.
Qed.

Lemma same_pool_Protected_set p v : respects same_pool (Protected_set p v).
Proof.
  intros c a c'. unfold Protected_set.
  destruct (_ !! _); [|done]. intros ?; simplify_eq. by split.
Qed.

Lemma same_pool_invoke_finalizer p : respects same_pool (invoke_finalizer p).
Proof.
  unfold invoke_finalizer. respects_tac.
  by apply respects_same_pool_modify.
Qed.

(** ** Freeing and allocating *)

Lemma value_pool_free_Ok p c c' :
  value_pool_free p c = Ok tt c' ->
  exists v,
    value_pool_data c !! p = Some v /\
    c' = with_value_pool (Some p)
           (with_value_pool_data
              (<[p :=
                   mkValue
                     (mkHeader VType.heap_node false false
                        (mode_bits_ (hdr_ v)))
                     (P_heap_node (value_pool c))]> (value_pool_data c)) c).
Proof.
  unfold value_pool_free. intros (v & c0 & Hd & H)%bind_Ok.
  unfold deref in Hd. destruct (_ !! _) eqn:Hv; [|done].
  injection Hd as <- <-.
  apply bind_Ok in H as (c1 & c2 & [= <- <-] & H).
  apply bind_Ok in H as ([] & c3 & H1 & H).
  unfold store, modify in *. simplify_eq. eauto.
Qed.

(** Freeing an alive cell puts it at the head of the free list. *)
Lemma pool_ok_free p c c' l v :
  pool_ok_with c l ->
  value_pool_data c !! p = Some v ->
  alive_ (hdr_ v) = true ->
  value_pool_free p c = Ok tt c' ->
  pool_ok_with c' (p :: l).
Proof.
  intros (Hlen & Hc & Hnd & Hdead & Hcount) Hv Ha H.
  apply value_pool_free_Ok in H as (v' & Hv' & ->).
  assert (v' = v) as -> by congruence. clear Hv'.
  assert (p ∉ l) as Hp.
  { intros Hin. specialize (Hdead p v Hin Hv). congruence. }
  split; [by eapply pool_sized_insert|]. split; [|split; [|split]].
  - simpl. econstructor; [by rewrite lookup_insert_eq|].
    by apply free_chain_insert_other.
  - by constructor.
  - simpl. intros q w Hq. destruct (decide (q = p)) as [->|Hne].
    + rewrite lookup_insert_eq. by intros [= <-].
    + rewrite lookup_insert_ne by done.
      apply Hdead. by apply elem_of_cons in Hq as [?|?].
  - pose proof (live_values_insert c p v
        (mkValue (mkHeader VType.heap_node false false (mode_bits_ (hdr_ v)))
           (P_heap_node (value_pool c))) Hlen Hv) as Hl.
    rewrite Ha in Hl. unfold live_values in *. simpl in *. lia.
Qed.

Lemma respects_grows_gc_sweep_cell i : respects pool_grows (gc_sweep_cell i).
Proof.
  intros c a c' H. unfold gc_sweep_cell in H. cbv zeta in H.
  apply bind_Ok in H as (v & c0 & Hd & H). unfold deref in Hd.
  destruct (value_pool_data c !! _) eqn:Hv; [|done]. injection Hd as -> <-.
  destruct (alive_ (hdr_ v)) eqn:Ha; last first.
  { apply ret_Ok in H as [_ <-]. reflexivity. }
  destruct (mark_bit_ (hdr_ v)).
  - apply bind_Ok in H as ([] & c1 & H1 & H). apply ret_Ok in H as [_ <-].
    by eapply pool_keeps_grows, respects_keeps_write_mark_bit.
  - apply bind_Ok in H as ([] & c1 & H1 & H).
    apply bind_Ok in H as ([] & c2 & H2 & H). apply ret_Ok in H as [_ <-].
    destruct (same_pool_invoke_finalizer _ _ _ _ H1) as [Hd1 Hh1].
    intros l Hl. exists (i :: l). split; [|by apply suffix_cons_r].
    eapply (pool_ok_free _ c1); [| |done|done].
    + eapply same_pool_keeps; [|done]. by split.
    + by rewrite Hd1.
Qed.

Lemma respects_grows_gc_sweep : respects pool_grows gc_sweep.
Proof.
  apply respects_gc_sweep; [apply _ | apply respects_grows_gc_sweep_cell |].
  intros c x. by apply pool_keeps_grows, pool_keeps_off_pool.
Qed.

Lemma respects_grows_run_gc : respects pool_grows run_gc.
Proof.
  unfold run_gc. respects_tac.
  - apply respects_modify; try apply _. intros c.
    by apply pool_keeps_grows, pool_keeps_off_pool.
  - eapply respects_weaken; [apply pool_keeps_grows|].
    apply respects_keeps_gc_mark.
  - apply respects_grows_gc_sweep.
Qed.

(** A cell that came from the allocator and has not been written yet: it is
    alive and off the free list. *)
Definition fresh_ok (p : ptr) (c : Context) : Prop :=
  exists l v, pool_ok_with c l /\ (p ∉ l) /\
              value_pool_data c !! p = Some v /\
              alive_ (hdr_ v) = true.

Definition fresh_step (p : ptr) (c c' : Context) : Prop :=
  fresh_ok p c -> fresh_ok p c'.

#[global] Instance fresh_step_preorder p : PreOrder (fresh_step p).
Proof.
  split; [intros c H; exact H|]. intros x y z H1 H2 H. apply H2, H1, H.
Qed.

Lemma fresh_ok_pool_ok p c : fresh_ok p c -> pool_ok c.
Proof. intros (l & v & H & _). by exists l. Qed.

(** Popping the head of the free list and marking it alive. *)
Lemma value_pool_alloc_init_val c p c1 r c2 l :
  pool_ok_with c l ->
  value_pool_alloc c = Ok (Some p) c1 ->
  init_val p c1 = Ok r c2 ->
  r = p /\ exists l', l = p :: l' /\ fresh_ok p c2 /\ pool_ok_with c2 l'.
Proof.
  intros (Hlen & Hc & Hnd & Hdead & Hcount) Ha Hi.
  unfold value_pool_alloc in Ha.
  destruct (value_pool c) as [q|] eqn:Hq; [|by injection Ha].
  destruct (value_pool_data c !! q) as [[h pl]|] eqn:Hv; [|done].
  destruct pl; try done. rename select (option N) into nx.
  injection Ha as -> <-.
  unfold init_val in Hi. apply bind_Ok in Hi as (v & c3 & Hd & Hi).
  unfold deref in Hd. simpl in Hd. rewrite Hv in Hd. injection Hd as <- <-.
  apply bind_Ok in Hi as ([] & c3 & Hs & Hi). apply ret_Ok in Hi as [<- <-].
  unfold store, modify in Hs. simpl in Hs. simplify_eq.
  split; [done|].
  inversion Hc as [|p' h' next' l' Hp' Hc' Heq1]; subst.
  rewrite Hv in Hp'. injection Hp' as <- <-.
  apply NoDup_cons in Hnd as [Hp Hnd].
  exists l'. split; [done|].
  assert (pool_ok_with
            (with_value_pool_data
               (<[p :={|
                    hdr_ := {| type_ := type_ h; alive_ := true;
                               mark_bit_ := false;
                               mode_bits_ := mode_bits_ h |};
                    payload := P_heap_node nx |}]>
                  (value_pool_data c)) (with_value_pool nx c)) l') as Hok.
  { split; [by eapply pool_sized_insert|]. split; [|split; [done|split]].
    - simpl. by apply free_chain_insert_other.
    - simpl. intros q' w Hq'. rewrite lookup_insert_ne.
      + apply Hdead. by right.
      + by intros ->.
    - pose proof (live_values_insert (with_value_pool nx c) p _
          (mkValue (mkHeader (type_ h) true false (mode_bits_ h))
             (P_heap_node nx)) Hlen Hv) as Hl.
      rewrite (Hdead p _ ltac:(left) Hv) in Hl.
      unfold live_values in *. simpl in *. lia. }
  split; [|done].
  eexists l', _. split; [done|]. split; [done|]. simpl.
  by rewrite lookup_insert_eq.
Qed.

Lemma value_pool_alloc_None c c1 :
  value_pool_alloc c = Ok None c1 -> c1 = c.
Proof.
  unfold value_pool_alloc. repeat case_match; try done. by intros [= <-].
Qed.

Lemma alloc_value_Some c p c' :
  pool_ok c -> alloc_value c = Ok (Some p) c' -> fresh_ok p c'.
Proof.
  intros [l Hl] H. unfold alloc_value in H.
  apply bind_Ok in H as ([q|] & c1 & Ha & H).
  - apply bind_Ok in H as (r & c2 & Hi & H). apply ret_Ok in H as [[= <-] <-].
    destruct (value_pool_alloc_init_val _ _ _ _ _ _ Hl Ha Hi)
      as (-> & l' & _ & Hf & _). done.
  - apply value_pool_alloc_None in Ha as ->.
    apply bind_Ok in H as (n & c2 & Hgc & H).
    destruct (respects_grows_run_gc _ _ _ Hgc l Hl) as (l2 & Hl2 & _).
    apply bind_Ok in H as ([q|] & c3 & Ha & H); [|by apply ret_Ok in H as [? _]].
    apply bind_Ok in H as (r & c4 & Hi & H). apply ret_Ok in H as [[= <-] <-].
    destruct (value_pool_alloc_init_val _ _ _ _ _ _ Hl2 Ha Hi)
      as (-> & l' & _ & Hf & _). done.
Qed.

Lemma alloc_value_None c c' :
  pool_ok c -> alloc_value c = Ok None c' -> pool_ok c'.
Proof.
  intros [l Hl] H. unfold alloc_value in H.
  apply bind_Ok in H as ([q|] & c1 & Ha & H).
  - apply bind_Ok in H as (r & c2 & Hi & H). by apply ret_Ok in H as [? _].
  - apply value_pool_alloc_None in Ha as ->.
    apply bind_Ok in H as (n & c2 & Hgc & H).
    destruct (respects_grows_run_gc _ _ _ Hgc l Hl) as (l2 & Hl2 & _).
    apply bind_Ok in H as ([q|] & c3 & Ha & H).
    + apply bind_Ok in H as (r & c4 & Hi & H). by apply ret_Ok in H as [? _].
    + apply value_pool_alloc_None in Ha as ->. apply ret_Ok in H as [_ <-].
      by exists l2.
Qed.

(** The shape of every constructor: allocate, then fill in the cell. *)
Lemma respects_step_alloc_value {A} (k : option ptr -> M A) :
  (forall p, respects (fresh_step p) (k (Some p))) ->
  respects pool_step (k None) ->
  respects pool_step (bind alloc_value k).
Proof.
  intros Hsome Hnone c a c' (o & c1 & Ha & Hk)%bind_Ok Hok.
  destruct o as [p|].
  - eapply fresh_ok_pool_ok, Hsome; [done|]. by eapply alloc_value_Some.
  - eapply Hnone; [done|]. by eapply alloc_value_None.
Qed.

Lemma fresh_step_keeps p c c' : pool_keeps c c' ->
  value_pool_data c' !! p = value_pool_data c !! p \/
  (forall v, value_pool_data c !! p = Some v ->
     exists v', value_pool_data c' !! p = Some v' /\
                alive_ (hdr_ v') = alive_ (hdr_ v)) ->
  fresh_step p c c'.
Proof.
  intros Hk Hcell (l & v & Hl & Hp & Hv & Ha).
  destruct Hcell as [Heq|Hcell].
  - exists l, v. rewrite Heq. auto.
  - destruct (Hcell v Hv) as (v' & Hv' & Ha').
    exists l, v'. split; [auto|]. split; [done|]. split; [done|]. congruence.
Qed.

Lemma fresh_step_same_pool p c c' : same_pool c c' -> fresh_step p c c'.
Proof.
  intros Hs. apply fresh_step_keeps; [by apply same_pool_keeps|].
  left. destruct Hs as [-> _]. done.
Qed.

(** Filling in the fresh cell. *)
Lemma fresh_step_write_cell p t pl : respects (fresh_step p) (write_cell p t pl).
Proof.
  intros c a c' H (l & v & (Hlen & Hc & Hnd & Hdead & Hcount) & Hp & Hv & Ha).
  unfold write_cell in H. apply bind_Ok in H as (w & c0 & Hd & H).
  unfold deref in Hd. rewrite Hv in Hd. injection Hd as <- <-.
  unfold store, modify in H. simplify_eq.
  exists l, (mkValue (set_type_ t (hdr_ v)) pl).
  split; [|split; [done|split]].
  - split; [by eapply pool_sized_insert|]. split; [|split; [done|split]].
    + simpl. by apply free_chain_insert_other.
    + simpl. intros q w Hq. rewrite lookup_insert_ne.
      * by apply Hdead.
      * by intros ->.
    + pose proof (live_values_insert c p v
          (mkValue (set_type_ t (hdr_ v)) pl) Hlen Hv) as Hl.
      simpl in *. rewrite Ha in Hl. lia.
  - simpl. by rewrite lookup_insert_eq.
  - done.
Qed.

Lemma fresh_step_write_mode_bits p q m :
  respects (fresh_step p) (write_mode_bits q m).
Proof.
  intros c a c' H. apply fresh_step_keeps.
  - by eapply respects_keeps_write_mode_bits.
  - right. intros v Hv. unfold write_mode_bits in H.
    apply bind_Ok in H as (w & c0 & Hd & H). unfold deref in Hd.
    destruct (value_pool_data c !! q) eqn:Hw; [|done].
    injection Hd as <- <-. unfold store, modify in H. simplify_eq. simpl.
    destruct (decide (q = p)) as [->|Hne].
    + rewrite lookup_insert_eq.
      rewrite Hv in Hw. injection Hw as <-. eauto.
    + rewrite lookup_insert_ne by done. eauto.
Qed.

Lemma fresh_step_set_data_buffer_data p q d :
  respects (fresh_step p) (set_data_buffer_data q d).
Proof.
  intros c a c' H. apply fresh_step_keeps.
  - by eapply respects_keeps_set_data_buffer_data.
  - right. intros v Hv. unfold set_data_buffer_data in H.
    apply bind_Ok in H as (w & c0 & Hd & H). unfold deref in Hd.
    destruct (value_pool_data c !! q) eqn:Hw; [|done].
    injection Hd as -> <-. destruct (payload w); try done.
    unfold store, modify in H. simplify_eq. simpl.
    destruct (decide (q = p)) as [->|Hne].
    + rewrite lookup_insert_eq.
      rewrite Hv in Hw. injection Hw as <-. eauto.
    + rewrite lookup_insert_ne by done. eauto.
Qed.

Lemma respects_step_of_grows {A} (m : M A) :
  respects pool_grows m -> respects pool_step m.
Proof. apply respects_weaken, pool_grows_step. Qed.

Lemma respects_step_of_keeps {A} (m : M A) :
  respects pool_keeps m -> respects pool_step m.
Proof.
  intros H. apply respects_step_of_grows.
  eapply respects_weaken; [apply pool_keeps_grows | done].
Qed.

Lemma respects_keeps_of_same {A} (m : M A) :
  respects same_pool m -> respects pool_keeps m.
Proof. apply respects_weaken, same_pool_keeps. Qed.

Lemma respects_step_of_same {A} (m : M A) :
  respects same_pool m -> respects pool_step m.
Proof. intros H. by apply respects_step_of_keeps, respects_keeps_of_same. Qed.

Lemma respects_fresh_of_same {A} p (m : M A) :
  respects same_pool m -> respects (fresh_step p) m.
Proof. apply respects_weaken, fresh_step_same_pool. Qed.

Lemma same_pool_with_string_buffer_ x :
  respects same_pool (modify (with_string_buffer_ x)).
Proof. by apply respects_same_pool_modify. Qed.

Create HintDb pool_db.
#[global] Hint Resolve same_pool_push_op same_pool_pop_op same_pool_intern
  same_pool_make_scratch_buffer same_pool_ProtectedBase_ctor
  same_pool_ProtectedBase_dtor same_pool_Protected_set
  same_pool_with_string_buffer_
  respects_keeps_write_mark_bit respects_keeps_write_mode_bits
  respects_keeps_set_car respects_keeps_set_cdr
  respects_keeps_set_error_context respects_keeps_set_data_buffer_data
  respects_grows_run_gc
  fresh_step_write_cell fresh_step_write_mode_bits
  fresh_step_set_data_buffer_data : pool_db.

(** Solves [respects (fresh_step p) m] and [respects pool_step m] for the
    bodies of the constructors. *)
Ltac pool_prim :=
  first
    [ respects_reader
    | solve [auto with pool_db]
    | apply respects_fresh_of_same; solve [auto with pool_db]
    | apply respects_step_of_same; solve [auto with pool_db]
    | apply respects_step_of_keeps; solve [auto with pool_db]
    | apply respects_step_of_grows; solve [auto with pool_db] ].

Ltac pool_tac :=
  repeat first
    [ apply respects_step_alloc_value; [intros ? |]
    | respects_step
    | pool_prim ].

Lemma respects_step_make_cons a d : respects pool_step (make_cons a d).
Proof. unfold make_cons. pool_tac. Qed.

Lemma respects_step_make_integer z : respects pool_step (make_integer z).
Proof. unfold make_integer. pool_tac. Qed.

Lemma respects_step_make_error e x : respects pool_step (make_error e x).
Proof. unfold make_error. pool_tac. Qed.

Lemma respects_step_make_function i : respects pool_step (make_function i).
Proof. unfold make_function. pool_tac. Qed.

Lemma respects_step_make_lisp_function i :
  respects pool_step (make_lisp_function i).
Proof. unfold make_lisp_function. pool_tac. Qed.

Lemma respects_step_make_bytecode_function i :
  respects pool_step (make_bytecode_function i).
Proof. unfold make_bytecode_function. pool_tac. Qed.

Lemma respects_step_make_userdata i : respects pool_step (make_userdata i).
Proof. unfold make_userdata. pool_tac. Qed.

Lemma respects_step_intern_to_symbol i :
  respects pool_step (intern_to_symbol i).
Proof. unfold intern_to_symbol. pool_tac. Qed.

Lemma respects_step_make_symbol n m : respects pool_step (make_symbol n m).
Proof. unfold make_symbol. pool_tac. Qed.

Lemma respects_step_make_databuffer : respects pool_step make_databuffer.
Proof. unfold make_databuffer. pool_tac. Qed.

Lemma respects_step_make_string s : respects pool_step (make_string s).
Proof.
  unfold make_string, make_string_cell, with_Protected. pool_tac.
  all: apply respects_step_make_databuffer.
Qed.

(** Every operation of the runtime takes a sound pool to a sound pool. *)
Lemma runtime_op_pool_step {A} (m : M A) :
  runtime_op m -> respects pool_step m.
Proof.
  induction 1 as [A B m k Hm IHm Hk IHk|A m Hoff| | | | | | | | | | | | | | | | | | ].
  - by apply respects_bind; [apply _| |].
  - apply respects_step_of_same. intros c a c' H. by apply (Hoff c a c').
  - pool_prim.
  - pool_prim.
  - pool_prim.
  - pool_prim.
  - pool_prim.
  - pool_prim.
  - apply respects_step_make_function.
  - apply respects_step_make_lisp_function.
  - apply respects_step_make_bytecode_function.
  - apply respects_step_make_cons.
  - apply respects_step_make_integer.
  - apply respects_step_make_error.
  - apply respects_step_make_symbol.
  - apply respects_step_intern_to_symbol.
  - apply respects_step_make_userdata.
  - apply respects_step_make_databuffer.
  - apply respects_step_make_string.
  - pool_prim.
Qed.

(** ** Initialisation *)

(** Pre- and postconditions of an operation. *)
Definition hoare {A} (P : Context -> Prop) (m : M A)
    (Q : A -> Context -> Prop) : Prop :=
  forall c a c', P c -> m c = Ok a c' -> Q a c'.

Lemma hoare_bind {A B} P (m : M A) Q (k : A -> M B) R :
  hoare P m Q -> (forall a, hoare (Q a) (k a) R) -> hoare P (bind m k) R.
Proof.
  intros Hm Hk c b c' HP (a & c1 & H1 & H2)%bind_Ok.
  eapply Hk; [|done]. by eapply Hm.
Qed.

Lemma hoare_respects {A} (R : relation Context) P P' (m : M A) :
  respects R m -> (forall c c', P c -> R c c' -> P' c') ->
  hoare P m (fun _ => P').
Proof. intros Hm HR c a c' HP H. eapply HR; [done|]. by eapply Hm. Qed.

Lemma hoare_step {A} (m : M A) :
  respects pool_step m -> hoare pool_ok m (fun _ => pool_ok).
Proof. intros Hm. eapply hoare_respects; [done|]. intros c c' H HR. by apply HR. Qed.

Lemma hoare_fresh {A} p (m : M A) :
  respects (fresh_step p) m -> hoare (fresh_ok p) m (fun _ => fresh_ok p).
Proof. intros Hm. eapply hoare_respects; [done|]. intros c c' H HR. by apply HR. Qed.

Lemma hoare_pre {A} (P P' : Context -> Prop) (m : M A) Q :
  (forall c, P c -> P' c) -> hoare P' m Q -> hoare P m Q.
Proof. intros HP Hm c a c' H. apply Hm. by apply HP. Qed.

Lemma hoare_alloc_value :
  hoare pool_ok alloc_value
    (fun o c => match o with Some p => fresh_ok p c | None => pool_ok c end).
Proof.
  intros c [p|] c' Hok H.
  - by eapply alloc_value_Some.
  - by eapply alloc_value_None.
Qed.

Lemma for_each_app {A} (l1 l2 : list A) body c :
  for_each (l1 ++ l2) body c
  = (run for_each l1 body ;; for_each l2 body) c.
Proof.
  revert c. induction l1 as [|x l1 IH]; intros c; simpl; [done|].
  unfold bind at 1 2 3. destruct (body x c) as [[] c1|]; [|done].
  rewrite IH. done.
Qed.

Lemma live_cells_all_dead pool indices :
  (forall i v, pool !! i = Some v -> alive_ (hdr_ v) = false) ->
  live_cells pool indices = [].
Proof.
  intros H. induction indices as [|j indices IH]; [done|].
  rewrite live_cells_cons, IH. unfold live_cell.
  destruct (pool !! j) as [v|] eqn:Hv; [|done]. by rewrite (H j v Hv).
Qed.

Lemma pool_indices_S start k :
  pool_indices start (S k) = pool_indices start k ++ [(start + N.of_nat k)%N].
Proof.
  revert start. induction k as [|k IH]; intros start.
  - simpl. f_equal. lia.
  - change (pool_indices start (S (S k)))
      with (start :: pool_indices (N.succ start) (S k)).
    rewrite IH. simpl. do 3 f_equal. lia.
Qed.

Lemma pool_sized_zero_pool : pool_sized zero_pool.
Proof.
  intros p. unfold zero_pool.
  rewrite <- not_eq_None_Some, <- not_elem_of_list_to_map.
  rewrite <- list_fmap_compose, list_elem_of_fmap.
  setoid_rewrite elem_of_pool_indices. split.
  - intros H. destruct (decide (N.to_nat p < VALUE_POOL_SIZE)); [done|].
    exfalso. apply H. intros (q & -> & Hq). simpl in *. lia.
  - intros H Hn. apply Hn. exists p. simpl. split; [done|lia].
Qed.

(** The state after the first [k] rounds of [value_pool_init]. *)
Lemma value_pool_init_prefix c k :
  value_pool c = None ->
  pool_sized (value_pool_data c) ->
  k <= VALUE_POOL_SIZE ->
  exists c',
    for_each (pool_indices 0 k) value_pool_init_cell c = Ok tt c' /\
    pool_sized (value_pool_data c') /\
    free_chain (value_pool_data c') (value_pool c')
      (reverse (pool_indices 0 k)) /\
    (forall i v, N.to_nat i < k -> value_pool_data c' !! i = Some v ->
                 alive_ (hdr_ v) = false).
Proof.
  intros Hhead Hsz. induction k as [|k IH]; intros Hk.
  - exists c. simpl. split; [done|]. split; [done|]. rewrite Hhead.
    split; [constructor|]. intros; lia.
  - destruct IH as (c1 & Hrun & Hlen & Hchain & Hdead); [lia|].
    rewrite pool_indices_S, for_each_app. simpl.
    rewrite (bind_eq _ _ _ _ _ Hrun). simpl.
    unfold value_pool_init_cell.
    destruct (value_pool_data c1 !! N.of_nat k) as [v|] eqn:Hv; last first.
    { assert (is_Some (value_pool_data c1 !! N.of_nat k)) as [? ?].
      { apply Hlen. lia. }
      congruence. }
    assert (deref (N.of_nat k) c1 = Ok v c1) as Hd.
    { unfold deref. by rewrite Hv. }
    unfold bind at 1. rewrite (bind_eq _ _ _ _ _ Hd).
    unfold bind, get_ctx, store, modify, ret. simpl.
    eexists. split; [done|]. simpl.
    split; [by eapply pool_sized_insert|]. split; [|].
    + rewrite reverse_app. simpl. econstructor.
      * by rewrite lookup_insert_eq.
      * apply free_chain_insert_other; [done|].
        rewrite elem_of_reverse, elem_of_pool_indices. lia.
    + intros i w Hi. destruct (decide (N.of_nat k = i)) as [<-|Hne].
      * rewrite lookup_insert_eq. by intros [= <-].
      * rewrite lookup_insert_ne by done. apply Hdead. lia.
Qed.

Lemma value_pool_init_ok c c' :
  value_pool c = None ->
  pool_sized (value_pool_data c) ->
  value_pool_init c = Ok tt c' ->
  pool_ok c'.
Proof.
  intros Hhead Hlen H. unfold value_pool_init in H.
  destruct (value_pool_init_prefix c VALUE_POOL_SIZE Hhead Hlen ltac:(lia))
    as (c1 & Hrun & Hlen1 & Hchain & Hdead).
  rewrite Hrun in H. injection H as <-.
  exists (reverse (pool_indices 0 VALUE_POOL_SIZE)).
  assert (forall i v, value_pool_data c1 !! i = Some v ->
                      alive_ (hdr_ v) = false) as Hall.
  { intros i v Hi. apply (Hdead i); [|done]. apply Hlen1. eauto. }
  split; [done|]. split; [done|]. split; [|split].
  - rewrite reverse_Permutation. apply NoDup_pool_indices.
  - intros p v _. apply Hall.
  - unfold live_values. rewrite live_cells_all_dead by done.
    rewrite length_reverse, length_pool_indices. simpl. lia.
Qed.

#[global] Hint Resolve respects_step_make_cons respects_step_make_integer
  respects_step_make_error respects_step_make_function
  respects_step_make_lisp_function respects_step_make_bytecode_function
  respects_step_make_userdata respects_step_intern_to_symbol
  respects_step_make_symbol respects_step_make_databuffer
  respects_step_make_string : pool_db.

Lemma respects_step_insert_loop fuel key value current prev left :
  respects pool_step
    (globals_tree_insert_loop fuel key value current prev left).
Proof.
  revert current prev left.
  induction fuel as [|fuel IH]; intros current prev left; simpl; pool_tac.
Qed.

Lemma respects_step_new_node kvp :
  respects pool_step (globals_tree_new_node kvp).
Proof. unfold globals_tree_new_node. pool_tac. Qed.

#[global] Hint Resolve respects_step_insert_loop respects_step_new_node
  : pool_db.

Lemma same_pool_with_globals_tree_ x :
  respects same_pool (modify (with_globals_tree_ x)).
Proof. by apply respects_same_pool_modify. Qed.

#[global] Hint Resolve same_pool_with_globals_tree_ : pool_db.

Lemma respects_step_globals_tree_insert fuel key value :
  respects pool_step (globals_tree_insert fuel key value).
Proof. unfold globals_tree_insert, with_Protected. pool_tac. Qed.

Lemma reads_lexical_frame_lookup fuel name bindings :
  reads (lexical_frame_lookup fuel name bindings).
Proof.
  revert bindings. induction fuel as [|fuel IH]; intros bindings; simpl;
    reads_tac; try respects_reader.
  apply reads_respects; [apply _ | apply IH].
Qed.

Lemma reads_lexical_lookup fuel name stack :
  reads (lexical_lookup fuel name stack).
Proof.
  revert stack. induction fuel as [|fuel IH]; intros stack; simpl;
    reads_tac; try respects_reader.
  - apply reads_respects; [apply _ | apply reads_lexical_frame_lookup].
  - apply reads_respects; [apply _ | apply IH].
Qed.

Lemma respects_step_set_var fuel symbol val :
  respects pool_step (set_var fuel symbol val).
Proof.
  unfold set_var. pool_tac.
  - apply reads_respects; [apply _ | apply reads_lexical_lookup].
  - apply respects_step_globals_tree_insert.
Qed.

Lemma respects_step_set_var_named fuel name value :
  respects pool_step (set_var_named fuel name value).
Proof. unfold set_var_named. pool_tac. apply respects_step_set_var. Qed.

Lemma respects_step_install_builtins fuel names index :
  respects pool_step (install_builtins fuel names index).
Proof.
  revert index. induction names as [|n names IH]; intros index; simpl;
    pool_tac.
  apply respects_step_set_var_named.
Qed.

Lemma same_pool_field_setters x y :
  respects same_pool (modify (with_nil_ x)) /\
  respects same_pool (modify (with_oom_ x)) /\
  respects same_pool (modify (with_this_ x)) /\
  respects same_pool (modify (with_lexical_bindings_ x)) /\
  respects same_pool (modify (with_macros_ x)) /\
  respects same_pool (modify (with_interp_entry_count_ y)) /\
  respects same_pool (modify (with_arguments_break_loc_ y)) /\
  respects same_pool (modify (with_current_fn_argc_ y)).
Proof. split_and!; by apply respects_same_pool_modify. Qed.

Lemma same_pool_with_nil_ x : respects same_pool (modify (with_nil_ x)).
Proof. by apply respects_same_pool_modify. Qed.
Lemma same_pool_with_oom_ x : respects same_pool (modify (with_oom_ x)).
Proof. by apply respects_same_pool_modify. Qed.
Lemma same_pool_with_this_ x : respects same_pool (modify (with_this_ x)).
Proof. by apply respects_same_pool_modify. Qed.
Lemma same_pool_with_lexical_bindings_ x :
  respects same_pool (modify (with_lexical_bindings_ x)).
Proof. by apply respects_same_pool_modify. Qed.
Lemma same_pool_with_macros_ x : respects same_pool (modify (with_macros_ x)).
Proof. by apply respects_same_pool_modify. Qed.
Lemma same_pool_with_interp_entry_count_ x :
  respects same_pool (modify (with_interp_entry_count_ x)).
Proof. by apply respects_same_pool_modify. Qed.
Lemma same_pool_with_arguments_break_loc_ x :
  respects same_pool (modify (with_arguments_break_loc_ x)).
Proof. by apply respects_same_pool_modify. Qed.
Lemma same_pool_with_current_fn_argc_ x :
  respects same_pool (modify (with_current_fn_argc_ x)).
Proof. by apply respects_same_pool_modify. Qed.

#[global] Hint Resolve same_pool_with_nil_ same_pool_with_oom_
  same_pool_with_this_ same_pool_with_lexical_bindings_
  same_pool_with_macros_ same_pool_with_interp_entry_count_
  same_pool_with_arguments_break_loc_ same_pool_with_current_fn_argc_
  : pool_db.

(** The two allocations of [init]: the cell is taken from the allocator,
    recorded in the context and then given its type. *)
Lemma hoare_alloc_then_write {B} (pre : ptr -> M unit) t (pl : Payload)
    (rest : ptr -> M B) Q :
  (forall p, respects same_pool (pre p)) ->
  (forall p, hoare pool_ok (rest p) Q) ->
  hoare pool_ok
    (do o <- alloc_value ;;
     do p <- expect o ;;
     run pre p ;;
     run write_cell p t pl ;;
     rest p) Q.
Proof.
  intros Hpre Hrest.
  eapply hoare_bind; [apply hoare_alloc_value|]. intros [p|]; last first.
  { intros c a c' _ H. by apply bind_Ok in H as (? & ? & [? _]%expect_Ok & _). }
  intros c a c' Hf H.
  apply bind_Ok in H as (p' & c1 & [[= <-] <-]%expect_Ok & H).
  apply bind_Ok in H as ([] & c2 & H1 & H).
  apply bind_Ok in H as ([] & c3 & H2 & H).
  eapply Hrest; [|done].
  eapply fresh_ok_pool_ok, fresh_step_write_cell; [done|].
  eapply fresh_step_same_pool; [|done]. by eapply Hpre.
Qed.

(** [init] leaves a sound pool. *)
Lemma init_pool_ok fuel pfrm buffers scratch c :
  init fuel pfrm (unbound_context buffers scratch) = Ok tt c -> pool_ok c.
Proof.
  intros H. unfold init in H.
  apply bind_Ok in H as ([] & c0 & Hinit & H).
  apply value_pool_init_ok in Hinit; [|done|apply pool_sized_zero_pool].
  refine (hoare_alloc_then_write (fun p => modify (with_nil_ p)) _ _ _
            (fun _ => pool_ok) _ _ c0 tt c Hinit H); [auto with pool_db|].
  intros nil.
  eapply hoare_bind; [apply hoare_step; pool_prim|]. intros [].
  eapply hoare_bind; [apply hoare_step; pool_prim|]. intros [].
  eapply hoare_bind; [apply hoare_step; pool_prim|]. intros [].
  apply (hoare_alloc_then_write (fun p => modify (with_oom_ p)));
    [auto with pool_db |].
  intros oom. apply hoare_step. pool_tac.
  - apply respects_step_set_var_named.
  - apply respects_step_install_builtins.
Qed.

(** ** The statement of pool conservation *)

Lemma reachable_pool_ok c : reachable c -> pool_ok c.
Proof.
  induction 1 as [fuel pfrm buffers scratch c H|A m c a c' _ IH Hm H].
  - by eapply init_pool_ok.
  - by eapply (runtime_op_pool_step m Hm).
Qed.

(** With a cell on the free list, [alloc_value] returns the head. *)
Lemma alloc_value_pops c l p :
  pool_ok_with c l -> value_pool c = Some p ->
  exists c' l', alloc_value c = Ok (Some p) c' /\ l = p :: l' /\
                pool_ok_with c' l' /\ alive_at c' p.
Proof.
  intros Hok Hp. pose proof Hok as (Hlen & Hc & Hnd & Hdead & Hcount).
  rewrite Hp in Hc. inversion Hc as [|p' h next l' Hv Hc' Heq1]; subst.
  assert (value_pool_alloc c = Ok (Some p) (with_value_pool next c)) as Ha.
  { unfold value_pool_alloc. by rewrite Hp, Hv. }
  destruct (init_val p (with_value_pool next c)) as [r c2|e] eqn:Hi; last first.
  { unfold init_val, bind, deref in Hi. simpl in Hi. by rewrite Hv in Hi. }
  destruct (value_pool_alloc_init_val _ _ _ _ _ _ Hok Ha Hi)
    as (-> & l2 & [= <-] & (l3 & v & _ & _ & Hv2 & Ha2) & Hok2).
  exists c2, l'. split; [|split; [done|split; [done|by exists v]]].
  unfold alloc_value. rewrite (bind_eq _ _ _ _ _ Ha).
  by rewrite (bind_eq _ _ _ _ _ Hi).
Qed.

(** An alive cell can be freed. *)
Lemma value_pool_free_alive c p v :
  value_pool_data c !! p = Some v ->
  exists c', value_pool_free p c = Ok tt c'.
Proof.
  intros Hv. unfold value_pool_free, bind, deref, get_ctx, store, modify, ret.
  rewrite Hv. eauto.
Qed.

Lemma pool_ok_with_not_alive c l p :
  pool_ok_with c l -> p ∈ l -> ~ alive_at c p.
Proof.
  intros (_ & _ & _ & Hdead & _) Hp (v & Hv & Ha).
  rewrite (Hdead p v Hp Hv) in Ha. done.
Qed.

(** Pool conservation along the runs that the model follows.  At every
    state reached from [init] through
    operations of the runtime that return, the free list is a chain of
    cells none of which is alive, the count of [interp-stat] is its length,
    and this length and the number of alive cells add up to the size of the
    pool.  An allocation with a cell on the free list takes the head off the
    list and makes it alive, so there is one alive cell more; freeing an
    alive cell puts it at the head of the list, so there is one alive cell
    less; and a run of the collector leaves at least as many cells on the
    free list as there were.  Nothing is said of a program after it has
    read or written a cell through the wrong member of the union, where the
    model stops. *)
Theorem pool_conservation (c : Context) :
  reachable c ->
  exists free_list,
    free_chain (value_pool_data c) (value_pool c) free_list /\
    values_remaining c = Some (length free_list) /\
    length free_list + length (live_values c) = VALUE_POOL_SIZE /\
    (forall p, p ∈ free_list -> ~ alive_at c p) /\
    (forall p, value_pool c = Some p ->
       exists c' rest,
         alloc_value c = Ok (Some p) c' /\
         free_list = p :: rest /\
         free_chain (value_pool_data c') (value_pool c') rest /\
         values_remaining c' = Some (length rest) /\
         alive_at c' p /\
         length (live_values c') = S (length (live_values c))) /\
    (forall p, alive_at c p ->
       exists c',
         value_pool_free p c = Ok tt c' /\
         free_chain (value_pool_data c') (value_pool c') (p :: free_list) /\
         values_remaining c' = Some (S (length free_list)) /\
         ~ alive_at c' p /\
         S (length (live_values c')) = length (live_values c)) /\
    (forall n c', run_gc c = Ok n c' ->
       exists k, values_remaining c' = Some k /\ length free_list <= k /\
                 k + length (live_values c') = VALUE_POOL_SIZE).
Proof.
  intros [l Hok]%reachable_pool_ok. exists l.
  pose proof Hok as (Hlen & Hc & Hnd & Hdead & Hcount).
  split; [done|]. split; [by apply pool_ok_values_remaining|].
  split; [done|]. split; [intros p; by apply pool_ok_with_not_alive|].
  split; [|split].
  - intros p Hp.
    destruct (alloc_value_pops c l p Hok Hp) as (c' & l' & Ha & -> & Hok' & Hal).
    exists c', l'. split; [done|]. split; [done|].
    pose proof Hok' as (_ & Hc' & _ & _ & Hcount').
    split; [done|]. split; [by apply pool_ok_values_remaining|].
    split; [done|]. simpl in Hcount. lia.
  - intros p (v & Hv & Ha).
    destruct (value_pool_free_alive c p v Hv) as [c' Hf]. exists c'.
    pose proof (pool_ok_free p c c' l v Hok Hv Ha Hf) as Hok'.
    pose proof Hok' as (_ & Hc' & _ & _ & Hcount').
    split; [done|]. split; [done|].
    split; [by rewrite (pool_ok_values_remaining _ _ Hok')|].
    split; [apply (pool_ok_with_not_alive _ _ _ Hok'); by left|].
    simpl in Hcount'. lia.
  - intros n c' Hgc.
    destruct (respects_grows_run_gc _ _ _ Hgc l Hok) as (l' & Hok' & Hsuf).
    exists (length l'). split; [by apply pool_ok_values_remaining|].
    split; [by apply suffix_length|]. by destruct Hok' as (_ & _ & _ & _ & ?).
Qed.

Lemma booted_reachable : reachable booted.
Proof.
  apply (reach_init 100 0 10 (replicate SCRATCH_BUFFER_SIZE NUL)).
  vm_cast_no_check (eq_refl (Ok tt booted)).
Qed.

Lemma booted_pool_ok : pool_ok booted.
Proof. apply reachable_pool_ok, booted_reachable. Qed.

Lemma pool_conservation_witness :
  reachable garbage_state /\
  exists free_list : list ptr,
    values_remaining garbage_state = Some (length free_list) /\
    length free_list + length (live_values garbage_state) = VALUE_POOL_SIZE /\
    exists k, values_remaining (result_context (run_gc garbage_state)) = Some k
              /\ length free_list <= k.
Proof.
  assert (reachable garbage_state) as Hr.
  { refine (reach_step (make_integer 7) booted 8782%N _ booted_reachable
              (rop_make_integer 7) _).
    by_run_to (make_integer 7 booted) 8782%N. }
  split; [exact Hr|].
  destruct (pool_conservation garbage_state Hr)
    as (free_list & _ & Hrem & Hsum & _ & _ & _ & Hgc).
  exists free_list. split; [exact Hrem|]. split; [exact Hsum|].
  destruct (Hgc (result_value (run_gc garbage_state) 0)
              (result_context (run_gc garbage_state)))
    as (k & Hk & Hle & _); [by_run|].
  exists k. split; [exact Hk | exact Hle].
Defined.

(** * Allocation, the collector and the out-of-memory sentinel (claim C3) *)

(** ** Counting the passes of the collector *)

(** An operation that runs no pass of the collector and leaves [oom_]. *)
Definition quiet (c c' : Context) : Prop :=
  oom_ c' = oom_ c /\ gc_passes c' = gc_passes c.

#[global] Instance quiet_insensitive : PoolInsensitive quiet.
Proof.
  split; try done. split; [done|].
  intros x y z [? ?] [? ?]. split; congruence.
Qed.

(** [passes k m]: a run of [m] leaves [oom_] and runs at most [k] passes. *)
Definition passes {A} (k : nat) (m : M A) : Prop :=
  forall c a c', m c = Ok a c' ->
    oom_ c' = oom_ c /\ gc_passes c <= gc_passes c' <= gc_passes c + k.

Lemma passes_quiet {A} (m : M A) : respects quiet m -> passes 0 m.
Proof. intros H c a c' [Ho Hp]%H. split; [done|lia]. Qed.

Lemma passes_weaken {A} j k (m : M A) : j <= k -> passes j m -> passes k m.
Proof. intros Hjk H c a c' [Ho Hp]%H. split; [done|lia]. Qed.

Lemma passes_bind {A B} j k (m : M A) (f : A -> M B) :
  passes j m -> (forall a, passes k (f a)) -> passes (j + k) (bind m f).
Proof.
  intros Hm Hf c b c' (a & c1 & [Ho1 Hp1]%Hm & [Ho2 Hp2]%Hf)%bind_Ok.
  split; [congruence|lia].
Qed.

Lemma run_gc_frame c n c' :
  run_gc c = Ok n c' -> oom_ c' = oom_ c /\ gc_passes c' = S (gc_passes c).
Proof.
  unfold run_gc. intros ([] & c1 & H1 & H)%bind_Ok.
  apply bind_Ok in H as ([] & c2 & H2 & H).
  apply (respects_gc_mark' quiet) in H2 as [Ho2 Hp2].
  apply (respects_gc_sweep' quiet) in H as [Ho3 Hp3].
  unfold modify in H1. simplify_eq. simpl in *. split; congruence.
Qed.

Lemma passes_run_gc : passes 1 run_gc.
Proof. intros c n c' [Ho Hp]%run_gc_frame. split; [done|lia]. Qed.

Lemma quiet_value_pool_alloc : respects quiet value_pool_alloc.
Proof. apply (respects_value_pool_alloc quiet). Qed.

Lemma quiet_init_val p : respects quiet (init_val p).
Proof. apply (respects_init_val quiet). Qed.

(** ** [alloc_value] *)

(** With a cell on the free list, [alloc_value] pops the head and runs no
    pass of the collector. *)
Lemma alloc_value_head c p r c' :
  value_pool c = Some p -> alloc_value c = Ok r c' ->
  r = Some p /\ gc_passes c' = gc_passes c /\ oom_ c' = oom_ c.
Proof.
  intros Hp H. unfold alloc_value in H.
  apply bind_Ok in H as (o & c1 & Ha & H).
  pose proof (quiet_value_pool_alloc _ _ _ Ha) as [Ho1 Hp1].
  unfold value_pool_alloc in Ha. rewrite Hp in Ha.
  repeat case_match; try done. simplify_eq.
  apply bind_Ok in H as (q & c2 & Hi & H). apply ret_Ok in H as [<- <-].
  pose proof (quiet_init_val _ _ _ _ Hi) as [Ho2 Hp2].
  unfold init_val in Hi. apply bind_Ok in Hi as (v & c3 & _ & Hi).
  apply bind_Ok in Hi as ([] & c4 & _ & Hi). apply ret_Ok in Hi as [<- _].
  split; [done|]. split; congruence.
Qed.

(** With an empty free list, [alloc_value] runs one pass of the collector
    and looks at the free list once more: it pops the head if there is one,
    and otherwise returns the null pointer in the state that the collector
    left. *)
Lemma alloc_value_empty c r c' :
  value_pool c = None -> alloc_value c = Ok r c' ->
  exists n c1,
    run_gc c = Ok n c1 /\ gc_passes c' = S (gc_passes c) /\
    oom_ c' = oom_ c /\
    match value_pool c1 with
    | Some p => r = Some p
    | None => r = None /\ c' = c1
    end.
Proof.
  intros Hp H. unfold alloc_value in H.
  apply bind_Ok in H as (o & c0 & Ha & H).
  unfold value_pool_alloc in Ha. rewrite Hp in Ha. simplify_eq.
  apply bind_Ok in H as (n & c1 & Hgc & H). exists n, c1.
  split; [done|]. apply run_gc_frame in Hgc as [Ho1 Hp1].
  apply bind_Ok in H as (o & c2 & Ha & H).
  pose proof (quiet_value_pool_alloc _ _ _ Ha) as [Ho2 Hp2].
  unfold value_pool_alloc in Ha.
  destruct (value_pool c1) as [q|] eqn:Hq.
  - repeat case_match; try done. simplify_eq.
    apply bind_Ok in H as (q' & c3 & Hi & H). apply ret_Ok in H as [<- <-].
    pose proof (quiet_init_val _ _ _ _ Hi) as [Ho3 Hp3].
    unfold init_val in Hi. apply bind_Ok in Hi as (v & c4 & _ & Hi).
    apply bind_Ok in Hi as ([] & c5 & _ & Hi). apply ret_Ok in Hi as [<- _].
    split; [congruence|]. split; [congruence|done].
  - simplify_eq. apply ret_Ok in H as [<- <-]. done.
Qed.

(** A failed allocation has run exactly one pass. *)
Lemma alloc_value_null c c1 :
  alloc_value c = Ok None c1 ->
  value_pool c = None /\ value_pool c1 = None /\
  exists n, run_gc c = Ok n c1.
Proof.
  intros H. destruct (value_pool c) as [p|] eqn:Hp.
  - by destruct (alloc_value_head _ _ _ _ Hp H) as [? _].
  - destruct (alloc_value_empty _ _ _ Hp H) as (n & c2 & Hgc & _ & _ & Hm).
    destruct (value_pool c2) eqn:Hp2; [done|]. destruct Hm as [_ ->]. eauto.
Qed.

Lemma passes_alloc_value : passes 1 alloc_value.
Proof.
  intros c r c' H. destruct (value_pool c) as [p|] eqn:Hp.
  - destruct (alloc_value_head _ _ _ _ Hp H) as (_ & ? & ?). split; [done|lia].
  - destruct (alloc_value_empty _ _ _ Hp H) as (_ & _ & _ & ? & ? & _).
    split; [done|lia].
Qed.

(** ** The sentinel across a pass of the collector *)

Definition marked_at (q : ptr) (c : Context) : Prop :=
  exists v, value_pool_data c !! q = Some v /\ mark_bit_ (hdr_ v) = true.

(** What the mark phase does to the cell [q], when it is the sentinel: it
    stays the sentinel, and it stays marked once it is. *)
Definition keeps_sentinel (q : ptr) (c c' : Context) : Prop :=
  (sentinel_at q c -> sentinel_at q c') /\
  (sentinel_at q c -> marked_at q c -> marked_at q c').

#[global] Instance keeps_sentinel_preorder q : PreOrder (keeps_sentinel q).
Proof.
  split; [by split|]. intros x y z [H1 H2] [H3 H4]. split; [auto|].
  intros Hs Hm. apply H4; auto.
Qed.

Definition same_cell (q : ptr) (c c' : Context) : Prop :=
  value_pool_data c' !! q = value_pool_data c !! q.

#[global] Instance same_cell_preorder q : PreOrder (same_cell q).
Proof.
  split; [done|]. intros x y z. unfold same_cell. congruence.
Qed.

Lemma same_cell_keeps_sentinel q c c' :
  same_cell q c c' -> keeps_sentinel q c c'.
Proof.
  unfold same_cell, keeps_sentinel, sentinel_at, marked_at.
  intros ->. done.
Qed.

Lemma write_mark_bit_Ok p b c c' :
  write_mark_bit p b c = Ok tt c' ->
  exists v, value_pool_data c !! p = Some v /\
            c' = with_value_pool_data
                   (<[p := mkValue (set_mark_bit_ b (hdr_ v)) (payload v)]>
                      (value_pool_data c)) c.
Proof.
  unfold write_mark_bit. intros (v & c0 & Hd & H)%bind_Ok.
  unfold deref in Hd. destruct (_ !! _) eqn:Hv; [|done].
  unfold store, modify in H. simplify_eq. eauto.
Qed.

Lemma same_cell_write_mark_bit q p b :
  p <> q -> respects (same_cell q) (write_mark_bit p b).
Proof.
  intros Hne c [] c' (v & Hv & ->)%write_mark_bit_Ok.
  unfold same_cell. simpl. by rewrite lookup_insert_ne.
Qed.

Lemma write_mark_bit_sentinel q b c c' :
  write_mark_bit q b c = Ok tt c' -> sentinel_at q c -> sentinel_at q c'.
Proof.
  intros (v & Hv & ->)%write_mark_bit_Ok (h & ctx & Hq & Ht & Ha).
  rewrite Hv in Hq. injection Hq as ->. unfold sentinel_at. simpl.
  rewrite lookup_insert_eq. eexists _, ctx. split; [done|]. by split.
Qed.

Lemma write_mark_bit_marks q c c' :
  write_mark_bit q true c = Ok tt c' -> marked_at q c'.
Proof.
  intros (v & Hv & ->)%write_mark_bit_Ok. unfold marked_at. simpl.
  rewrite lookup_insert_eq. eauto.
Qed.

Lemma keeps_sentinel_write_mark_bit q p :
  respects (keeps_sentinel q) (write_mark_bit p true).
Proof.
  intros c [] c' H. destruct (decide (p = q)) as [->|Hne].
  - split; [by eapply write_mark_bit_sentinel|].
    intros _ _. by eapply write_mark_bit_marks.
  - by eapply same_cell_keeps_sentinel, same_cell_write_mark_bit.
Qed.

Lemma keeps_sentinel_set_cdr q p x :
  respects (keeps_sentinel q) (set_cdr p x).
Proof.
  intros c [] c' H. unfold set_cdr in H.
  apply bind_Ok in H as (v & c0 & Hd & H). unfold deref in Hd.
  destruct (value_pool_data c !! p) eqn:Hv; [|done]. injection Hd as -> <-.
  destruct (payload v) eqn:Hpl; try done.
  unfold store, modify in H. simplify_eq.
  destruct (decide (p = q)) as [->|Hne].
  - split; intros (h & ctx & Hq & _); rewrite Hv in Hq; injection Hq as ->;
      done.
  - apply same_cell_keeps_sentinel. unfold same_cell. simpl.
    by rewrite lookup_insert_ne.
Qed.

Lemma keeps_sentinel_gc_mark_value q depth p :
  respects (keeps_sentinel q) (gc_mark_value depth p).
Proof.
  apply respects_gc_mark_value; [apply _|].
  apply keeps_sentinel_write_mark_bit.
Qed.

(** [gc_mark_value] leaves the cell it is called on marked. *)
Lemma gc_mark_value_marks depth q c c' :
  gc_mark_value depth q c = Ok tt c' -> marked_at q c'.
Proof.
  destruct depth as [|depth]; cbn [gc_mark_value]; [done|].
  intros (v & c0 & Hd & H)%bind_Ok. unfold deref in Hd.
  destruct (value_pool_data c !! q) eqn:Hv; [|done]. injection Hd as -> <-.
  destruct (mark_bit_ (hdr_ v)) eqn:Hm.
  - apply ret_Ok in H as [_ <-]. by exists v.
  - apply bind_Ok in H as ([] & c1 & _ & H). by eapply write_mark_bit_marks.
Qed.

Lemma keeps_sentinel_gc_mark_protected q fuel p_list :
  respects (keeps_sentinel q) (gc_mark_protected fuel p_list).
Proof.
  apply respects_gc_mark_protected; [apply _|].
  apply keeps_sentinel_write_mark_bit.
Qed.

Lemma keeps_sentinel_traverse q fuel tree :
  respects (keeps_sentinel q)
    (globals_tree_traverse fuel tree
       (fun car node =>
          run write_mark_bit node true ;;
          do d <- cons_cdr node ;;
          run write_mark_bit d true ;;
          gc_mark_value gc_mark_depth car)).
Proof.
  apply respects_globals_tree_traverse;
    auto using keeps_sentinel_set_cdr with typeclass_instances.
  intros. respects_tac;
    auto using keeps_sentinel_gc_mark_value, keeps_sentinel_write_mark_bit.
  respects_reader.
Qed.

(** The mark phase marks the sentinel: [oom_] is the second root. *)
Lemma gc_mark_sentinel c c' :
  gc_mark c = Ok tt c' ->
  sentinel_ok c -> sentinel_at (oom_ c) c' /\ marked_at (oom_ c) c'.
Proof.
  unfold gc_mark, sentinel_ok. set (q := oom_ c). intros H Hs.
  apply bind_Ok in H as (nil & c0 & [<- <-]%gets_Ok & H).
  apply bind_Ok in H as ([] & c1 & H1 & H).
  apply bind_Ok in H as (oom & c2 & [<- <-]%gets_Ok & H).
  apply bind_Ok in H as ([] & c2 & H2 & H).
  pose proof (respects_gc_mark_value quiet
                (fun p => respects_write_mark_bit quiet p true)
                _ _ _ _ _ H1) as [Ho1 _].
  rewrite Ho1 in H2. fold q in H2.
  pose proof (keeps_sentinel_gc_mark_value q _ _ _ _ _ H1) as [Hs1 _].
  pose proof (keeps_sentinel_gc_mark_value q _ _ _ _ _ H2) as [Hs2 _].
  pose proof (gc_mark_value_marks _ _ _ _ H2) as Hm2.
  match type of H with
  | ?m _ = _ => assert (respects (keeps_sentinel q) m) as Hrest
  end.
  { respects_tac;
      auto using keeps_sentinel_gc_mark_value,
        keeps_sentinel_gc_mark_protected, keeps_sentinel_traverse. }
  destruct (Hrest _ _ _ H) as [Hs3 Hm3]. auto.
Qed.

(** ** The sweep phase *)

Lemma same_cell_value_pool_free q p :
  p <> q -> respects (same_cell q) (value_pool_free p).
Proof.
  intros Hne c [] c' (v & Hv & ->)%value_pool_free_Ok.
  unfold same_cell. simpl. by rewrite lookup_insert_ne.
Qed.

Lemma same_cell_invoke_finalizer q p :
  respects (same_cell q) (invoke_finalizer p).
Proof.
  intros c a c' H. destruct (same_pool_invoke_finalizer _ _ _ _ H) as [Hd _].
  unfold same_cell. by rewrite Hd.
Qed.

Lemma same_cell_gc_sweep_cell q i :
  i <> q -> respects (same_cell q) (gc_sweep_cell i).
Proof.
  intros Hne. unfold gc_sweep_cell. respects_tac;
    auto using same_cell_write_mark_bit, same_cell_invoke_finalizer,
      same_cell_value_pool_free.
Qed.

(** The sweep unmarks the sentinel when it comes to it, and leaves it
    alone otherwise. *)
Lemma gc_sweep_loop_sentinel q indices k n c c' :
  NoDup indices ->
  gc_sweep_loop indices k c = Ok n c' ->
  sentinel_at q c -> (q ∈ indices -> marked_at q c) ->
  sentinel_at q c'.
Proof.
  intros Hnd. revert k c.
  induction Hnd as [|i indices Hi Hnd IH]; intros k c H Hs Hm; simpl in H.
  - by apply ret_Ok in H as [_ <-].
  - apply bind_Ok in H as (m & c1 & Hcell & H).
    destruct (decide (i = q)) as [->|Hne].
    + apply (IH _ c1 H); [|done].
      destruct Hs as (h & ctx & Hq & Ht & Ha).
      destruct Hm as (v & Hv & Hmark); [by left|].
      rewrite Hq in Hv. injection Hv as <-. simpl in Hmark.
      unfold gc_sweep_cell in Hcell.
      apply bind_Ok in Hcell as (v & c0 & Hd & Hcell). unfold deref in Hd.
      rewrite Hq in Hd. injection Hd as <- <-. simpl in Hcell.
      rewrite Ha, Hmark in Hcell.
      apply bind_Ok in Hcell as ([] & c2 & Hw & Hcell).
      apply ret_Ok in Hcell as [_ <-].
      eapply write_mark_bit_sentinel; [done|]. by exists h, ctx.
    + pose proof (same_cell_gc_sweep_cell q i Hne _ _ _ Hcell) as Hsame.
      destruct (same_cell_keeps_sentinel _ _ _ Hsame) as [Hs1 Hm1].
      apply (IH _ c1 H); [auto|]. intros Hin. apply Hm1; [done|].
      apply Hm. by right.
Qed.

Lemma gc_sweep_sentinel q n c c' :
  gc_sweep c = Ok n c' -> sentinel_at q c -> marked_at q c ->
  sentinel_at q c'.
Proof.
  unfold gc_sweep. intros H Hs Hm.
  apply bind_Ok in H as (sb & c0 & [<- <-]%gets_Ok & H).
  apply bind_Ok in H as (v & c0 & Hd & H). unfold deref in Hd.
  destruct (_ !! _) eqn:Hv; [|done]. injection Hd as -> <-.
  apply bind_Ok in H as ([] & c1 & Hsb & H).
  assert (value_pool_data c1 = value_pool_data c) as Hpool.
  { destruct (mark_bit_ (hdr_ v)).
    - by apply ret_Ok in Hsb as [_ <-].
    - apply bind_Ok in Hsb as (nil & c2 & [<- <-]%gets_Ok & Hsb).
      unfold modify in Hsb. by simplify_eq. }
  eapply gc_sweep_loop_sentinel; [apply NoDup_pool_indices|done| |].
  - unfold sentinel_at. by rewrite Hpool.
  - intros _. unfold marked_at. by rewrite Hpool.
Qed.

(** A pass of the collector keeps the sentinel. *)
Lemma run_gc_sentinel c n c' :
  run_gc c = Ok n c' -> sentinel_ok c -> sentinel_ok c'.
Proof.
  intros H Hs. pose proof (run_gc_frame _ _ _ H) as [Ho _].
  unfold run_gc in H. apply bind_Ok in H as ([] & c1 & H1 & H).
  apply bind_Ok in H as ([] & c2 & H2 & H).
  unfold modify in H1. simplify_eq.
  destruct (gc_mark_sentinel _ _ H2) as [Hs2 Hm2]; [done|].
  unfold sentinel_ok. rewrite Ho.
  by eapply gc_sweep_sentinel.
Qed.

(** ** The constructors *)

Lemma passes_bind_quiet {A B} k (m : M A) (f : A -> M B) :
  respects quiet m -> (forall a, passes k (f a)) -> passes k (bind m f).
Proof. intros Hm Hf. apply (passes_bind 0 k); [by apply passes_quiet|done]. Qed.

Lemma passes_bind_last {A B} k (m : M A) (f : A -> M B) :
  passes k m -> (forall a, respects quiet (f a)) -> passes k (bind m f).
Proof.
  intros Hm Hf. replace k with (k + 0) by lia.
  apply passes_bind; [done|]. intros a. by apply passes_quiet.
Qed.

Lemma quiet_write_cell p t pl : respects quiet (write_cell p t pl).
Proof. apply (respects_write_cell quiet). Qed.

Lemma quiet_write_mode_bits p m : respects quiet (write_mode_bits p m).
Proof. apply (respects_write_mode_bits quiet). Qed.

Lemma quiet_set_data_buffer_data p d :
  respects quiet (set_data_buffer_data p d).
Proof. apply (respects_set_data_buffer_data quiet). Qed.

Lemma quiet_intern_search fuel s i : respects quiet (intern_search fuel s i).
Proof.
  revert i. induction fuel as [|fuel IH]; intros i; simpl; respects_tac; auto.
Qed.

Lemma quiet_interns_append b : respects quiet (interns_append b).
Proof.
  intros c a c'. unfold interns_append. destruct (decide _); [|done].
  intros ?; simplify_eq. by split.
Qed.

Lemma quiet_intern s : respects quiet (intern s).
Proof.
  unfold intern. respects_tac;
    auto using quiet_intern_search, quiet_interns_append.
Qed.

Lemma quiet_make_scratch_buffer : respects quiet make_scratch_buffer.
Proof.
  intros c a c'. unfold make_scratch_buffer.
  destruct (scratch_buffers_remaining c); [done|]. intros ?; simplify_eq.
  by split.
Qed.

Lemma quiet_ProtectedBase_ctor v : respects quiet (ProtectedBase_ctor v).
Proof.
  intros c a c'. unfold ProtectedBase_ctor.
  repeat case_match; try done; intros ?; simplify_eq; by split.
Qed.

Lemma quiet_ProtectedBase_dtor p : respects quiet (ProtectedBase_dtor p).
Proof.
  intros c a c'. unfold ProtectedBase_dtor.
  destruct (_ !! _); [|done]. intros ?; simplify_eq. by split.
Qed.

Create HintDb quiet_db.

#[local] Hint Resolve quiet_write_cell quiet_write_mode_bits
  quiet_set_data_buffer_data quiet_intern quiet_make_scratch_buffer
  quiet_ProtectedBase_ctor quiet_ProtectedBase_dtor : quiet_db.

(** The constructors that allocate once: after [alloc_value] they run no
    pass of the collector. *)
Ltac passes_ctor :=
  apply passes_bind_last; [apply passes_alloc_value|];
  intros [?|]; respects_tac; auto with quiet_db.

Lemma passes_make_function impl : passes 1 (make_function impl).
Proof. unfold make_function. passes_ctor. Qed.

Lemma passes_make_lisp_function impl : passes 1 (make_lisp_function impl).
Proof. unfold make_lisp_function. passes_ctor. Qed.

Lemma passes_make_bytecode_function b : passes 1 (make_bytecode_function b).
Proof. unfold make_bytecode_function. passes_ctor. Qed.

Lemma passes_make_cons a d : passes 1 (make_cons a d).
Proof. unfold make_cons. passes_ctor. Qed.

Lemma passes_make_integer z : passes 1 (make_integer z).
Proof. unfold make_integer. passes_ctor. Qed.

Lemma passes_make_error e x : passes 1 (make_error e x).
Proof. unfold make_error. passes_ctor. Qed.

Lemma passes_make_symbol name mode : passes 1 (make_symbol name mode).
Proof. unfold make_symbol. passes_ctor. Qed.

Lemma passes_make_userdata obj : passes 1 (make_userdata obj).
Proof. unfold make_userdata. passes_ctor. Qed.

(** [make_databuffer] collects before it allocates when the host has no
    scratch buffer left. *)
Lemma passes_make_databuffer : passes 2 make_databuffer.
Proof.
  unfold make_databuffer. apply passes_bind_quiet; [respects_tac|].
  intros remaining. apply (passes_bind 1 1).
  - destruct (decide (remaining = 0)).
    + apply passes_bind_last; [apply passes_run_gc|]. intros. respects_tac.
    + apply (passes_weaken 0); [lia|]. apply passes_quiet. respects_tac.
  - intros []. passes_ctor.
Qed.

Lemma passes_make_string_cell buffer offset :
  passes 1 (make_string_cell buffer offset).
Proof. unfold make_string_cell. passes_ctor. Qed.

Lemma passes_make_string s : passes 3 (make_string s).
Proof.
  unfold make_string. cbv zeta.
  apply passes_bind_quiet; [respects_tac|]. intros sb.
  apply passes_bind_quiet; [respects_tac|]. intros nil.
  apply passes_bind_quiet.
  { respects_tac; try respects_reader.
    apply respects_modify; try apply _. intros. apply pool_insensitive_sb. }
  intros [[existing_buffer|] free].
  - apply (passes_weaken 1); [lia|].
    apply passes_bind_quiet; [respects_reader|]. intros data.
    apply passes_bind_quiet; [respects_tac|]. intros data'.
    apply passes_bind_quiet; [auto with quiet_db|]. intros [].
    apply passes_make_string_cell.
  - apply (passes_bind 2 1); [apply passes_make_databuffer|]. intros buffer.
    apply passes_bind_quiet; [respects_tac|]. intros oom.
    destruct (decide (buffer = oom)).
    { apply (passes_weaken 0); [lia|]. apply passes_quiet. respects_tac. }
    unfold with_Protected.
    apply passes_bind_quiet; [auto with quiet_db|]. intros p.
    apply passes_bind_last; [|intros; respects_tac; auto with quiet_db].
    apply passes_bind_quiet.
    { apply respects_modify; try apply _. intros. apply pool_insensitive_sb. }
    intros [].
    apply passes_bind_quiet; [auto with quiet_db|]. intros [].
    apply passes_bind_quiet; [respects_reader|]. intros data.
    apply passes_bind_quiet; [respects_tac|]. intros data'.
    apply passes_bind_quiet; [auto with quiet_db|]. intros [].
    apply passes_make_string_cell.
Qed.

(** ** What the constructors return *)

Lemma write_cell_typed p t pl c c' :
  write_cell p t pl c = Ok tt c' -> typed_cell t p c'.
Proof.
  unfold write_cell. intros (v & c0 & Hd & H)%bind_Ok.
  unfold deref in Hd. destruct (_ !! _) eqn:Hv; [|done].
  unfold store, modify in H. simplify_eq.
  unfold typed_cell. simpl. rewrite lookup_insert_eq. eauto.
Qed.

(** The last step of [make_string]: the sentinel when the allocation
    fails, and the cell that was allocated otherwise, made a string cell. *)
Lemma make_string_cell_Ok buffer offset c v c' :
  make_string_cell buffer offset c = Ok v c' ->
  (alloc_value c = Ok None c' /\ v = oom_ c' /\ value_pool c' = None) \/
  (exists c1, alloc_value c = Ok (Some v) c1 /\
              string_cell_at v buffer offset c').
Proof.
  intros ([p|] & c1 & Ha & H)%bind_Ok.
  - apply bind_Ok in H as ([] & c2 & Hw & H). apply ret_Ok in H as [<- <-].
    right. exists c1. split; [done|].
    unfold write_cell in Hw. apply bind_Ok in Hw as (w & c3 & Hd & Hw).
    unfold deref in Hd. destruct (_ !! _) eqn:Hv; [|done].
    unfold store, modify in Hw. simplify_eq.
    eexists. simpl. by rewrite lookup_insert_eq.
  - apply gets_Ok in H as [<- <-]. left.
    by destruct (alloc_value_null _ _ Ha) as (_ & ? & _).
Qed.

(** How a call of [make_string] that returns has come to its result: it
    is the sentinel that [make_databuffer] returned; or its own allocation
    has failed, and it is the sentinel; or it is the cell that its own
    allocation returned, which is a string cell. *)
Lemma make_string_shape s c v c' :
  make_string s c = Ok v c' ->
  (exists c0, make_databuffer c0 = Ok v c' /\ v = oom_ c') \/
  (exists cA cB, alloc_value cA = Ok None cB /\ v = oom_ c' /\
                 value_pool c' = None) \/
  (exists cA cB buffer offset,
     alloc_value cA = Ok (Some v) cB /\ string_cell_at v buffer offset c').
Proof.
  unfold make_string. cbv zeta. intros H.
  apply bind_Ok in H as (sb & c0 & [<- <-]%gets_Ok & H).
  apply bind_Ok in H as (nil & c0 & _ & H).
  apply bind_Ok in H as ([[existing_buffer|] free] & c1 & _ & H).
  - apply bind_Ok in H as (data & c2 & _ & H).
    apply bind_Ok in H as (data' & c3 & _ & H).
    apply bind_Ok in H as ([] & c4 & _ & H).
    apply make_string_cell_Ok in H as [(Ha & -> & Hp)|(cB & Ha & Hs)].
    + right. left. by exists c4, c'.
    + right. right. exists c4, cB. eauto.
  - apply bind_Ok in H as (buffer & c2 & Hb & H).
    apply bind_Ok in H as (oom & c3 & [<- <-]%gets_Ok & H).
    destruct (decide (buffer = oom_ c2)) as [->|Hne].
    { apply gets_Ok in H as [<- <-]. left. by exists c1. }
    unfold with_Protected in H.
    apply bind_Ok in H as (p & c4 & _ & H).
    apply bind_Ok in H as (r & c5 & H & Hd).
    apply bind_Ok in Hd as ([] & c6 & Hd & Hr). apply ret_Ok in Hr as [<- <-].
    destruct (quiet_ProtectedBase_dtor _ _ _ _ Hd) as [Ho _].
    destruct (same_pool_ProtectedBase_dtor _ _ _ _ Hd) as [Hpool Hhead].
    apply bind_Ok in H as ([] & c7 & _ & H).
    apply bind_Ok in H as ([] & c8 & _ & H).
    apply bind_Ok in H as (data & c9 & _ & H).
    apply bind_Ok in H as (data' & c10 & _ & H).
    apply bind_Ok in H as ([] & c11 & _ & H).
    apply make_string_cell_Ok in H as [(Ha & -> & Hp)|(cB & Ha & Hs)].
    + right. left. exists c11, c5. split; [done|]. split; congruence.
    + right. right. exists c11, cB, buffer, 0. split; [done|].
      unfold string_cell_at. by rewrite Hpool.
Qed.

(** [make_string] gives back the sentinel that [make_databuffer] returns. *)
Lemma make_string_no_buffer s c c0 b c1 :
  asks_new_buffer s c c0 ->
  make_databuffer c0 = Ok b c1 -> b = oom_ c1 ->
  make_string s c = Ok b c1.
Proof.
  intros Hask Hb ->. unfold make_string. cbv zeta.
  unfold bind at 1, gets at 1. unfold bind at 1, L_NIL at 1, get_nil at 1.
  destruct Hask as [[Hsb ->]|(Hsb & data & Hd & Hfree & ->)].
  - rewrite decide_False by (by intros ?).
    unfold bind at 1, ret at 1.
    rewrite (bind_eq _ _ _ _ _ Hb). unfold bind at 1, gets at 1.
    by rewrite decide_True.
  - rewrite decide_True by done. unfold bind at 1.
    rewrite (bind_eq _ _ _ _ _ Hd). rewrite decide_False by done.
    unfold bind at 1, L_NIL at 1, get_nil at 1.
    unfold bind at 1, modify at 1. unfold ret at 1.
    rewrite (bind_eq _ _ _ _ _ Hb). unfold bind at 1, gets at 1.
    by rewrite decide_True.
Qed.

(** [make_databuffer] when the host has no scratch buffer left and the
    pool is exhausted: the pass that it runs itself, then that of
    [alloc_value]. *)
Lemma make_databuffer_null c n c1 c2 :
  scratch_buffers_remaining c = 0 ->
  run_gc c = Ok n c1 -> alloc_value c1 = Ok None c2 ->
  make_databuffer c = Ok (oom_ c) c2 /\ gc_passes c2 = gc_passes c + 2 /\
  (sentinel_ok c -> sentinel_ok c2).
Proof.
  intros Hsb Hgc Ha.
  destruct (alloc_value_null _ _ Ha) as (_ & _ & n2 & Hgc2).
  destruct (run_gc_frame _ _ _ Hgc) as [Ho1 Hp1].
  destruct (run_gc_frame _ _ _ Hgc2) as [Ho2 Hp2].
  split; [|split; [lia|]].
  - unfold make_databuffer.
    unfold bind at 1. unfold gets at 1. rewrite Hsb. simpl.
    unfold bind at 1. unfold bind at 1. rewrite Hgc. simpl.
    rewrite (bind_eq _ _ _ _ _ Ha). unfold gets. congruence.
  - intros Hs. eapply run_gc_sentinel; [done|]. by eapply run_gc_sentinel.
Qed.

(** The cell that [alloc_value] returns is a cell of the pool, and it is
    alive. *)
Lemma alloc_value_cell c p c' :
  alloc_value c = Ok (Some p) c' ->
  exists w, value_pool_data c' !! p = Some w /\ alive_ (hdr_ w) = true.
Proof.
  assert (forall q c1 r c2, init_val q c1 = Ok r c2 ->
            r = q /\ exists w, value_pool_data c2 !! q = Some w
                               /\ alive_ (hdr_ w) = true) as Hinit.
  { intros q c1 r c2 Hi. unfold init_val in Hi.
    apply bind_Ok in Hi as (v & c3 & Hd & Hi).
    apply bind_Ok in Hi as ([] & c4 & Hs & Hi). apply ret_Ok in Hi as [<- <-].
    unfold store, modify in Hs. injection Hs as <-. split; [done|].
    eexists. simpl. by rewrite lookup_insert_eq. }
  intros H. unfold alloc_value in H.
  apply bind_Ok in H as ([q|] & c1 & _ & H).
  - apply bind_Ok in H as (r & c2 & Hi & H). apply ret_Ok in H as [[= <-] <-].
    by destruct (Hinit _ _ _ _ Hi) as [-> ?].
  - apply bind_Ok in H as (n & c2 & _ & H).
    apply bind_Ok in H as ([q|] & c3 & _ & H); [|by apply ret_Ok in H as [? _]].
    apply bind_Ok in H as (r & c4 & Hi & H). apply ret_Ok in H as [[= <-] <-].
    by destruct (Hinit _ _ _ _ Hi) as [-> ?].
Qed.

(** [make_string_cell] when the allocation returns a cell. *)
Lemma make_string_cell_Some buffer offset c p c1 :
  alloc_value c = Ok (Some p) c1 ->
  exists c2, make_string_cell buffer offset c = Ok p c2 /\
             string_cell_at p buffer offset c2.
Proof.
  intros Ha. destruct (alloc_value_cell _ _ _ Ha) as (w & Hw & _).
  unfold make_string_cell. rewrite (bind_eq _ _ _ _ _ Ha).
  unfold write_cell, bind, deref, store, modify, ret. rewrite Hw.
  eexists. split; [done|]. eexists. simpl. by rewrite lookup_insert_eq.
Qed.

(** What a constructor of the form "allocate, or return [oom_]" does when
    the allocation fails. *)
Ltac ctor_null H :=
  match goal with
  | |- ?f _ = _ => unfold f
  | |- ?f _ _ = _ => unfold f
  | |- ?f _ _ _ = _ => unfold f
  end;
  rewrite (bind_eq _ _ _ _ _ H); unfold gets; congruence.

(** C3, as the code has it.  [alloc_value] pops the head of the free list
    and runs no pass of the collector when the list is not empty; when it
    is empty it runs exactly one pass and looks at the list exactly once
    more, and returns the null pointer if it is still empty.  When their
    allocation fails, [make_cons], [make_integer], [make_symbol],
    [make_function], [make_bytecode_function], [make_error] and
    [make_userdata], the allocation of the string cell in [make_string],
    and [make_databuffer] while the host has a scratch buffer left, return
    [oom_], in the state that this one pass left, in which [oom_] still is
    the alive error cell with code [out_of_memory] if it was.  When the
    host has no scratch buffer left, [make_databuffer] runs a pass of its
    own before it allocates, so that its failure comes after two passes.
    [make_string] returns the sentinel when [make_databuffer] returns it and
    when its own allocation fails, and the cell that its own allocation
    returns, made a string cell, otherwise; it runs at most three
    passes. *)
Theorem allocation_failure (c : Context) :
  (forall p r c',
      value_pool c = Some p -> alloc_value c = Ok r c' ->
      r = Some p /\ gc_passes c' = gc_passes c) /\
  (forall r c',
      value_pool c = None -> alloc_value c = Ok r c' ->
      exists n c1,
        run_gc c = Ok n c1 /\ gc_passes c' = S (gc_passes c) /\
        match value_pool c1 with
        | Some p => r = Some p
        | None => r = None /\ c' = c1
        end) /\
  (forall c1,
      alloc_value c = Ok None c1 ->
      gc_passes c1 = S (gc_passes c) /\ oom_ c1 = oom_ c /\
      (sentinel_ok c -> sentinel_ok c1) /\
      (forall car cdr, make_cons car cdr c = Ok (oom_ c) c1) /\
      (forall value, make_integer value c = Ok (oom_ c) c1) /\
      (forall name mode, make_symbol name mode c = Ok (oom_ c) c1) /\
      (forall impl, make_function impl c = Ok (oom_ c) c1) /\
      (forall bytecode,
          make_bytecode_function bytecode c = Ok (oom_ c) c1) /\
      (forall code context, make_error code context c = Ok (oom_ c) c1) /\
      (forall obj, make_userdata obj c = Ok (oom_ c) c1) /\
      (forall buffer offset,
          make_string_cell buffer offset c = Ok (oom_ c) c1) /\
      (scratch_buffers_remaining c <> 0 ->
       make_databuffer c = Ok (oom_ c) c1)) /\
  (forall n c1 c2,
      scratch_buffers_remaining c = 0 ->
      run_gc c = Ok n c1 -> alloc_value c1 = Ok None c2 ->
      make_databuffer c = Ok (oom_ c) c2 /\
      gc_passes c2 = gc_passes c + 2 /\
      (sentinel_ok c -> sentinel_ok c2)) /\
  (forall s c0 b c1,
      asks_new_buffer s c c0 ->
      make_databuffer c0 = Ok b c1 -> b = oom_ c1 ->
      make_string s c = Ok (oom_ c) c1) /\
  (forall p c1 buffer offset,
      alloc_value c = Ok (Some p) c1 ->
      exists c2, make_string_cell buffer offset c = Ok p c2 /\
                 string_cell_at p buffer offset c2) /\
  (forall s v c',
      make_string s c = Ok v c' ->
      oom_ c' = oom_ c /\ gc_passes c' <= gc_passes c + 3 /\
      ((exists c0, make_databuffer c0 = Ok v c' /\ v = oom_ c) \/
       (exists cA cB, alloc_value cA = Ok None cB /\ v = oom_ c /\
                      value_pool c' = None) \/
       (exists cA cB buffer offset,
          alloc_value cA = Ok (Some v) cB /\
          string_cell_at v buffer offset c'))).
Proof.
  split; [|split; [|split; [|split; [|split; [|split]]]]].
  - intros p r c' Hp H. by destruct (alloc_value_head _ _ _ _ Hp H) as (? & ? & _).
  - intros r c' Hp H.
    destruct (alloc_value_empty _ _ _ Hp H) as (n & c1 & ? & ? & _ & ?).
    by exists n, c1.
  - intros c1 H.
    destruct (alloc_value_null _ _ H) as (_ & _ & n & Hgc).
    destruct (run_gc_frame _ _ _ Hgc) as [Ho Hp].
    split; [done|]. split; [done|].
    split; [intros Hs; by eapply run_gc_sentinel|].
    split; [intros; ctor_null H|]. split; [intros; ctor_null H|].
    split; [intros; ctor_null H|]. split; [intros; ctor_null H|].
    split; [intros; ctor_null H|]. split; [intros; ctor_null H|].
    split; [intros; ctor_null H|]. split; [intros; ctor_null H|].
    intros Hsb. unfold make_databuffer.
    unfold bind at 1. unfold gets at 1.
    rewrite decide_False by done. unfold bind at 1. unfold ret at 1.
    rewrite (bind_eq _ _ _ _ _ H). unfold gets. congruence.
  - intros n c1 c2. apply make_databuffer_null.
  - intros s c0 b c1 Hask Hb Hoom.
    rewrite (make_string_no_buffer s c c0 b c1 Hask Hb Hoom). f_equal.
    destruct (passes_make_databuffer _ _ _ Hb) as [Ho _]. rewrite Hoom, Ho.
    destruct Hask as [[_ ->]|(_ & _ & _ & _ & ->)]; done.
  - intros p c1 buffer offset. apply make_string_cell_Some.
  - intros s v c' H.
    destruct (passes_make_string s _ _ _ H) as [Ho Hp].
    split; [done|]. split; [lia|]. rewrite <- Ho.
    by apply (make_string_shape s c).
Qed.

(** On the exhausted pool with no scratch buffer left at the host, a call
    of [make_databuffer] returns the sentinel after two passes of the
    collector: the pass of [alloc_value] is the second one. *)
Lemma make_databuffer_second_pass :
  value_pool exhausted = None /\
  make_databuffer exhausted
  = Ok (oom_ exhausted) (result_context (make_databuffer exhausted)) /\
  gc_passes (result_context (make_databuffer exhausted))
  = gc_passes exhausted + 2.
Proof.
  split; [by_compute|]. split; [|by_compute].
  by_run_to (make_databuffer exhausted) (oom_ exhausted).
Qed.

Lemma allocation_failure_witness :
  let c1 := result_context (alloc_value exhausted) in
  let c2 := result_context (make_databuffer exhausted) in
  alloc_value exhausted = Ok None c1 /\
  gc_passes c1 = S (gc_passes exhausted) /\
  make_cons 0%N 0%N exhausted = Ok (oom_ exhausted) c1 /\
  make_string_cell 0%N 0 exhausted = Ok (oom_ exhausted) c1 /\
  make_string (ascii_of_string "abc") exhausted = Ok (oom_ exhausted) c2 /\
  (exists c3, make_string_cell 0%N 0 booted = Ok 8782%N c3 /\
              string_cell_at 8782%N 0%N 0 c3).
Proof.
  intros c1 c2.
  assert (alloc_value exhausted = Ok None c1) as H.
  { by_run_to (alloc_value exhausted) (@None N). }
  assert (make_databuffer exhausted = Ok (oom_ exhausted) c2) as Hb.
  { by_run_to (make_databuffer exhausted) (oom_ exhausted). }
  assert (alloc_value booted
          = Ok (Some 8782%N) (result_context (alloc_value booted))) as Hs.
  { by_run_to (alloc_value booted) (Some 8782%N). }
  destruct (allocation_failure exhausted)
    as (_ & _ & Hnull & _ & Hstring & _).
  destruct (allocation_failure booted) as (_ & _ & _ & _ & _ & Hcell & _).
  destruct (Hnull _ H) as (Hp & _ & _ & Hcons & _ & _ & _ & _ & _ & _ & Hsc & _).
  split; [exact H|]. split; [exact Hp|]. split; [exact (Hcons 0%N 0%N)|].
  split; [exact (Hsc 0%N 0)|]. split.
  - refine (Hstring (ascii_of_string "abc") exhausted (oom_ exhausted) c2
              _ Hb _).
    + left. split; [by_compute|done].
    + by_compute.
  - exact (Hcell 8782%N _ 0%N 0 Hs).
Defined.

(** * Protected roots (claim C1) *)

(** The constructor of a protected root writes the objects only: the head
    of the list, [__protected_values], is as before. *)
Lemma ProtectedBase_ctor_head val c p c' :
  ProtectedBase_ctor val c = Ok p c' ->
  __protected_values c' = __protected_values c.
Proof.
  unfold ProtectedBase_ctor. repeat case_match; try done;
    intros ?; by simplify_eq.
Qed.

Lemma ProtectedBase_dtor_head p c c' :
  ProtectedBase_dtor p c = Ok tt c' ->
  __protected_values c' = __protected_values c.
Proof.
  unfold ProtectedBase_dtor. destruct (_ !! _); [|done].
  intros ?; by simplify_eq.
Qed.

(** With no head, the walk over the protected roots marks nothing. *)
Lemma gc_mark_protected_None fuel c :
  gc_mark_protected fuel None c = Ok tt c.
Proof. by destruct fuel. Qed.

(** C1 at a failing input.  The constructor leaves [__protected_values] as
    it finds it, which is null after [init]; so when a program holds
    nothing but a [Protected] on a fresh integer and the collector runs, the
    cell that the [Protected] refers to is swept: it is not alive, and it is
    a link of the free list. *)
Theorem protected_root_swept :
  (forall val c,
      match ProtectedBase_ctor val c with
      | Ok _ c' => __protected_values c' = __protected_values c
      | Err _ => True
      end) /\
  __protected_values booted = None /\
  exists w c',
    protected_then_gc 42 booted = Ok w c' /\
    alive_ (hdr_ w) = false /\ type_ (hdr_ w) = VType.heap_node.
Proof.
  split; [|split; [by_compute|]].
  - intros val c. destruct (ProtectedBase_ctor val c) as [p c'|] eqn:H; [|done].
    by eapply ProtectedBase_ctor_head.
  - exists (result_value (protected_then_gc 42 booted) zero_cell),
      (result_context (protected_then_gc 42 booted)).
    split; [by_run|]. split; by_compute.
Qed.

(** * [funcall] restores the caller's frame (claim C9) *)

(** The operand stack is out of the collector's reach. *)
Definition same_stack (c c' : Context) : Prop :=
  operand_stack_ c' = operand_stack_ c /\ nil_ c' = nil_ c.

#[global] Instance same_stack_alloc : AllocInsensitive same_stack.
Proof.
  split; [split|]; try done. split; [done|].
  intros x y z [? ?] [? ?]. split; congruence.
Qed.

Lemma make_error_Ok code context c e c' :
  make_error code context c = Ok e c' ->
  e = oom_ c' \/
  exists h, value_pool_data c' !! e = Some (mkValue h (P_error code context))
            /\ type_ h = VType.error.
Proof.
  unfold make_error. intros ([p|] & c1 & _ & H)%bind_Ok.
  - apply bind_Ok in H as ([] & c2 & Hw & H). apply ret_Ok in H as [<- <-].
    right. unfold write_cell in Hw.
    apply bind_Ok in Hw as (v & c3 & Hd & Hw). unfold deref in Hd.
    destruct (_ !! _) eqn:Hv; [|done]. unfold store, modify in Hw.
    simplify_eq. simpl. rewrite lookup_insert_eq. eauto.
  - apply gets_Ok in H as [<- <-]. by left.
Qed.

(** C9.  A call of [funcall] that returns, whatever the function cell, the
    native function, [eval] or [vm_execute] did in between, leaves [this_],
    [lexical_bindings_], [arguments_break_loc_] and [current_fn_argc_] as
    they were at the call.  When the value called is not a function, what
    it leaves on the operand stack (if the stack has room) is the value that
    [make_error(value_not_callable, nil)] returns: an error cell with this
    code, or the out-of-memory sentinel. *)
Theorem funcall_restores fuel host_native rec (obj : ptr) (argc : Z)
    (c c' : Context) :
  funcall fuel host_native rec obj argc c = Ok tt c' ->
  (this_ c' = this_ c /\
   lexical_bindings_ c' = lexical_bindings_ c /\
   arguments_break_loc_ c' = arguments_break_loc_ c /\
   current_fn_argc_ c' = current_fn_argc_ c) /\
  (forall t, type obj c = Ok t c -> t <> VType.function ->
     length (operand_stack_ c) < OPERAND_STACK_CAPACITY ->
     exists e,
       operand_stack_ c' = e :: operand_stack_ c /\
       (e = oom_ c' \/
        exists h,
          value_pool_data c' !! e
          = Some (mkValue h (P_error ErrorCode.value_not_callable (nil_ c)))
          /\ type_ h = VType.error)).
Proof.
  unfold funcall. intros H.
  apply bind_Ok in H as (prev_this & c0 & [<- <-]%gets_Ok & H).
  apply bind_Ok in H as (prev_bindings & c0 & [<- <-]%gets_Ok & H).
  apply bind_Ok in H as (prev_break & c0 & [<- <-]%gets_Ok & H).
  apply bind_Ok in H as (prev_argc & c0 & [<- <-]%gets_Ok & H).
  apply bind_Ok in H as (t & c0 & Ht & H).
  pose proof (reads_type _ _ _ _ Ht) as ->.
  apply bind_Ok in H as ([] & c1 & Hcall & H).
  apply bind_Ok in H as ([] & c2 & H1 & H).
  apply bind_Ok in H as ([] & c3 & H2 & H).
  apply bind_Ok in H as ([] & c4 & H3 & H).
  unfold modify in *. simplify_eq. split; [done|].
  intros t' Ht' Hnf Hroom. rewrite Ht in Ht'. injection Ht' as <-.
  rewrite decide_False in Hcall by done.
  apply bind_Ok in Hcall as (nil & c5 & [<- <-]%gets_Ok & Hcall).
  apply bind_Ok in Hcall as (e & c6 & He & Hpush).
  pose proof (respects_make_error same_stack _ _ _ _ _ He) as [Hst Hnil].
  unfold push_op, modify in Hpush. rewrite Hst in Hpush.
  rewrite decide_True in Hpush by done. simplify_eq. simpl.
  exists e. split; [done|].
  destruct (make_error_Ok _ _ _ _ _ He) as [->|(h & Hv & Hty)]; [by left|].
  right. by exists h.
Qed.

Lemma funcall_restores_witness :
  let r := funcall 1000 no_native (example_interp 50) lambda_fn 1
             lambda_state in
  r = Ok tt (result_context r) /\
  this_ (result_context r) = this_ lambda_state /\
  lexical_bindings_ (result_context r) = lexical_bindings_ lambda_state /\
  arguments_break_loc_ (result_context r)
  = arguments_break_loc_ lambda_state /\
  current_fn_argc_ (result_context r) = current_fn_argc_ lambda_state.
Proof.
  cbv zeta.
  assert (funcall 1000 no_native (example_interp 50) lambda_fn 1 lambda_state
          = Ok tt (result_context
                     (funcall 1000 no_native (example_interp 50) lambda_fn 1
                        lambda_state))) as H.
  { by_run_to (funcall 1000 no_native (example_interp 50) lambda_fn 1
                 lambda_state) tt. }
  split; [exact H|].
  exact (proj1 (funcall_restores _ _ _ _ _ _ _ H)).
Defined.

(** * [eval] gives an error its context (claim C8) *)

Lemma attach_context_Ok result code c c' :
  attach_context result code c = Ok tt c' ->
  nil_ c' = nil_ c /\ operand_stack_ c' = operand_stack_ c /\
  (forall h e,
      value_pool_data c !! result = Some (mkValue h (P_error e (nil_ c))) ->
      type_ h = VType.error ->
      value_pool_data c' !! result = Some (mkValue h (P_error e code))) /\
  (forall h e context,
      value_pool_data c !! result = Some (mkValue h (P_error e context)) ->
      context <> nil_ c -> c' = c) /\
  (forall v, value_pool_data c !! result = Some v ->
             type_ (hdr_ v) <> VType.error -> c' = c).
Proof.
  unfold attach_context. intros (t & c0 & Ht & H)%bind_Ok.
  unfold type in Ht. apply bind_Ok in Ht as (v & c1 & Hd & Ht).
  unfold deref in Hd. destruct (value_pool_data c !! result) as [w|] eqn:Hw;
    [|done].
  apply ret_Ok in Ht as [<- <-]. injection Hd as <- <-.
  destruct (decide (type_ (hdr_ w) = VType.error)) as [Hty|Hty]; last first.
  { apply ret_Ok in H as [_ <-]. split; [done|]. split; [done|].
    split; [|split]; try done.
    intros h e [= ->] Hh. done. }
  apply bind_Ok in H as (context & c2 & Hctx & H).
  unfold error_context in Hctx.
  apply bind_Ok in Hctx as (v' & c3 & Hd & Hctx). unfold deref in Hd.
  rewrite Hw in Hd. injection Hd as <- <-.
  destruct w as [h pl]. simpl in *. destruct pl; try done.
  apply ret_Ok in Hctx as [<- <-].
  apply bind_Ok in H as (nil & c4 & [<- <-]%gets_Ok & H).
  destruct (decide (context_ = nil_ c)) as [->|Hne].
  - unfold set_error_context in H.
    apply bind_Ok in H as (v' & c5 & Hd & H). unfold deref in Hd.
    rewrite Hw in Hd. injection Hd as <- <-. simpl in H.
    unfold store, modify in H. simplify_eq. simpl.
    split; [done|]. split; [done|]. split; [|split].
    + intros h0 e0 [= <- <-] _. by rewrite lookup_insert_eq.
    + intros h0 e0 context [= <- <- <-]. done.
    + intros v [= <-]. done.
  - apply ret_Ok in H as [_ <-]. split; [done|]. split; [done|].
    split; [|split]; try done.
    intros h0 e0 [= <- <- Heq]. done.
Qed.

(** C8.  In [eval] of a call, once the function and the arguments have
    been evaluated, the result that [funcall] leaves on top of the operand
    stack is the result of [eval] (it takes the place of the form and of
    itself on the stack); and when this result is an error cell whose
    context is nil, [eval] has made the form its context, while an error
    with another context and a value that is not an error are returned as
    they are. *)
Theorem eval_attaches_context fuel rec (code function : ptr) (argc : nat)
    (c c1 c' : Context) :
  eval_operands fuel rec code c = Ok (function, argc, None) c1 ->
  eval_call fuel rec code c = Ok tt c' ->
  exists c2 result,
    funcall_ rec function (wrap_u8 (Z.of_nat argc)) c1 = Ok tt c2 /\
    get_op0 c2 = Ok result c2 /\
    (length (operand_stack_ c2) <= OPERAND_STACK_CAPACITY ->
     operand_stack_ c' = result :: tail (tail (operand_stack_ c2))) /\
    (forall h e,
        value_pool_data c2 !! result
        = Some (mkValue h (P_error e (nil_ c2))) ->
        type_ h = VType.error ->
        value_pool_data c' !! result = Some (mkValue h (P_error e code))) /\
    (forall h e context,
        value_pool_data c2 !! result = Some (mkValue h (P_error e context)) ->
        context <> nil_ c2 ->
        value_pool_data c' = value_pool_data c2) /\
    (forall v, value_pool_data c2 !! result = Some v ->
               type_ (hdr_ v) <> VType.error ->
               value_pool_data c' = value_pool_data c2).
Proof.
  intros Hops H. unfold eval_call in H. rewrite (bind_eq _ _ _ _ _ Hops) in H.
  apply bind_Ok in H as ([] & c2 & Hcall & H).
  apply bind_Ok in H as (result & c3 & Htop & H).
  assert (c3 = c2) as ->.
  { unfold get_op0 in Htop. destruct (operand_stack_ c2); by simplify_eq. }
  apply bind_Ok in H as ([] & c4 & Hat & H).
  apply bind_Ok in H as ([] & c5 & H1 & H).
  apply bind_Ok in H as ([] & c6 & H2 & H).
  apply bind_Ok in H as ([] & c7 & H3 & H).
  destruct (attach_context_Ok _ _ _ _ Hat) as (Hnil & Hst & Herr & Hctx & Hval).
  exists c2, result. split; [done|]. split; [done|].
  unfold pop_op, push_op, leave_interp, modify in *. simplify_eq. simpl.
  split; [|split; [|split]].
  - intros Hlen. rewrite Hst. rewrite decide_True; [done|].
    unfold get_op0 in Htop. destruct (operand_stack_ c2) as [|x [|y s]];
      simpl in *; try done; lia.
  - destruct (decide _); apply Herr.
  - intros h e context Hv Hne. rewrite (Hctx h e context Hv Hne).
    by destruct (decide _).
  - intros v Hv Hty. rewrite (Hval v Hv Hty). by destruct (decide _).
Qed.

(** The call [(car 5)]: the native function returns an error without a
    context, and [eval] returns it with the form as its context. *)
Lemma eval_attaches_context_witness :
  eval_operands 1000 (example_interp 49) call_code call_state
  = Ok (8982%N, 1, None)
      (result_context
         (eval_operands 1000 (example_interp 49) call_code call_state)) /\
  eval_call 1000 (example_interp 49) call_code call_state
  = Ok tt (result_context
             (eval_call 1000 (example_interp 49) call_code call_state)) /\
  exists c2 result,
    get_op0 c2 = Ok result c2 /\
    forall h e,
      value_pool_data c2 !! result = Some (mkValue h (P_error e (nil_ c2))) ->
      type_ h = VType.error ->
      value_pool_data
        (result_context
           (eval_call 1000 (example_interp 49) call_code call_state))
        !! result
      = Some (mkValue h (P_error e call_code)).
Proof.
  assert (eval_operands 1000 (example_interp 49) call_code call_state
          = Ok (8982%N, 1, None)
              (result_context
                 (eval_operands 1000 (example_interp 49) call_code
                    call_state))) as Hops.
  { by_run_to (eval_operands 1000 (example_interp 49) call_code call_state)
      (8982%N, 1, @None N). }
  assert (eval_call 1000 (example_interp 49) call_code call_state
          = Ok tt (result_context
                     (eval_call 1000 (example_interp 49) call_code
                        call_state))) as Hr.
  { by_run_to (eval_call 1000 (example_interp 49) call_code call_state) tt. }
  split; [exact Hops|]. split; [exact Hr|].
  destruct (eval_attaches_context 1000 (example_interp 49) call_code
              8982%N 1 call_state _ _ Hops Hr)
    as (c2 & result & _ & Htop & _ & Herr & _).
  exists c2, result. split; [exact Htop | exact Herr].
Defined.

(** * Native functions *)

Lemma type_Ok c p v :
  value_pool_data c !! p = Some v -> type p c = Ok (type_ (hdr_ v)) c.
Proof. intros H. unfold type, bind, deref, ret. by rewrite H. Qed.

Lemma integer_value_Ok c p n :
  integer_at c p n -> integer_value p c = Ok n c.
Proof.
  intros (h & H & _). unfold integer_value, bind, deref, ret. by rewrite H.
Qed.

Lemma integer_type_Ok c p n :
  integer_at c p n -> type p c = Ok VType.integer c.
Proof. intros (h & H & Ht). rewrite (type_Ok _ _ _ H). simpl. by rewrite Ht. Qed.

Lemma get_op_Ok c i p :
  operand_stack_ c !! i = Some p -> get_op i c = Ok p c.
Proof. intros H. unfold get_op. by rewrite H. Qed.

Lemma L_EXPECT_OP_pass c i p v t :
  operand_stack_ c !! i = Some p ->
  value_pool_data c !! p = Some v -> type_ (hdr_ v) = t ->
  L_EXPECT_OP i t c = Ok None c.
Proof.
  intros Hs Hv Ht. unfold L_EXPECT_OP.
  rewrite (bind_eq _ _ _ _ _ (get_op_Ok _ _ _ Hs)).
  rewrite (bind_eq _ _ _ _ _ (type_Ok _ _ _ Hv)).
  rewrite decide_False; [done|]. intros ?. congruence.
Qed.

Lemma L_EXPECT_OP_integer c i p n :
  operand_stack_ c !! i = Some p -> integer_at c p n ->
  L_EXPECT_OP i VType.integer c = Ok None c.
Proof. intros Hs (h & Hv & Ht). by eapply L_EXPECT_OP_pass. Qed.

(** The native [range] with a step of zero: three integer operands, the
    last of which is 0, make it return nil at once, in the state in which
    it was called; nothing is allocated and the loop is not entered. *)
Theorem native_range_zero_step (fuel : nat) (c : Context)
    (start end_ incr : ptr) (rest : list ptr) (s e : Z) :
  operand_stack_ c = incr :: end_ :: start :: rest ->
  integer_at c start s -> integer_at c end_ e -> integer_at c incr 0 ->
  native_range fuel 3 c = Ok (nil_ c) c.
Proof.
  intros Hst Hs He Hi. unfold native_range.
  assert (native_range_args 3 c = Ok (inr (s, e, 0%Z)) c) as Hargs.
  { unfold native_range_args. simpl.
    rewrite (bind_eq _ _ _ _ _
               (L_EXPECT_OP_integer c 2 start s ltac:(by rewrite Hst) Hs)).
    rewrite (bind_eq _ _ _ _ _
               (L_EXPECT_OP_integer c 1 end_ e ltac:(by rewrite Hst) He)).
    rewrite (bind_eq _ _ _ _ _
               (L_EXPECT_OP_integer c 0 incr 0 ltac:(by rewrite Hst) Hi)).
    rewrite (bind_eq _ _ _ _ _ (get_op_Ok c 2 start ltac:(by rewrite Hst))).
    rewrite (bind_eq _ _ _ _ _ (integer_value_Ok _ _ _ Hs)).
    unfold bind at 1, get_op1 at 1. rewrite Hst.
    rewrite (bind_eq _ _ _ _ _ (integer_value_Ok _ _ _ He)).
    unfold bind at 1, get_op0 at 1. rewrite Hst.
    rewrite (bind_eq _ _ _ _ _ (integer_value_Ok _ _ _ Hi)). done. }
  rewrite (bind_eq _ _ _ _ _ Hargs). done.
Qed.

Ltac cell_by_compute h := exists h; split; by_compute.

Lemma native_range_zero_step_witness :
  native_range 1000 3 (three_integers 0 10 0)
  = Ok (nil_ (three_integers 0 10 0)) (three_integers 0 10 0).
Proof.
  refine (native_range_zero_step 1000 (three_integers 0 10 0)
            8782%N 8781%N 8780%N [8999%N; 8999%N] 0 10 _ _ _ _).
  - by_compute.
  - cell_by_compute (mkHeader VType.integer true false ModeBits.none).
  - cell_by_compute (mkHeader VType.integer true false ModeBits.none).
  - cell_by_compute (mkHeader VType.integer true false ModeBits.none).
Defined.

Lemma cons_type_Ok c p a d : cons_at c p a d -> type p c = Ok VType.cons c.
Proof. intros (h & H & Ht). rewrite (type_Ok _ _ _ H). simpl. by rewrite Ht. Qed.

(** The native [equal] on the two operands [a] and [b]: integers are
    compared by their values; two pairs are reported as not equal, whatever
    they hold, and so is a pair compared with itself; operands of different
    types are not equal.  The answer is the integer that [make_integer]
    makes of 1 or 0. *)
Theorem native_equal_cases (c : Context) (a b : ptr) (rest : list ptr) :
  operand_stack_ c = b :: a :: rest ->
  (forall x y, integer_at c a x -> integer_at c b y ->
     native_equal 2 c = make_integer (if decide (x = y) then 1 else 0) c) /\
  (forall a1 a2 b1 b2, cons_at c a a1 a2 -> cons_at c b b1 b2 ->
     native_equal 2 c = make_integer 0 c) /\
  (forall va vb,
     value_pool_data c !! a = Some va -> value_pool_data c !! b = Some vb ->
     type_ (hdr_ va) <> type_ (hdr_ vb) ->
     native_equal 2 c = make_integer 0 c).
Proof.
  intros Hst.
  assert (forall (k : ptr -> M ptr), bind get_op0 k c = k b c) as H0.
  { intros k. unfold bind, get_op0. by rewrite Hst. }
  assert (forall (k : ptr -> M ptr), bind get_op1 k c = k a c) as H1.
  { intros k. unfold bind, get_op1. by rewrite Hst. }
  assert (forall (k : ptr -> M bool), bind get_op0 k c = k b c) as H0b.
  { intros k. unfold bind, get_op0. by rewrite Hst. }
  assert (forall (k : ptr -> M bool), bind get_op1 k c = k a c) as H1b.
  { intros k. unfold bind, get_op1. by rewrite Hst. }
  split; [|split].
  - intros x y Ha Hb. unfold native_equal, expecting, L_EXPECT_ARGC. simpl.
    unfold bind at 1, ret at 1. rewrite H0, H1.
    rewrite (bind_eq _ _ _ _ _ (integer_type_Ok _ _ _ Hb)).
    rewrite (bind_eq _ _ _ _ _ (integer_type_Ok _ _ _ Ha)).
    rewrite decide_False by (intros ?; done).
    assert (native_equal_compare c = Ok (bool_decide (y = x)) c) as Hcmp.
    { unfold native_equal_compare. rewrite H0b, H1b.
      rewrite (bind_eq _ _ _ _ _ (integer_type_Ok _ _ _ Hb)).
      rewrite (bind_eq _ _ _ _ _ (integer_value_Ok _ _ _ Hb)).
      rewrite (bind_eq _ _ _ _ _ (integer_value_Ok _ _ _ Ha)). done. }
    rewrite (bind_eq _ _ _ _ _ Hcmp). f_equal.
    unfold Z_of_bool. destruct (decide (x = y)) as [->|Hne].
    + by rewrite bool_decide_eq_true_2.
    + by rewrite bool_decide_eq_false_2.
  - intros a1 a2 b1 b2 Ha Hb.
    unfold native_equal, expecting, L_EXPECT_ARGC. simpl.
    unfold bind at 1, ret at 1. rewrite H0, H1.
    rewrite (bind_eq _ _ _ _ _ (cons_type_Ok _ _ _ _ Hb)).
    rewrite (bind_eq _ _ _ _ _ (cons_type_Ok _ _ _ _ Ha)).
    rewrite decide_False by (intros ?; done).
    assert (native_equal_compare c = Ok false c) as Hcmp.
    { unfold native_equal_compare. rewrite H0b, H1b.
      rewrite (bind_eq _ _ _ _ _ (cons_type_Ok _ _ _ _ Hb)). done. }
    rewrite (bind_eq _ _ _ _ _ Hcmp). done.
  - intros va vb Ha Hb Hne.
    unfold native_equal, expecting, L_EXPECT_ARGC. simpl.
    unfold bind at 1, ret at 1. rewrite H0, H1.
    rewrite (bind_eq _ _ _ _ _ (type_Ok _ _ _ Hb)).
    rewrite (bind_eq _ _ _ _ _ (type_Ok _ _ _ Ha)).
    rewrite decide_True; [done|]. intros ?. congruence.
Qed.

Lemma native_equal_cases_witness :
  native_equal 2 (three_integers 4 7 7)
  = make_integer 1 (three_integers 4 7 7).
Proof.
  destruct (native_equal_cases (three_integers 4 7 7) 8781%N 8780%N
              [8782%N; 8999%N; 8999%N]) as [Hint _]; [by_compute|].
  refine (Hint 7%Z 7%Z _ _).
  - cell_by_compute (mkHeader VType.integer true false ModeBits.none).
  - cell_by_compute (mkHeader VType.integer true false ModeBits.none).
Defined.

(** * [eval] of atoms and of quoted forms *)

(** The reads of a cell look at the pool only. *)
Lemma type_pool c c1 p v :
  value_pool_data c1 = value_pool_data c ->
  value_pool_data c !! p = Some v -> type p c1 = Ok (type_ (hdr_ v)) c1.
Proof. intros Hp Hv. apply type_Ok. by rewrite Hp. Qed.

Lemma cons_car_pool c c1 p a d :
  value_pool_data c1 = value_pool_data c -> cons_at c p a d ->
  cons_car p c1 = Ok a c1.
Proof.
  intros Hp (h & Hv & _). unfold cons_car, bind, deref, ret.
  by rewrite Hp, Hv.
Qed.

Lemma cons_cdr_pool c c1 p a d :
  value_pool_data c1 = value_pool_data c -> cons_at c p a d ->
  cons_cdr p c1 = Ok d c1.
Proof.
  intros Hp (h & Hv & _). unfold cons_cdr, bind, deref, ret.
  by rewrite Hp, Hv.
Qed.

Lemma symbol_chars_pool c c1 p name :
  value_pool_data c1 = value_pool_data c -> interns_ c1 = interns_ c ->
  symbol_at c p name -> symbol_chars p c1 = Ok name c1.
Proof.
  intros Hp Hi (h & n & Hv & _ & Hn).
  unfold symbol_chars, symbol_name, bind, deref, ret, gets, expect.
  rewrite Hp, Hv. simpl. rewrite Hi, Hn. done.
Qed.

(** [eval] of a value that is neither a symbol nor a pair: the value is
    pushed as it is, nothing else changes but the count of entries into the
    interpreter, which this path of [eval] increments and does not
    decrement. *)
Theorem eval_self_evaluating fuel rec (code : ptr) (v : Value) (c : Context) :
  value_pool_data c !! code = Some v ->
  type_ (hdr_ v) <> VType.symbol -> type_ (hdr_ v) <> VType.cons ->
  length (operand_stack_ c) < OPERAND_STACK_CAPACITY ->
  eval fuel rec code c
  = Ok tt (with_operand_stack_ (code :: operand_stack_ c)
             (with_interp_entry_count_ (interp_entry_count_ c + 1)%Z c)).
Proof.
  intros Hv Hns Hnc Hroom. unfold eval.
  unfold bind at 1, enter_interp at 1, modify at 1.
  unfold bind at 1, push_op at 1, modify at 1. simpl.
  rewrite decide_True by done.
  erewrite bind_eq; last first.
  { eapply (type_pool c); [done|exact Hv]. }
  rewrite decide_False by done. rewrite decide_False by done. done.
Qed.

Lemma eval_self_evaluating_witness :
  eval 1000 (example_interp 49) 8782%N (three_integers 1 2 3)
  = Ok tt
      (with_operand_stack_ (8782%N :: operand_stack_ (three_integers 1 2 3))
         (with_interp_entry_count_
            (interp_entry_count_ (three_integers 1 2 3) + 1)%Z
            (three_integers 1 2 3))).
Proof.
  refine (eval_self_evaluating 1000 (example_interp 49) 8782%N
            (mkValue (mkHeader VType.integer true false ModeBits.none)
               (P_integer 1))
            (three_integers 1 2 3) _ _ _ _); by_compute.
Defined.

Lemma eval_special_form_quote fuel rec code :
  eval_special_form fuel rec (ascii_of_string "'") code
  = (run pop_op ;;
     do rest <- cons_cdr code ;;
     run push_op rest ;;
     run leave_interp ;;
     ret true).
Proof. reflexivity. Qed.

(** [eval] of a quoted form, the pair of the symbol ['] and of a value:
    the value takes the place of the form on the operand stack, without
    being evaluated; the pool is not written to and the count of entries
    into the interpreter is as before. *)
Theorem eval_quote fuel rec (code quote x : ptr) (c : Context) :
  cons_at c code quote x ->
  symbol_at c quote (ascii_of_string "'") ->
  length (operand_stack_ c) < OPERAND_STACK_CAPACITY ->
  exists c',
    eval fuel rec code c = Ok tt c' /\
    operand_stack_ c' = x :: operand_stack_ c /\
    interp_entry_count_ c' = interp_entry_count_ c /\
    value_pool_data c' = value_pool_data c /\
    value_pool c' = value_pool c.
Proof.
  intros Hcode Hq Hroom. unfold eval.
  unfold bind at 1, enter_interp at 1, modify at 1.
  unfold bind at 1, push_op at 1, modify at 1. simpl.
  rewrite decide_True by done.
  set (c1 := with_operand_stack_ _ _).
  assert (value_pool_data c1 = value_pool_data c) as Hp by done.
  assert (interns_ c1 = interns_ c) as Hi by done.
  destruct Hcode as (h & Hv & Hty).
  rewrite (bind_eq _ _ _ _ _ (type_pool c c1 _ _ Hp Hv)). simpl.
  rewrite Hty. rewrite decide_False by done. rewrite decide_True by done.
  assert (cons_at c code quote x) as Hcode by (by exists h).
  rewrite (bind_eq _ _ _ _ _ (cons_car_pool c c1 _ _ _ Hp Hcode)).
  pose proof Hq as (hq & n & Hvq & Htq & Hn).
  rewrite (bind_eq _ _ _ _ _ (type_pool c c1 _ _ Hp Hvq)). simpl.
  rewrite Htq. rewrite decide_True by done.
  unfold bind at 1. unfold bind at 1.
  rewrite (symbol_chars_pool c c1 _ _ Hp Hi Hq).
  rewrite eval_special_form_quote.
  unfold bind at 1, pop_op at 1, modify at 1.
  set (c2 := with_operand_stack_ _ c1).
  assert (value_pool_data c2 = value_pool_data c) as Hp2 by done.
  rewrite (bind_eq _ _ _ _ _ (cons_cdr_pool c c2 _ _ _ Hp2 Hcode)).
  unfold bind at 1, push_op at 1, modify at 1. subst c2 c1. simpl.
  rewrite decide_True by done.
  eexists. split; [reflexivity|]. simpl. split; [done|].
  split; [lia|done].
Qed.

Lemma eval_quote_witness :
  exists c',
    eval 1000 (example_interp 49) 8781%N quoted_state = Ok tt c' /\
    operand_stack_ c' = 8780%N :: operand_stack_ quoted_state /\
    interp_entry_count_ c' = interp_entry_count_ quoted_state.
Proof.
  destruct (eval_quote 1000 (example_interp 49) 8781%N 8782%N 8780%N
              quoted_state) as (c' & H & Hs & Hn & _).
  - cell_by_compute (mkHeader VType.cons true false ModeBits.none).
  - exists (mkHeader VType.symbol true false ModeBits.none), 7.
    split; [by_compute|]. split; by_compute.
  - by_compute.
  - exists c'. split; [exact H|]. split; [exact Hs | exact Hn].
Defined.

(** * Lists in the heap: [is_list], [length], [get_list], [set_list] *)

Lemma chain_at_functional c p l last l' last' :
  chain_at c p l last -> chain_at c p l' last' -> l = l' /\ last = last'.
Proof.
  intros H. revert l' last'.
  induction H as [p v Hv Hty|p a d l last (h & Hv & Hty) Hc IH];
    intros l' last' H'.
  - inversion H' as [p' v' Hv' Hty'|p' a' d' l0 last0 (h' & Hv' & Hty') Hc'];
      subst; [done|].
    rewrite Hv in Hv'. injection Hv' as ->. done.
  - inversion H' as [p' v' Hv' Hty'|p' a' d' l0 last0 (h' & Hv' & Hty') Hc'];
      subst.
    + rewrite Hv in Hv'. injection Hv' as <-. done.
    + rewrite Hv in Hv'. injection Hv' as <- <- <-.
      destruct (IH _ _ Hc') as [-> ->]. done.
Qed.

Lemma chain_at_type c p l last :
  chain_at c p l last ->
  type p c = Ok (match l with [] => VType.nil | _ => VType.cons end) c \/
  (l = [] /\ exists v, value_pool_data c !! p = Some v /\
                       type_ (hdr_ v) <> VType.cons /\
                       type p c = Ok (type_ (hdr_ v)) c).
Proof.
  destruct 1 as [p v Hv Hty|p a d l last Hc _].
  - right. split; [done|]. exists v. split; [done|]. split; [done|].
    by apply type_Ok.
  - left. by eapply cons_type_Ok.
Qed.

(** The cell at which a chain ends is not a pair. *)
Lemma chain_at_last c p l last :
  chain_at c p l last ->
  exists v, value_pool_data c !! last = Some v /\
            type_ (hdr_ v) <> VType.cons.
Proof. induction 1; eauto. Qed.

Lemma cons_car_Ok c p a d : cons_at c p a d -> cons_car p c = Ok a c.
Proof. by apply cons_car_pool. Qed.

Lemma cons_cdr_Ok c p a d : cons_at c p a d -> cons_cdr p c = Ok d c.
Proof. by apply cons_cdr_pool. Qed.

(** [is_list] tells whether the chain ends at nil, and [length] counts
    the pairs of a chain that does, and answers 0 for a chain that ends at
    another cell. *)
Theorem is_list_length_spec (fuel : nat) (c : Context) (p : ptr)
    (l : list ptr) (last : ptr) :
  chain_at c p l last ->
  length l < fuel ->
  (forall a d, ~ cons_at c (nil_ c) a d) ->
  is_list fuel p c = Ok (bool_decide (last = nil_ c)) c /\
  (l <> [] ->
   length_ fuel p c
   = Ok (if decide (last = nil_ c) then Z.of_nat (length l) else 0%Z) c).
Proof.
  intros Hc Hfuel Hnil. split.
  - revert fuel Hfuel.
    induction Hc as [p v Hv Hty|p a d l last Hp Hc IH]; intros fuel Hfuel.
    + destruct fuel as [|fuel]; [simpl in Hfuel; lia|]. simpl.
      unfold bind at 1, get_nil at 1.
      destruct (decide (p = nil_ c)) as [->|Hne].
      * by rewrite bool_decide_eq_true_2.
      * rewrite (bind_eq _ _ _ _ _ (type_Ok _ _ _ Hv)).
        rewrite decide_True by done. by rewrite bool_decide_eq_false_2.
    + destruct fuel as [|fuel]; [simpl in Hfuel; lia|]. simpl.
      unfold bind at 1, get_nil at 1.
      rewrite decide_False; last first.
      { intros ->. by eapply Hnil. }
      rewrite (bind_eq _ _ _ _ _ (cons_type_Ok _ _ _ _ Hp)).
      rewrite decide_False by (intros ?; done).
      rewrite (bind_eq _ _ _ _ _ (cons_cdr_Ok _ _ _ _ Hp)).
      apply IH. simpl in Hfuel. lia.
  - intros Hne. unfold length_.
    assert (forall k,
               length_loop fuel p k c
               = Ok (if decide (last = nil_ c)
                     then (k + Z.of_nat (length l))%Z else 0%Z) c) as Hloop.
    { revert fuel Hfuel Hne.
      induction Hc as [p v Hv Hty|p a d l last Hp Hc IH];
        intros fuel Hfuel Hne k; [done|].
      destruct fuel as [|fuel]; [simpl in Hfuel; lia|]. simpl.
      rewrite (bind_eq _ _ _ _ _ (cons_cdr_Ok _ _ _ _ Hp)).
      destruct Hc as [d v Hv Hty|d a' d' l last Hd Hc].
      - rewrite (bind_eq _ _ _ _ _ (type_Ok _ _ _ Hv)).
        rewrite decide_True by done. unfold bind at 1, get_nil at 1.
        destruct (decide (d = nil_ c)) as [->|Hd].
        + rewrite decide_False by (intros ?; done). unfold ret.
          f_equal; simpl; lia.
        + rewrite decide_True by done. done.
      - rewrite (bind_eq _ _ _ _ _ (cons_type_Ok _ _ _ _ Hd)).
        rewrite decide_False by (intros ?; done).
        rewrite (IH fuel ltac:(simpl in *; lia) ltac:(done)).
        destruct (decide (last = nil_ c)); [|done]. f_equal.
        simpl length. lia. }
    rewrite Hloop. by destruct (decide _).
Qed.

Lemma chain_check_sound c p l last :
  chain_check c p l last = true -> chain_at c p l last.
Proof.
  revert p. induction l as [|a l IH]; intros p; simpl.
  - destruct (value_pool_data c !! p) as [v|] eqn:Hv; [|done].
    intros [<- Hty]%bool_decide_eq_true. by econstructor.
  - destruct (value_pool_data c !! p) as [[h pl]|] eqn:Hv; [|done].
    destruct pl; try done.
    intros [[-> Hty]%bool_decide_eq_true Hrest]%andb_prop.
    econstructor; [|by apply IH]. by exists h.
Qed.

Ltac chain_by_compute :=
  apply chain_check_sound; vm_cast_no_check (eq_refl true).

Lemma nil_not_cons_check c :
  match value_pool_data c !! nil_ c with
  | Some v => bool_decide (type_ (hdr_ v) <> VType.cons)
  | None => true
  end = true ->
  forall a d, ~ cons_at c (nil_ c) a d.
Proof.
  intros H a d (h & Hv & Hty). rewrite Hv in H. simpl in H.
  apply bool_decide_eq_true in H. done.
Qed.

Lemma is_list_length_spec_witness :
  is_list 1000 8781%N lists_state = Ok true lists_state /\
  length_ 1000 8781%N lists_state = Ok 3%Z lists_state /\
  is_list 1000 8775%N lists_state = Ok false lists_state /\
  length_ 1000 8775%N lists_state = Ok 0%Z lists_state.
Proof.
  assert (forall a d, ~ cons_at lists_state (nil_ lists_state) a d) as Hnil.
  { apply nil_not_cons_check. vm_cast_no_check (eq_refl true). }
  destruct (is_list_length_spec 1000 lists_state 8781%N
              [8782%N; 8780%N; 8778%N] 8999%N) as [H1 H2];
    [chain_by_compute | by_compute | exact Hnil |].
  destruct (is_list_length_spec 1000 lists_state 8775%N
              [8776%N; 8774%N] 8772%N) as [H3 H4];
    [chain_by_compute | by_compute | exact Hnil |].
  split; [exact H1|]. split; [exact (H2 ltac:(done))|].
  split; [exact H3 | exact (H4 ltac:(done))].
Defined.

(** ** [get_list] and [set_list] *)

Definition set_cell (c : Context) (q : ptr) (v : Value) : Context :=
  with_value_pool_data (<[q := v]> (value_pool_data c)) c.

(** A write to the car of a pair further from the end leaves a chain as
    it is. *)
Lemma chain_at_update_after c p l last q lq h a d v :
  chain_at c p l last -> chain_at c q lq last ->
  length l < length lq ->
  value_pool_data c !! q = Some (mkValue h (P_cons a d)) ->
  chain_at (set_cell c q (mkValue h (P_cons v d))) p l last.
Proof.
  intros Hc Hq Hlen Hv.
  induction Hc as [p w Hw Hty|p a' d' l last (h' & Hp & Hty) Hc IH].
  - assert (p <> q) as Hne.
    { intros ->. destruct (chain_at_functional _ _ _ _ _ _ Hq
                             (chain_at_end c q w Hw Hty)) as [-> _].
      simpl in Hlen. lia. }
    apply (chain_at_end _ _ w); [|done]. simpl. by rewrite lookup_insert_ne.
  - assert (p <> q) as Hne.
    { intros ->.
      destruct (chain_at_functional _ _ _ _ _ _ Hq
                  (chain_at_cons c q a' d' l last
                     (ex_intro _ h' (conj Hp Hty)) Hc)) as [-> _].
      lia. }
    apply (chain_at_cons _ _ a' d').
    + exists h'. simpl. by rewrite lookup_insert_ne.
    + apply IH; [done|]. simpl in Hlen. lia.
Qed.

(** The walk of [get_list] and [set_list] to the position [i]. *)
Lemma list_walk_in c p l last i a :
  chain_at c p l last -> l !! i = Some a ->
  exists q d,
    list_walk i p c = Ok (Some q) c /\ cons_at c q a d /\
    chain_at c q (drop i l) last.
Proof.
  intros Hc. revert i.
  induction Hc as [p w Hw Hty|p a' d' l last Hp Hc IH]; intros i Hi; [done|].
  destruct i as [|i]; simpl in Hi.
  - injection Hi as ->. exists p, d'. split; [done|]. split; [done|].
    by econstructor.
  - destruct (IH i Hi) as (q & d & Hwalk & Hq & Hrest).
    exists q, d. split; [|done]. simpl.
    rewrite (bind_eq _ _ _ _ _ (cons_type_Ok _ _ _ _ Hp)).
    rewrite decide_False by (intros ?; done).
    by rewrite (bind_eq _ _ _ _ _ (cons_cdr_Ok _ _ _ _ Hp)).
Qed.

Lemma list_walk_out c p l last i :
  chain_at c p l last -> length l <= i ->
  list_walk i p c = Ok None c \/
  (i = length l /\ list_walk i p c = Ok (Some last) c).
Proof.
  intros Hc. revert i.
  induction Hc as [p w Hw Hty|p a' d' l last Hp Hc IH]; intros i Hi.
  - destruct i as [|i]; [by right|]. left. simpl.
    rewrite (bind_eq _ _ _ _ _ (type_Ok _ _ _ Hw)).
    by rewrite decide_True.
  - destruct i as [|i]; [simpl in Hi; lia|]. simpl.
    rewrite (bind_eq _ _ _ _ _ (cons_type_Ok _ _ _ _ Hp)).
    rewrite decide_False by (intros ?; done).
    rewrite (bind_eq _ _ _ _ _ (cons_cdr_Ok _ _ _ _ Hp)).
    destruct (IH i ltac:(simpl in Hi; lia)) as [?|[-> ?]]; [by left|].
    right. by split.
Qed.

(** [get_list] reads the element at the position, and nil at a position
    that the list does not have. *)
Lemma get_list_spec c p l last i :
  chain_at c p l last ->
  get_list p i c = Ok (nth i l (nil_ c)) c.
Proof.
  intros Hc. unfold get_list.
  destruct (l !! i) as [a|] eqn:Hi.
  - destruct (list_walk_in _ _ _ _ _ _ Hc Hi) as (q & d & Hw & Hq & _).
    rewrite (bind_eq _ _ _ _ _ Hw).
    rewrite (bind_eq _ _ _ _ _ (cons_type_Ok _ _ _ _ Hq)).
    rewrite decide_False by (intros ?; done).
    rewrite (cons_car_Ok _ _ _ _ Hq). f_equal.
    symmetry. by apply nth_lookup_Some.
  - apply lookup_ge_None in Hi. rewrite nth_overflow by done.
    destruct (list_walk_out _ _ _ _ _ Hc Hi) as [Hw|[_ Hw]];
      rewrite (bind_eq _ _ _ _ _ Hw); [done|].
    destruct (chain_at_last _ _ _ _ Hc) as (w & Hlast & Hty).
    rewrite (bind_eq _ _ _ _ _ (type_Ok _ _ _ Hlast)).
    by rewrite decide_True.
Qed.

(** The chain after a write to the car of its pair at the position
    [i]. *)
Lemma chain_at_set_car c p l last i a :
  chain_at c p l last -> l !! i = Some a ->
  forall v, exists q h d,
    list_walk i p c = Ok (Some q) c /\
    value_pool_data c !! q = Some (mkValue h (P_cons a d)) /\
    type_ h = VType.cons /\
    chain_at c q (drop i l) last /\
    chain_at (set_cell c q (mkValue h (P_cons v d))) p (<[i := v]> l) last.
Proof.
  intros Hc. revert i.
  induction Hc as [p w Hw Hty|p a' d' l last Hp Hc IH]; intros i Hi v;
    [done|].
  destruct i as [|i]; simpl in Hi.
  - injection Hi as ->. destruct Hp as (h & Hp & Hty).
    exists p, h, d'. split; [done|]. split; [done|]. split; [done|].
    split; [econstructor; [by exists h|done]|]. simpl.
    apply (chain_at_cons _ _ v d').
    + exists h. simpl. by rewrite lookup_insert_eq.
    + apply (chain_at_update_after c d' l last p (a :: l) h a d' v);
        [done| |simpl; lia|done].
      econstructor; [by exists h|done].
  - destruct (IH i Hi v) as (q & h & d & Hwalk & Hq & Hty & Hrest & Hupd).
    exists q, h, d. split; [|split; [done|split; [done|split; [done|]]]].
    + simpl. rewrite (bind_eq _ _ _ _ _ (cons_type_Ok _ _ _ _ Hp)).
      rewrite decide_False by (intros ?; done).
      by rewrite (bind_eq _ _ _ _ _ (cons_cdr_Ok _ _ _ _ Hp)).
    + simpl. apply (chain_at_cons _ _ a' d'); [|done].
      destruct Hp as (h' & Hp & Hty').
      assert (p <> q) as Hne.
      { intros ->.
        destruct (chain_at_functional _ _ _ _ _ _ Hrest
                    (chain_at_cons c q a' d' l last
                       (ex_intro _ h' (conj Hp Hty')) Hc)) as [Heq _].
        apply (f_equal length) in Heq. rewrite length_drop in Heq.
        simpl in Heq. lia. }
      exists h'. simpl. by rewrite lookup_insert_ne.
Qed.

(** [set_list] writes the element at the position and nothing else, and
    does nothing at a position that the list does not have; [get_list]
    reads back what [set_list] wrote. *)
Theorem set_list_get_list (c : Context) (p : ptr) (l : list ptr)
    (last : ptr) (i : nat) (v : ptr) :
  chain_at c p l last ->
  exists c',
    set_list p i v c = Ok tt c' /\
    chain_at c' p (<[i := v]> l) last /\
    (length l <= i -> c' = c) /\
    (i < length l -> get_list p i c' = Ok v c') /\
    (forall j, j <> i -> get_list p j c' = Ok (nth j l (nil_ c)) c').
Proof.
  intros Hc. destruct (l !! i) as [a|] eqn:Hi.
  - destruct (chain_at_set_car _ _ _ _ _ _ Hc Hi v)
      as (q & h & d & Hw & Hq & Hty & _ & Hupd).
    exists (set_cell c q (mkValue h (P_cons v d))).
    pose proof (lookup_lt_Some _ _ _ Hi) as Hlt.
    split; [|split; [done|split; [lia|split]]].
    + unfold set_list. rewrite (bind_eq _ _ _ _ _ Hw).
      rewrite (bind_eq _ _ _ _ _
                 (cons_type_Ok c q a d (ex_intro _ h (conj Hq Hty)))).
      rewrite decide_False by (intros ?; done).
      unfold set_car, bind, deref. by rewrite Hq.
    + intros _. rewrite (get_list_spec _ _ _ _ _ Hupd). f_equal.
      apply nth_lookup_Some. by rewrite list_lookup_insert_eq.
    + intros j Hj. rewrite (get_list_spec _ _ _ _ _ Hupd). f_equal.
      rewrite !nth_lookup. by rewrite list_lookup_insert_ne.
  - apply lookup_ge_None in Hi. exists c.
    rewrite list_insert_ge by done.
    split; [|split; [done|split; [done|split; [lia|]]]].
    + unfold set_list.
      destruct (list_walk_out _ _ _ _ _ Hc Hi) as [Hw|[_ Hw]];
        rewrite (bind_eq _ _ _ _ _ Hw); [done|].
      destruct (chain_at_last _ _ _ _ Hc) as (w & Hlast & Hty).
      rewrite (bind_eq _ _ _ _ _ (type_Ok _ _ _ Hlast)).
      by rewrite decide_True.
    + intros j _. by eapply get_list_spec.
Qed.

Lemma set_list_get_list_witness :
  exists c',
    set_list 8781%N 1 8776%N lists_state = Ok tt c' /\
    get_list 8781%N 1 c' = Ok 8776%N c' /\
    get_list 8781%N 2 c' = Ok 8778%N c'.
Proof.
  destruct (set_list_get_list lists_state 8781%N [8782%N; 8780%N; 8778%N]
              8999%N 1 8776%N) as (c' & Hset & _ & _ & Hget & Hother);
    [chain_by_compute|].
  exists c'. split; [exact Hset|]. split.
  - apply Hget. simpl. lia.
  - exact (Hother 2 ltac:(lia)).
Defined.

(** * Lexical frames and arguments *)

Lemma make_cons_Ok a d c p c' :
  make_cons a d c = Ok p c' -> p = oom_ c' \/ cons_at c' p a d.
Proof.
  unfold make_cons. intros ([q|] & c1 & _ & H)%bind_Ok.
  - apply bind_Ok in H as ([] & c2 & Hw & H). apply ret_Ok in H as [<- <-].
    right. unfold write_cell in Hw.
    apply bind_Ok in Hw as (v & c3 & Hd & Hw). unfold deref in Hd.
    destruct (_ !! _) eqn:Hv; [|done]. unfold store, modify in Hw.
    simplify_eq. exists (set_type_ VType.cons (hdr_ v)). simpl.
    by rewrite lookup_insert_eq.
  - apply gets_Ok in H as [<- <-]. by left.
Qed.

(** The sentinel across [make_cons] when the allocation fails: the result
    is [oom_] only then, or when [oom_] is the cell that was allocated. *)
Lemma make_cons_sentinel a d c p c' :
  sentinel_ok c -> make_cons a d c = Ok p c' ->
  cons_at c' p a d \/ (p = oom_ c' /\ sentinel_ok c').
Proof.
  intros Hs H. unfold make_cons in H.
  apply bind_Ok in H as ([q|] & c1 & Ha & H).
  - apply bind_Ok in H as ([] & c2 & Hw & H). apply ret_Ok in H as [<- <-].
    left. unfold write_cell in Hw.
    apply bind_Ok in Hw as (v & c3 & Hd & Hw). unfold deref in Hd.
    destruct (_ !! _) eqn:Hv; [|done]. unfold store, modify in Hw.
    simplify_eq. exists (set_type_ VType.cons (hdr_ v)). simpl.
    by rewrite lookup_insert_eq.
  - apply gets_Ok in H as [<- <-]. right. split; [done|].
    destruct (alloc_value_null _ _ Ha) as (_ & _ & n & Hgc).
    by eapply run_gc_sentinel.
Qed.

(** Opening a lexical frame and closing it again leaves the chain of
    frames where it was.  When the allocation of the frame fails, the chain
    is the out-of-memory sentinel after [lexical_frame_push], and
    [lexical_frame_pop] does not return. *)
Theorem lexical_frame_push_pop (c c1 : Context) :
  sentinel_ok c ->
  lexical_frame_push c = Ok tt c1 ->
  (cons_at c1 (lexical_bindings_ c1) (nil_ c) (lexical_bindings_ c) /\
   exists c2, lexical_frame_pop c1 = Ok tt c2 /\
              lexical_bindings_ c2 = lexical_bindings_ c /\
              value_pool_data c2 = value_pool_data c1) \/
  (lexical_bindings_ c1 = oom_ c1 /\
   lexical_frame_pop c1 = Err undefined_behaviour).
Proof.
  intros Hs H. unfold lexical_frame_push in H.
  apply bind_Ok in H as (nil & c0 & [<- <-]%gets_Ok & H).
  apply bind_Ok in H as (bindings & c0 & [<- <-]%gets_Ok & H).
  apply bind_Ok in H as (frame & c2 & Hcons & H).
  unfold modify in H. simplify_eq.
  destruct (make_cons_sentinel _ _ _ _ _ Hs Hcons) as [Hc|[-> Hs2]].
  - left. split; [done|]. eexists.
    unfold lexical_frame_pop. unfold bind at 1, gets at 1. simpl.
    rewrite (bind_eq _ _ _ _ _
               (cons_cdr_pool c2 (with_lexical_bindings_ frame c2) _ _ _
                  eq_refl Hc)).
    unfold modify. done.
  - right. split; [done|].
    unfold lexical_frame_pop. unfold bind at 1, gets at 1. simpl.
    destruct Hs2 as (h & ctx & Hv & _).
    unfold bind, cons_cdr, bind, deref. simpl. by rewrite Hv.
Qed.

Lemma booted_sentinel_ok : sentinel_ok booted.
Proof.
  exists (mkHeader VType.error true false ModeBits.none), 8999%N.
  split; [by_compute|]. split; by_compute.
Qed.

Lemma lexical_frame_push_pop_witness :
  exists c1 c2,
    lexical_frame_push booted = Ok tt c1 /\
    lexical_frame_pop c1 = Ok tt c2 /\
    lexical_bindings_ c2 = lexical_bindings_ booted.
Proof.
  assert (lexical_frame_push booted
          = Ok tt (result_context (lexical_frame_push booted))) as H.
  { by_run_to (lexical_frame_push booted) tt. }
  destruct (lexical_frame_push_pop booted _ booted_sentinel_ok H)
    as [[_ (c2 & Hpop & Hb & _)]|[Hoom _]].
  - exists (result_context (lexical_frame_push booted)), c2.
    split; [exact H|]. split; [exact Hpop | exact Hb].
  - exfalso.
    assert (lexical_bindings_ (result_context (lexical_frame_push booted))
            <> oom_ (result_context (lexical_frame_push booted))) as Hne
      by by_compute.
    exact (Hne Hoom).
Defined.

(** [get_arg] in a call frame.  With the arguments [args] on the operand
    stack above the cells [below], the break location at the last of them
    and the argument count their number, [get_arg i] is the [i]-th
    argument; the index is not checked against the count, and an index past
    the arguments reads the cells that lie above them on the stack. *)
Theorem get_arg_frame (c : Context) (below args above : list ptr)
    (i : nat) (x : ptr) :
  reverse (operand_stack_ c) = below ++ args ++ above ->
  arguments_break_loc_ c = (Z.of_nat (length below + length args) - 1)%Z ->
  current_fn_argc_ c = Z.of_nat (length args) ->
  (args ++ above) !! i = Some x ->
  get_arg (Z.of_nat i) c = Ok x c.
Proof.
  intros Hst Hbr Hargc Hi. unfold get_arg.
  unfold bind at 1, gets at 1. unfold bind at 1, gets at 1.
  rewrite Hbr, Hargc. rewrite decide_True by lia.
  unfold stack_at.
  assert (length (operand_stack_ c)
          = length below + (length args + length above)) as Hlen.
  { rewrite <- length_reverse, Hst. by rewrite !length_app. }
  pose proof (lookup_lt_Some _ _ _ Hi) as Hlt. rewrite length_app in Hlt.
  rewrite decide_True by lia.
  replace (Z.to_nat _) with (length below + i) by lia.
  rewrite Hst, lookup_app_r by lia.
  replace (length below + i - length below) with i by lia.
  by rewrite Hi.
Qed.

Lemma get_arg_frame_witness :
  get_arg 0 (with_arguments_break_loc_ 3
               (with_current_fn_argc_ 2 (three_integers 1 2 3)))
  = Ok 8782%N (with_arguments_break_loc_ 3
                 (with_current_fn_argc_ 2 (three_integers 1 2 3))) /\
  get_arg 2 (with_arguments_break_loc_ 3
               (with_current_fn_argc_ 2 (three_integers 1 2 3)))
  = Ok 8780%N (with_arguments_break_loc_ 3
                 (with_current_fn_argc_ 2 (three_integers 1 2 3))).
Proof.
  split.
  - refine (get_arg_frame _ [8999%N; 8999%N] [8782%N; 8781%N] [8780%N]
              0 8782%N _ _ _ _); by_compute.
  - refine (get_arg_frame _ [8999%N; 8999%N] [8782%N; 8781%N] [8780%N]
              2 8780%N _ _ _ _); by_compute.
Defined.

(** * The tail-call instructions of the virtual machine *)

Lemma get_op_0 c : get_op 0 c = Ok (stack_top c) c.
Proof. unfold get_op, stack_top. by destruct (operand_stack_ c !! 0). Qed.

(** The constructor of a protected root while the head of the list of
    roots is null. *)
Lemma ProtectedBase_ctor_None val c :
  __protected_values c = None ->
  ProtectedBase_ctor val c
  = Ok (length (protected_objects c))
      (with_protected_objects
         (protected_objects c ++ [mkProtected None None val]) c).
Proof. intros H. unfold ProtectedBase_ctor. by rewrite H. Qed.

Lemma Protected_get_Ok p o c :
  protected_objects c !! p = Some o -> Protected_get p c = Ok (val_ o) c.
Proof. intros H. unfold Protected_get. by rewrite H. Qed.

Lemma lookup_new_root (objs : list ProtectedBase) o :
  (objs ++ [o]) !! length objs = Some o.
Proof. rewrite lookup_app_r by lia. by rewrite Nat.sub_diag. Qed.

(** Runs the next operation of a goal or hypothesis about the root that
    [with_Protected] has just made. *)
Ltac get_root :=
  erewrite (bind_eq (Protected_get _));
  [|apply Protected_get_Ok; simpl; apply lookup_new_root].

Ltac get_root_in H :=
  erewrite (bind_eq (Protected_get _)) in H;
  [|apply Protected_get_Ok; simpl; apply lookup_new_root].

(** [TailCall] with an argument count other than zero is an ordinary
    call: the function is popped, [funcall] runs, and the program goes on
    after the instruction, also when the function is the one that is
    running.  And when the function is the one that is running and the
    count differs from that of the frame, the instruction does not
    return. *)
Theorem tail_call_general rec (start_offset pc nested_scope argc : Z)
    (c : Context) :
  __protected_values c = None ->
  (argc <> 0%Z ->
   forall next c',
     vm_tail_call rec start_offset pc nested_scope argc c = Ok next c' ->
     next = Some (pc, nested_scope) /\
     exists c1 c2,
       funcall_ rec (stack_top c) argc c1 = Ok tt c2 /\
       operand_stack_ c1 = tail (operand_stack_ c)) /\
  (stack_top c = this_ c -> current_fn_argc_ c <> argc ->
   vm_tail_call rec start_offset pc nested_scope argc c = Err hang).
Proof.
  intros Hpv. unfold vm_tail_call.
  rewrite (bind_eq _ _ _ _ _ (get_op_0 c)). unfold with_Protected.
  rewrite (bind_eq _ _ _ _ _ (ProtectedBase_ctor_None _ _ Hpv)).
  split.
  - intros Hargc next c' H.
    apply bind_Ok in H as (r & c3 & H & Hd).
    apply bind_Ok in Hd as ([] & c4 & _ & Hr). apply ret_Ok in Hr as [<- <-].
    get_root_in H. simpl in H.
    unfold bind at 1, get_this at 1, gets at 1 in H. simpl in H.
    destruct (decide (stack_top c = this_ c)) as [Heq|Hne].
    + unfold bind at 1, pop_op at 1, modify at 1 in H.
      unfold bind at 1, get_argc at 1, gets at 1 in H. simpl in H.
      destruct (decide _); [done|]. rewrite decide_False in H by done.
      get_root_in H. simpl in H.
      apply bind_Ok in H as ([] & c6 & Hf & H). apply ret_Ok in H as [<- <-].
      split; [done|]. eexists _, _. split; [exact Hf|done].
    + unfold bind at 1, pop_op at 1, modify at 1 in H.
      get_root_in H. simpl in H.
      apply bind_Ok in H as ([] & c6 & Hf & H). apply ret_Ok in H as [<- <-].
      split; [done|]. eexists _, _. split; [exact Hf|done].
  - intros Hthis Hargc.
    unfold bind at 1. get_root. simpl.
    unfold bind at 1, get_this at 1, gets at 1. simpl.
    rewrite decide_True by done.
    unfold bind at 1, pop_op at 1, modify at 1.
    unfold bind at 1, get_argc at 1, gets at 1. simpl.
    by rewrite decide_True.
Qed.

Lemma tail_call_general_witness :
  let r := vm_tail_call (example_interp 50) 0 5 0 1 tail_call_state in
  r = Ok (Some (5, 0)%Z) (result_context r) /\
  (exists c1 c2,
     funcall_ (example_interp 50) (stack_top tail_call_state) 1 c1 = Ok tt c2 /\
     operand_stack_ c1 = tail (operand_stack_ tail_call_state)) /\
  vm_tail_call (example_interp 50) 0 5 0 2 self_call_state = Err hang.
Proof.
  cbv zeta.
  assert (__protected_values tail_call_state = None) as Hpv by by_compute.
  assert (__protected_values self_call_state = None) as Hpv' by by_compute.
  assert (vm_tail_call (example_interp 50) 0 5 0 1 tail_call_state
          = Ok (Some (5, 0)%Z)
              (result_context
                 (vm_tail_call (example_interp 50) 0 5 0 1 tail_call_state)))
    as H.
  { by_run_to (vm_tail_call (example_interp 50) 0 5 0 1 tail_call_state)
      (Some (5, 0)%Z). }
  split; [exact H|]. split.
  - refine (proj2 (proj1 (tail_call_general _ 0 5 0 1 _ Hpv) _ _ _ H)). lia.
  - refine (proj2 (tail_call_general _ 0 5 0 2 _ Hpv') _ _); by_compute.
Defined.

(** ** A self call through [TailCall1], [TailCall2] or [TailCall3] *)

Lemma with_operand_stack_id c : with_operand_stack_ (operand_stack_ c) c = c.
Proof. by destruct c. Qed.

Lemma with_lexical_bindings_id c :
  with_lexical_bindings_ (lexical_bindings_ c) c = c.
Proof. by destruct c. Qed.

Lemma get_ops_Ok n c : forall pre l post,
  operand_stack_ c = pre ++ l ++ post -> length l = n ->
  get_ops n (length pre) c = Ok l c.
Proof.
  induction n as [|n IH]; intros pre l post Hs Hl.
  - by destruct l.
  - destruct l as [|a l]; [done|]. simpl in Hl. simpl.
    assert (get_op (length pre) c = Ok a c) as Ha.
    { unfold get_op. rewrite Hs, lookup_app_r by lia.
      by rewrite Nat.sub_diag. }
    rewrite (bind_eq _ _ _ _ _ Ha).
    assert (get_ops n (S (length pre)) c = Ok l c) as Hr.
    { replace (S (length pre)) with (length (pre ++ [a]))
        by (rewrite length_app; simpl; lia).
      apply (IH (pre ++ [a]) l post); [|lia].
      by rewrite Hs, <- app_assoc. }
    by rewrite (bind_eq _ _ _ _ _ Hr).
Qed.

Lemma pop_n_Ok n : forall c,
  pop_n n c = Ok tt (with_operand_stack_ (drop n (operand_stack_ c)) c).
Proof.
  induction n as [|n IH]; intros c; simpl.
  - unfold ret. by rewrite drop_0, with_operand_stack_id.
  - unfold bind at 1, pop_op, modify. rewrite IH. simpl.
    replace (drop n (tail (operand_stack_ c)))
      with (drop (S n) (operand_stack_ c)); [done|].
    destruct (operand_stack_ c); simpl; by rewrite ?drop_nil.
Qed.

Lemma push_all_Ok l : forall c,
  length (operand_stack_ c) + length l <= OPERAND_STACK_CAPACITY ->
  for_each l push_op c
  = Ok tt (with_operand_stack_ (reverse l ++ operand_stack_ c) c).
Proof.
  induction l as [|a l IH]; intros c Hlen; simpl.
  - unfold ret. by rewrite with_operand_stack_id.
  - simpl in Hlen. unfold bind at 1, push_op at 1, modify.
    rewrite decide_True by lia. rewrite IH by (simpl; lia). simpl.
    by rewrite reverse_cons, <- app_assoc.
Qed.

(** The frames of the lexical scope are popped by the cells of the pool
    and the register of the bindings alone. *)
Lemma lexical_frame_pop_n_frame n : forall c c1 c0,
  lexical_frame_pop_n n c = Ok tt c1 ->
  value_pool_data c0 = value_pool_data c ->
  lexical_bindings_ c0 = lexical_bindings_ c ->
  lexical_frame_pop_n n c0
  = Ok tt (with_lexical_bindings_ (lexical_bindings_ c1) c0).
Proof.
  induction n as [|n IH]; intros c c1 c0 H Hp Hb; simpl in *.
  - apply ret_Ok in H as [_ <-]. unfold ret.
    by rewrite <- Hb, with_lexical_bindings_id.
  - apply bind_Ok in H as ([] & c2 & H & Hrest).
    unfold lexical_frame_pop in H.
    apply bind_Ok in H as (b & ? & [<- <-]%gets_Ok & H).
    apply bind_Ok in H as (rest & c3 & Hcdr & H).
    unfold cons_cdr, bind, deref in Hcdr.
    destruct (value_pool_data c !! lexical_bindings_ c) as [v|] eqn:Hv;
      [|done].
    destruct (payload v) as [| | |a d| | | | | | | |] eqn:Hpay; try done.
    apply ret_Ok in Hcdr as [<- <-].
    unfold modify in H. simplify_eq.
    unfold bind at 1, lexical_frame_pop, bind at 1, gets at 1.
    unfold bind at 1, cons_cdr at 1, bind at 1, deref at 1.
    rewrite Hb, Hp, Hv, Hpay. unfold ret at 1, modify at 1.
    by rewrite (IH _ _ (with_lexical_bindings_ d c0) Hrest).
Qed.

(** When the function on top of the stack is the one that is running and
    the frame has as many arguments as the call, [TailCall1], [TailCall2]
    and [TailCall3] do not call: the arguments of the call take the place
    of the arguments of the frame on the operand stack, in the same order,
    the lexical frames opened in the body are popped, and the program goes
    back to the start of the function.  The cells of the pool are left as
    they are. *)
Theorem tail_call_reuses_frame rec (start_offset pc nested_scope : Z)
    (n : nat) (args prev rest : list ptr) (c c1 : Context) :
  __protected_values c = None ->
  operand_stack_ c = this_ c :: args ++ prev ++ rest ->
  length args = n -> length prev = n ->
  length (operand_stack_ c) <= OPERAND_STACK_CAPACITY ->
  current_fn_argc_ c = Z.of_nat n ->
  (0 <= nested_scope)%Z ->
  lexical_frame_pop_n (Z.to_nat nested_scope) c = Ok tt c1 ->
  exists c',
    vm_tail_call_n rec start_offset pc nested_scope n c
    = Ok (Some (start_offset, 0%Z)) c' /\
    operand_stack_ c' = args ++ rest /\
    lexical_bindings_ c' = lexical_bindings_ c1 /\
    value_pool_data c' = value_pool_data c /\
    value_pool c' = value_pool c /\
    this_ c' = this_ c /\
    current_fn_argc_ c' = current_fn_argc_ c.
Proof.
  intros Hpv Hs Hargs Hprev Hcap Hargc Hscope Hpop.
  assert (stack_top c = this_ c) as Htop by (unfold stack_top; by rewrite Hs).
  unfold vm_tail_call_n.
  rewrite (bind_eq _ _ _ _ _ (get_op_0 c)). unfold with_Protected.
  rewrite (bind_eq _ _ _ _ _ (ProtectedBase_ctor_None _ _ Hpv)).
  unfold bind at 1. get_root. simpl.
  unfold bind at 1, get_this at 1, gets at 1. simpl.
  rewrite decide_True by done.
  erewrite (bind_eq (get_ops _ _)); cycle 1.
  { apply (get_ops_Ok n _ [this_ c] args (prev ++ rest)); [|done].
    simpl. by rewrite Hs. }
  unfold bind at 1, get_argc at 1, gets at 1. simpl.
  rewrite decide_False by (intros ?; done).
  unfold bind at 1, pop_op at 1, modify at 1.
  unfold bind at 1. rewrite pop_n_Ok.
  unfold bind at 1. rewrite pop_n_Ok. simpl.
  unfold bind at 1. rewrite push_all_Ok; cycle 1.
  { simpl. rewrite Hs in *. simpl in *.
    rewrite !length_drop, !length_app, length_reverse in *. lia. }
  simpl. unfold unwind_lexical_scope. rewrite decide_False by lia.
  unfold bind at 1.
  erewrite (lexical_frame_pop_n_frame _ c c1); [|done..].
  unfold ret at 1. unfold bind at 1, ProtectedBase_dtor at 1. simpl.
  rewrite lookup_new_root. simpl. unfold ret.
  eexists. split; [done|]. simpl.
  split; [|done].
  rewrite Hs. simpl. rewrite reverse_involutive. subst n.
  by rewrite drop_app_length, <- Hprev, drop_app_length.
Qed.

Lemma tail_call_reuses_frame_witness :
  exists c',
    vm_tail_call_n (example_interp 50) 0 5 0 1 self_call_state
    = Ok (Some (0, 0)%Z) c' /\
    operand_stack_ c' = [8776%N] ++ [8778%N; 8781%N; 8999%N; 8999%N] /\
    lexical_bindings_ c' = lexical_bindings_ self_call_state /\
    value_pool_data c' = value_pool_data self_call_state /\
    value_pool c' = value_pool self_call_state /\
    this_ c' = this_ self_call_state /\
    current_fn_argc_ c' = current_fn_argc_ self_call_state.
Proof.
  refine (tail_call_reuses_frame (example_interp 50) 0 5 0 1
            [8776%N] [8777%N] [8778%N; 8781%N; 8999%N; 8999%N]
            self_call_state self_call_state _ _ _ _ _ _ _ _);
    try by_compute; done.
Defined.

(** * What a pass of the collector keeps *)

(** ** The mark phase up to the operand stack: only mark bits are set *)

Definition marks_only (c c' : Context) : Prop :=
  forall q v, value_pool_data c !! q = Some v ->
    exists b, value_pool_data c' !! q
              = Some (mkValue (set_mark_bit_ b (hdr_ v)) (payload v))
              /\ (mark_bit_ (hdr_ v) = true -> b = true).

#[global] Instance marks_only_preorder : PreOrder marks_only.
Proof.
  split.
  - intros c q v Hv. exists (mark_bit_ (hdr_ v)). split; [|done].
    rewrite Hv. by destruct v as [[] ?].
  - intros x y z H1 H2 q v Hv.
    destruct (H1 _ _ Hv) as (b & Hy & Hb).
    destruct (H2 _ _ Hy) as (b' & Hz & Hb'). simpl in *.
    exists b'. split; [done|]. auto.
Qed.

Lemma marks_only_write_mark_bit p :
  respects marks_only (write_mark_bit p true).
Proof.
  intros c [] c' (v & Hv & ->)%write_mark_bit_Ok q w Hq. simpl.
  destruct (decide (q = p)) as [->|Hne].
  - rewrite lookup_insert_eq. simplify_eq. by exists true.
  - rewrite lookup_insert_ne by done. exists (mark_bit_ (hdr_ w)).
    split; [|done]. rewrite Hq. by destruct w as [[] ?].
Qed.

Lemma marks_only_gc_mark_value depth p :
  respects marks_only (gc_mark_value depth p).
Proof.
  apply respects_gc_mark_value; [apply _|]. apply marks_only_write_mark_bit.
Qed.

Lemma marks_only_refs c c' q v :
  marks_only c c' -> value_pool_data c !! q = Some v ->
  exists v', value_pool_data c' !! q = Some v' /\
             refs v' = refs v /\ payload v' = payload v /\
             type_ (hdr_ v') = type_ (hdr_ v) /\
             alive_ (hdr_ v') = alive_ (hdr_ v) /\
             mode_bits_ (hdr_ v') = mode_bits_ (hdr_ v).
Proof.
  intros H Hv. destruct (H _ _ Hv) as (b & Hv' & _).
  eexists. split; [done|]. done.
Qed.

Lemma marks_only_marked c c' q :
  marks_only c c' -> marked_at q c -> marked_at q c'.
Proof.
  intros H (v & Hv & Hm). destruct (H _ _ Hv) as (b & Hv' & Hb).
  eexists. split; [done|]. simpl. auto.
Qed.

Lemma elem_of_two (q a d : ptr) : q ∈ [a; d] -> q = a \/ q = d.
Proof.
  intros [->|[->|H]%elem_of_cons]%elem_of_cons; auto.
  by apply not_elem_of_nil in H.
Qed.

Lemma elem_of_none (q : ptr) : q ∈ @nil ptr -> False.
Proof. apply not_elem_of_nil. Qed.

(** ** The marked cells are closed under references *)

(** Every marked cell outside of [S] refers to marked cells only. *)
Definition closed (S : ptr -> Prop) (c : Context) : Prop :=
  forall p v, value_pool_data c !! p = Some v ->
    mark_bit_ (hdr_ v) = true -> ~ S p ->
    forall q, q ∈ refs v -> marked_at q c.

Lemma closed_weaken (S T : ptr -> Prop) c :
  (forall p, S p -> T p) -> closed S c -> closed T c.
Proof. intros HST H p v Hv Hm HT. apply (H p v Hv Hm). auto. Qed.

(** Setting the mark bit of a cell whose references are marked, or which
    is in [S]. *)
Lemma closed_write_mark_bit (S : ptr -> Prop) p c c' :
  write_mark_bit p true c = Ok tt c' ->
  closed S c ->
  (S p \/ forall v, value_pool_data c !! p = Some v ->
                    forall q, q ∈ refs v -> marked_at q c) ->
  closed S c'.
Proof.
  intros Hw Hc Hp p' v' Hv' Hm' HS q Hq.
  pose proof (marks_only_write_mark_bit p _ _ _ Hw) as Hmono.
  apply (marks_only_marked _ _ _ Hmono).
  apply write_mark_bit_Ok in Hw as (v & Hv & ->). simpl in Hv'.
  destruct (decide (p' = p)) as [->|Hne].
  - rewrite lookup_insert_eq in Hv'. simplify_eq.
    destruct Hp as [|Hp]; [done|]. by apply (Hp v).
  - rewrite lookup_insert_ne in Hv' by done. by apply (Hc p' v').
Qed.

Section mark_closed.
Variable rec : ptr -> M unit.
Hypothesis rec_closed : forall (S : ptr -> Prop) p c c',
  rec p c = Ok tt c' -> closed S c -> closed S c'.
Hypothesis rec_marks : forall p c c', rec p c = Ok tt c' -> marked_at p c'.
Hypothesis rec_only : forall p, respects marks_only (rec p).

Lemma cons_car_Some p c a c' :
  cons_car p c = Ok a c' ->
  c' = c /\ exists v d, value_pool_data c !! p = Some v
                        /\ payload v = P_cons a d.
Proof.
  unfold cons_car, bind, deref. destruct (_ !! _) as [v|]; [|done].
  destruct (payload v) eqn:Hp; try done. intros [= <- <-]. eauto.
Qed.

Lemma cons_cdr_Some p c d c' :
  cons_cdr p c = Ok d c' ->
  c' = c /\ exists v a, value_pool_data c !! p = Some v
                        /\ payload v = P_cons a d.
Proof.
  unfold cons_cdr, bind, deref. destruct (_ !! _) as [v|]; [|done].
  destruct (payload v) eqn:Hp; try done. intros [= <- <-]. eauto.
Qed.

Lemma type_Some p c t c' :
  type p c = Ok t c' ->
  c' = c /\ exists v, value_pool_data c !! p = Some v /\ type_ (hdr_ v) = t.
Proof.
  unfold type, bind, deref. destruct (_ !! _) as [v|]; [|done].
  intros [= <- <-]. eauto.
Qed.

Lemma cons_car_val c p v a d :
  value_pool_data c !! p = Some v -> payload v = P_cons a d ->
  cons_car p c = Ok a c.
Proof. intros Hv Hp. unfold cons_car, bind, deref. by rewrite Hv, Hp. Qed.

Lemma cons_cdr_val c p v a d :
  value_pool_data c !! p = Some v -> payload v = P_cons a d ->
  cons_cdr p c = Ok d c.
Proof. intros Hv Hp. unfold cons_cdr, bind, deref. by rewrite Hv, Hp. Qed.

(** The pair [current] of the chain: both cells it refers to are marked
    when the loop is over. *)
Lemma gc_mark_cons_chain_closed n : forall (S : ptr -> Prop) current c c',
  gc_mark_cons_chain rec n current c = Ok tt c' ->
  closed S c ->
  closed S c' /\
  exists v a d, value_pool_data c !! current = Some v /\
                payload v = P_cons a d /\
                marked_at a c' /\ marked_at d c'.
Proof.
  induction n as [|n IH]; intros S current c c' H Hc; simpl in H; [done|].
  apply bind_Ok in H as (d & ? & [-> (v & a & Hv & Hpl)]%cons_cdr_Some & H).
  apply bind_Ok in H as (t & ? & [-> (vd & Hvd & Ht)]%type_Some & H).
  destruct (decide (t = VType.cons)) as [->|Hne].
  - rewrite (bind_eq _ _ _ _ _ (cons_car_val _ _ _ _ _ Hv Hpl)) in H.
    apply bind_Ok in H as ([] & c1 & Ha & H).
    pose proof (rec_only _ _ _ _ Ha) as Ho1.
    destruct (marks_only_refs _ _ _ _ Ho1 Hv) as (v1 & Hv1 & _ & Hpl1 & _).
    rewrite Hpl in Hpl1.
    rewrite (bind_eq _ _ _ _ _ (cons_cdr_val _ _ _ _ _ Hv1 Hpl1)) in H.
    apply bind_Ok in H as ([] & c2 & Hw & H).
    pose proof (marks_only_write_mark_bit _ _ _ _ Hw) as Ho2.
    destruct (marks_only_refs _ _ _ _ Ho1 Hvd)
      as (vd1 & Hvd1 & _ & Hpd1 & Htd1 & _).
    destruct (marks_only_refs _ _ _ _ Ho2 Hvd1)
      as (vd2 & Hvd2 & _ & Hpd2 & Htd2 & _).
    destruct (IH (fun x => S x \/ x = d) d c2 c' H)
      as (Hc' & v2 & a2 & d2 & Hv2 & Hpl2 & Ha2 & Hd2).
    { eapply closed_write_mark_bit; [done| |left; by right].
      eapply closed_weaken; [|by eapply rec_closed]. auto. }
    rewrite Hvd2 in Hv2. injection Hv2 as <-.
    assert (marks_only c2 c') as Ho3.
    { by eapply (respects_gc_mark_cons_chain marks_only
                   marks_only_write_mark_bit); [apply rec_only|]. }
    split.
    + intros p' v' Hv' Hm' HS q Hq.
      destruct (decide (p' = d)) as [->|Hned].
      * destruct (marks_only_refs _ _ _ _ Ho3 Hvd2)
          as (vd3 & Hvd3 & _ & Hpd3 & Htd3 & _).
        rewrite Hvd3 in Hv'. injection Hv' as <-. unfold refs in Hq.
        rewrite Htd3, Htd2, Htd1, Ht, Hpd3, Hpl2 in Hq.
        apply elem_of_two in Hq as [->| ->]; done.
      * apply (Hc' p' v' Hv' Hm'); [|done]. intros [?|?]; done.
    + exists v, a, d. split; [done|]. split; [done|]. split.
      * apply (marks_only_marked _ _ _ Ho3).
        apply (marks_only_marked _ _ _ Ho2). by eapply rec_marks.
      * apply (marks_only_marked _ _ _ Ho3).
        by eapply write_mark_bit_marks.
  - rewrite (bind_eq _ _ _ _ _ (cons_car_val _ _ _ _ _ Hv Hpl)) in H.
    apply bind_Ok in H as ([] & c1 & Ha & H).
    pose proof (rec_only _ _ _ _ Ha) as Ho1.
    destruct (marks_only_refs _ _ _ _ Ho1 Hv) as (v1 & Hv1 & _ & Hpl1 & _).
    rewrite Hpl in Hpl1.
    rewrite (bind_eq _ _ _ _ _ (cons_cdr_val _ _ _ _ _ Hv1 Hpl1)) in H.
    pose proof (rec_only _ _ _ _ H) as Ho2.
    split; [by eapply rec_closed, rec_closed|].
    exists v, a, d. split; [done|]. split; [done|]. split.
    + apply (marks_only_marked _ _ _ Ho2). by eapply rec_marks.
    + by eapply rec_marks.
Qed.
End mark_closed.

Lemma gc_mark_value_closed depth : forall (S : ptr -> Prop) p c c',
  gc_mark_value depth p c = Ok tt c' -> closed S c -> closed S c'.
Proof.
  induction depth as [|depth IH]; intros S p c c' H Hc;
    cbn [gc_mark_value] in H; [done|].
  apply bind_Ok in H as (v & c0 & Hd & H). unfold deref in Hd.
  destruct (value_pool_data c !! p) eqn:Hv; [|done]. injection Hd as -> <-.
  destruct (mark_bit_ (hdr_ v)) eqn:Hm.
  { by apply ret_Ok in H as [_ <-]. }
  apply bind_Ok in H as ([] & c1 & Hbody & Hw).
  assert (closed S c1 /\ marks_only c c1 /\
          forall q, q ∈ refs v -> marked_at q c1) as (Hc1 & Ho1 & Hrefs).
  { unfold refs. destruct (type_ (hdr_ v)) eqn:Ht;
      try (apply ret_Ok in Hbody as [_ <-]; split; [done|];
           split; [done|]; by intros q ?%elem_of_none).
    - (* cons *)
      apply bind_Ok in Hbody
          as (d & ? & [-> (v0 & a & Hv' & Hpl)]%cons_cdr_Some & Hbody).
      rewrite Hv in Hv'. injection Hv' as <-. rewrite Hpl.
      apply bind_Ok in Hbody as (t & ? & [-> _]%type_Some & Hbody).
      destruct (decide (t = VType.cons)) as [->|Hne].
      + destruct (gc_mark_cons_chain_closed (gc_mark_value depth) IH
                    (fun p c c' H => gc_mark_value_marks _ _ _ _ H)
                    (marks_only_gc_mark_value depth) _ S p c c1 Hbody Hc)
          as (Hc1 & v1 & a1 & d1 & Hv1 & Hpl1 & Ha1 & Hd1).
        rewrite Hv in Hv1. injection Hv1 as <-.
        rewrite Hpl in Hpl1. injection Hpl1 as <- <-.
        split; [done|]. split.
        * eapply (respects_gc_mark_cons_chain marks_only
                    marks_only_write_mark_bit);
            [apply marks_only_gc_mark_value|done].
        * by intros q [->| ->]%elem_of_two.
      + rewrite (bind_eq _ _ _ _ _ (cons_car_val _ _ _ _ _ Hv Hpl)) in Hbody.
        apply bind_Ok in Hbody as ([] & c2 & Ha & Hbody).
        pose proof (marks_only_gc_mark_value _ _ _ _ _ Ha) as Ho2.
        destruct (marks_only_refs _ _ _ _ Ho2 Hv) as (v2 & Hv2 & _ & Hpl2 & _).
        rewrite Hpl in Hpl2.
        rewrite (bind_eq _ _ _ _ _ (cons_cdr_val _ _ _ _ _ Hv2 Hpl2)) in Hbody.
        pose proof (marks_only_gc_mark_value _ _ _ _ _ Hbody) as Ho3.
        split; [by eapply IH, IH|]. split; [by etrans|].
        intros q [->| ->]%elem_of_two.
        * apply (marks_only_marked _ _ _ Ho3).
          by eapply gc_mark_value_marks.
        * by eapply gc_mark_value_marks.
    - (* function *)
      destruct (decide (mode_bits_ (hdr_ v) = ModeBits.lisp_function))
        as [Hmode|Hmode].
      + rewrite decide_True by by left.
        apply bind_Ok in Hbody as ([code bindings] & c2 & Hf & Hbody).
        unfold function_refs, bind, deref in Hf. rewrite Hv in Hf.
        apply bind_Ok in Hbody as ([] & c3 & Ha & Hbody).
        pose proof (marks_only_gc_mark_value _ _ _ _ _ Ha) as Ho2.
        pose proof (marks_only_gc_mark_value _ _ _ _ _ Hbody) as Ho3.
        assert (c2 = c /\ forall q, q ∈ match payload v with
                            | P_lisp_impl a b | P_bytecode_impl a b => [a; b]
                            | _ => []
                            end -> q = code \/ q = bindings) as [-> Hq].
        { destruct (payload v); try done; injection Hf as <- <- <-;
            (split; [done|]); intros q [->| ->]%elem_of_two; auto. }
        split; [by eapply IH, IH|]. split; [by etrans|].
        intros q [->| ->]%Hq.
        * apply (marks_only_marked _ _ _ Ho3).
          by eapply gc_mark_value_marks.
        * by eapply gc_mark_value_marks.
      + destruct (decide (mode_bits_ (hdr_ v)
                          = ModeBits.lisp_bytecode_function)) as [Hmode'|Hmode'].
        * rewrite decide_True by by right.
          apply bind_Ok in Hbody as ([code bindings] & c2 & Hf & Hbody).
          unfold function_refs, bind, deref in Hf. rewrite Hv in Hf.
          apply bind_Ok in Hbody as ([] & c3 & Ha & Hbody).
          pose proof (marks_only_gc_mark_value _ _ _ _ _ Ha) as Ho2.
          pose proof (marks_only_gc_mark_value _ _ _ _ _ Hbody) as Ho3.
          assert (c2 = c /\ forall q, q ∈ match payload v with
                              | P_lisp_impl a b | P_bytecode_impl a b => [a; b]
                              | _ => []
                              end -> q = code \/ q = bindings) as [-> Hq].
          { destruct (payload v); try done; injection Hf as <- <- <-;
              (split; [done|]); intros q [->| ->]%elem_of_two; auto. }
          split; [by eapply IH, IH|]. split; [by etrans|].
          intros q [->| ->]%Hq.
          -- apply (marks_only_marked _ _ _ Ho3).
             by eapply gc_mark_value_marks.
          -- by eapply gc_mark_value_marks.
        * rewrite decide_False by (intros [?|?]; done).
          apply ret_Ok in Hbody as [_ <-]. split; [done|]. split; [done|].
          by intros q ?%elem_of_none.
    - (* error *)
      apply bind_Ok in Hbody as (x & c2 & Hx & Hbody).
      unfold error_context, bind, deref in Hx. rewrite Hv in Hx.
      destruct (payload v); try done. injection Hx as <- <-.
      split; [by eapply IH|].
      split; [by eapply marks_only_gc_mark_value|].
      intros q ->%list_elem_of_singleton. by eapply gc_mark_value_marks.
    - (* string *)
      destruct (payload v); try done.
      split; [by eapply IH|].
      split; [by eapply marks_only_gc_mark_value|].
      intros q ->%list_elem_of_singleton. by eapply gc_mark_value_marks. }
  eapply closed_write_mark_bit; [done..|]. right. intros v1 Hv1 q Hq.
  destruct (marks_only_refs _ _ _ _ Ho1 Hv) as (v1' & Hv1' & Hr & _).
  simplify_eq. rewrite Hr in Hq. auto.
Qed.

(** The loop of [gc_mark] over the operand stack. *)
Lemma for_each_mark_closed depth (l : list ptr) : forall c c',
  for_each l (gc_mark_value depth) c = Ok tt c' ->
  closed (fun _ => False) c ->
  closed (fun _ => False) c' /\ marks_only c c' /\
  forall p, p ∈ l -> marked_at p c'.
Proof.
  induction l as [|x l IH]; intros c c' H Hc; simpl in H.
  - apply ret_Ok in H as [_ <-]. split; [done|]. split; [done|].
    by intros p ?%elem_of_none.
  - apply bind_Ok in H as ([] & c1 & Hx & H).
    pose proof (marks_only_gc_mark_value _ _ _ _ _ Hx) as Ho1.
    destruct (IH _ _ H) as (Hc' & Ho2 & Hl);
      [by eapply gc_mark_value_closed|].
    split; [done|]. split; [by etrans|].
    intros p [->|Hp]%elem_of_cons; [|by auto].
    apply (marks_only_marked _ _ _ Ho2). by eapply gc_mark_value_marks.
Qed.

Lemma unmarked_closed S c : unmarked c -> closed S c.
Proof. intros H p v Hv Hm. rewrite (H _ _ Hv) in Hm. done. Qed.

(** In a closed state, what a marked cell reaches is marked. *)
Lemma closed_reaches c c' p q :
  marks_only c c' -> closed (fun _ => False) c' ->
  reaches c p q -> marked_at p c' -> marked_at q c'.
Proof.
  intros Ho Hc. induction 1 as [p|p v q r Hv Hq _ IH]; [done|].
  intros (v' & Hv' & Hm). apply IH.
  destruct (marks_only_refs _ _ _ _ Ho Hv) as (v1 & Hv1 & Hr & _).
  simplify_eq. apply (Hc p v' Hv' Hm); [tauto|]. by rewrite Hr.
Qed.

(** ** The rest of the mark phase and the sweep *)

(** Across the walk of the globals tree, cells keep their headers, but for
    mark bits that are set, and their payloads, but for cdr fields. *)
Definition marking (c c' : Context) : Prop :=
  forall q v, value_pool_data c !! q = Some v ->
    exists v', value_pool_data c' !! q = Some v' /\ kept v v' /\
               (mark_bit_ (hdr_ v) = true -> mark_bit_ (hdr_ v') = true).

Lemma kept_refl v : kept v v.
Proof. repeat split. destruct (payload v); eauto. Qed.

Lemma kept_trans v1 v2 v3 : kept v1 v2 -> kept v2 v3 -> kept v1 v3.
Proof.
  intros (Ht & Ha & Hm & Hp) (Ht' & Ha' & Hm' & Hp').
  split; [congruence|]. split; [congruence|]. split; [congruence|].
  destruct (payload v1); try (by rewrite Hp in Hp').
  destruct Hp as (d & Hp). by rewrite Hp in Hp'.
Qed.

#[global] Instance marking_preorder : PreOrder marking.
Proof.
  split.
  - intros c q v Hv. exists v. split; [done|]. split; [apply kept_refl|done].
  - intros x y z H1 H2 q v Hv.
    destruct (H1 _ _ Hv) as (v1 & Hv1 & Hk1 & Hm1).
    destruct (H2 _ _ Hv1) as (v2 & Hv2 & Hk2 & Hm2).
    exists v2. split; [done|]. split; [by eapply kept_trans|auto].
Qed.

Lemma marks_only_marking c c' : marks_only c c' -> marking c c'.
Proof.
  intros H q v Hv. destruct (H _ _ Hv) as (b & Hv' & Hb).
  eexists. split; [done|]. split; [|done].
  repeat split. simpl. destruct (payload v); eauto.
Qed.

Lemma marking_write_mark_bit p : respects marking (write_mark_bit p true).
Proof.
  intros c [] c' H. by eapply marks_only_marking, marks_only_write_mark_bit.
Qed.

Lemma marking_set_cdr p x : respects marking (set_cdr p x).
Proof.
  intros c [] c' H. unfold set_cdr in H.
  apply bind_Ok in H as (v & c0 & Hd & H). unfold deref in Hd.
  destruct (value_pool_data c !! p) eqn:Hv; [|done]. injection Hd as -> <-.
  destruct (payload v) eqn:Hpl; try done.
  unfold store, modify in H. simplify_eq. intros q w Hq. simpl.
  destruct (decide (q = p)) as [->|Hne].
  - rewrite lookup_insert_eq. simplify_eq. eexists. split; [done|].
    split; [|done]. repeat split. rewrite Hpl. simpl. eauto.
  - rewrite lookup_insert_ne by done. exists w. split; [done|].
    split; [apply kept_refl|done].
Qed.

Lemma marking_rest c c' :
  (do tree <- gets globals_tree_ ;;
   run globals_tree_traverse gc_traverse_fuel tree
         (fun car node =>
            run write_mark_bit node true ;;
            do d <- cons_cdr node ;;
            run write_mark_bit d true ;;
            gc_mark_value gc_mark_depth car) ;;
   do this <- gets this_ ;;
   run gc_mark_value gc_mark_depth this ;;
   do p_list <- gets __protected_values ;;
   do objs <- gets protected_objects ;;
   gc_mark_protected (S (length objs)) p_list) c = Ok tt c' ->
  marking c c'.
Proof.
  intros H.
  match type of H with
  | ?m _ = _ => assert (respects marking m) as Hrest
  end.
  { pose proof (respects_gc_mark_value marking marking_write_mark_bit) as Hv.
    respects_tac; auto.
    - apply respects_globals_tree_traverse;
        auto using marking_set_cdr with typeclass_instances.
      intros. respects_tac; auto using marking_write_mark_bit.
      respects_reader.
    - apply respects_gc_mark_protected; [apply _|].
      apply marking_write_mark_bit. }
  by eapply Hrest.
Qed.

(** The mark phase marks what the roots reach. *)
Lemma gc_mark_reaches c c' root q :
  gc_mark c = Ok tt c' ->
  unmarked c -> gc_root c root -> reaches c root q ->
  marking c c' /\ (is_Some (value_pool_data c !! q) -> marked_at q c').
Proof.
  unfold gc_mark. intros H Hu Hroot Hreach.
  pose proof (fun d p => respects_gc_mark_value gc_frame
                (fun p => respects_write_mark_bit gc_frame p true) d p)
    as Hframe.
  apply bind_Ok in H as (nil & ? & [<- <-]%gets_Ok & H).
  apply bind_Ok in H as ([] & c1 & H1 & H).
  apply bind_Ok in H as (oom & ? & [<- <-]%gets_Ok & H).
  apply bind_Ok in H as ([] & c2 & H2 & H).
  apply bind_Ok in H as (bindings & ? & [<- <-]%gets_Ok & H).
  apply bind_Ok in H as ([] & c3 & H3 & H).
  apply bind_Ok in H as (macros & ? & [<- <-]%gets_Ok & H).
  apply bind_Ok in H as ([] & c4 & H4 & H).
  apply bind_Ok in H as (stack & ? & [<- <-]%gets_Ok & H).
  apply bind_Ok in H as ([] & c5 & H5 & H).
  pose proof (Hframe _ _ _ _ _ H1) as F1.
  pose proof (Hframe _ _ _ _ _ H2) as F2.
  pose proof (Hframe _ _ _ _ _ H3) as F3.
  pose proof (Hframe _ _ _ _ _ H4) as F4.
  assert (gc_frame c c1 /\ gc_frame c c2 /\ gc_frame c c3 /\ gc_frame c c4)
    as (G1 & G2 & G3 & G4).
  { split; [done|]. split; [by etrans|].
    split; (etrans; [|done]); etrans; try done; by etrans. }
  assert (oom_ c1 = oom_ c /\ lexical_bindings_ c2 = lexical_bindings_ c
          /\ macros_ c3 = macros_ c /\ operand_stack_ c4 = operand_stack_ c)
    as (E1 & E2 & E3 & E4).
  { unfold gc_frame, roots_of in *. repeat split; congruence. }
  rewrite E1 in H2. rewrite E2 in H3. rewrite E3 in H4. rewrite E4 in H5.
  pose proof (marks_only_gc_mark_value _ _ _ _ _ H1) as O1.
  pose proof (marks_only_gc_mark_value _ _ _ _ _ H2) as O2.
  pose proof (marks_only_gc_mark_value _ _ _ _ _ H3) as O3.
  pose proof (marks_only_gc_mark_value _ _ _ _ _ H4) as O4.
  destruct (for_each_mark_closed _ _ _ _ H5) as (C5 & O5 & M5).
  { eapply gc_mark_value_closed; [done|].
    eapply gc_mark_value_closed; [done|].
    eapply gc_mark_value_closed; [done|].
    eapply gc_mark_value_closed; [done|]. by apply unmarked_closed. }
  assert (marks_only c c5) as O.
  { etrans; [done|]. etrans; [done|]. etrans; [done|]. by etrans. }
  assert (marked_at root c5) as Hm.
  { destruct Hroot as [->|[->|[->|[->|Hin]]]].
    - apply (marks_only_marked _ _ _ O5), (marks_only_marked _ _ _ O4),
        (marks_only_marked _ _ _ O3), (marks_only_marked _ _ _ O2).
      by eapply gc_mark_value_marks.
    - apply (marks_only_marked _ _ _ O5), (marks_only_marked _ _ _ O4),
        (marks_only_marked _ _ _ O3). by eapply gc_mark_value_marks.
    - apply (marks_only_marked _ _ _ O5), (marks_only_marked _ _ _ O4).
      by eapply gc_mark_value_marks.
    - apply (marks_only_marked _ _ _ O5). by eapply gc_mark_value_marks.
    - apply M5. by apply elem_of_reverse. }
  pose proof (closed_reaches _ _ _ _ O C5 Hreach Hm) as Hq.
  pose proof (marking_rest _ _ H) as R.
  split.
  - etrans; [by apply marks_only_marking|done].
  - intros _. destruct Hq as (v5 & Hv5 & Hm5).
    destruct (R _ _ Hv5) as (v6 & Hv6 & _ & Hm6). exists v6. auto.
Qed.

(** The sweep keeps the cells that are alive and marked, and clears their
    mark bits. *)
Lemma gc_sweep_cell_other q i :
  i <> q -> respects (same_cell q) (gc_sweep_cell i).
Proof. apply same_cell_gc_sweep_cell. Qed.

Lemma gc_sweep_loop_keeps q v indices : forall k n c c',
  NoDup indices ->
  gc_sweep_loop indices k c = Ok n c' ->
  value_pool_data c !! q = Some v ->
  alive_ (hdr_ v) = true -> mark_bit_ (hdr_ v) = true ->
  value_pool_data c' !! q
  = Some (if bool_decide (q ∈ indices)
          then mkValue (set_mark_bit_ false (hdr_ v)) (payload v) else v).
Proof.
  induction indices as [|i indices IH]; intros k n c c' Hnd H Hv Ha Hm;
    simpl in H.
  - apply ret_Ok in H as [_ <-]. by rewrite bool_decide_eq_false_2
      by apply not_elem_of_nil.
  - apply NoDup_cons in Hnd as [Hi Hnd].
    apply bind_Ok in H as (m & c1 & Hcell & H).
    destruct (decide (i = q)) as [->|Hne].
    + rewrite bool_decide_eq_true_2 by by left.
      unfold gc_sweep_cell in Hcell.
      apply bind_Ok in Hcell as (w & c0 & Hd & Hcell). unfold deref in Hd.
      rewrite Hv in Hd. injection Hd as <- <-. rewrite Ha, Hm in Hcell.
      apply bind_Ok in Hcell as ([] & c2 & Hw & Hcell).
      apply ret_Ok in Hcell as [_ <-].
      apply write_mark_bit_Ok in Hw as (w & Hw & ->). simplify_eq.
      assert (forall l k n c c',
                q ∉ l -> gc_sweep_loop l k c = Ok n c' ->
                value_pool_data c' !! q = value_pool_data c !! q) as Hrest.
      { clear. induction l as [|i l IH]; intros k n c c' Hq H; simpl in H.
        - by apply ret_Ok in H as [_ <-].
        - apply bind_Ok in H as (m & c1 & Hcell & H).
          apply not_elem_of_cons in Hq as [Hne Hq].
          rewrite (IH _ _ _ _ Hq H).
          by apply (same_cell_gc_sweep_cell q i) in Hcell. }
      rewrite (Hrest _ _ _ _ _ Hi H). simpl. by rewrite lookup_insert_eq.
    + pose proof (same_cell_gc_sweep_cell q i Hne _ _ _ Hcell) as Hsame.
      unfold same_cell in Hsame.
      rewrite (IH _ _ _ _ Hnd H) by (by rewrite ?Hsame).
      f_equal. rewrite (bool_decide_ext (q ∈ i :: indices) (q ∈ indices));
        [done|]. rewrite elem_of_cons. split; [|by right].
      by intros [->|?].
Qed.

Lemma gc_sweep_keeps q v n c c' :
  gc_sweep c = Ok n c' ->
  value_pool_data c !! q = Some v ->
  alive_ (hdr_ v) = true -> mark_bit_ (hdr_ v) = true ->
  N.to_nat q < VALUE_POOL_SIZE ->
  value_pool_data c' !! q
  = Some (mkValue (set_mark_bit_ false (hdr_ v)) (payload v)).
Proof.
  unfold gc_sweep. intros H Hq Ha Hm Hlt.
  apply bind_Ok in H as (sb & c0 & [<- <-]%gets_Ok & H).
  apply bind_Ok in H as (v0 & c0 & Hd & H). unfold deref in Hd.
  destruct (_ !! _) eqn:Hv; [|done]. injection Hd as -> <-.
  apply bind_Ok in H as ([] & c1 & Hsb & H).
  assert (value_pool_data c1 = value_pool_data c) as Hpool.
  { destruct (mark_bit_ (hdr_ v0)).
    - by apply ret_Ok in Hsb as [_ <-].
    - apply bind_Ok in Hsb as (nil & c2 & [<- <-]%gets_Ok & Hsb).
      unfold modify in Hsb. by simplify_eq. }
  rewrite (gc_sweep_loop_keeps q v _ _ _ _ _ (NoDup_pool_indices _ _) H)
    by (by rewrite ?Hpool).
  rewrite bool_decide_eq_true_2; [done|].
  apply elem_of_pool_indices. simpl. lia.
Qed.

Lemma reaches_pool c c1 p q :
  value_pool_data c1 = value_pool_data c -> reaches c p q -> reaches c1 p q.
Proof.
  intros Hp. induction 1 as [p|p v q r Hv Hq _ IH]; [constructor|].
  eapply reaches_ref; [|done..]. by rewrite Hp.
Qed.

(** A pass of the collector keeps every cell that is alive and that one
    of the roots marked before the globals tree reaches: nil, the
    out-of-memory sentinel, the lexical bindings, the macros and the
    operand stack.  The cell is alive after the pass, with its mark bit
    clear, its type and its mode bits, and its payload, but for the cdr of a
    pair, to which the walk over the globals tree may have written. *)
Theorem run_gc_keeps_reachable (c c' : Context) (n : nat) (root q : ptr)
    (v : Value) :
  unmarked c ->
  gc_root c root ->
  reaches c root q ->
  value_pool_data c !! q = Some v ->
  alive_ (hdr_ v) = true ->
  N.to_nat q < VALUE_POOL_SIZE ->
  run_gc c = Ok n c' ->
  exists v',
    value_pool_data c' !! q = Some v' /\
    alive_ (hdr_ v') = true /\ mark_bit_ (hdr_ v') = false /\ kept v v'.
Proof.
  intros Hu Hroot Hreach Hv Ha Hlt H.
  unfold run_gc in H. apply bind_Ok in H as ([] & c1 & H1 & H).
  apply bind_Ok in H as ([] & c2 & H2 & H).
  unfold modify in H1. injection H1 as <-.
  destruct (gc_mark_reaches _ _ root q H2) as (Hmk & Hq);
    [done|done|by apply (reaches_pool c)|].
  destruct Hq as (v2 & Hv2 & Hm2); [by eexists|].
  destruct (Hmk _ _ Hv) as (v2' & Hv2' & Hk & _). simpl in Hv2.
  simplify_eq.
  destruct Hk as (Ht & Ha' & Hmode & Hp).
  eexists. split.
  { eapply gc_sweep_keeps; [done..|congruence|done|done]. }
  simpl. split; [congruence|]. split; [done|]. done.
Qed.

Lemma run_gc_keeps_reachable_witness :
  exists v',
    value_pool_data (result_context (run_gc lists_state)) !! 8778%N = Some v' /\
    alive_ (hdr_ v') = true /\ mark_bit_ (hdr_ v') = false /\
    kept (mkValue (mkHeader VType.integer true false ModeBits.none)
            (P_integer 30)) v'.
Proof.
  refine (run_gc_keeps_reachable lists_state
            (result_context (run_gc lists_state))
            (result_value (run_gc lists_state) 0) 8781%N 8778%N _ _ _ _ _ _ _ _).
  - unfold unmarked. by_compute.
  - do 4 right. by_compute.
  - refine (reaches_ref _ 8781%N
              (mkValue (mkHeader VType.cons true false ModeBits.none)
                 (P_cons 8782%N 8779%N)) 8779%N _ _ _ _);
      [by_compute|by_compute|].
    refine (reaches_ref _ 8779%N
              (mkValue (mkHeader VType.cons true false ModeBits.none)
                 (P_cons 8780%N 8777%N)) 8777%N _ _ _ _);
      [by_compute|by_compute|].
    refine (reaches_ref _ 8777%N
              (mkValue (mkHeader VType.cons true false ModeBits.none)
                 (P_cons 8778%N 8999%N)) 8778%N _ _ _ _);
      [by_compute|by_compute|].
    apply reaches_here.
  - by_compute.
  - reflexivity.
  - by_compute.
  - by_run.
Defined.

(** * Variables in the lexical frames *)

(** [make_cons] with a cell on the free list: the head of the list becomes
    the pair, and the collector does not run. *)
Lemma make_cons_fresh a d c p h next :
  value_pool c = Some p ->
  value_pool_data c !! p = Some (mkValue h (P_heap_node next)) ->
  make_cons a d c
  = Ok p (with_value_pool next
            (with_value_pool_data
               (<[p := mkValue (mkHeader VType.cons true false (mode_bits_ h))
                         (P_cons a d)]> (value_pool_data c)) c)).
Proof.
  intros Hp Hv.
  unfold make_cons, alloc_value, value_pool_alloc, init_val, write_cell,
    bind, deref, store, modify, ret.
  rewrite Hp, Hv. simpl. rewrite Hv. simpl. rewrite lookup_insert_eq. simpl.
  by rewrite insert_insert_eq.
Qed.

Lemma symbol_name_val c p h n :
  value_pool_data c !! p = Some (mkValue h (P_symbol n)) ->
  symbol_name p c = Ok n c.
Proof. intros Hv. unfold symbol_name, bind, deref. by rewrite Hv. Qed.

Lemma symbol_chars_val c p h n name :
  value_pool_data c !! p = Some (mkValue h (P_symbol n)) ->
  c_str_at (interns_ c) n = Some name ->
  symbol_chars p c = Ok name c.
Proof.
  intros Hv Hn. unfold symbol_chars.
  rewrite (bind_eq _ _ _ _ _ (symbol_name_val _ _ _ _ Hv)).
  unfold bind, gets, expect. by rewrite Hn.
Qed.

(** A name that does not start with [$] is not one of the arguments. *)
Lemma get_var_dollar_None c p h n name :
  value_pool_data c !! p = Some (mkValue h (P_symbol n)) ->
  c_str_at (interns_ c) n = Some name ->
  head name <> Some DOLLAR ->
  get_var_dollar p c = Ok None c.
Proof.
  intros Hv Hn Hd. unfold get_var_dollar.
  rewrite (bind_eq _ _ _ _ _ (symbol_chars_val _ _ _ _ _ Hv Hn)).
  destruct name as [|ch rest]; [done|].
  rewrite decide_False; [done|]. intros ->. done.
Qed.

Lemma symbol_name_at_Some c p n :
  symbol_name_at c p = Some n ->
  exists h, value_pool_data c !! p = Some (mkValue h (P_symbol n)).
Proof.
  unfold symbol_name_at. destruct (_ !! _) as [[h []]|]; try done.
  intros [= ->]. eauto.
Qed.

Lemma cons_at_car c p a d : cons_at c p a d -> cons_car p c = Ok a c.
Proof. intros (h & Hv & _). by eapply cons_car_val. Qed.

Lemma cons_at_cdr c p a d : cons_at c p a d -> cons_cdr p c = Ok d c.
Proof. intros (h & Hv & _). by eapply cons_cdr_val. Qed.

Lemma cons_at_not_nil c p a d : nil_ok c -> cons_at c p a d -> p <> nil_ c.
Proof. intros (h & Hn) (h' & Hv & _) ->. rewrite Hn in Hv. done. Qed.

Lemma bind_get_nil {B} (k : ptr -> M B) c : bind get_nil k c = k (nil_ c) c.
Proof. done. Qed.

Lemma bind_gets {A B} (f : Context -> A) (k : A -> M B) c :
  bind (gets f) k c = k (f c) c.
Proof. done. Qed.

Lemma lexical_frame_lookup_first fuel c frame kvp tl sym x n name :
  1 <= fuel -> nil_ok c ->
  cons_at c frame kvp tl ->
  cons_at c kvp sym x ->
  symbol_named c sym n name ->
  lexical_frame_lookup fuel n frame c = Ok (Some kvp) c.
Proof.
  intros Hfuel Hnil Hf Hk [(hs & Hs)%symbol_name_at_Some _].
  destruct fuel as [|fuel]; [lia|]. cbn [lexical_frame_lookup].
  rewrite bind_get_nil.
  rewrite decide_False by by eapply cons_at_not_nil.
  rewrite (bind_eq _ _ _ _ _ (cons_at_car _ _ _ _ Hf)).
  rewrite (bind_eq _ _ _ _ _ (cons_at_car _ _ _ _ Hk)).
  rewrite (bind_eq _ _ _ _ _ (symbol_name_val _ _ _ _ Hs)).
  by rewrite decide_True.
Qed.

(** The binding at the head of the innermost frame is the one that
    [lexical_lookup] finds. *)
Lemma lexical_lookup_first fuel c frame rest kvp tl sym x n name :
  2 <= fuel -> nil_ok c ->
  cons_at c (lexical_bindings_ c) frame rest ->
  cons_at c frame kvp tl ->
  cons_at c kvp sym x ->
  symbol_named c sym n name ->
  lexical_lookup fuel n (lexical_bindings_ c) c = Ok (Some kvp) c.
Proof.
  intros Hfuel Hnil Hb Hf Hk Hs.
  destruct fuel as [|fuel]; [lia|]. cbn [lexical_lookup].
  rewrite bind_get_nil.
  rewrite decide_False by by eapply cons_at_not_nil.
  rewrite (bind_eq _ _ _ _ _ (cons_at_car _ _ _ _ Hb)).
  erewrite (bind_eq (lexical_frame_lookup _ _ _)); cycle 1.
  { eapply lexical_frame_lookup_first; try done. lia. }
  done.
Qed.

Lemma get_var_bound fuel c frame rest kvp tl sym sym' x n name :
  2 <= fuel -> nil_ok c ->
  cons_at c (lexical_bindings_ c) frame rest ->
  cons_at c frame kvp tl ->
  cons_at c kvp sym x ->
  symbol_named c sym n name -> symbol_named c sym' n name ->
  head name <> Some DOLLAR ->
  get_var fuel sym' c = Ok x c.
Proof.
  intros Hfuel Hnil Hb Hf Hk Hs [(hs' & Hs')%symbol_name_at_Some Hn] Hd.
  unfold get_var.
  rewrite (bind_eq _ _ _ _ _ (get_var_dollar_None _ _ _ _ _ Hs' Hn Hd)).
  rewrite (bind_eq _ _ _ _ _ (symbol_name_val _ _ _ _ Hs')).
  rewrite bind_gets, bind_get_nil.
  rewrite decide_True by by eapply cons_at_not_nil.
  rewrite (bind_eq _ _ _ _ _
             (lexical_lookup_first _ _ _ _ _ _ _ _ _ _ Hfuel Hnil Hb Hf Hk Hs)).
  by eapply cons_at_cdr.
Qed.

Lemma set_var_bound fuel c frame rest kvp tl sym sym' x n name v :
  2 <= fuel -> nil_ok c ->
  cons_at c (lexical_bindings_ c) frame rest ->
  cons_at c frame kvp tl ->
  cons_at c kvp sym x ->
  symbol_named c sym n name -> symbol_named c sym' n name ->
  exists h,
    value_pool_data c !! kvp = Some (mkValue h (P_cons sym x)) /\
    type_ h = VType.cons /\
    set_var fuel sym' v c
    = Ok (nil_ c)
        (with_value_pool_data
           (<[kvp := mkValue h (P_cons sym v)]> (value_pool_data c)) c).
Proof.
  intros Hfuel Hnil Hb Hf Hk Hs [(hs' & Hs')%symbol_name_at_Some Hn].
  destruct Hk as (h & Hkv & Hty). exists h. split; [done|]. split; [done|].
  unfold set_var.
  rewrite (bind_eq _ _ _ _ _ (symbol_name_val _ _ _ _ Hs')).
  rewrite bind_gets, bind_get_nil.
  rewrite decide_True by by eapply cons_at_not_nil.
  erewrite (bind_eq (lexical_lookup _ _ _));
    [|eapply lexical_lookup_first; try done; by exists h].
  unfold bind, set_cdr, bind, deref. rewrite Hkv. simpl.
  unfold store, modify, get_nil. done.
Qed.

(** A binding stored in the innermost lexical frame is the value of its
    variable, whatever the frames and the globals hold for the same name;
    and [set_var] on the variable writes to this binding and leaves the
    globals tree alone.  The free list has a cell for the binding, and the
    name does not start with [$]. *)
Theorem lexical_store_get (fuel : nat) (c : Context)
    (kvp sym sym' v frame rest p : ptr) (n : nat) (name : cstring) :
  2 <= fuel -> nil_ok c ->
  cons_at c (lexical_bindings_ c) frame rest ->
  cons_at c kvp sym v -> kvp <> lexical_bindings_ c ->
  symbol_named c sym n name -> symbol_named c sym' n name ->
  head name <> Some DOLLAR ->
  free_head c p ->
  exists c1,
    lexical_frame_store kvp c = Ok tt c1 /\
    get_var fuel sym' c1 = Ok v c1 /\
    forall v2, exists c2,
      set_var fuel sym' v2 c1 = Ok (nil_ c) c2 /\
      globals_tree_ c2 = globals_tree_ c /\
      get_var fuel sym' c2 = Ok v2 c2.
Proof.
  intros Hfuel Hnil Hb Hk Hne Hs Hs' Hd (Hp & h & next & Hpv).
  pose proof Hnil as (hn & Hnv).
  pose proof Hb as (hb & Hbv & Hbt). pose proof Hk as (hk & Hkv & Hkt).
  pose proof Hs as [(hs & Hsv)%symbol_name_at_Some Hsn].
  pose proof Hs' as [(hs' & Hsv')%symbol_name_at_Some _].
  set (b := lexical_bindings_ c) in *.
  assert (p <> b /\ p <> kvp /\ p <> sym /\ p <> sym' /\ p <> nil_ c
          /\ b <> sym /\ b <> sym' /\ b <> nil_ c
          /\ kvp <> sym /\ kvp <> sym' /\ kvp <> nil_ c)
    as (? & ? & ? & ? & ? & ? & ? & ? & ? & ? & ?).
  { repeat split; intros Heq; rewrite Heq in *; congruence. }
  set (cell := mkValue (mkHeader VType.cons true false (mode_bits_ h))
                 (P_cons kvp frame)).
  set (c1 := with_value_pool_data
               (<[b := mkValue hb (P_cons p rest)]>
                  (<[p := cell]> (value_pool_data c)))
               (with_value_pool next c)).
  assert (lexical_frame_store kvp c = Ok tt c1) as Hstore.
  { unfold lexical_frame_store. rewrite bind_gets. fold b.
    rewrite (bind_eq _ _ _ _ _ (cons_at_car _ _ _ _ Hb)).
    rewrite (bind_eq _ _ _ _ _ (make_cons_fresh _ _ _ _ _ _ Hp Hpv)).
    unfold bind, gets, set_car, bind, deref. simpl. fold b.
    rewrite lookup_insert_ne by done. rewrite Hbv. simpl.
    unfold store, modify. done. }
  assert (nil_ok c1) as Hnil1.
  { exists hn. simpl. by rewrite !lookup_insert_ne. }
  assert (cons_at c1 (lexical_bindings_ c1) p rest) as Hb1.
  { exists hb. simpl. fold b. by rewrite lookup_insert_eq. }
  assert (cons_at c1 p kvp frame) as Hf1.
  { eexists. simpl. rewrite lookup_insert_ne by done.
    by rewrite lookup_insert_eq. }
  assert (cons_at c1 kvp sym v) as Hk1.
  { exists hk. simpl. by rewrite !lookup_insert_ne. }
  assert (symbol_named c1 sym n name /\ symbol_named c1 sym' n name)
    as [Hs1 Hs1'].
  { unfold symbol_named, symbol_name_at. simpl.
    rewrite !lookup_insert_ne by done. by rewrite Hsv, Hsv'. }
  exists c1. split; [done|].
  split; [by eapply get_var_bound|].
  intros v2.
  destruct (set_var_bound fuel c1 p rest kvp frame sym sym' v n name v2)
    as (hk1 & Hkv1 & Hkt1 & Hset); try done.
  eexists. split; [exact Hset|]. split; [done|].
  eapply (get_var_bound fuel _ p rest kvp frame sym sym' v2 n name);
    try done.
  - exists hn. simpl. by rewrite !lookup_insert_ne.
  - exists hb. simpl. fold b. rewrite lookup_insert_ne by done.
    by rewrite lookup_insert_eq.
  - eexists. simpl. rewrite !lookup_insert_ne by done.
    by rewrite lookup_insert_eq.
  - exists hk1. simpl. by rewrite lookup_insert_eq.
  - unfold symbol_named, symbol_name_at. simpl.
    rewrite !lookup_insert_ne by done. by rewrite Hsv.
  - unfold symbol_named, symbol_name_at. simpl.
    rewrite !lookup_insert_ne by done. by rewrite Hsv'.
Qed.

Lemma lexical_store_get_witness :
  exists c1,
    lexical_frame_store 8779%N binding_state = Ok tt c1 /\
    get_var 10 8778%N c1 = Ok 8780%N c1 /\
    forall v2, exists c2,
      set_var 10 8778%N v2 c1 = Ok (nil_ binding_state) c2 /\
      globals_tree_ c2 = globals_tree_ binding_state /\
      get_var 10 8778%N c2 = Ok v2 c2.
Proof.
  refine (lexical_store_get 10 binding_state 8779%N 8781%N 8778%N 8780%N
            8999%N 8999%N 8777%N 238 (ascii_of_string "x")
            _ _ _ _ _ _ _ _ _).
  - lia.
  - exists (mkHeader VType.nil true false ModeBits.none). by_compute.
  - exists (mkHeader VType.cons true false ModeBits.none).
    split; by_compute.
  - exists (mkHeader VType.cons true false ModeBits.none).
    split; by_compute.
  - by_compute.
  - split; by_compute.
  - split; by_compute.
  - by_compute.
  - split; [by_compute|].
    exists (mkHeader VType.heap_node false false ModeBits.none),
      (Some 8776%N). by_compute.
Defined.

(** * Global variables *)

(** ** The search and the two loops *)

(** The state [c'] has the cells [cells] and the symbols of [c]. *)
Definition agrees (c c' : Context) (cells : list ptr) : Prop :=
  nil_ c' = nil_ c /\
  (forall q, q ∈ cells -> value_pool_data c' !! q = value_pool_data c !! q) /\
  (forall q n, symbol_name_at c q = Some n -> symbol_name_at c' q = Some n).

Lemma agrees_refl c cells : agrees c c cells.
Proof. done. Qed.

Lemma agrees_tail c c' a cells :
  agrees c c' (a :: cells) -> agrees c c' cells.
Proof.
  intros (Hn & Hc & Hs). split; [done|]. split; [|done].
  intros q Hq. apply Hc. by right.
Qed.

Lemma symbol_name_at_val c p n :
  symbol_name_at c p = Some n -> symbol_name p c = Ok n c.
Proof. intros (h & Hv)%symbol_name_at_Some. by eapply symbol_name_val. Qed.

Lemma cons_car_lookup c p h a d :
  value_pool_data c !! p = Some (mkValue h (P_cons a d)) ->
  cons_car p c = Ok a c.
Proof. intros Hv. by eapply cons_car_val. Qed.

Lemma cons_cdr_lookup c p h a d :
  value_pool_data c !! p = Some (mkValue h (P_cons a d)) ->
  cons_cdr p c = Ok d c.
Proof. intros Hv. by eapply cons_cdr_val. Qed.

(** Unfolds one step of [search_walk] at a node. *)
Lemma search_walk_step fuel c k current prev il cells e :
  search_walk (S fuel) c k current prev il = Some (cells, e) ->
  current <> nil_ c ->
  exists h kvp children hk key x name,
    value_pool_data c !! current = Some (mkValue h (P_cons kvp children)) /\
    value_pool_data c !! kvp = Some (mkValue hk (P_cons key x)) /\
    symbol_name_at c key = Some name /\
    ((name = k /\ cells = [current; kvp] /\ e = Found kvp) \/
     (name <> k /\
      exists hc l r cells',
        value_pool_data c !! children = Some (mkValue hc (P_cons l r)) /\
        search_walk fuel c k (if decide (name < k) then l else r)
          current (bool_decide (name < k)) = Some (cells', e) /\
        cells = current :: kvp :: children :: cells')).
Proof.
  intros H Hne. cbn [search_walk] in H. rewrite decide_False in H by done.
  destruct (value_pool_data c !! current) as [[h []]|] eqn:Hcur; try done.
  destruct (value_pool_data c !! car_) as [[hk []]|] eqn:Hkvp; try done.
  destruct (symbol_name_at c car_0) as [name|] eqn:Hname; [|done].
  exists h, car_, cdr_, hk, car_0, cdr_0, name.
  split; [done|]. split; [done|]. split; [done|].
  destruct (decide (name = k)) as [->|Hk].
  - left. by simplify_eq.
  - right. split; [done|].
    destruct (value_pool_data c !! cdr_) as [[hc []]|] eqn:Hch; try done.
    destruct (search_walk fuel c k _ current _) as [[cells' e']|] eqn:Hw;
      [|done].
    simplify_eq. by exists hc, car_1, cdr_1, cells'.
Qed.

(** [globals_tree_find]'s loop follows the walk. *)
Lemma find_loop_walk fuel : forall c c' k key current prev il cells e,
  search_walk fuel c k current prev il = Some (cells, e) ->
  agrees c c' cells -> symbol_name_at c' key = Some k ->
  match e with
  | Found kvp =>
      exists h a x, value_pool_data c !! kvp = Some (mkValue h (P_cons a x))
                    /\ globals_tree_find_loop fuel key current c'
                       = Ok (Some x) c'
  | Missing _ _ => globals_tree_find_loop fuel key current c' = Ok None c'
  end.
Proof.
  induction fuel as [|fuel IH]; intros c c' k key current prev il cells e
    Hw Ha Hkey; [done|].
  destruct (decide (current = nil_ c)) as [Hnil|Hnil].
  { cbn [search_walk] in Hw. rewrite decide_True in Hw by done.
    simplify_eq. cbn [globals_tree_find_loop]. rewrite bind_get_nil.
    destruct Ha as (-> & _). by rewrite decide_True. }
  destruct (search_walk_step _ _ _ _ _ _ _ _ Hw Hnil)
    as (h & kvp & children & hk & key0 & x & name & Hcur & Hkvp & Hname
        & Hcase).
  pose proof Ha as (Hn & Hc & Hs).
  destruct Hcase as [(-> & -> & ->)|(Hk & hc & l & r & cells' & Hch & Hw' & ->)].
  - exists hk, key0, x. split; [done|].
    cbn [globals_tree_find_loop]. rewrite bind_get_nil, Hn.
    rewrite decide_False by done.
    assert (value_pool_data c' !! current
            = Some (mkValue h (P_cons kvp children))) as Hcur'.
    { rewrite Hc; [done|]. by left. }
    assert (value_pool_data c' !! kvp = Some (mkValue hk (P_cons key0 x)))
      as Hkvp'.
    { rewrite Hc; [done|]. right. by left. }
    rewrite (bind_eq _ _ _ _ _ (cons_car_lookup _ _ _ _ _ Hcur')).
    rewrite (bind_eq _ _ _ _ _ (cons_car_lookup _ _ _ _ _ Hkvp')).
    rewrite (bind_eq _ _ _ _ _ (symbol_name_at_val _ _ _ (Hs _ _ Hname))).
    rewrite (bind_eq _ _ _ _ _ (symbol_name_at_val _ _ _ Hkey)).
    rewrite decide_True by done.
    by rewrite (bind_eq _ _ _ _ _ (cons_cdr_lookup _ _ _ _ _ Hkvp')).
  - assert (value_pool_data c' !! current
            = Some (mkValue h (P_cons kvp children))) as Hcur'.
    { rewrite Hc; [done|]. by left. }
    assert (value_pool_data c' !! kvp = Some (mkValue hk (P_cons key0 x)))
      as Hkvp'.
    { rewrite Hc; [done|]. right. by left. }
    assert (value_pool_data c' !! children
            = Some (mkValue hc (P_cons l r))) as Hch'.
    { rewrite Hc; [done|]. right. right. by left. }
    assert (agrees c c' cells') as Ha'.
    { by do 3 apply agrees_tail in Ha. }
    pose proof (IH _ _ _ key _ _ _ _ _ Hw' Ha' Hkey) as Hrec.
    assert (globals_tree_find_loop (S fuel) key current c'
            = globals_tree_find_loop fuel key
                (if decide (name < k) then l else r) c') as ->; [|done].
    cbn [globals_tree_find_loop]. rewrite bind_get_nil, Hn.
    rewrite decide_False by done.
    rewrite (bind_eq _ _ _ _ _ (cons_car_lookup _ _ _ _ _ Hcur')).
    rewrite (bind_eq _ _ _ _ _ (cons_car_lookup _ _ _ _ _ Hkvp')).
    rewrite (bind_eq _ _ _ _ _ (symbol_name_at_val _ _ _ (Hs _ _ Hname))).
    rewrite (bind_eq _ _ _ _ _ (symbol_name_at_val _ _ _ Hkey)).
    rewrite decide_False by done.
    rewrite (bind_eq _ _ _ _ _ (cons_cdr_lookup _ _ _ _ _ Hcur')).
    destruct (decide (name < k)).
    + by rewrite (bind_eq _ _ _ _ _ (cons_car_lookup _ _ _ _ _ Hch')).
    + by rewrite (bind_eq _ _ _ _ _ (cons_cdr_lookup _ _ _ _ _ Hch')).
Qed.

(** [globals_tree_insert]'s loop follows the walk: it ends where the walk
    ends, and overwrites the value of the binding that it finds. *)
Lemma insert_loop_walk fuel : forall c c0 k key value current prev il cells e,
  search_walk fuel c k current prev il = Some (cells, e) ->
  agrees c c0 cells -> symbol_name_at c0 key = Some k ->
  match e with
  | Found kvp =>
      exists h a x,
        value_pool_data c !! kvp = Some (mkValue h (P_cons a x)) /\
        globals_tree_insert_loop fuel key value current prev il c0
        = Ok None
            (with_value_pool_data
               (<[kvp := mkValue h (P_cons a value)]> (value_pool_data c0))
               c0)
  | Missing last side =>
      globals_tree_insert_loop fuel key value current prev il c0
      = Ok (Some (last, side)) c0
  end.
Proof.
  induction fuel as [|fuel IH];
    intros c c0 k key value current prev il cells e Hw Ha Hkey; [done|].
  destruct (decide (current = nil_ c)) as [Hnil|Hnil].
  { cbn [search_walk] in Hw. rewrite decide_True in Hw by done.
    simplify_eq. cbn [globals_tree_insert_loop]. rewrite bind_get_nil.
    destruct Ha as (-> & _). by rewrite decide_True. }
  destruct (search_walk_step _ _ _ _ _ _ _ _ Hw Hnil)
    as (h & kvp & children & hk & key0 & x & name & Hcur & Hkvp & Hname
        & Hcase).
  pose proof Ha as (Hn & Hc & Hs).
  destruct Hcase as [(-> & -> & ->)|(Hk & hc & l & r & cells' & Hch & Hw' & ->)].
  - exists hk, key0, x. split; [done|].
    cbn [globals_tree_insert_loop]. rewrite bind_get_nil, Hn.
    rewrite decide_False by done.
    assert (value_pool_data c0 !! current
            = Some (mkValue h (P_cons kvp children))) as Hcur'.
    { rewrite Hc; [done|]. by left. }
    assert (value_pool_data c0 !! kvp = Some (mkValue hk (P_cons key0 x)))
      as Hkvp'.
    { rewrite Hc; [done|]. right. by left. }
    rewrite (bind_eq _ _ _ _ _ (cons_car_lookup _ _ _ _ _ Hcur')).
    rewrite (bind_eq _ _ _ _ _ (cons_car_lookup _ _ _ _ _ Hkvp')).
    rewrite (bind_eq _ _ _ _ _ (symbol_name_at_val _ _ _ (Hs _ _ Hname))).
    rewrite (bind_eq _ _ _ _ _ (symbol_name_at_val _ _ _ Hkey)).
    rewrite decide_True by done.
    unfold bind, set_cdr, bind, deref. rewrite Hkvp'. simpl.
    unfold store, modify, ret. done.
  - assert (value_pool_data c0 !! current
            = Some (mkValue h (P_cons kvp children))) as Hcur'.
    { rewrite Hc; [done|]. by left. }
    assert (value_pool_data c0 !! kvp = Some (mkValue hk (P_cons key0 x)))
      as Hkvp'.
    { rewrite Hc; [done|]. right. by left. }
    assert (value_pool_data c0 !! children
            = Some (mkValue hc (P_cons l r))) as Hch'.
    { rewrite Hc; [done|]. right. right. by left. }
    assert (agrees c c0 cells') as Ha'.
    { by do 3 apply agrees_tail in Ha. }
    pose proof (IH _ _ _ key value _ _ _ _ _ Hw' Ha' Hkey) as Hrec.
    assert (globals_tree_insert_loop (S fuel) key value current prev il c0
            = globals_tree_insert_loop fuel key value
                (if decide (name < k) then l else r) current
                (bool_decide (name < k)) c0) as ->; [|done].
    cbn [globals_tree_insert_loop]. rewrite bind_get_nil, Hn.
    rewrite decide_False by done.
    rewrite (bind_eq _ _ _ _ _ (cons_car_lookup _ _ _ _ _ Hcur')).
    rewrite (bind_eq _ _ _ _ _ (cons_car_lookup _ _ _ _ _ Hkvp')).
    rewrite (bind_eq _ _ _ _ _ (symbol_name_at_val _ _ _ (Hs _ _ Hname))).
    rewrite (bind_eq _ _ _ _ _ (symbol_name_at_val _ _ _ Hkey)).
    rewrite decide_False by done.
    rewrite (bind_eq _ _ _ _ _ (cons_cdr_lookup _ _ _ _ _ Hcur')).
    destruct (decide (name < k)).
    + rewrite bool_decide_eq_true_2 by done.
      by rewrite (bind_eq _ _ _ _ _ (cons_car_lookup _ _ _ _ _ Hch')).
    + rewrite bool_decide_eq_false_2 by done.
      by rewrite (bind_eq _ _ _ _ _ (cons_cdr_lookup _ _ _ _ _ Hch')).
Qed.

Lemma search_walk_found_in fuel : forall c k current prev il cells kvp,
  search_walk fuel c k current prev il = Some (cells, Found kvp) ->
  kvp ∈ cells.
Proof.
  induction fuel as [|fuel IH]; intros c k current prev il cells kvp Hw;
    [done|].
  destruct (decide (current = nil_ c)) as [Hnil|Hnil].
  { cbn [search_walk] in Hw. by rewrite decide_True in Hw by done. }
  destruct (search_walk_step _ _ _ _ _ _ _ _ Hw Hnil)
    as (h & kvp0 & children & hk & key0 & x & name & Hcur & Hkvp & Hname
        & [(-> & -> & [= ->])|(Hk & hc & l & r & cells' & Hch & Hw' & ->)]).
  - right. by left.
  - do 3 right. by eapply IH.
Qed.

(** The search after the loop has overwritten the value of the binding. *)
Lemma find_after_overwrite fuel :
  forall c c2 k key value current prev il cells kvpf h a x,
  search_walk fuel c k current prev il = Some (cells, Found kvpf) ->
  NoDup cells ->
  value_pool_data c !! kvpf = Some (mkValue h (P_cons a x)) ->
  nil_ c2 = nil_ c ->
  (forall q, q ∈ cells -> q <> kvpf ->
             value_pool_data c2 !! q = value_pool_data c !! q) ->
  (forall q n, symbol_name_at c q = Some n -> symbol_name_at c2 q = Some n) ->
  value_pool_data c2 !! kvpf = Some (mkValue h (P_cons a value)) ->
  symbol_name_at c2 key = Some k ->
  globals_tree_find_loop fuel key current c2 = Ok (Some value) c2.
Proof.
  induction fuel as [|fuel IH];
    intros c c2 k key value current prev il cells kvpf hf a xf Hw Hnd Hf Hn Hc
      Hs Hf2 Hkey; [done|].
  destruct (decide (current = nil_ c)) as [Hnil|Hnil].
  { cbn [search_walk] in Hw. by rewrite decide_True in Hw by done. }
  destruct (search_walk_step _ _ _ _ _ _ _ _ Hw Hnil)
    as (h & kvp & children & hk & key0 & x & name & Hcur & Hkvp & Hname
        & [(-> & -> & [= ->])|(Hk & hc & l & r & cells' & Hch & Hw' & ->)]).
  - apply NoDup_cons in Hnd as [Hne _].
    assert (current <> kvp) as Hck.
    { intros ->. apply Hne. by left. }
    assert (value_pool_data c2 !! current
            = Some (mkValue h (P_cons kvp children))) as Hcur'.
    { rewrite Hc; [done|by left|done]. }
    rewrite Hf in Hkvp. injection Hkvp as -> -> ->.
    cbn [globals_tree_find_loop]. rewrite bind_get_nil, Hn.
    rewrite decide_False by done.
    rewrite (bind_eq _ _ _ _ _ (cons_car_lookup _ _ _ _ _ Hcur')).
    rewrite (bind_eq _ _ _ _ _ (cons_car_lookup _ _ _ _ _ Hf2)).
    rewrite (bind_eq _ _ _ _ _ (symbol_name_at_val _ _ _ (Hs _ _ Hname))).
    rewrite (bind_eq _ _ _ _ _ (symbol_name_at_val _ _ _ Hkey)).
    rewrite decide_True by done.
    by rewrite (bind_eq _ _ _ _ _ (cons_cdr_lookup _ _ _ _ _ Hf2)).
  - pose proof (search_walk_found_in _ _ _ _ _ _ _ _ Hw') as Hin.
    apply NoDup_cons in Hnd as [Hn1 Hnd].
    apply NoDup_cons in Hnd as [Hn2 Hnd].
    apply NoDup_cons in Hnd as [Hn3 Hnd].
    assert (current <> kvpf /\ kvp <> kvpf /\ children <> kvpf)
      as (? & ? & ?).
    { repeat split; intros ->.
      - apply Hn1. by do 2 right.
      - apply Hn2. by right.
      - done. }
    assert (value_pool_data c2 !! current
            = Some (mkValue h (P_cons kvp children))) as Hcur'.
    { rewrite Hc; [done|by left|done]. }
    assert (value_pool_data c2 !! kvp = Some (mkValue hk (P_cons key0 x)))
      as Hkvp'.
    { rewrite Hc; [done|right; by left|done]. }
    assert (value_pool_data c2 !! children
            = Some (mkValue hc (P_cons l r))) as Hch'.
    { rewrite Hc; [done|right; right; by left|done]. }
    assert (globals_tree_find_loop (S fuel) key current c2
            = globals_tree_find_loop fuel key
                (if decide (name < k) then l else r) c2) as ->.
    { cbn [globals_tree_find_loop]. rewrite bind_get_nil, Hn.
      rewrite decide_False by done.
      rewrite (bind_eq _ _ _ _ _ (cons_car_lookup _ _ _ _ _ Hcur')).
      rewrite (bind_eq _ _ _ _ _ (cons_car_lookup _ _ _ _ _ Hkvp')).
      rewrite (bind_eq _ _ _ _ _ (symbol_name_at_val _ _ _ (Hs _ _ Hname))).
      rewrite (bind_eq _ _ _ _ _ (symbol_name_at_val _ _ _ Hkey)).
      rewrite decide_False by done.
      rewrite (bind_eq _ _ _ _ _ (cons_cdr_lookup _ _ _ _ _ Hcur')).
      destruct (decide (name < k)).
      - by rewrite (bind_eq _ _ _ _ _ (cons_car_lookup _ _ _ _ _ Hch')).
      - by rewrite (bind_eq _ _ _ _ _ (cons_cdr_lookup _ _ _ _ _ Hch')). }
    eapply (IH c c2 k key value _ _ _ cells' kvpf); try done.
    intros q Hq. apply Hc. by do 3 right.
Qed.

(** The search after a new node has been attached where the walk ended. *)
Lemma find_after_attach fuel :
  forall c k current prev il cells last side,
  search_walk fuel c k current prev il = Some (cells, Missing last side) ->
  current <> nil_ c -> NoDup cells ->
  exists hl kvl ch hc l r,
    value_pool_data c !! last = Some (mkValue hl (P_cons kvl ch)) /\
    value_pool_data c !! ch = Some (mkValue hc (P_cons l r)) /\
    ch ∈ cells /\
    forall c2 key value node_new,
      nil_ c2 = nil_ c ->
      (forall q, q ∈ cells -> q <> ch ->
                 value_pool_data c2 !! q = value_pool_data c !! q) ->
      (forall q n, symbol_name_at c q = Some n ->
                   symbol_name_at c2 q = Some n) ->
      value_pool_data c2 !! ch
      = Some (mkValue hc (if side then P_cons node_new r
                          else P_cons l node_new)) ->
      (forall f, 1 <= f ->
                 globals_tree_find_loop f key node_new c2
                 = Ok (Some value) c2) ->
      symbol_name_at c2 key = Some k ->
      globals_tree_find_loop fuel key current c2 = Ok (Some value) c2.
Proof.
  induction fuel as [|fuel IH];
    intros c k current prev il cells last side Hw Hnil Hnd; [done|].
  destruct (search_walk_step _ _ _ _ _ _ _ _ Hw Hnil)
    as (h & kvp & children & hk & key0 & x & name & Hcur & Hkvp & Hname
        & [(_ & _ & [=])|(Hk & hc & l & r & cells' & Hch & Hw' & ->)]).
  apply NoDup_cons in Hnd as [Hn1 Hnd].
  apply NoDup_cons in Hnd as [Hn2 Hnd].
  apply NoDup_cons in Hnd as [Hn3 Hnd].
  assert (current <> children /\ kvp <> children) as [? ?].
  { split; intros ->.
    - apply Hn1. right. by left.
    - apply Hn2. by left. }
  set (next := if decide (name < k) then l else r) in *.
  assert (forall c2 key,
            nil_ c2 = nil_ c ->
            value_pool_data c2 !! current
            = Some (mkValue h (P_cons kvp children)) ->
            value_pool_data c2 !! kvp = Some (mkValue hk (P_cons key0 x)) ->
            (forall q n, symbol_name_at c q = Some n ->
                         symbol_name_at c2 q = Some n) ->
            symbol_name_at c2 key = Some k ->
            globals_tree_find_loop (S fuel) key current c2
            = (do children <- cons_cdr current ;;
               if decide (name < k) then
                 do next <- cons_car children ;;
                 globals_tree_find_loop fuel key next
               else
                 do next <- cons_cdr children ;;
                 globals_tree_find_loop fuel key next) c2) as Hstep.
  { intros c2 key Hn Hcur' Hkvp' Hs Hkey.
    cbn [globals_tree_find_loop]. rewrite bind_get_nil, Hn.
    rewrite decide_False by done.
    rewrite (bind_eq _ _ _ _ _ (cons_car_lookup _ _ _ _ _ Hcur')).
    rewrite (bind_eq _ _ _ _ _ (cons_car_lookup _ _ _ _ _ Hkvp')).
    rewrite (bind_eq _ _ _ _ _ (symbol_name_at_val _ _ _ (Hs _ _ Hname))).
    rewrite (bind_eq _ _ _ _ _ (symbol_name_at_val _ _ _ Hkey)).
    by rewrite decide_False by done. }
  destruct (decide (next = nil_ c)) as [Hnext|Hnext].
  - destruct fuel as [|fuel]; [done|].
    cbn [search_walk] in Hw'. rewrite decide_True in Hw' by done.
    injection Hw' as <- <- <-.
    exists h, kvp, children, hc, l, r.
    split; [done|]. split; [done|]. split; [by do 2 right; left|].
    intros c2 key value node_new Hn Hc Hs Hch2 Hnew Hkey.
    assert (value_pool_data c2 !! current
            = Some (mkValue h (P_cons kvp children))) as Hcur'.
    { rewrite Hc; [done|by left|done]. }
    assert (value_pool_data c2 !! kvp = Some (mkValue hk (P_cons key0 x)))
      as Hkvp'.
    { rewrite Hc; [done|right; by left|done]. }
    rewrite (Hstep c2 key Hn Hcur' Hkvp' Hs Hkey).
    rewrite (bind_eq _ _ _ _ _ (cons_cdr_lookup _ _ _ _ _ Hcur')).
    destruct (decide (name < k)).
    + rewrite bool_decide_eq_true_2 in Hch2 by done.
      rewrite (bind_eq _ _ _ _ _ (cons_car_lookup _ _ _ _ _ Hch2)).
      apply Hnew. lia.
    + rewrite bool_decide_eq_false_2 in Hch2 by done.
      rewrite (bind_eq _ _ _ _ _ (cons_cdr_lookup _ _ _ _ _ Hch2)).
      apply Hnew. lia.
  - destruct (IH _ _ _ _ _ _ _ _ Hw' Hnext Hnd)
      as (hl & kvl & ch & hch & l' & r' & Hlast & Hchv & Hin & Hfind).
    exists hl, kvl, ch, hch, l', r'.
    split; [done|]. split; [done|]. split; [by do 3 right|].
    intros c2 key value node_new Hn Hc Hs Hch2 Hnew Hkey.
    assert (current <> ch /\ kvp <> ch /\ children <> ch) as (? & ? & ?).
    { repeat split; intros ->.
      - apply Hn1. by do 2 right.
      - apply Hn2. by right.
      - done. }
    assert (value_pool_data c2 !! current
            = Some (mkValue h (P_cons kvp children))) as Hcur'.
    { rewrite Hc; [done|by left|done]. }
    assert (value_pool_data c2 !! kvp = Some (mkValue hk (P_cons key0 x)))
      as Hkvp'.
    { rewrite Hc; [done|right; by left|done]. }
    assert (value_pool_data c2 !! children
            = Some (mkValue hc (P_cons l r))) as Hch'.
    { rewrite Hc; [done|right; right; by left|done]. }
    rewrite (Hstep c2 key Hn Hcur' Hkvp' Hs Hkey).
    rewrite (bind_eq _ _ _ _ _ (cons_cdr_lookup _ _ _ _ _ Hcur')).
    assert (globals_tree_find_loop fuel key next c2 = Ok (Some value) c2)
      as Hrec.
    { apply (Hfind c2 key value node_new); try done.
      intros q Hq. apply Hc. by do 3 right. }
    unfold next in Hrec. destruct (decide (name < k)).
    + by rewrite (bind_eq _ _ _ _ _ (cons_car_lookup _ _ _ _ _ Hch')).
    + by rewrite (bind_eq _ _ _ _ _ (cons_cdr_lookup _ _ _ _ _ Hch')).
Qed.

(** ** The protected roots of [globals_tree_insert] *)

Lemma ProtectedBase_ctor_at objs l val c :
  __protected_values c = None -> protected_objects c = objs ++ l ->
  ProtectedBase_ctor val c
  = Ok (length objs + length l)
      (with_protected_objects (objs ++ (l ++ [mkProtected None None val])) c).
Proof.
  intros Hpv Ho. rewrite (ProtectedBase_ctor_None _ _ Hpv), Ho.
  by rewrite length_app, <- app_assoc.
Qed.

Lemma lookup_roots (objs l : list ProtectedBase) i :
  (objs ++ l) !! (length objs + i) = l !! i.
Proof.
  rewrite lookup_app_r by lia. f_equal. lia.
Qed.

Lemma Protected_get_at objs l i o c :
  protected_objects c = objs ++ l -> l !! i = Some o ->
  Protected_get (length objs + i) c = Ok (val_ o) c.
Proof.
  intros Ho Hi. apply Protected_get_Ok. by rewrite Ho, lookup_roots.
Qed.

Lemma Protected_set_at objs l i o v c :
  protected_objects c = objs ++ l -> l !! i = Some o ->
  Protected_set (length objs + i) v c
  = Ok tt (with_protected_objects
             (objs ++ <[i := mkProtected (prev_ o) (next_p o) v]> l) c).
Proof.
  intros Ho Hi. unfold Protected_set. rewrite Ho, lookup_roots, Hi.
  by rewrite insert_app_r.
Qed.

Lemma with_protected_objects_id c :
  with_protected_objects (protected_objects c) c = c.
Proof. by destruct c. Qed.

Lemma ProtectedBase_dtor_at objs l i o c :
  protected_objects c = objs ++ l -> l !! i = Some o ->
  prev_ o = None -> next_p o = None ->
  ProtectedBase_dtor (length objs + i) c = Ok tt c.
Proof.
  intros Ho Hi Hp Hn. unfold ProtectedBase_dtor.
  rewrite Ho, lookup_roots, Hi, Hp, Hn. rewrite <- Ho.
  by rewrite with_protected_objects_id.
Qed.

(** A protected root whose links are null when its scope ends. *)
Lemma with_Protected_at {A} objs l val (body : nat -> M A) c a cX lX o :
  __protected_values c = None -> protected_objects c = objs ++ l ->
  body (length objs + length l)
    (with_protected_objects (objs ++ (l ++ [mkProtected None None val])) c)
  = Ok a cX ->
  protected_objects cX = objs ++ lX -> lX !! length l = Some o ->
  prev_ o = None -> next_p o = None ->
  with_Protected val body c = Ok a cX.
Proof.
  intros Hpv Ho Hbody HX Hl Hp Hn. unfold with_Protected.
  rewrite (bind_eq _ _ _ _ _ (ProtectedBase_ctor_at _ _ _ _ Hpv Ho)).
  rewrite (bind_eq _ _ _ _ _ Hbody).
  by rewrite (bind_eq _ _ _ _ _
                (ProtectedBase_dtor_at _ _ _ _ _ HX Hl Hp Hn)).
Qed.

(** ** A new node *)

Lemma globals_tree_new_node_fresh kv c p1 p2 h1 h2 next :
  value_pool c = Some p1 ->
  value_pool_data c !! p1 = Some (mkValue h1 (P_heap_node (Some p2))) ->
  value_pool_data c !! p2 = Some (mkValue h2 (P_heap_node next)) ->
  p1 <> p2 ->
  length (operand_stack_ c) < OPERAND_STACK_CAPACITY ->
  globals_tree_new_node kv c
  = Ok p2
      (with_value_pool next
         (with_value_pool_data
            (<[p2 := mkValue (mkHeader VType.cons true false (mode_bits_ h2))
                       (P_cons kv p1)]>
               (<[p1 := mkValue (mkHeader VType.cons true false
                                   (mode_bits_ h1))
                          (P_cons (nil_ c) (nil_ c))]>
                  (value_pool_data c))) c)).
Proof.
  intros Hp Hv1 Hv2 Hne Hcap. unfold globals_tree_new_node.
  rewrite bind_get_nil.
  rewrite (bind_eq _ _ _ _ _ (make_cons_fresh _ _ _ _ _ _ Hp Hv1)).
  unfold bind at 1, push_op at 1, modify at 1. simpl.
  rewrite decide_True by done.
  unfold bind at 1, get_op0 at 1. simpl.
  erewrite (bind_eq (make_cons _ _)); cycle 1.
  { apply (make_cons_fresh _ _ _ p2 h2 next); [done|]. simpl.
    by rewrite lookup_insert_ne. }
  done.
Qed.

Lemma search_walk_cells_cons fuel : forall c k current prev il cells e q,
  search_walk fuel c k current prev il = Some (cells, e) -> q ∈ cells ->
  exists h a d, value_pool_data c !! q = Some (mkValue h (P_cons a d)).
Proof.
  induction fuel as [|fuel IH]; intros c k current prev il cells e q Hw Hq;
    [done|].
  destruct (decide (current = nil_ c)) as [Hnil|Hnil].
  { cbn [search_walk] in Hw. rewrite decide_True in Hw by done.
    simplify_eq. by apply not_elem_of_nil in Hq. }
  destruct (search_walk_step _ _ _ _ _ _ _ _ Hw Hnil)
    as (h & kvp & children & hk & key0 & x & name & Hcur & Hkvp & Hname
        & [(_ & -> & _)|(Hk & hc & l & r & cells' & Hch & Hw' & ->)]).
  - apply elem_of_cons in Hq as [->|Hq]; [eauto|].
    apply list_elem_of_singleton in Hq as ->. eauto.
  - apply elem_of_cons in Hq as [->|Hq]; [eauto|].
    apply elem_of_cons in Hq as [->|Hq]; [eauto|].
    apply elem_of_cons in Hq as [->|Hq]; [eauto|].
    by eapply IH.
Qed.

Lemma symbol_name_at_insert c q n p v :
  symbol_name_at c q = Some n ->
  (forall h m, value_pool_data c !! p <> Some (mkValue h (P_symbol m))) ->
  match value_pool_data (with_value_pool_data
                           (<[p := v]> (value_pool_data c)) c) !! q with
  | Some (mkValue _ (P_symbol n')) => Some n'
  | _ => None
  end = Some n.
Proof.
  intros (h & Hq)%symbol_name_at_Some Hp. simpl.
  rewrite lookup_insert_ne; [by rewrite Hq|]. intros ->. by eapply Hp.
Qed.

Ltac insert_frame :=
  lazymatch goal with
  | |- forall q h n, _ -> _ =>
      let Hq := fresh in
      intros ? ? ? Hq; simpl;
      rewrite !lookup_insert_ne; [exact Hq|..]; intros ->; congruence
  | |- forall q v, _ -> _ =>
      let Hq := fresh in
      intros ? ? Hq; simpl;
      repeat lazymatch goal with
        | |- context [<[?p := _]> _ !! ?q] =>
            destruct (decide (q = p)) as [->|];
            [rewrite lookup_insert_eq; eexists; split; [reflexivity|];
             simplify_eq; simpl; first [by right | by left]
            |rewrite lookup_insert_ne by done]
        end;
      eexists; split; [exact Hq|by left]
  end.

(** [globals_tree_insert] of a name and then [globals_tree_find] of the
    name: the value is found, whether the tree was empty, had a binding of
    the name, or had none; the cells that were in use keep their types. *)
Lemma globals_insert_find (fuel : nat) (c : Context)
    (key key' value : ptr) (k : nat) (cells : list ptr) (e : SearchEnd)
    (p0 p1 p2 : ptr) :
  nil_ok c ->
  __protected_values c = None ->
  length (operand_stack_ c) < OPERAND_STACK_CAPACITY ->
  free_three c p0 p1 p2 ->
  symbol_name_at c key = Some k -> symbol_name_at c key' = Some k ->
  search_walk fuel c k (globals_tree_ c) (globals_tree_ c) true
  = Some (cells, e) ->
  NoDup cells ->
  exists c',
    globals_tree_insert fuel key value c = Ok tt c' /\
    globals_tree_find fuel key' c' = Ok value c' /\
    nil_ c' = nil_ c /\ lexical_bindings_ c' = lexical_bindings_ c /\
    interns_ c' = interns_ c /\
    (forall q h n, value_pool_data c !! q = Some (mkValue h (P_symbol n)) ->
                   value_pool_data c' !! q = Some (mkValue h (P_symbol n))) /\
    (forall q v, value_pool_data c !! q = Some v ->
       exists v', value_pool_data c' !! q = Some v' /\
                  (type_ (hdr_ v') = type_ (hdr_ v)
                   \/ type_ (hdr_ v') = VType.cons)).
Proof.
  intros Hnil Hpv Hcap (Hhead & Hnd3 & h0 & h1 & h2 & next & Hv0 & Hv1 & Hv2)
    Hkey Hkey' Hw Hnd.
  apply NoDup_cons in Hnd3 as [Hn0 Hnd3].
  apply NoDup_cons in Hnd3 as [Hn1 _].
  assert (p0 <> p1 /\ p0 <> p2 /\ p1 <> p2) as (? & ? & ?).
  { repeat split; intros ->.
    - apply Hn0. by left.
    - apply Hn0. right. by left.
    - apply Hn1. by left. }
  destruct Hnil as (hn & Hnv).
  pose proof Hkey as (hk & Hkv)%symbol_name_at_Some.
  pose proof Hkey' as (hk' & Hkv')%symbol_name_at_Some.
  assert (forall p, p ∈ [p0; p1; p2] ->
            p <> nil_ c /\ p <> key /\ p <> key' /\ (p ∉ cells) /\
            forall q n, symbol_name_at c q = Some n -> q <> p) as Hfresh.
  { intros p Hp.
    assert (exists h nx, value_pool_data c !! p
                         = Some (mkValue h (P_heap_node nx))) as (h & nx & Hv).
    { apply elem_of_cons in Hp as [->|Hp]; [eauto|].
      apply elem_of_cons in Hp as [->|Hp]; [eauto|].
      apply list_elem_of_singleton in Hp as ->. eauto. }
    repeat split; try (intros ->; congruence).
    - intros Hin.
      destruct (search_walk_cells_cons _ _ _ _ _ _ _ _ _ Hw Hin)
        as (? & ? & ? & Hc). congruence.
    - intros q n (? & Hq)%symbol_name_at_Some ->. congruence. }
  destruct (Hfresh p0) as (? & ? & ? & Hc0 & Hs0); [by left|].
  destruct (Hfresh p1) as (? & ? & ? & Hc1 & Hs1); [right; by left|].
  destruct (Hfresh p2) as (? & ? & ? & Hc2 & Hs2); [do 2 right; by left|].
  unfold globals_tree_insert.
  rewrite (bind_eq _ _ _ _ _ (make_cons_fresh _ _ _ _ _ _ Hhead Hv0)).
  set (objs := protected_objects c).
  set (cell0 := mkValue (mkHeader VType.cons true false (mode_bits_ h0))
                  (P_cons key value)).
  set (cell1 := mkValue (mkHeader VType.cons true false (mode_bits_ h1))
                  (P_cons (nil_ c) (nil_ c))).
  set (cell2 := mkValue (mkHeader VType.cons true false (mode_bits_ h2))
                  (P_cons p0 p1)).
  assert (forall c2,
            nil_ c2 = nil_ c ->
            value_pool_data c2 !! p2 = Some cell2 ->
            value_pool_data c2 !! p0 = Some cell0 ->
            value_pool_data c2 !! key
            = Some (mkValue hk (P_symbol k)) ->
            value_pool_data c2 !! key'
            = Some (mkValue hk' (P_symbol k)) ->
            forall f, 1 <= f ->
              globals_tree_find_loop f key' p2 c2 = Ok (Some value) c2)
    as Hnew.
  { intros c2 Hn2 Hx2 Hx0 Hk2 Hk2' [|f] Hf; [lia|].
    cbn [globals_tree_find_loop]. rewrite bind_get_nil, Hn2.
    rewrite decide_False by done.
    rewrite (bind_eq _ _ _ _ _ (cons_car_lookup _ _ _ _ _ Hx2)).
    rewrite (bind_eq _ _ _ _ _ (cons_car_lookup _ _ _ _ _ Hx0)).
    rewrite (bind_eq _ _ _ _ _ (symbol_name_val _ _ _ _ Hk2)).
    rewrite (bind_eq _ _ _ _ _ (symbol_name_val _ _ _ _ Hk2')).
    rewrite decide_True by done.
    by rewrite (bind_eq _ _ _ _ _ (cons_cdr_lookup _ _ _ _ _ Hx0)). }
  destruct (decide (globals_tree_ c = nil_ c)) as [Htree|Htree].
  - (* the tree is empty *)
    eexists. split; [|split].
    { eapply with_Protected_at with (objs := objs) (l := []); cycle 2.
      - rewrite bind_gets, bind_get_nil. simpl globals_tree_. simpl nil_.
        rewrite decide_True by done.
        erewrite (bind_eq (Protected_get _)); cycle 1.
        { eapply Protected_get_at with (objs := objs) (i := 0);
            [simpl; reflexivity|reflexivity]. }
        simpl val_.
        erewrite (bind_eq (globals_tree_new_node _)); cycle 1.
        { apply (globals_tree_new_node_fresh _ _ p1 p2 h1 h2 next); simpl;
            try done; by rewrite lookup_insert_ne. }
        unfold modify. reflexivity.
      - simpl. reflexivity.
      - reflexivity.
      - done.
      - done.
      - done.
      - simpl. by rewrite app_nil_r. }
    { unfold globals_tree_find. rewrite bind_gets, bind_get_nil. simpl.
      rewrite decide_False by done.
      assert (1 <= fuel) as Hfuel by (destruct fuel; [done|lia]).
      erewrite (bind_eq (globals_tree_find_loop _ _ _)); cycle 1.
      { apply Hnew; simpl; try done.
        + by rewrite lookup_insert_eq.
        + rewrite !lookup_insert_ne by done. by rewrite lookup_insert_eq.
        + by rewrite !lookup_insert_ne by done.
        + by rewrite !lookup_insert_ne by done. }
      done. }
    split; [done|]. split; [done|]. split; [done|]. split; insert_frame.
  - (* the tree has a root *)
    assert (forall c0,
              nil_ c0 = nil_ c ->
              value_pool_data c0 = <[p0:=cell0]> (value_pool_data c) ->
              agrees c c0 cells /\ symbol_name_at c0 key = Some k)
      as Hagree.
    { intros c0 Hn0' Hp0. split; [split; [done|split]|].
      - intros q Hq. rewrite Hp0, lookup_insert_ne; [done|].
        intros ->. done.
      - intros q n Hq. unfold symbol_name_at. rewrite Hp0.
        rewrite lookup_insert_ne; [done|]. intros ->. by eapply Hs0.
      - unfold symbol_name_at. rewrite Hp0, lookup_insert_ne by done.
        by rewrite Hkv. }
    destruct e as [kvpf|last side].
    + (* the name is bound *)
      destruct (insert_loop_walk fuel c c k key value _ _ _ _ _ Hw
                  (agrees_refl _ _) Hkey) as (hf & a & x & Hf & _).
      assert (forall c0,
                nil_ c0 = nil_ c ->
                value_pool_data c0 = <[p0:=cell0]> (value_pool_data c) ->
                globals_tree_insert_loop fuel key value (globals_tree_ c)
                  (globals_tree_ c) true c0
                = Ok None
                    (with_value_pool_data
                       (<[kvpf := mkValue hf (P_cons a value)]>
                          (value_pool_data c0)) c0)) as Hins.
      { intros c0 Hn0' Hp0. destruct (Hagree c0 Hn0' Hp0) as [Hag Hk0].
        destruct (insert_loop_walk fuel c c0 k key value _ _ _ _ _ Hw
                    Hag Hk0) as (hf' & a' & x' & Hf' & Hrun).
        rewrite Hf in Hf'. by injection Hf' as <- <- <-. }
      assert (kvpf <> p0 /\ kvpf <> key') as [Hfp0 Hfk'].
      { split; intros ->; congruence. }
      eexists. split; [|split].
      { eapply with_Protected_at with (objs := objs) (l := []); cycle 2.
        - rewrite bind_gets, bind_get_nil. simpl globals_tree_. simpl nil_.
          rewrite decide_False by done.
          eapply with_Protected_at
            with (objs := objs) (l := [mkProtected None None p0]); cycle 2.
          + eapply with_Protected_at
              with (objs := objs)
                   (l := [mkProtected None None p0;
                          mkProtected None None (globals_tree_ c)]);
              cycle 2.
            * erewrite (bind_eq (globals_tree_insert_loop _ _ _ _ _ _));
                cycle 1.
              { by apply Hins. }
              reflexivity.
            * simpl. reflexivity.
            * reflexivity.
            * done.
            * done.
            * done.
            * simpl. reflexivity.
          + simpl. reflexivity.
          + reflexivity.
          + done.
          + done.
          + done.
          + simpl. reflexivity.
        - simpl. reflexivity.
        - reflexivity.
        - done.
        - done.
        - done.
        - simpl. by rewrite app_nil_r. }
      { unfold globals_tree_find. rewrite bind_gets, bind_get_nil. simpl.
      rewrite decide_False by done.
      erewrite (bind_eq (globals_tree_find_loop _ _ _)); cycle 1.
      { eapply (find_after_overwrite fuel c _ k key' value _ _ _ cells kvpf
                  hf a x Hw Hnd Hf); simpl.
        - done.
        - intros q Hq Hne. rewrite !lookup_insert_ne; [done| |done].
          intros ->. done.
        - intros q n Hq. unfold symbol_name_at. simpl.
          rewrite !lookup_insert_ne; [done| |].
          + intros ->. by eapply Hs0.
          + intros ->. apply symbol_name_at_Some in Hq as (? & Hq).
            congruence.
        - by rewrite lookup_insert_eq.
        - unfold symbol_name_at. simpl.
          rewrite !lookup_insert_ne by done. by rewrite Hkv'. }
      done. }
      split; [done|]. split; [done|]. split; [done|]. split; insert_frame.
    + (* the name is not bound *)
      destruct (find_after_attach fuel c k _ _ _ cells last side Hw Htree Hnd)
        as (hl & kvl & ch & hc & lch & rch & Hlast & Hchv & Hin & Hfind).
      assert (forall c0,
                nil_ c0 = nil_ c ->
                value_pool_data c0 = <[p0:=cell0]> (value_pool_data c) ->
                globals_tree_insert_loop fuel key value (globals_tree_ c)
                  (globals_tree_ c) true c0
                = Ok (Some (last, side)) c0) as Hins.
      { intros c0 Hn0' Hp0. destruct (Hagree c0 Hn0' Hp0) as [Hag Hk0].
        apply (insert_loop_walk fuel c c0 k key value _ _ _ _ _ Hw Hag Hk0). }
      assert (last <> p0 /\ last <> p1 /\ last <> p2 /\
              ch <> p0 /\ ch <> p1 /\ ch <> p2 /\ ch <> key /\ ch <> key')
        as (? & ? & ? & ? & ? & ? & ? & ?).
      { repeat split; intros ->; congruence. }
      set (cellc := mkValue hc (if side then P_cons p2 rch
                                else P_cons lch p2)).
      set (c' := with_value_pool_data
                   (<[ch:=cellc]>
                      (<[p2:=cell2]>
                         (<[p1:=cell1]>
                            (<[p0:=cell0]> (value_pool_data c)))))
                   (with_value_pool next
                      (with_protected_objects
                         (objs ++ [mkProtected None None p0;
                                   mkProtected None None (nil_ c);
                                   mkProtected None None last]) c))).
      assert (nil_ c' = nil_ c /\ globals_tree_ c' = globals_tree_ c /\
              value_pool_data c'
              = <[ch:=cellc]>
                  (<[p2:=cell2]>
                     (<[p1:=cell1]>
                        (<[p0:=cell0]> (value_pool_data c)))))
        as (Hn' & Ht' & Hp') by done.
      assert (with_Protected p0
                (fun new_kvp =>
                   do tree <- gets globals_tree_ ;;
                   do nil <- get_nil ;;
                   if decide (tree = nil) then
                     do kv <- Protected_get new_kvp ;;
                     do new_tree <- globals_tree_new_node kv ;;
                     modify (with_globals_tree_ new_tree)
                   else
                     with_Protected tree (fun current =>
                     with_Protected tree (fun prev =>
                       do r <- globals_tree_insert_loop fuel key value
                                 tree tree true ;;
                       match r with
                       | None => ret tt
                       | Some (last, insert_left) =>
                           run Protected_set current nil ;;
                           run Protected_set prev last ;;
                           do kv <- Protected_get new_kvp ;;
                           do new_tree <- globals_tree_new_node kv ;;
                           do p <- Protected_get prev ;;
                           do children <- cons_cdr p ;;
                           if insert_left then set_car children new_tree
                           else set_cdr children new_tree
                       end)))
                (with_value_pool (Some p1)
                   (with_value_pool_data
                      (<[p0:=cell0]> (value_pool_data c)) c))
              = Ok tt c') as Hrun.
      { eapply with_Protected_at with (objs := objs) (l := []); cycle 2.
        - rewrite bind_gets, bind_get_nil. simpl globals_tree_.
          simpl nil_. rewrite decide_False by done.
          eapply with_Protected_at
            with (objs := objs) (l := [mkProtected None None p0]); cycle 2.
          + eapply with_Protected_at
              with (objs := objs)
                   (l := [mkProtected None None p0;
                          mkProtected None None (globals_tree_ c)]);
              cycle 2.
            * erewrite (bind_eq (globals_tree_insert_loop _ _ _ _ _ _));
                cycle 1.
              { by apply Hins. }
              cbv beta iota.
              erewrite (bind_eq (Protected_set _ _)); cycle 1.
              { eapply Protected_set_at with (objs := objs) (i := 1);
                  [simpl; reflexivity|reflexivity]. }
              erewrite (bind_eq (Protected_set _ _)); cycle 1.
              { eapply Protected_set_at with (objs := objs) (i := 2);
                  [simpl; reflexivity|reflexivity]. }
              erewrite (bind_eq (Protected_get _)); cycle 1.
              { eapply Protected_get_at with (objs := objs) (i := 0);
                  [simpl; reflexivity|reflexivity]. }
              simpl val_.
              erewrite (bind_eq (globals_tree_new_node _)); cycle 1.
              { apply (globals_tree_new_node_fresh _ _ p1 p2 h1 h2 next);
                  simpl; try done; by rewrite lookup_insert_ne. }
              erewrite (bind_eq (Protected_get _)); cycle 1.
              { eapply Protected_get_at with (objs := objs) (i := 2);
                  [simpl; reflexivity|reflexivity]. }
              simpl val_.
              erewrite (bind_eq (cons_cdr _)); cycle 1.
              { eapply cons_cdr_lookup. simpl.
                rewrite !lookup_insert_ne by done. exact Hlast. }
              unfold c', cellc. destruct side.
              -- unfold set_car, bind, deref. simpl.
                 rewrite !lookup_insert_ne by done. rewrite Hchv. simpl.
                 unfold store, modify. simpl. reflexivity.
              -- unfold set_cdr, bind, deref. simpl.
                 rewrite !lookup_insert_ne by done. rewrite Hchv. simpl.
                 unfold store, modify. simpl. reflexivity.
            * simpl. reflexivity.
            * reflexivity.
            * done.
            * done.
            * done.
            * simpl. reflexivity.
          + simpl. reflexivity.
          + reflexivity.
          + done.
          + done.
          + done.
          + simpl. reflexivity.
        - simpl. reflexivity.
        - reflexivity.
        - done.
        - done.
        - done.
        - simpl. by rewrite app_nil_r. }
      assert (lexical_bindings_ c' = lexical_bindings_ c /\
              interns_ c' = interns_ c) as [Hl' Hi'] by done.
      clearbody c'.
      exists c'. split; [done|]. split; [|split; [done|]];
        [|split; [done|]; split; [done|]; rewrite Hp'; unfold cellc;
          split; insert_frame].
      unfold globals_tree_find. rewrite bind_gets, bind_get_nil.
      rewrite Ht', Hn'. rewrite decide_False by done.
      erewrite (bind_eq (globals_tree_find_loop _ _ _)); cycle 1.
      { apply (Hfind c' key' value p2); try done.
        - intros q Hq Hne. rewrite Hp'.
          rewrite !lookup_insert_ne; try done; intros ->; done.
        - intros q n Hq. unfold symbol_name_at. rewrite Hp'.
          rewrite !lookup_insert_ne; [done|..]; intros ->;
            try (by eapply Hs0); try (by eapply Hs1); try (by eapply Hs2).
          apply symbol_name_at_Some in Hq as (? & Hq). congruence.
        - rewrite Hp'. by rewrite lookup_insert_eq.
        - apply Hnew; try done; rewrite Hp'.
          + rewrite lookup_insert_ne by done. by rewrite lookup_insert_eq.
          + rewrite !lookup_insert_ne by done. by rewrite lookup_insert_eq.
          + by rewrite !lookup_insert_ne by done.
          + by rewrite !lookup_insert_ne by done.
        - unfold symbol_name_at. rewrite Hp'.
          rewrite !lookup_insert_ne by done. by rewrite Hkv'. }
      done.
Qed.

(** At top level, where no lexical frame is open, [set_var] of a variable
    and then [get_var] of it give the value back, whether the globals tree
    was empty, had a binding of the name, or had none.  The name does not
    start with [$]; the value is not an error cell (for which [get_var]
    looks into the host's constants); the free list has three cells, so
    that the collector does not run while the binding is made; the operand
    stack has room for the cell that [globals_tree_insert] pushes; and the
    pairs on the way of the search through the tree are distinct cells. *)
Theorem set_var_get_var_global (fuel : nat) (c : Context)
    (key key' value : ptr) (k : nat) (name : cstring) (v : Value)
    (cells : list ptr) (e : SearchEnd) (p0 p1 p2 : ptr) :
  nil_ok c ->
  lexical_bindings_ c = nil_ c ->
  __protected_values c = None ->
  length (operand_stack_ c) < OPERAND_STACK_CAPACITY ->
  free_three c p0 p1 p2 ->
  symbol_named c key k name -> symbol_named c key' k name ->
  head name <> Some DOLLAR ->
  value_pool_data c !! value = Some v -> type_ (hdr_ v) <> VType.error ->
  search_walk fuel c k (globals_tree_ c) (globals_tree_ c) true
  = Some (cells, e) ->
  NoDup cells ->
  exists c',
    set_var fuel key value c = Ok (nil_ c) c' /\
    get_var fuel key' c' = Ok value c'.
Proof.
  intros Hnil Htop Hpv Hcap Hfree [Hkey Hname] [Hkey' _] Hd Hv Hty Hw Hnd.
  destruct (globals_insert_find fuel c key key' value k cells e p0 p1 p2)
    as (c' & Hins & Hfind & Hn' & Hl' & Hi' & Hsym & Htypes); try done.
  pose proof Hkey as (hk & Hkv)%symbol_name_at_Some.
  pose proof Hkey' as (hk' & Hkv')%symbol_name_at_Some.
  exists c'. split.
  - unfold set_var.
    rewrite (bind_eq _ _ _ _ _ (symbol_name_val _ _ _ _ Hkv)).
    rewrite bind_gets, bind_get_nil.
    rewrite decide_False by (intros Hne; by apply Hne).
    unfold bind at 1, ret at 1.
    rewrite (bind_eq _ _ _ _ _ Hins). unfold get_nil. by rewrite Hn'.
  - pose proof (Hsym _ _ _ Hkv') as Hkv2. rewrite <- Hi' in Hname.
    unfold get_var.
    rewrite (bind_eq _ _ _ _ _
               (get_var_dollar_None _ _ _ _ _ Hkv2 Hname Hd)).
    rewrite (bind_eq _ _ _ _ _ (symbol_name_val _ _ _ _ Hkv2)).
    rewrite bind_gets, bind_get_nil.
    rewrite decide_False by (intros Hne; apply Hne; congruence).
    unfold bind at 1, ret at 1.
    rewrite (bind_eq _ _ _ _ _ Hfind).
    destruct (Htypes _ _ Hv) as (v' & Hv' & Ht).
    unfold bind, type, bind, deref. rewrite Hv'. simpl.
    rewrite decide_True; [done|]. destruct Ht as [->| ->]; done.
Qed.

Lemma set_var_get_var_global_witness :
  exists c',
    set_var 100 8782%N 8780%N global_state = Ok (nil_ global_state) c' /\
    get_var 100 8781%N c' = Ok 8780%N c'.
Proof.
  refine (set_var_get_var_global 100 global_state 8782%N 8781%N 8780%N 238
            (ascii_of_string "x")
            (mkValue (mkHeader VType.integer true false ModeBits.none)
               (P_integer 5))
            global_cells (Missing 8783%N true) 8779%N 8778%N 8777%N
            _ _ _ _ _ _ _ _ _ _ _ _).
  - exists (mkHeader VType.nil true false ModeBits.none). by_compute.
  - by_compute.
  - by_compute.
  - by_compute.
  - split; [by_compute|]. split; [by_compute|].
    exists (mkHeader VType.heap_node false false ModeBits.none),
      (mkHeader VType.heap_node false false ModeBits.none),
      (mkHeader VType.heap_node false false ModeBits.none), (Some 8776%N).
    split; [by_compute|]. split; by_compute.
  - split; by_compute.
  - split; by_compute.
  - by_compute.
  - by_compute.
  - done.
  - by_compute.
  - by_compute.
Defined.

(** * Decimal numerals in the reader and in argument names *)

Lemma ascii_code_decimal_char d :
  d < 10 -> ascii_code (decimal_char d) = (48 + Z.of_nat d)%Z.
Proof.
  intros Hd. unfold ascii_code, decimal_char.
  rewrite nat_ascii_embedding by lia. lia.
Qed.

Lemma decimal_value_bound ds :
  Forall (fun d => d < 10) ds ->
  (0 <= decimal_value ds < 10 ^ Z.of_nat (length ds))%Z.
Proof.
  unfold decimal_value.
  induction ds as [|d ds IH] using rev_ind; [simpl; lia|].
  intros [Hds [Hd _]%Forall_cons]%Forall_app. specialize (IH Hds).
  rewrite foldl_app, length_app. simpl.
  replace (Z.of_nat (length ds + 1)) with (Z.of_nat (length ds) + 1)%Z by lia.
  rewrite Z.pow_add_r by lia. lia.
Qed.

(** The loop [result = result * 10 + (ch - '0')] on at most nine digits
    does not wrap around. *)
Lemma parse_decimal_digits ds :
  Forall (fun d => d < 10) ds -> length ds <= 9 ->
  parse_decimal (decimal ds) = decimal_value ds.
Proof.
  unfold parse_decimal, decimal, decimal_value.
  induction ds as [|d ds IH] using rev_ind; [done|].
  intros [Hds [Hd _]%Forall_cons]%Forall_app.
  rewrite length_app. simpl. intros Hlen.
  rewrite fmap_app, !foldl_app. simpl. rewrite IH by (done || lia).
  rewrite ascii_code_decimal_char by done.
  pose proof (decimal_value_bound ds Hds) as Hb. unfold decimal_value in Hb.
  assert (10 ^ Z.of_nat (length ds) <= 10 ^ 8)%Z
    by (apply Z.pow_le_mono_r; lia).
  unfold wrap_s32. rewrite Z.mod_small by lia. lia.
Qed.

Lemma is_number_char_decimal d : d < 10 -> is_number_char (decimal_char d) = true.
Proof.
  intros Hd. do 10 (destruct d as [|d]; [by vm_compute|]). lia.
Qed.

Lemma read_number_scan_decimal ds rest :
  Forall (fun d => d < 10) ds ->
  match rest with
  | ch :: _ => is_number_char ch = false
  | [] => True
  end ->
  read_number_scan (decimal ds ++ rest) = decimal ds.
Proof.
  intros Hds Hrest. induction Hds as [|d ds Hd Hds IH].
  - change (decimal [] ++ rest) with rest.
    destruct rest as [|ch rest]; [done|].
    cbn [read_number_scan]. by rewrite Hrest.
  - change (decimal (d :: ds) ++ rest)
      with (decimal_char d :: (decimal ds ++ rest)).
    cbn [read_number_scan]. rewrite is_number_char_decimal by done.
    by rewrite IH.
Qed.

(** [read_number] on a decimal numeral of at most nine digits, followed by
    a byte that it does not take: the integer that the numeral writes is
    made and pushed, and the number of bytes read is the number of
    digits. *)
Theorem read_number_decimal (c : Context) (ds : list nat) (rest : cstring) :
  Forall (fun d => d < 10) ds -> length ds <= 9 ->
  match rest with
  | ch :: _ => is_number_char ch = false
  | [] => True
  end ->
  read_number (decimal ds ++ rest) c
  = (do v <- make_integer (decimal_value ds) ;;
     run push_op v ;;
     ret (length ds)) c.
Proof.
  intros Hds Hlen Hrest. unfold read_number. cbv zeta.
  rewrite (read_number_scan_decimal ds rest Hds Hrest).
  assert (StringBuffer_append 64 [] (decimal ds) = decimal ds) as ->.
  { unfold StringBuffer_append. simpl. apply take_ge.
    unfold decimal. rewrite length_fmap. lia. }
  rewrite bool_decide_eq_false_2.
  - rewrite parse_decimal_digits by done.
    unfold decimal. by rewrite length_fmap.
  - intros [_ Hx]. apply list_elem_of_lookup_2 in Hx.
    unfold decimal in Hx. apply list_elem_of_fmap in Hx as (d & Hx & Hd).
    assert (d < 10) as Hd10 by (by eapply Forall_forall in Hds).
    apply (f_equal nat_of_ascii) in Hx.
    unfold decimal_char in Hx. rewrite !nat_ascii_embedding in Hx by lia. lia.
Qed.

Lemma read_number_decimal_witness :
  read_number (ascii_of_string "1234)") booted
  = (do v <- make_integer 1234 ;; run push_op v ;; ret 4) booted.
Proof.
  refine (read_number_decimal booted [1; 2; 3; 4] (ascii_of_string ")")
            _ _ _).
  - repeat constructor.
  - simpl. lia.
  - reflexivity.
Defined.

Lemma get_var_dollar_argument (c : Context) (sym : ptr) (n : nat)
    (ds : list nat) :
  symbol_named c sym n (DOLLAR :: decimal ds) ->
  Forall (fun d => d < 10) ds -> length ds <= 9 ->
  get_var_dollar sym c
  = (do a <- get_arg (wrap_u16 (decimal_value ds)) ;; ret (Some a)) c.
Proof.
  intros [(h & Hv)%symbol_name_at_Some Hn] Hds Hlen.
  unfold get_var_dollar.
  rewrite (bind_eq _ _ _ _ _ (symbol_chars_val _ _ _ _ _ Hv Hn)).
  rewrite decide_True by done.
  assert (parse_argn (decimal ds) = decimal_value ds) as Hparse
    by (by apply parse_decimal_digits).
  destruct ds as [|d ds]; [done|].
  change (decimal (d :: ds)) with (decimal_char d :: decimal ds) in *.
  cbv iota. rewrite decide_False; [by rewrite Hparse|].
  apply Forall_cons in Hds as [Hd _]. intros Heq.
  apply (f_equal nat_of_ascii) in Heq.
  unfold decimal_char, LETTER_V in Heq.
  rewrite !nat_ascii_embedding in Heq by lia. lia.
Qed.

(** [get_var] of a symbol whose name is [$] and a decimal numeral of at
    most nine digits: the value is what [get_arg] gives for the number that
    the numeral writes, cut to 16 bits; the lexical frames and the globals
    are not looked at.  The name [$] alone stands for the first
    argument. *)
Theorem get_var_argument (fuel : nat) (c : Context) (sym : ptr) (n : nat)
    (ds : list nat) :
  symbol_named c sym n (DOLLAR :: decimal ds) ->
  Forall (fun d => d < 10) ds -> length ds <= 9 ->
  get_var fuel sym c = get_arg (wrap_u16 (decimal_value ds)) c.
Proof.
  intros Hsym Hds Hlen.
  pose proof (get_var_dollar_argument c sym n ds Hsym Hds Hlen) as Hd.
  unfold get_var. unfold bind, ret in Hd |- *. rewrite Hd.
  by destruct (get_arg _ c).
Qed.

Lemma get_var_argument_witness :
  get_var 10 8780%N self_call_state
  = get_arg (wrap_u16 (decimal_value [0])) self_call_state.
Proof.
  refine (get_var_argument 10 self_call_state 8780%N 245 [0] _ _ _).
  - split; by_compute.
  - repeat constructor.
  - simpl. lia.
Defined.

(** * Hexadecimal numerals in the reader *)

Lemma is_number_char_hex d : d < 16 -> is_number_char (hex_char d) = true.
Proof.
  intros Hd. do 16 (destruct d as [|d]; [by vm_compute|]). lia.
Qed.

Lemma hextable_hex_char d : d < 16 -> hextable (hex_char d) = Z.of_nat d.
Proof.
  intros Hd. do 16 (destruct d as [|d]; [by vm_compute|]). lia.
Qed.

Lemma read_number_scan_all (s rest : cstring) :
  Forall (fun ch => is_number_char ch = true) s ->
  match rest with
  | ch :: _ => is_number_char ch = false
  | [] => True
  end ->
  read_number_scan (s ++ rest) = s.
Proof.
  intros Hs Hrest. induction Hs as [|ch s Hch Hs IH].
  - change ([] ++ rest) with rest. destruct rest as [|ch rest]; [done|].
    cbn [read_number_scan]. by rewrite Hrest.
  - change ((ch :: s) ++ rest) with (ch :: (s ++ rest)).
    cbn [read_number_scan]. by rewrite Hch, IH.
Qed.

(** A digit put under a number that has been shifted by four bits. *)
Lemma lor_shiftl_digit (r d : Z) :
  (0 <= r)%Z -> (0 <= d < 16)%Z ->
  Z.lor (Z.shiftl r 4) d = (r * 16 + d)%Z.
Proof.
  intros Hr Hd. rewrite Z.shiftl_mul_pow2 by lia.
  assert (Z.land (r * 2 ^ 4) d = 0%Z) as Hland.
  { apply Z.bits_inj'. intros n Hn. rewrite Z.land_spec, Z.bits_0.
    destruct (decide (n < 4)%Z).
    - by rewrite Z.mul_pow2_bits_low by lia.
    - destruct (decide (d = 0%Z)) as [->|].
      + by rewrite Z.bits_0, andb_false_r.
      + rewrite (Z.bits_above_log2 d n), andb_false_r; [done|lia|].
        apply Z.lt_le_trans with 4%Z; [|lia].
        apply Z.log2_lt_pow2; [lia|]. simpl. lia. }
  rewrite <- Z.lxor_lor, <- Z.add_nocarry_lxor by done.
  change (2 ^ 4)%Z with 16%Z. done.
Qed.

(** The loop of [hexdec] on digits that do not fill 32 bits. *)
Lemma hexdec_digits ds : forall r,
  Forall (fun d => d < 16) ds ->
  (0 <= r)%Z -> ((r + 1) * 16 ^ Z.of_nat (length ds) <= 2 ^ 31)%Z ->
  hexdec (hex ds) r = foldl (fun r d => (r * 16 + Z.of_nat d)%Z) r ds.
Proof.
  induction ds as [|d ds IH]; intros r Hds Hr Hb; [done|].
  apply Forall_cons in Hds as [Hd Hds].
  change (hex (d :: ds)) with (hex_char d :: hex ds).
  cbn [hexdec foldl]. rewrite decide_True by done.
  rewrite hextable_hex_char, lor_shiftl_digit by lia.
  cbn [length] in Hb.
  replace (Z.of_nat (S (length ds))) with (Z.of_nat (length ds) + 1)%Z
    in Hb by lia.
  rewrite Z.pow_add_r in Hb by lia.
  assert (0 < 16 ^ Z.of_nat (length ds))%Z by (apply Z.pow_pos_nonneg; lia).
  assert ((r * 16 + Z.of_nat d + 1) * 16 ^ Z.of_nat (length ds)
          <= 2 ^ 31)%Z by nia.
  assert (r * 16 + Z.of_nat d + 1 <= 2 ^ 31)%Z by nia.
  unfold wrap_s32. rewrite Z.mod_small by lia.
  replace (r * 16 + Z.of_nat d + 2147483648 - 2147483648)%Z
    with (r * 16 + Z.of_nat d)%Z by lia.
  apply IH; [done|lia|done].
Qed.

(** [read_number] on a numeral whose second byte is [x]: up to seven
    hexadecimal digits in lower case after the [x], followed by a byte
    that [read_number] does not take, are read as the number that they
    write in base 16.  The byte before the [x] is any byte that
    [read_number] takes; it is not looked at. *)
Theorem read_number_hexadecimal (c : Context) (first : ascii)
    (ds : list nat) (rest : cstring) :
  is_number_char first = true ->
  Forall (fun d => d < 16) ds -> length ds <= 7 ->
  match rest with
  | ch :: _ => is_number_char ch = false
  | [] => True
  end ->
  read_number (first :: LETTER_x :: hex ds ++ rest) c
  = (do v <- make_integer (hex_value ds) ;;
     run push_op v ;;
     ret (2 + length ds)) c.
Proof.
  intros Hfirst Hds Hlen Hrest. unfold read_number. cbv zeta.
  change (first :: LETTER_x :: hex ds ++ rest)
    with ((first :: LETTER_x :: hex ds) ++ rest).
  rewrite (read_number_scan_all (first :: LETTER_x :: hex ds) rest);
    [|repeat apply Forall_cons_2; [done|by vm_compute|]|done].
  - assert (StringBuffer_append 64 [] (first :: LETTER_x :: hex ds)
            = first :: LETTER_x :: hex ds) as ->.
    { unfold StringBuffer_append. apply take_ge. simpl.
      unfold hex. rewrite length_fmap. lia. }
    rewrite bool_decide_eq_true_2.
    + change (drop 2 (first :: LETTER_x :: hex ds)) with (hex ds).
      rewrite hexdec_digits; [| done | done |].
      * simpl. unfold hex. by rewrite length_fmap.
      * apply Z.le_trans with (1 * 16 ^ 7)%Z; [|by vm_compute].
        apply Z.mul_le_mono_nonneg_l; [lia|].
        apply Z.pow_le_mono_r; lia.
    + split; [simpl; lia|done].
  - apply Forall_forall. intros ch Hch. unfold hex in Hch.
    apply list_elem_of_fmap in Hch as (d & -> & Hd).
    apply is_number_char_hex. by eapply Forall_forall in Hds.
Qed.

Lemma read_number_hexadecimal_witness :
  read_number (ascii_of_string "0x1f ") booted
  = (do v <- make_integer 31 ;; run push_op v ;; ret 4) booted.
Proof.
  refine (read_number_hexadecimal booted (ascii_of_nat 48) [1; 15]
            (ascii_of_string " ") _ _ _ _).
  - reflexivity.
  - repeat constructor.
  - simpl. lia.
  - reflexivity.
Defined.

(** * What the collector frees *)

(** ** The mark phase stays among the cells that the roots reach *)

Section confined.
Variable c0 : Context.
Variable R : ptr -> Prop.

(** The state [c] of a mark phase that started in [c0]: the roots are
    those of [c0], the cells outside [R] are as they were, and the cells of
    [R] refer to cells of [R]. *)
Definition confined (c : Context) : Prop :=
  gc_frame c0 c /\ pairs_typed c /\
  (forall q, ~ R q -> value_pool_data c !! q = value_pool_data c0 !! q) /\
  (forall p v q, R p -> value_pool_data c !! p = Some v -> q ∈ refs v -> R q).

Lemma confined_insert c p v v' :
  confined c -> R p -> value_pool_data c !! p = Some v ->
  pair_typed v' ->
  (forall q, q ∈ refs v' -> R q) ->
  confined (with_value_pool_data (<[p := v']> (value_pool_data c)) c).
Proof.
  intros (Hf & Ht & Ho & Hc) Hp Hv Ht' Hr.
  split; [exact Hf|]. split; [|split]; simpl.
  - by apply map_Forall_insert_2.
  - intros q Hq. rewrite lookup_insert_ne; [by apply Ho|]. by intros ->.
  - intros p1 v1 q HR. destruct (decide (p1 = p)) as [->|Hne].
    + rewrite lookup_insert_eq. intros [= <-]. apply Hr.
    + rewrite lookup_insert_ne by done. by apply Hc.
Qed.

Lemma confined_pair c p v a d :
  confined c -> R p -> value_pool_data c !! p = Some v ->
  payload v = P_cons a d -> R a /\ R d.
Proof.
  intros (_ & Ht & _ & Hc) Hp Hv Hpl.
  pose proof (Ht _ _ Hv) as Hty. unfold pair_typed in Hty.
  rewrite Hpl in Hty.
  assert (refs v = [a; d]) as Hr by (unfold refs; by rewrite Hty, Hpl).
  split; apply (Hc p v _ Hp Hv); rewrite Hr; [by left|right; by left].
Qed.

Lemma confined_cons_car c p a c' :
  confined c -> R p -> cons_car p c = Ok a c' -> c' = c /\ R a.
Proof.
  intros Hc Hp [-> (v & d & Hv & Hpl)]%cons_car_Some. split; [done|].
  by destruct (confined_pair _ _ _ _ _ Hc Hp Hv Hpl).
Qed.

Lemma confined_cons_cdr c p d c' :
  confined c -> R p -> cons_cdr p c = Ok d c' -> c' = c /\ R d.
Proof.
  intros Hc Hp [-> (v & a & Hv & Hpl)]%cons_cdr_Some. split; [done|].
  by destruct (confined_pair _ _ _ _ _ Hc Hp Hv Hpl).
Qed.

Lemma confined_write_mark_bit c p b c' :
  confined c -> R p -> write_mark_bit p b c = Ok tt c' -> confined c'.
Proof.
  intros Hc Hp (v & Hv & ->)%write_mark_bit_Ok.
  eapply confined_insert; [done..| |].
  - destruct Hc as (_ & Ht & _). apply (Ht _ _ Hv).
  - intros q Hq. destruct Hc as (_ & _ & _ & Hc). by apply (Hc p v).
Qed.

Lemma confined_set_cdr c p x c' :
  confined c -> R p -> R x -> set_cdr p x c = Ok tt c' -> confined c'.
Proof.
  intros Hc Hp Hx H. unfold set_cdr in H.
  apply bind_Ok in H as (v & c1 & Hd & H). unfold deref in Hd.
  destruct (value_pool_data c !! p) eqn:Hv; [|done]. injection Hd as -> <-.
  destruct (payload v) eqn:Hpl; try done.
  unfold store, modify in H. injection H as <-.
  destruct (confined_pair _ _ _ _ _ Hc Hp Hv Hpl) as [Ha _].
  eapply confined_insert; [done..| |].
  - destruct Hc as (_ & Ht & _). pose proof (Ht _ _ Hv) as Hty.
    unfold pair_typed in *. simpl. by rewrite Hpl in Hty.
  - unfold refs. simpl. intros q Hq.
    destruct (type_ (hdr_ v)); simpl in Hq; try case_decide;
      try (by apply elem_of_none in Hq).
    by apply elem_of_two in Hq as [->| ->].
Qed.

Lemma confined_nil c : confined c -> nil_ c = nil_ c0.
Proof. intros [Hf _]. unfold gc_frame, roots_of in Hf. congruence. Qed.

Lemma confined_objects c :
  confined c -> protected_objects c = protected_objects c0.
Proof. intros [Hf _]. unfold gc_frame, roots_of in Hf. congruence. Qed.

Section chain.
Variable rec : ptr -> M unit.
Hypothesis rec_confined : forall p c c',
  confined c -> R p -> rec p c = Ok tt c' -> confined c'.

Lemma gc_mark_cons_chain_confined n : forall current c c',
  confined c -> R current ->
  gc_mark_cons_chain rec n current c = Ok tt c' -> confined c'.
Proof.
  induction n as [|n IH]; intros current c c' Hc Hcur H; simpl in H; [done|].
  apply bind_Ok in H as (d & ? & [-> Hd]%(confined_cons_cdr _ _ _ _ Hc Hcur)
                           & H).
  apply bind_Ok in H as (t & ? & [-> _]%type_Some & H).
  destruct (decide (t = VType.cons)) as [->|Hne].
  - apply bind_Ok in H
        as (a & ? & [-> Ha]%(confined_cons_car _ _ _ _ Hc Hcur) & H).
    apply bind_Ok in H as ([] & c1 & H1%(rec_confined _ _ _ Hc Ha) & H).
    apply bind_Ok in H
        as (d' & ? & [-> Hd']%(confined_cons_cdr _ _ _ _ H1 Hcur) & H).
    apply bind_Ok in H
        as ([] & c2 & H2%(confined_write_mark_bit _ _ _ _ H1 Hd') & H).
    by apply (IH d' c2 c').
  - apply bind_Ok in H
        as (a & ? & [-> Ha]%(confined_cons_car _ _ _ _ Hc Hcur) & H).
    apply bind_Ok in H as ([] & c1 & H1%(rec_confined _ _ _ Hc Ha) & H).
    apply bind_Ok in H
        as (d' & ? & [-> Hd']%(confined_cons_cdr _ _ _ _ H1 Hcur) & H).
    by apply (rec_confined d' c1 c').
Qed.
End chain.

Lemma gc_mark_value_confined depth : forall p c c',
  confined c -> R p -> gc_mark_value depth p c = Ok tt c' -> confined c'.
Proof.
  induction depth as [|depth IH]; intros p c c' Hc Hp H;
    cbn [gc_mark_value] in H; [done|].
  apply bind_Ok in H as (v & c1 & Hd & H). unfold deref in Hd.
  destruct (value_pool_data c !! p) eqn:Hv; [|done]. injection Hd as -> <-.
  destruct (mark_bit_ (hdr_ v)) eqn:Hm.
  { by apply ret_Ok in H as [_ <-]. }
  apply bind_Ok in H as ([] & c1 & Hbody & Hw).
  apply (confined_write_mark_bit c1 p true c'); [|done..].
  assert (forall q, q ∈ refs v -> R q) as Hrefs.
  { intros q. destruct Hc as (_ & _ & _ & Hc). by apply (Hc p v). }
  clear Hw. unfold refs in Hrefs.
  destruct (type_ (hdr_ v)) eqn:Ht;
    try (by apply ret_Ok in Hbody as [_ <-]).
  - (* cons *)
    apply bind_Ok in Hbody
        as (d & ? & [-> Hd]%(confined_cons_cdr _ _ _ _ Hc Hp) & Hbody).
    apply bind_Ok in Hbody as (t & ? & [-> _]%type_Some & Hbody).
    destruct (decide (t = VType.cons)) as [->|Hne].
    + exact (gc_mark_cons_chain_confined _ IH _ p c c1 Hc Hp Hbody).
    + apply bind_Ok in Hbody
          as (a & ? & [-> Ha]%(confined_cons_car _ _ _ _ Hc Hp) & Hbody).
      apply bind_Ok in Hbody as ([] & c2 & H2%(IH _ _ _ Hc Ha) & Hbody).
      apply bind_Ok in Hbody
          as (d' & ? & [-> Hd']%(confined_cons_cdr _ _ _ _ H2 Hp) & Hbody).
      by apply (IH d' c2 c1).
  - (* function *)
    assert (forall code bindings c2,
              function_refs p c = Ok (code, bindings) c2 ->
              c2 = c /\ payload v = P_lisp_impl code bindings
                        ∨ c2 = c /\ payload v = P_bytecode_impl code bindings)
      as Hfn.
    { intros code bindings c2. unfold function_refs, bind, deref.
      rewrite Hv. destruct (payload v); try done;
        intros [= -> -> ->]; auto. }
    destruct (decide (mode_bits_ (hdr_ v) = ModeBits.lisp_function))
      as [Hmode|Hmode].
    + rewrite decide_True in Hrefs by by left.
      apply bind_Ok in Hbody as ([code bindings] & c2 & Hf & Hbody).
      assert (c2 = c /\ R code /\ R bindings) as (-> & Ha & Hb).
      { destruct (Hfn _ _ _ Hf) as [[-> Hpl]|[-> Hpl]]; rewrite Hpl in Hrefs;
          (split; [done|]); split; apply Hrefs;
          [by left|right; by left|by left|right; by left]. }
      apply bind_Ok in Hbody as ([] & c3 & H3%(IH _ _ _ Hc Ha) & Hbody).
      by apply (IH bindings c3 c1).
    + destruct (decide (mode_bits_ (hdr_ v)
                        = ModeBits.lisp_bytecode_function)) as [Hmode'|Hmode'].
      * rewrite decide_True in Hrefs by by right.
        apply bind_Ok in Hbody as ([code bindings] & c2 & Hf & Hbody).
        assert (c2 = c /\ R code /\ R bindings) as (-> & Ha & Hb).
        { destruct (Hfn _ _ _ Hf) as [[-> Hpl]|[-> Hpl]];
            rewrite Hpl in Hrefs;
            (split; [done|]); split; apply Hrefs;
            [by left|right; by left|by left|right; by left]. }
        apply bind_Ok in Hbody as ([] & c3 & H3%(IH _ _ _ Hc Ha) & Hbody).
        by apply (IH bindings c3 c1).
      * by apply ret_Ok in Hbody as [_ <-].
  - (* error *)
    apply bind_Ok in Hbody as (x & c2 & Hx & Hbody).
    unfold error_context, bind, deref in Hx. rewrite Hv in Hx.
    destruct (payload v); try done. injection Hx as <- <-.
    eapply (IH _ c c1 Hc); [|done]. apply Hrefs. by left.
  - (* string *)
    destruct (payload v); try done.
    eapply (IH _ c c1 Hc); [|done]. apply Hrefs. by left.
Qed.

Lemma for_each_mark_confined depth (l : list ptr) : forall c c',
  confined c -> Forall R l ->
  for_each l (gc_mark_value depth) c = Ok tt c' -> confined c'.
Proof.
  induction l as [|x l IH]; intros c c' Hc Hl H; simpl in H.
  - by apply ret_Ok in H as [_ <-].
  - apply Forall_cons in Hl as [Hx Hl].
    apply bind_Ok in H
        as ([] & c1 & H1%(gc_mark_value_confined _ _ _ _ Hc Hx) & H).
    by apply (IH c1 c').
Qed.

(** *** The walk over the globals tree *)

Lemma confined_right_subtree c p r c' :
  confined c -> R p -> right_subtree p c = Ok r c' -> c' = c /\ R r.
Proof.
  intros Hc Hp H. unfold right_subtree in H.
  apply bind_Ok in H as (d & ? & [-> Hd]%(confined_cons_cdr _ _ _ _ Hc Hp) & H).
  by apply (confined_cons_cdr c d).
Qed.

Lemma confined_left_subtree c p l c' :
  confined c -> R p -> left_subtree p c = Ok l c' -> c' = c /\ R l.
Proof.
  intros Hc Hp H. unfold left_subtree in H.
  apply bind_Ok in H as (d & ? & [-> Hd]%(confined_cons_cdr _ _ _ _ Hc Hp) & H).
  by apply (confined_cons_car c d).
Qed.

Lemma confined_set_right_subtree c p x c' :
  confined c -> R p -> R x -> set_right_subtree p x c = Ok tt c' ->
  confined c'.
Proof.
  intros Hc Hp Hx H. unfold set_right_subtree in H.
  apply bind_Ok in H as (d & ? & [-> Hd]%(confined_cons_cdr _ _ _ _ Hc Hp) & H).
  by apply (confined_set_cdr c d x).
Qed.

Lemma traverse_rightmost_confined fuel : forall current prev c r c',
  confined c -> R prev ->
  globals_tree_traverse_rightmost fuel current prev c = Ok r c' ->
  c' = c /\ R r.
Proof.
  induction fuel as [|fuel IH]; intros current prev c r c' Hc Hp H;
    simpl in H; [done|].
  apply bind_Ok in H
      as (x & ? & [-> Hx]%(confined_right_subtree _ _ _ _ Hc Hp) & H).
  apply bind_Ok in H as (nil & ? & [= <- <-] & H).
  destruct (decide (_ /\ _)).
  - by apply (IH current x).
  - by apply ret_Ok in H as [<- <-].
Qed.

Section traverse.
Variable callback : ptr -> ptr -> M unit.
Hypothesis callback_confined : forall kvp node c c',
  confined c -> R kvp -> R node -> callback kvp node c = Ok tt c' ->
  confined c'.
Hypothesis R_nil : R (nil_ c0).

Lemma traverse_loop_confined fuel : forall current c c',
  confined c -> R current ->
  globals_tree_traverse_loop fuel callback current c = Ok tt c' ->
  confined c'.
Proof.
  induction fuel as [|fuel IH]; intros current c c' Hc Hcur H;
    simpl in H; [done|].
  apply bind_Ok in H as (nil & ? & [= <- <-] & H).
  destruct (decide (current = nil_ c)); [by apply ret_Ok in H as [_ <-]|].
  apply bind_Ok in H
      as (l & ? & [-> Hl]%(confined_left_subtree _ _ _ _ Hc Hcur) & H).
  destruct (decide (l = nil_ c)).
  - apply bind_Ok in H
        as (kvp & ? & [-> Hk]%(confined_cons_car _ _ _ _ Hc Hcur) & H).
    apply bind_Ok in H
        as ([] & c1 & H1%(callback_confined _ _ _ _ Hc Hk Hcur) & H).
    apply bind_Ok in H
        as (r & ? & [-> Hr]%(confined_right_subtree _ _ _ _ H1 Hcur) & H).
    by apply (IH r c1 c').
  - apply bind_Ok in H
        as (prev & ? & [-> Hprev]%(traverse_rightmost_confined _ _ _ _ _ _
                                     Hc Hl) & H).
    apply bind_Ok in H
        as (r & ? & [-> Hr]%(confined_right_subtree _ _ _ _ Hc Hprev) & H).
    destruct (decide (r = nil_ c)).
    + apply bind_Ok in H
          as ([] & c1 & H1%(confined_set_right_subtree _ _ _ _ Hc Hprev Hcur)
              & H).
      apply bind_Ok in H
          as (l' & ? & [-> Hl']%(confined_left_subtree _ _ _ _ H1 Hcur) & H).
      by apply (IH l' c1 c').
    + assert (R (nil_ c)) as Hnil by by rewrite (confined_nil _ Hc).
      apply bind_Ok in H
          as ([] & c1 & H1%(confined_set_right_subtree _ _ _ _ Hc Hprev Hnil)
              & H).
      apply bind_Ok in H
          as (kvp & ? & [-> Hk]%(confined_cons_car _ _ _ _ H1 Hcur) & H).
      apply bind_Ok in H
          as ([] & c2 & H2%(callback_confined _ _ _ _ H1 Hk Hcur) & H).
      apply bind_Ok in H
          as (r' & ? & [-> Hr']%(confined_right_subtree _ _ _ _ H2 Hcur) & H).
      by apply (IH r' c2 c').
Qed.
End traverse.

(** *** The protected roots *)

Lemma gc_mark_protected_confined fuel : forall p_list c c',
  confined c ->
  (forall o, protected_link c0 p_list o -> R (val_ o)) ->
  gc_mark_protected fuel p_list c = Ok tt c' -> confined c'.
Proof.
  induction fuel as [|fuel IH]; intros [p|] c c' Hc Hl H; simpl in H;
    try (by apply ret_Ok in H as [_ <-]); [done|].
  apply bind_Ok in H as (val & c1 & Hg & H). unfold Protected_get in Hg.
  destruct (protected_objects c !! p) as [o|] eqn:Ho; [|done].
  injection Hg as <- <-.
  rewrite (confined_objects _ Hc) in Ho.
  apply bind_Ok in H as ([] & c2 & H2 & H).
  apply (gc_mark_value_confined _ _ _ _ Hc) in H2;
    [|apply Hl; by apply link_here].
  apply bind_Ok in H as (objs & ? & [<- <-]%gets_Ok & H).
  apply bind_Ok in H as (o' & ? & [Ho' <-]%expect_Ok & H).
  rewrite (confined_objects _ H2), Ho in Ho'. injection Ho' as <-.
  apply (IH (ProtectedBase_next o) c2 c'); [done| |done].
  intros o' Ho'. apply Hl. by eapply link_next.
Qed.

(** *** The mark phase *)

Lemma gc_mark_confined c c' :
  confined c -> (forall p, gc_mark_root c0 p -> R p) ->
  gc_mark c = Ok tt c' -> confined c'.
Proof.
  intros Hc Hroot H. unfold gc_mark in H.
  assert (forall c1, confined c1 -> roots_of c1 = roots_of c0) as Hf
    by (by intros c1 [? _]).
  apply bind_Ok in H as (nil & ? & [<- <-]%gets_Ok & H).
  apply bind_Ok in H as ([] & c1 & H1 & H).
  apply (gc_mark_value_confined _ _ _ _ Hc) in H1; cycle 1.
  { apply Hroot. left. left. pose proof (Hf _ Hc). unfold roots_of in *.
    congruence. }
  apply bind_Ok in H as (oom & ? & [<- <-]%gets_Ok & H).
  apply bind_Ok in H as ([] & c2 & H2 & H).
  apply (gc_mark_value_confined _ _ _ _ H1) in H2; cycle 1.
  { apply Hroot. left. right. left. pose proof (Hf _ H1).
    unfold roots_of in *. congruence. }
  apply bind_Ok in H as (bindings & ? & [<- <-]%gets_Ok & H).
  apply bind_Ok in H as ([] & c3 & H3 & H).
  apply (gc_mark_value_confined _ _ _ _ H2) in H3; cycle 1.
  { apply Hroot. left. right. right. left. pose proof (Hf _ H2).
    unfold roots_of in *. congruence. }
  apply bind_Ok in H as (macros & ? & [<- <-]%gets_Ok & H).
  apply bind_Ok in H as ([] & c4 & H4 & H).
  apply (gc_mark_value_confined _ _ _ _ H3) in H4; cycle 1.
  { apply Hroot. left. right. right. right. left. pose proof (Hf _ H3).
    unfold roots_of in *. congruence. }
  apply bind_Ok in H as (stack & ? & [<- <-]%gets_Ok & H).
  apply bind_Ok in H as ([] & c5 & H5 & H).
  apply (for_each_mark_confined _ _ _ _ H4) in H5; cycle 1.
  { apply Forall_forall. intros p Hp. rewrite elem_of_reverse in Hp. apply Hroot. left.
    do 4 right. pose proof (Hf _ H4). unfold roots_of in *.
    replace (operand_stack_ c0) with (operand_stack_ c4) by congruence.
    done. }
  apply bind_Ok in H as (tree & ? & [<- <-]%gets_Ok & H).
  apply bind_Ok in H as ([] & c6 & H6 & H).
  assert (R (nil_ c0)) as Hnil by (apply Hroot; left; by left).
  assert (confined c6) as H6'.
  { unfold globals_tree_traverse in H6.
    apply bind_Ok in H6 as (nil & ? & [= <- <-] & H6).
    destruct (decide (_ = _)); [by apply ret_Ok in H6 as [_ <-]|].
    refine (traverse_loop_confined _ _ Hnil _ _ c5 c6 H5 _ H6).
    - intros kvp node c7 c8 Hc7 Hk Hn Hcb.
      apply bind_Ok in Hcb
          as ([] & c9 & H9%(confined_write_mark_bit _ _ _ _ Hc7 Hn) & Hcb).
      apply bind_Ok in Hcb
          as (d & ? & [-> Hd]%(confined_cons_cdr _ _ _ _ H9 Hn) & Hcb).
      apply bind_Ok in Hcb
          as ([] & c10 & H10%(confined_write_mark_bit _ _ _ _ H9 Hd) & Hcb).
      exact (gc_mark_value_confined _ kvp c10 c8 H10 Hk Hcb).
    - apply Hroot. right. left. pose proof (Hf _ H5). unfold roots_of in *.
      congruence. }
  clear H6.
  apply bind_Ok in H as (this & ? & [<- <-]%gets_Ok & H).
  apply bind_Ok in H as ([] & c7 & H7 & H).
  apply (gc_mark_value_confined _ _ _ _ H6') in H7; cycle 1.
  { apply Hroot. right. right. left. pose proof (Hf _ H6').
    unfold roots_of in *. congruence. }
  apply bind_Ok in H as (p_list & ? & [<- <-]%gets_Ok & H).
  apply bind_Ok in H as (objs & ? & [<- <-]%gets_Ok & H).
  apply (gc_mark_protected_confined _ _ _ _ H7) in H; [done|].
  intros o Ho. apply Hroot. do 3 right. exists o. split; [|done].
  pose proof (Hf _ H7). unfold roots_of in *.
  replace (__protected_values c0) with (__protected_values c7) by congruence.
  done.
Qed.
End confined.

(** ** The sweep frees the cells that are alive and not marked *)

Lemma gc_sweep_loop_other q l : forall k n c c',
  q ∉ l -> gc_sweep_loop l k c = Ok n c' ->
  value_pool_data c' !! q = value_pool_data c !! q.
Proof.
  induction l as [|i l IH]; intros k n c c' Hq H; simpl in H.
  - by apply ret_Ok in H as [_ <-].
  - apply bind_Ok in H as (m & c1 & Hcell & H).
    apply not_elem_of_cons in Hq as [Hne Hq].
    rewrite (IH _ _ _ _ Hq H).
    by apply (same_cell_gc_sweep_cell q i) in Hcell.
Qed.

Lemma gc_sweep_loop_count l : forall k n c c',
  gc_sweep_loop l k c = Ok n c' -> k <= n.
Proof.
  induction l as [|i l IH]; intros k n c c' H; simpl in H.
  - apply ret_Ok in H as [-> _]. lia.
  - apply bind_Ok in H as (m & c1 & _ & H). apply IH in H. lia.
Qed.

Lemma gc_sweep_cell_frees q v c m c' :
  gc_sweep_cell q c = Ok m c' ->
  value_pool_data c !! q = Some v ->
  alive_ (hdr_ v) = true -> mark_bit_ (hdr_ v) = false ->
  m = 1 /\
  value_pool_data c' !! q
  = Some (mkValue (mkHeader VType.heap_node false false (mode_bits_ (hdr_ v)))
            (P_heap_node (value_pool c))).
Proof.
  intros H Hv Ha Hm. unfold gc_sweep_cell in H.
  apply bind_Ok in H as (w & c1 & Hd & H). unfold deref in Hd.
  rewrite Hv in Hd. injection Hd as <- <-. rewrite Ha, Hm in H.
  apply bind_Ok in H as ([] & c2 & [Hd Hp]%same_pool_invoke_finalizer & H).
  apply bind_Ok in H as ([] & c3 & (w & Hw & ->)%value_pool_free_Ok & H).
  apply ret_Ok in H as [<- <-]. split; [done|]. simpl.
  rewrite Hd, Hv in Hw. injection Hw as <-.
  by rewrite lookup_insert_eq, Hp.
Qed.

Lemma gc_sweep_loop_frees q v indices : forall k n c c',
  NoDup indices -> q ∈ indices ->
  gc_sweep_loop indices k c = Ok n c' ->
  value_pool_data c !! q = Some v ->
  alive_ (hdr_ v) = true -> mark_bit_ (hdr_ v) = false ->
  k < n /\
  exists next,
    value_pool_data c' !! q
    = Some (mkValue (mkHeader VType.heap_node false false
                       (mode_bits_ (hdr_ v))) (P_heap_node next)).
Proof.
  induction indices as [|i indices IH]; intros k n c c' Hnd Hq H Hv Ha Hm;
    simpl in H.
  - by apply not_elem_of_nil in Hq.
  - apply NoDup_cons in Hnd as [Hi Hnd].
    apply bind_Ok in H as (m & c1 & Hcell & H).
    destruct (decide (i = q)) as [->|Hne].
    + destruct (gc_sweep_cell_frees _ _ _ _ _ Hcell Hv Ha Hm) as [-> Hq1].
      split; [apply gc_sweep_loop_count in H; lia|].
      rewrite (gc_sweep_loop_other _ _ _ _ _ _ Hi H). eauto.
    + apply elem_of_cons in Hq as [->|Hq]; [done|].
      pose proof (same_cell_gc_sweep_cell q i Hne _ _ _ Hcell) as Hsame.
      unfold same_cell in Hsame. rewrite <- Hsame in Hv.
      destruct (IH _ _ _ _ Hnd Hq H Hv Ha Hm) as [Hk Hfree].
      split; [lia|done].
Qed.

Lemma gc_sweep_frees q v n c c' :
  gc_sweep c = Ok n c' ->
  value_pool_data c !! q = Some v ->
  alive_ (hdr_ v) = true -> mark_bit_ (hdr_ v) = false ->
  N.to_nat q < VALUE_POOL_SIZE ->
  0 < n /\
  exists next,
    value_pool_data c' !! q
    = Some (mkValue (mkHeader VType.heap_node false false
                       (mode_bits_ (hdr_ v))) (P_heap_node next)).
Proof.
  unfold gc_sweep. intros H Hq Ha Hm Hlt.
  apply bind_Ok in H as (sb & c1 & [<- <-]%gets_Ok & H).
  apply bind_Ok in H as (v0 & c1 & Hd & H). unfold deref in Hd.
  destruct (_ !! _) eqn:Hv; [|done]. injection Hd as -> <-.
  apply bind_Ok in H as ([] & c1 & Hsb & H).
  assert (value_pool_data c1 = value_pool_data c) as Hpool.
  { destruct (mark_bit_ (hdr_ v0)).
    - by apply ret_Ok in Hsb as [_ <-].
    - apply bind_Ok in Hsb as (nil & c2 & [<- <-]%gets_Ok & Hsb).
      unfold modify in Hsb. by simplify_eq. }
  rewrite <- Hpool in Hq.
  refine (gc_sweep_loop_frees q v _ _ _ _ _ (NoDup_pool_indices _ _) _ H
            Hq Ha Hm).
  apply elem_of_pool_indices. simpl. lia.
Qed.

(** ** The pass *)

Lemma reaches_step c p q v r :
  reaches c p q -> value_pool_data c !! q = Some v -> r ∈ refs v ->
  reaches c p r.
Proof.
  induction 1 as [p|p w q0 r0 Hw Hq0 _ IH]; intros Hv Hr.
  - eapply reaches_ref; [done..|]. constructor.
  - eapply reaches_ref; [done..|]. by apply IH.
Qed.

Lemma protected_link_objects c c1 l o :
  protected_objects c1 = protected_objects c ->
  protected_link c1 l o -> protected_link c l o.
Proof.
  intros Ho. induction 1 as [i o Hi|i o o' Hi _ IH].
  - apply link_here. by rewrite <- Ho.
  - eapply link_next; [|done]. by rewrite <- Ho.
Qed.

(** A pass of the collector frees every cell that is alive and that no
    root reaches: the roots are nil, the out-of-memory sentinel, the
    lexical bindings, the macros, the operand stack, the globals tree, the
    running function and the protected roots on the list.  The cell is on
    the free list afterwards, and the pass counts at least one cell as
    collected.  The walk over the globals tree, which writes to the tree
    while it goes over it, marks no cell that the roots did not reach. *)
Theorem run_gc_frees_unreachable (c c' : Context) (n : nat) (q : ptr)
    (v : Value) :
  pairs_typed c ->
  (forall root, gc_mark_root c root -> ~ reaches c root q) ->
  value_pool_data c !! q = Some v ->
  alive_ (hdr_ v) = true -> mark_bit_ (hdr_ v) = false ->
  N.to_nat q < VALUE_POOL_SIZE ->
  run_gc c = Ok n c' ->
  0 < n /\
  exists next,
    value_pool_data c' !! q
    = Some (mkValue (mkHeader VType.heap_node false false
                       (mode_bits_ (hdr_ v))) (P_heap_node next)).
Proof.
  intros Ht Hun Hv Ha Hm Hlt H.
  unfold run_gc in H. apply bind_Ok in H as ([] & c1 & H1 & H).
  apply bind_Ok in H as ([] & c2 & H2 & H).
  unfold modify in H1. injection H1 as <-.
  set (c1 := with_gc_passes _ c) in *.
  set (R := fun p => exists root, gc_mark_root c root /\ reaches c root p).
  assert (confined c1 R c1) as Hc1.
  { split; [done|]. split; [exact Ht|]. split; [done|].
    intros p w r (root & Hroot & Hreach) Hw Hr. exists root.
    split; [done|]. by eapply reaches_step. }
  assert (forall p, gc_mark_root c1 p -> R p) as Hroots.
  { intros p Hp. exists p. split; [|constructor].
    destruct Hp as [Hp|[->|[->|(o & Ho & ->)]]].
    - by left.
    - right. by left.
    - right. right. by left.
    - do 3 right. exists o. split; [|done].
      by apply (protected_link_objects c c1). }
  destruct (gc_mark_confined c1 R c1 c2 Hc1 Hroots H2) as (_ & _ & Hout & _).
  assert (~ R q) as HnR by (intros (root & Hroot & Hreach); by eapply Hun).
  apply (gc_sweep_frees q v n c2 c' H); try done.
  by rewrite (Hout _ HnR).
Qed.

(** A set of cells that holds the roots and what its cells refer to holds
    what the roots reach. *)
Lemma refs_closed_reaches c cells root q :
  refs_closed c cells = true -> root ∈ cells -> reaches c root q ->
  q ∈ cells.
Proof.
  intros Hcl Hroot Hreach. induction Hreach as [p|p v q r Hv Hq _ IH];
    [done|].
  apply IH. unfold refs_closed in Hcl.
  rewrite forallb_forall in Hcl.
  assert (In p cells) as Hin by by apply list_elem_of_In.
  specialize (Hcl _ Hin). rewrite Hv, forallb_forall in Hcl.
  assert (In q (refs v)) as Hin' by by apply list_elem_of_In.
  by apply Hcl, bool_decide_eq_true in Hin'.
Qed.

Lemma refs_closed_unreachable c cells q :
  refs_closed c cells = true ->
  Forall (.∈ cells)
    (nil_ c :: oom_ c :: lexical_bindings_ c :: macros_ c :: globals_tree_ c
     :: this_ c :: operand_stack_ c) ->
  __protected_values c = None ->
  q ∉ cells ->
  forall root, gc_mark_root c root -> ~ reaches c root q.
Proof.
  intros Hcl Hroots Hp Hq root Hroot Hreach. apply Hq.
  apply (refs_closed_reaches c cells root q Hcl); [|done].
  rewrite Forall_forall in Hroots. apply Hroots.
  destruct Hroot as [[->|[->|[->|[->|Hin]]]]|[->|[->|(o & Ho & ->)]]].
  - by left.
  - right. by left.
  - do 2 right. by left.
  - do 3 right. by left.
  - by do 6 right.
  - do 4 right. by left.
  - do 5 right. by left.
  - rewrite Hp in Ho. inversion Ho.
Qed.

Lemma run_gc_frees_unreachable_witness :
  0 < result_value (run_gc garbage_state) 0 /\
  exists next,
    value_pool_data (result_context (run_gc garbage_state)) !! 8782%N
    = Some (mkValue (mkHeader VType.heap_node false false ModeBits.none)
              (P_heap_node next)).
Proof.
  refine (run_gc_frees_unreachable garbage_state _ _ 8782%N
            (mkValue (mkHeader VType.integer true false ModeBits.none)
               (P_integer 7)) _ _ _ _ _ _ _).
  - unfold pairs_typed. by_compute.
  - apply (refs_closed_unreachable _ (pool_indices 8783 217)).
    + by vm_cast_no_check (eq_refl true).
    + by_compute.
    + by_compute.
    + by_compute.
  - by_compute.
  - reflexivity.
  - reflexivity.
  - by_compute.
  - by_run.
Defined.

(** * Lists made by [make_list] *)

Lemma chain_at_pool c c' p l last :
  value_pool_data c' = value_pool_data c ->
  chain_at c p l last -> chain_at c' p l last.
Proof.
  intros Hp. induction 1 as [p v Hv Hty|p a d l last (h & Hc & Hty) _ IH].
  - apply (chain_at_end _ _ v); [by rewrite Hp|done].
  - apply (chain_at_cons _ _ a d); [|done]. exists h. by rewrite Hp.
Qed.

(** A chain is not disturbed by a write to a cell of the free list. *)
Lemma chain_at_insert_free c c' p l last q h next w :
  chain_at c p l last ->
  value_pool_data c !! q = Some (mkValue h (P_heap_node next)) ->
  q <> last ->
  value_pool_data c' = <[q := w]> (value_pool_data c) ->
  chain_at c' p l last.
Proof.
  intros Hc Hq Hne Hp.
  induction Hc as [p v Hv Hty|p a d l last (h' & Hc & Hty) _ IH].
  - apply (chain_at_end _ _ v); [|done].
    rewrite Hp, lookup_insert_ne; [done|]. by intros ->.
  - apply (chain_at_cons _ _ a d); [|by apply IH]. exists h'.
    split; [|done]. rewrite Hp, lookup_insert_ne; [done|].
    intros ->. rewrite Hq in Hc. done.
Qed.

Lemma free_prefix_insert pool head cells q w :
  q ∉ cells -> free_prefix pool head cells ->
  free_prefix (<[q := w]> pool) head cells.
Proof.
  intros Hq. induction 1 as [head|p h next l Hp _ IH]; [constructor|].
  apply not_elem_of_cons in Hq as [Hne Hq].
  apply (free_prefix_cons _ p h next); [|by apply IH].
  by rewrite lookup_insert_ne.
Qed.

Lemma default_last_cons {A} (l : list A) : forall x y,
  default x (last (y :: l)) = default y (last l).
Proof.
  induction l as [|a l IH]; intros x y; [done|].
  change (last (y :: a :: l)) with (last (a :: l)).
  by rewrite (IH x a), (IH y a).
Qed.

Lemma replicate_snoc_cons {A} n (x : A) l :
  replicate n x ++ x :: l = x :: replicate n x ++ l.
Proof. induction n as [|n IH]; [done|]. simpl. by rewrite IH. Qed.

(** The loop of [make_list]: one cell of the free list for each pair, put
    in front of the list made so far. *)
Lemma make_list_loop_spec cells : forall c head l,
  NoDup cells ->
  free_prefix (value_pool_data c) (value_pool c) cells ->
  nil_ c ∉ cells ->
  chain_at c head l (nil_ c) ->
  length (operand_stack_ c) < OPERAND_STACK_CAPACITY ->
  exists c',
    make_list_loop (length cells) head c
    = Ok (default head (last cells)) c' /\
    chain_at c' (default head (last cells))
      (replicate (length cells) (nil_ c) ++ l) (nil_ c) /\
    nil_ c' = nil_ c /\
    operand_stack_ c' = operand_stack_ c /\
    forall q, q ∉ cells -> value_pool_data c' !! q = value_pool_data c !! q.
Proof.
  induction cells as [|p cells IH]; intros c head l Hnd Hfree Hnil Hc Hst.
  - exists c. by repeat split.
  - apply NoDup_cons in Hnd as [Hp Hnd].
    apply not_elem_of_cons in Hnil as [Hpn Hnil].
    inversion Hfree as [|p' h next l' Hv Hrest Hhead]; subst.
    set (w := mkValue (mkHeader VType.cons true false (mode_bits_ h))
                (P_cons (nil_ c) head)).
    set (c3 := with_operand_stack_ (operand_stack_ c)
                 (with_value_pool next
                    (with_value_pool_data (<[p := w]> (value_pool_data c))
                       (with_operand_stack_ (head :: operand_stack_ c) c)))).
    assert (chain_at c3 p (nil_ c :: l) (nil_ c)) as Hc3.
    { apply (chain_at_cons _ _ (nil_ c) head).
      - exists (mkHeader VType.cons true false (mode_bits_ h)).
        split; [|done]. simpl. by rewrite lookup_insert_eq.
      - by apply (chain_at_insert_free c c3 head l (nil_ c) p h next w). }
    destruct (IH c3 p (nil_ c :: l)) as (c' & Hrun & Hchain & Hn & Hs & Ho);
      [done| |done|done|done|].
    { simpl. by apply free_prefix_insert. }
    exists c'. split; [|split; [|split; [|split]]].
    + cbn [make_list_loop length].
      unfold bind at 1, push_op at 1, modify at 1.
      rewrite decide_True by done.
      unfold bind at 1, get_nil at 1. cbn [nil_].
      erewrite (bind_eq (make_cons _ _)); cycle 1.
      { by apply (make_cons_fresh _ _ _ p h next). }
      unfold bind at 1, pop_op at 1, modify at 1.
      match goal with
      | |- make_list_loop _ _ ?s = _ => change s with c3
      end.
      rewrite Hrun. f_equal. by rewrite default_last_cons.
    + replace (default head (last (p :: cells)))
        with (default p (last cells)); cycle 1.
      { by rewrite default_last_cons. }
      cbn [length replicate]. simpl in Hchain.
      by rewrite replicate_snoc_cons in Hchain.
    + done.
    + done.
    + intros q [Hq1 Hq2]%not_elem_of_cons. rewrite (Ho q Hq2). simpl.
      by rewrite lookup_insert_ne.
Qed.

(** [make_list]: with as many cells at the head of the free list as the
    list is to have, so that the collector is not called, and room for one
    entry on the operand stack, the result is the last of these cells, and
    it is a list of that many elements, each of them nil.  The operand
    stack is what it was, and no cell is written but these. *)
Theorem make_list_spec (c : Context) (cells : list ptr) (v : Value) :
  NoDup cells ->
  free_prefix (value_pool_data c) (value_pool c) cells ->
  nil_ c ∉ cells ->
  value_pool_data c !! nil_ c = Some v -> type_ (hdr_ v) <> VType.cons ->
  length (operand_stack_ c) < OPERAND_STACK_CAPACITY ->
  exists c',
    make_list (length cells) c = Ok (default (nil_ c) (last cells)) c' /\
    chain_at c' (default (nil_ c) (last cells))
      (replicate (length cells) (nil_ c)) (nil_ c) /\
    operand_stack_ c' = operand_stack_ c /\
    forall q, q ∉ cells -> value_pool_data c' !! q = value_pool_data c !! q.
Proof.
  intros Hnd Hfree Hnil Hv Hty Hst. unfold make_list.
  destruct cells as [|p cells].
  - exists c. repeat split. by apply (chain_at_end _ _ v).
  - rewrite decide_False by done.
    apply NoDup_cons in Hnd as [Hp Hnd].
    apply not_elem_of_cons in Hnil as [Hpn Hnil].
    inversion Hfree as [|p' h next l' Hw Hrest Hhead]; subst.
    set (w := mkValue (mkHeader VType.cons true false (mode_bits_ h))
                (P_cons (nil_ c) (nil_ c))).
    set (c1 := with_value_pool next
                 (with_value_pool_data (<[p := w]> (value_pool_data c)) c)).
    assert (chain_at c1 p [nil_ c] (nil_ c)) as Hc1.
    { apply (chain_at_cons _ _ (nil_ c) (nil_ c)).
      - exists (mkHeader VType.cons true false (mode_bits_ h)).
        split; [|done]. simpl. by rewrite lookup_insert_eq.
      - apply (chain_at_end _ _ v); [|done]. simpl.
        by rewrite lookup_insert_ne. }
    destruct (make_list_loop_spec cells c1 p [nil_ c])
      as (c' & Hrun & Hchain & Hn & Hs & Ho); [done| |done|done|done|].
    { simpl. by apply free_prefix_insert. }
    exists c'. split; [|split; [|split]].
    + unfold bind at 1, get_nil at 1.
      erewrite (bind_eq (make_cons _ _)); cycle 1.
      { by apply (make_cons_fresh _ _ _ p h next). }
      cbn [length]. rewrite Nat.sub_succ, Nat.sub_0_r.
      match goal with
      | |- make_list_loop _ _ ?s = _ => change s with c1
      end.
      rewrite Hrun. f_equal. by rewrite default_last_cons.
    + replace (default (nil_ c) (last (p :: cells)))
        with (default p (last cells)); cycle 1.
      { by rewrite default_last_cons. }
      cbn [length replicate]. simpl in Hchain.
      by rewrite replicate_snoc_cons, app_nil_r in Hchain.
    + done.
    + intros q [Hq1 Hq2]%not_elem_of_cons. rewrite (Ho q Hq2). simpl.
      by rewrite lookup_insert_ne.
Qed.

Lemma make_list_spec_witness :
  exists c',
    make_list 3 booted = Ok 8780%N c' /\
    chain_at c' 8780%N [nil_ booted; nil_ booted; nil_ booted] (nil_ booted) /\
    operand_stack_ c' = operand_stack_ booted /\
    forall q, q ∉ [8782%N; 8781%N; 8780%N] ->
              value_pool_data c' !! q = value_pool_data booted !! q.
Proof.
  refine (make_list_spec booted [8782%N; 8781%N; 8780%N]
            (mkValue (mkHeader VType.nil true false ModeBits.none) P_nil)
            _ _ _ _ _ _).
  - by_compute.
  - refine (free_prefix_cons _ 8782%N
              (mkHeader VType.heap_node false false ModeBits.none)
              (Some 8781%N) _ _ _); [by_compute|].
    refine (free_prefix_cons _ 8781%N
              (mkHeader VType.heap_node false false ModeBits.none)
              (Some 8780%N) _ _ _); [by_compute|].
    refine (free_prefix_cons _ 8780%N
              (mkHeader VType.heap_node false false ModeBits.none)
              (Some 8779%N) _ _ _); [by_compute|].
    apply free_prefix_nil.
  - by_compute.
  - by_compute.
  - done.
  - by_compute.
Defined.
